(** * Garbage collectors over an explicit object graph

    A shallow embedding of the three collectors of the repository:

    - [MarkSweepGC]       (mark_sweep/src/mark_sweep_gc.cpp)
    - [CascadeDeletionGC] (mark_sweep/mark_sweep/src/cascade_deletion_gc.cpp)
    - [RCHeap] with its [ReferenceCounter]
                          (reference_counting/cpp/src/rc_heap.cpp,
                           reference_counting/cpp/src/reference_counter.cpp)

    Conventions of the embedding.

    - [std::unordered_map<int, T>] is a [gmap Z T]; [std::set<int>] is a
      [gset Z] that is iterated in ascending order ([set_iter]);
      [std::vector<int>] is a [list Z].
    - The iteration order of an [unordered_map] is unspecified: every
      function that loops over the heap takes the order of the visit as an
      explicit list of keys.
    - [size_t] arithmetic is arithmetic on [Z] reduced modulo [2^64].
      Object ids and steps are C++ [int]s; they are modelled as
      mathematical integers (signed overflow is undefined in C++).
    - The recursive procedures ([dfs_mark], the reference counter's
      [cascade_delete]) and the worklist loop of the cascade collector
      carry a fuel argument and return [None] when it runs out; the public
      operations supply a fuel that is proved sufficient.
    - The text log ([log_operation], [EventLogger], [std::cerr]) and the
      wall-clock statistic [total_collection_time] are not part of the
      state. *)

From stdpp Require Import base numbers option list sorting gmap fin_maps fin_sets.

Local Open Scope Z_scope.

(** ** Machine arithmetic *)

Definition size_t_modulus : Z := 2 ^ 64.

Definition wrap64 (x : Z) : Z := x mod size_t_modulus.

(** ** [std::set<int>]: ascending iteration *)

Definition set_iter (s : gset Z) : list Z := merge_sort Z.le (elements s).

(** ** heap_object.h *)

Module HeapObject.

Record t : Type := mk {
  id : Z;
  size : Z;
  is_marked : bool;
  reference_count : Z;
  outgoing_references : gset Z;
  incoming_references : gset Z;
  is_root : bool;
  is_alive : bool;
  allocation_step : Z;
  collection_step : Z
}.

(** [HeapObject()] *)
Definition default : t := mk (-1) 0 false 0 ∅ ∅ false true (-1) (-1).

(** [HeapObject(id, size, is_root)] *)
Definition make (id size : Z) (is_root : bool) : t :=
  mk id size false (if is_root then 1 else 0) ∅ ∅ is_root true (-1) (-1).

Definition add_reference_to (target_id : Z) (o : t) : t :=
  mk (id o) (size o) (is_marked o) (reference_count o)
     ({[target_id]} ∪ outgoing_references o) (incoming_references o)
     (is_root o) (is_alive o) (allocation_step o) (collection_step o).

Definition remove_reference_to (target_id : Z) (o : t) : t :=
  mk (id o) (size o) (is_marked o) (reference_count o)
     (outgoing_references o ∖ {[target_id]}) (incoming_references o)
     (is_root o) (is_alive o) (allocation_step o) (collection_step o).

Definition add_reference_from (source_id : Z) (o : t) : t :=
  mk (id o) (size o) (is_marked o) (reference_count o)
     (outgoing_references o) ({[source_id]} ∪ incoming_references o)
     (is_root o) (is_alive o) (allocation_step o) (collection_step o).

Definition remove_reference_from (source_id : Z) (o : t) : t :=
  mk (id o) (size o) (is_marked o) (reference_count o)
     (outgoing_references o) (incoming_references o ∖ {[source_id]})
     (is_root o) (is_alive o) (allocation_step o) (collection_step o).

Definition get_incoming_reference_count (o : t) : Z :=
  Z.of_nat (base.size (incoming_references o)).

Definition set_is_marked (b : bool) (o : t) : t :=
  mk (id o) (size o) b (reference_count o)
     (outgoing_references o) (incoming_references o)
     (is_root o) (is_alive o) (allocation_step o) (collection_step o).

Definition unmark (o : t) : t := set_is_marked false o.

Definition set_is_root (b : bool) (o : t) : t :=
  mk (id o) (size o) (is_marked o) (reference_count o)
     (outgoing_references o) (incoming_references o)
     b (is_alive o) (allocation_step o) (collection_step o).

Definition set_allocation_step (s : Z) (o : t) : t :=
  mk (id o) (size o) (is_marked o) (reference_count o)
     (outgoing_references o) (incoming_references o)
     (is_root o) (is_alive o) s (collection_step o).

(** [obj.is_alive = false; obj.collection_step = current_step;] *)
Definition kill (step : Z) (o : t) : t :=
  mk (id o) (size o) (is_marked o) (reference_count o)
     (outgoing_references o) (incoming_references o)
     (is_root o) false (allocation_step o) step.

End HeapObject.

(** ** State shared by the two graph-based collectors

    [MarkSweepGC] and [CascadeDeletionGC] declare the same data members.
    The two extra members of [CascadeDeletionGC], [deletion_queue] and
    [processed_in_cascade], are re-initialised at the start of every
    [cascade_delete] and read nowhere else; they are loop variables of
    [cascade_loop] below. *)

Record GCState : Type := mkGC {
  heap : gmap Z HeapObject.t;
  next_object_id : Z;
  max_heap_size : Z;
  collection_threshold : Z;
  collection_count : Z;
  total_objects_collected : Z;
  total_memory_freed : Z;
  current_step : Z
}.

Definition set_heap (h : gmap Z HeapObject.t) (st : GCState) : GCState :=
  mkGC h (next_object_id st) (max_heap_size st) (collection_threshold st)
       (collection_count st) (total_objects_collected st)
       (total_memory_freed st) (current_step st).

(** The constructor: an empty heap. *)
Definition gc_init (max_heap_size collection_threshold : Z) : GCState :=
  mkGC ∅ 0 max_heap_size collection_threshold 0 0 0 0.

(** [set_current_step] *)
Definition set_current_step (step : Z) (st : GCState) : GCState :=
  mkGC (heap st) (next_object_id st) (max_heap_size st)
       (collection_threshold st) (collection_count st)
       (total_objects_collected st) (total_memory_freed st) step.

(** [object_exists]: the id is a key of the heap and the object is alive. *)
Definition object_exists (h : gmap Z HeapObject.t) (id : Z) : bool :=
  match h !! id with
  | Some o => HeapObject.is_alive o
  | None => false
  end.

(** [heap[k]]: [operator[]] default-constructs a missing entry. *)
Definition heap_at (h : gmap Z HeapObject.t) (k : Z)
  : HeapObject.t * gmap Z HeapObject.t :=
  match h !! k with
  | Some o => (o, h)
  | None => (HeapObject.default, <[k := HeapObject.default]> h)
  end.

(** The keys visited by [for (auto& [id, obj] : heap)] in the given order
    whose object satisfies [p]. *)
Definition keys_where (p : HeapObject.t → bool) (order : list Z)
    (h : gmap Z HeapObject.t) : list Z :=
  List.filter (λ k, match h !! k with Some o => p o | None => false end) order.

(** [order] is a possible iteration order of the map [h]. *)
Definition enumerates (order : list Z) (h : gmap Z HeapObject.t) : Prop :=
  NoDup order ∧ list_to_set order = dom h.

(** [get_total_memory] *)
Definition get_total_memory (st : GCState) : Z :=
  wrap64 (map_fold (λ _ o acc,
            if HeapObject.is_alive o then acc + HeapObject.size o else acc)
          0 (heap st)).

(** [get_free_memory] *)
Definition get_free_memory (st : GCState) : Z :=
  wrap64 (max_heap_size st - get_total_memory st).

(** [has_enough_memory] *)
Definition has_enough_memory (st : GCState) (size : Z) : bool :=
  bool_decide (size ≤ get_free_memory st).

(** [add_reference]; the bodies of [MarkSweepGC::add_reference] and
    [CascadeDeletionGC::add_reference] are the same text. *)
Definition gc_add_reference (from_id to_id : Z) (st : GCState)
  : bool * GCState :=
  if negb (object_exists (heap st) from_id) then (false, st)
  else if negb (object_exists (heap st) to_id) then (false, st)
  else
    match heap st !! from_id with
    | Some source =>
        if bool_decide (to_id ∈ HeapObject.outgoing_references source)
        then (true, st)
        else
          let h1 := alter (HeapObject.add_reference_to to_id) from_id (heap st) in
          let h2 := alter (HeapObject.add_reference_from from_id) to_id h1 in
          (true, set_heap h2 st)
    | None => (false, st)
    end.

(** The two statements [source.remove_reference_to(to_id);
    target.remove_reference_from(from_id);]. *)
Definition detach_edge (from_id to_id : Z) (h : gmap Z HeapObject.t)
  : gmap Z HeapObject.t :=
  alter (HeapObject.remove_reference_from from_id) to_id
    (alter (HeapObject.remove_reference_to to_id) from_id h).

(** [make_root] and [remove_root] (both return [void]). *)
Definition gc_set_root (b : bool) (object_id : Z) (st : GCState) : GCState :=
  if object_exists (heap st) object_id
  then set_heap (alter (HeapObject.set_is_root b) object_id (heap st)) st
  else st.

(** The tail of [allocate] once memory is known to suffice. *)
Definition gc_create_object (size : Z) (st : GCState) : Z * GCState :=
  let object_id := next_object_id st in
  let obj := HeapObject.set_allocation_step (current_step st)
               (HeapObject.make object_id size false) in
  (object_id,
   mkGC (<[object_id := obj]> (heap st)) (object_id + 1) (max_heap_size st)
        (collection_threshold st) (collection_count st)
        (total_objects_collected st) (total_memory_freed st)
        (current_step st)).

(** The two loops that detach a dying object [id] from its neighbours.
    The first runs over [obj.incoming_references], the second over
    [obj.outgoing_references]; [obj] is a reference into the heap, so the
    second loop sees the outgoing set as the first loop left it. *)
Definition erase_outgoing_of (id : Z) (h : gmap Z HeapObject.t) (source_id : Z)
  : gmap Z HeapObject.t :=
  if object_exists h source_id
  then alter (HeapObject.remove_reference_to id) source_id h
  else h.

Definition erase_incoming_of (id : Z) (h : gmap Z HeapObject.t) (target_id : Z)
  : gmap Z HeapObject.t :=
  if object_exists h target_id
  then alter (HeapObject.remove_reference_from id) target_id h
  else h.

Definition incoming_of (h : gmap Z HeapObject.t) (id : Z) : gset Z :=
  match h !! id with
  | Some o => HeapObject.incoming_references o
  | None => ∅
  end.

Definition outgoing_of (h : gmap Z HeapObject.t) (id : Z) : gset Z :=
  match h !! id with
  | Some o => HeapObject.outgoing_references o
  | None => ∅
  end.

Definition detach_sources (id : Z) (h : gmap Z HeapObject.t)
  : gmap Z HeapObject.t :=
  foldl (erase_outgoing_of id) h (set_iter (incoming_of h id)).

Definition detach_targets (id : Z) (h : gmap Z HeapObject.t)
  : gmap Z HeapObject.t :=
  foldl (erase_incoming_of id) h (set_iter (outgoing_of h id)).

(** ** Measures used for termination *)

Definition heap_weight (w : HeapObject.t → nat) (h : gmap Z HeapObject.t)
  : nat :=
  map_fold (λ _ o acc, (w o + acc)%nat) O h.

(** A bound on the recursion depth of [dfs_mark]: the alive objects not
    yet marked. *)
Definition unmarked_weight (o : HeapObject.t) : nat :=
  if HeapObject.is_alive o && negb (HeapObject.is_marked o) then 1%nat else O.

(** A bound on the iterations of the cascade worklist loop: every alive
    object is deleted at most once and then enqueues at most its outgoing
    neighbours. *)
Definition cascade_weight (o : HeapObject.t) : nat :=
  if HeapObject.is_alive o
  then S (S (base.size (HeapObject.outgoing_references o)))
  else O.

(** ** mark_sweep_gc.cpp *)

Module MarkSweepGC.

Definition add_reference := gc_add_reference.

Definition remove_reference (from_id to_id : Z) (st : GCState)
  : bool * GCState :=
  if negb (object_exists (heap st) from_id) then (false, st)
  else if negb (object_exists (heap st) to_id) then (false, st)
  else if negb (bool_decide (to_id ∈ outgoing_of (heap st) from_id))
  then (false, st)
  else (true, set_heap (detach_edge from_id to_id (heap st)) st).

Definition make_root := gc_set_root true.
Definition remove_root := gc_set_root false.

(** The loop of [dfs_mark] over [obj.outgoing_references]; [rec] is the
    recursive call. *)
Definition dfs_targets (rec : Z → gmap Z HeapObject.t → option (gmap Z HeapObject.t))
  : list Z → gmap Z HeapObject.t → option (gmap Z HeapObject.t) :=
  fix go ts h :=
    match ts with
    | [] => Some h
    | target_id :: ts' =>
        let '(t, h1) := heap_at h target_id in
        if HeapObject.is_marked t then go ts' h1
        else match rec target_id h1 with
             | Some h2 => go ts' h2
             | None => None
             end
    end.

Fixpoint dfs_mark (fuel : nat) (object_id : Z) (h : gmap Z HeapObject.t)
  : option (gmap Z HeapObject.t) :=
  match fuel with
  | O => None
  | S fuel' =>
      if object_exists h object_id then
        match h !! object_id with
        | Some obj =>
            if HeapObject.is_marked obj then Some h
            else dfs_targets (dfs_mark fuel')
                   (set_iter (HeapObject.outgoing_references obj))
                   (<[object_id := HeapObject.set_is_marked true obj]> h)
        | None => Some h
        end
      else Some h
  end.

(** [get_root_objects] *)
Definition get_root_objects (order : list Z) (h : gmap Z HeapObject.t)
  : list Z :=
  keys_where (λ o, HeapObject.is_root o && HeapObject.is_alive o) order h.

(** The loop [for (int root_id : roots) dfs_mark(root_id);]. *)
Fixpoint mark_roots (fuel : nat) (roots : list Z) (h : gmap Z HeapObject.t)
  : option (gmap Z HeapObject.t) :=
  match roots with
  | [] => Some h
  | root_id :: roots' =>
      match dfs_mark fuel root_id h with
      | Some h' => mark_roots fuel roots' h'
      | None => None
      end
  end.

(** [mark_phase]; the recursion depth of [dfs_mark] is at most the number
    of unmarked alive objects plus one. *)
Definition mark_phase (roots_order : list Z) (h : gmap Z HeapObject.t)
  : option (gmap Z HeapObject.t) :=
  let h0 := HeapObject.unmark <$> h in
  mark_roots (S (S (base.size h0))) (get_root_objects roots_order h0) h0.

(** One iteration of the deletion loop of [sweep_phase].  The ids of
    [to_delete] are keys of the heap, so [heap[id]] finds its entry. *)
Definition sweep_object (step : Z) (acc : gmap Z HeapObject.t * Z) (id : Z)
  : gmap Z HeapObject.t * Z :=
  let '(h, freed_memory) := acc in
  match h !! id with
  | Some obj =>
      let h1 := detach_sources id h in
      let h2 := detach_targets id h1 in
      (alter (HeapObject.kill step) id h2,
       wrap64 (freed_memory + HeapObject.size obj))
  | None => acc
  end.

Definition sweep_candidates (order : list Z) (h : gmap Z HeapObject.t)
  : list Z :=
  keys_where (λ o, negb (HeapObject.is_marked o) && negb (HeapObject.is_root o)
                   && HeapObject.is_alive o) order h.

(** [sweep_phase] *)
Definition sweep_phase (sweep_order : list Z) (st : GCState) : Z * GCState :=
  let to_delete := sweep_candidates sweep_order (heap st) in
  let '(h, freed_memory) :=
    foldl (sweep_object (current_step st)) (heap st, 0) to_delete in
  (freed_memory,
   mkGC h (next_object_id st) (max_heap_size st) (collection_threshold st)
        (collection_count st)
        (total_objects_collected st + Z.of_nat (length to_delete))
        (total_memory_freed st) (current_step st)).

(** [collect] *)
Definition collect (roots_order sweep_order : list Z) (st : GCState)
  : option (Z * GCState) :=
  match mark_phase roots_order (heap st) with
  | Some h =>
      let '(freed_memory, st1) := sweep_phase sweep_order (set_heap h st) in
      Some (freed_memory,
            mkGC (heap st1) (next_object_id st1) (max_heap_size st1)
                 (collection_threshold st1) (collection_count st1 + 1)
                 (total_objects_collected st1)
                 (wrap64 (total_memory_freed st1 + freed_memory))
                 (current_step st1))
  | None => None
  end.

(** [allocate]; [-1] is the failure value. *)
Definition allocate (roots_order sweep_order : list Z) (size : Z)
    (st : GCState) : option (Z * GCState) :=
  if bool_decide (size = 0) || bool_decide (max_heap_size st < size)
  then Some (-1, st)
  else if has_enough_memory st size then Some (gc_create_object size st)
  else
    match collect roots_order sweep_order st with
    | Some (_, st1) =>
        if has_enough_memory st1 size then Some (gc_create_object size st1)
        else Some (-1, st1)
    | None => None
    end.

End MarkSweepGC.

(** ** cascade_deletion_gc.cpp *)

Module CascadeDeletionGC.

Definition add_reference := gc_add_reference.
Definition make_root := gc_set_root true.
Definition remove_root := gc_set_root false.

(** [should_be_deleted]: the orphan test of the reactive path. *)
Definition should_be_deleted (h : gmap Z HeapObject.t) (object_id : Z) : bool :=
  if object_exists h object_id then
    match h !! object_id with
    | Some obj =>
        if HeapObject.is_root obj then false
        else bool_decide (HeapObject.get_incoming_reference_count obj = 0)
    | None => false
    end
  else false.

(** One iteration of the second loop of [cascade_delete]: detach the
    target and enqueue it when it became an orphan. *)
Definition detach_target_push (id : Z) (acc : gmap Z HeapObject.t * list Z)
    (target_id : Z) : gmap Z HeapObject.t * list Z :=
  let '(h, queue) := acc in
  if object_exists h target_id then
    let h' := alter (HeapObject.remove_reference_from id) target_id h in
    (h', if should_be_deleted h' target_id then queue ++ [target_id] else queue)
  else acc.

(** The [while (!deletion_queue.empty())] loop of [cascade_delete].  The
    result is the heap, the bytes freed and the number of objects deleted.
    [processed] is the set of keys of [processed_in_cascade] mapped to
    [true]. *)
Fixpoint cascade_loop (fuel : nat) (step : Z) (queue : list Z)
    (processed : gset Z) (h : gmap Z HeapObject.t) (freed_memory : Z)
    (deleted : Z) : option (gmap Z HeapObject.t * Z * Z) :=
  match queue with
  | [] => Some (h, freed_memory, deleted)
  | current_id :: queue' =>
      match fuel with
      | O => None
      | S fuel' =>
          if bool_decide (current_id ∈ processed)
          then cascade_loop fuel' step queue' processed h freed_memory deleted
          else
            let processed' := {[current_id]} ∪ processed in
            if object_exists h current_id then
              match h !! current_id with
              | Some obj =>
                  if HeapObject.is_root obj
                  then cascade_loop fuel' step queue' processed' h
                         freed_memory deleted
                  else
                    let h1 := detach_sources current_id h in
                    let '(h2, queue'') :=
                      foldl (detach_target_push current_id) (h1, queue')
                            (set_iter (outgoing_of h1 current_id)) in
                    cascade_loop fuel' step queue'' processed'
                      (alter (HeapObject.kill step) current_id h2)
                      (wrap64 (freed_memory + HeapObject.size obj))
                      (deleted + 1)
              | None =>
                  cascade_loop fuel' step queue' processed' h
                    freed_memory deleted
              end
            else cascade_loop fuel' step queue' processed' h
                   freed_memory deleted
      end
  end.

(** [cascade_delete] *)
Definition cascade_delete (object_id : Z) (st : GCState)
  : option (Z * GCState) :=
  if object_exists (heap st) object_id then
    match cascade_loop (S (heap_weight cascade_weight (heap st)))
            (current_step st) [object_id] ∅ (heap st) 0 0 with
    | Some (h, freed_memory, deleted) =>
        Some (freed_memory,
              mkGC h (next_object_id st) (max_heap_size st)
                   (collection_threshold st) (collection_count st)
                   (total_objects_collected st + deleted)
                   (total_memory_freed st) (current_step st))
    | None => None
    end
  else Some (0, st).

(** [remove_reference]: the reactive path. *)
Definition remove_reference (from_id to_id : Z) (st : GCState)
  : option (bool * GCState) :=
  if negb (object_exists (heap st) from_id) then Some (false, st)
  else if negb (object_exists (heap st) to_id) then Some (false, st)
  else if negb (bool_decide (to_id ∈ outgoing_of (heap st) from_id))
  then Some (false, st)
  else
    let st1 := set_heap (detach_edge from_id to_id (heap st)) st in
    if should_be_deleted (heap st1) to_id then
      match cascade_delete to_id st1 with
      | Some (_, st2) => Some (true, st2)
      | None => None
      end
    else Some (true, st1).

(** Phase 1 of [collect]: the orphan scan. *)
Definition orphans (order : list Z) (h : gmap Z HeapObject.t) : list Z :=
  keys_where (λ o, HeapObject.is_alive o && negb (HeapObject.is_root o)
                   && bool_decide (HeapObject.get_incoming_reference_count o = 0))
             order h.

(** Phase 2 of [collect]. *)
Fixpoint cascade_orphans (orphan_ids : list Z) (total_freed : Z)
    (st : GCState) : option (Z * GCState) :=
  match orphan_ids with
  | [] => Some (total_freed, st)
  | orphan_id :: rest =>
      if object_exists (heap st) orphan_id then
        match cascade_delete orphan_id st with
        | Some (freed, st1) =>
            cascade_orphans rest (wrap64 (total_freed + freed)) st1
        | None => None
        end
      else cascade_orphans rest total_freed st
  end.

(** [collect]: the batch path. *)
Definition collect (order : list Z) (st : GCState) : option (Z * GCState) :=
  match cascade_orphans (orphans order (heap st)) 0 st with
  | Some (total_freed, st1) =>
      Some (total_freed,
            mkGC (heap st1) (next_object_id st1) (max_heap_size st1)
                 (collection_threshold st1) (collection_count st1 + 1)
                 (total_objects_collected st1)
                 (wrap64 (total_memory_freed st1 + total_freed))
                 (current_step st1))
  | None => None
  end.

(** [allocate] *)
Definition allocate (order : list Z) (size : Z) (st : GCState)
  : option (Z * GCState) :=
  if bool_decide (size = 0) || bool_decide (max_heap_size st < size)
  then Some (-1, st)
  else if has_enough_memory st size
  then Some (gc_create_object size st)
  else
    match collect order st with
    | Some (_, st1) =>
        if has_enough_memory st1 size
        then Some (gc_create_object size st1)
        else Some (-1, st1)
    | None => None
    end.

End CascadeDeletionGC.

(** ** rc_object.h *)

Module RCObject.

Record t : Type := mk {
  id : Z;
  ref_count : Z;
  references : list Z
}.

(** [RCObject(id)] *)
Definition make (id : Z) : t := mk id 0 [].

Definition set_ref_count (n : Z) (o : t) : t := mk (id o) n (references o).

Definition has_reference_to (target_id : Z) (o : t) : bool :=
  bool_decide (target_id ∈ references o).

Definition add_outgoing_ref (target_id : Z) (o : t) : t :=
  if has_reference_to target_id o then o
  else mk (id o) (ref_count o) (references o ++ [target_id]).

(** [std::find] followed by [erase]: the first occurrence goes. *)
Fixpoint erase_first (x : Z) (l : list Z) : list Z :=
  match l with
  | [] => []
  | y :: l' => if bool_decide (x = y) then l' else y :: erase_first x l'
  end.

Definition remove_outgoing_ref (target_id : Z) (o : t) : t :=
  mk (id o) (ref_count o) (erase_first target_id (references o)).

End RCObject.

(** ** reference_counter.cpp *)

Module ReferenceCounter.

(** [add_ref] *)
Definition add_ref (from to : Z) (h : gmap Z RCObject.t)
  : bool * gmap Z RCObject.t :=
  match h !! from, h !! to with
  | Some src, Some _ =>
      if RCObject.has_reference_to to src then (false, h)
      else
        let h1 := <[from := RCObject.add_outgoing_ref to src]> h in
        (true, alter (λ dst, RCObject.set_ref_count (RCObject.ref_count dst + 1) dst)
                     to h1)
  | _, _ => (false, h)
  end.

(** The loop of [cascade_delete] over the copied [children]. *)
Definition cascade_children
    (rec : Z → gset Z → gmap Z RCObject.t → option (gset Z * gmap Z RCObject.t))
  : list Z → gset Z → gmap Z RCObject.t → option (gset Z * gmap Z RCObject.t) :=
  fix go children visited h :=
    match children with
    | [] => Some (visited, h)
    | child :: rest =>
        match h !! child with
        | Some child_obj =>
            let n := RCObject.ref_count child_obj - 1 in
            let n' := if bool_decide (n < 0) then 0 else n in
            let h1 := <[child := RCObject.set_ref_count n' child_obj]> h in
            if bool_decide (n' = 0) then
              match rec child visited h1 with
              | Some (visited', h2) => go rest visited' h2
              | None => None
              end
            else go rest visited h1
        | None => go rest visited h
        end
    end.

(** [cascade_delete] *)
Fixpoint cascade_delete (fuel : nat) (obj_id : Z) (visited : gset Z)
    (h : gmap Z RCObject.t) : option (gset Z * gmap Z RCObject.t) :=
  match fuel with
  | O => None
  | S fuel' =>
      match h !! obj_id with
      | None => Some (visited, h)
      | Some obj =>
          if bool_decide (obj_id ∈ visited) then Some (visited, h)
          else
            let visited1 := {[obj_id]} ∪ visited in
            if bool_decide (RCObject.ref_count obj ≠ 0)
            then Some (visited1, h)
            else
              match cascade_children (cascade_delete fuel')
                      (RCObject.references obj) visited1 h with
              | Some (visited2, h2) => Some (visited2, delete obj_id h2)
              | None => None
              end
      end
  end.

(** The recursion depth is at most the number of heap objects. *)
Definition cascade_from (obj_id : Z) (h : gmap Z RCObject.t)
  : option (gmap Z RCObject.t) :=
  snd <$> cascade_delete (S (base.size h)) obj_id ∅ h.

(** [remove_ref] *)
Definition remove_ref (from to : Z) (h : gmap Z RCObject.t)
  : option (bool * gmap Z RCObject.t) :=
  match h !! to with
  | None => Some (false, h)
  | Some dst =>
      match h !! from with
      | None => Some (false, h)
      | Some src =>
          if negb (RCObject.has_reference_to to src) then Some (false, h)
          else
            let h1 := <[from := RCObject.remove_outgoing_ref to src]> h in
            let h2 := alter (λ dst, RCObject.set_ref_count
                                      (RCObject.ref_count dst - 1) dst) to h1 in
            match h2 !! to with
            | Some dst2 =>
                if bool_decide (RCObject.ref_count dst2 < 0)
                then Some (false, <[to := RCObject.set_ref_count 0 dst2]> h2)
                else if bool_decide (RCObject.ref_count dst2 = 0)
                then pair true <$> cascade_from to h2
                else Some (true, h2)
            | None => Some (false, h2)
            end
      end
  end.

End ReferenceCounter.

(** ** rc_heap.cpp *)

Record RCHeap : Type := mkRCHeap {
  objects : gmap Z RCObject.t;
  roots : gset Z
}.

Module RCHeapOps.

Definition init : RCHeap := mkRCHeap ∅ ∅.

Definition object_exists (st : RCHeap) (obj_id : Z) : bool :=
  bool_decide (is_Some (objects st !! obj_id)).

(** [allocate] *)
Definition allocate (obj_id : Z) (st : RCHeap) : bool * RCHeap :=
  if object_exists st obj_id then (false, st)
  else if bool_decide (obj_id < 0) then (false, st)
  else (true, mkRCHeap (<[obj_id := RCObject.make obj_id]> (objects st))
                       (roots st)).

(** [add_root] *)
Definition add_root (obj_id : Z) (st : RCHeap) : bool * RCHeap :=
  if negb (object_exists st obj_id) then (false, st)
  else if bool_decide (obj_id ∈ roots st) then (false, st)
  else (true,
        mkRCHeap (alter (λ o, RCObject.set_ref_count (RCObject.ref_count o + 1) o)
                        obj_id (objects st))
                 ({[obj_id]} ∪ roots st)).

(** [remove_root] *)
Definition remove_root (obj_id : Z) (st : RCHeap) : option (bool * RCHeap) :=
  if negb (object_exists st obj_id) then Some (false, st)
  else if negb (bool_decide (obj_id ∈ roots st)) then Some (false, st)
  else
    let roots' := roots st ∖ {[obj_id]} in
    let h1 := alter (λ o, RCObject.set_ref_count (RCObject.ref_count o - 1) o)
                    obj_id (objects st) in
    match h1 !! obj_id with
    | Some o =>
        if bool_decide (RCObject.ref_count o < 0)
        then Some (false,
                   mkRCHeap (<[obj_id := RCObject.set_ref_count 0 o]> h1) roots')
        else if bool_decide (RCObject.ref_count o = 0)
        then (λ h, (true, mkRCHeap h roots'))
               <$> ReferenceCounter.cascade_from obj_id h1
        else Some (true, mkRCHeap h1 roots')
    | None => Some (false, mkRCHeap h1 roots')
    end.

(** [add_ref] *)
Definition add_ref (from to : Z) (st : RCHeap) : bool * RCHeap :=
  if bool_decide (from < 0) || bool_decide (to < 0) then (false, st)
  else if negb (object_exists st from) then (false, st)
  else if negb (object_exists st to) then (false, st)
  else if bool_decide (from = to) then (false, st)
  else
    let '(r, h) := ReferenceCounter.add_ref from to (objects st) in
    (r, mkRCHeap h (roots st)).

(** [remove_ref] *)
Definition remove_ref (from to : Z) (st : RCHeap) : option (bool * RCHeap) :=
  if bool_decide (from < 0) || bool_decide (to < 0) then Some (false, st)
  else if negb (object_exists st from) then Some (false, st)
  else if negb (object_exists st to) then Some (false, st)
  else
    (λ '(r, h), (r, mkRCHeap h (roots st)))
      <$> ReferenceCounter.remove_ref from to (objects st).

(** [detect_and_log_leaks]: the ids handed to [log_leak], in the order of
    the visit. *)
Definition detect_and_log_leaks (order : list Z) (st : RCHeap) : list Z :=
  List.filter (λ k, match objects st !! k with
                    | Some obj => bool_decide (0 < RCObject.ref_count obj)
                    | None => false
                    end) order.

End RCHeapOps.

(** ** Operation streams

    The public operations of each collector, as a driver issues them.  An
    operation that loops over the heap names the order of the visit. *)

Inductive ms_op : Type :=
| MsAllocate (roots_order sweep_order : list Z) (size : Z)
| MsAddReference (from_id to_id : Z)
| MsRemoveReference (from_id to_id : Z)
| MsMakeRoot (object_id : Z)
| MsRemoveRoot (object_id : Z)
| MsCollect (roots_order sweep_order : list Z)
| MsSetCurrentStep (step : Z).

Definition ms_step (op : ms_op) (st : GCState) : option GCState :=
  match op with
  | MsAllocate ro so size => snd <$> MarkSweepGC.allocate ro so size st
  | MsAddReference f t => Some (MarkSweepGC.add_reference f t st).2
  | MsRemoveReference f t => Some (MarkSweepGC.remove_reference f t st).2
  | MsMakeRoot k => Some (MarkSweepGC.make_root k st)
  | MsRemoveRoot k => Some (MarkSweepGC.remove_root k st)
  | MsCollect ro so => snd <$> MarkSweepGC.collect ro so st
  | MsSetCurrentStep n => Some (set_current_step n st)
  end.

Inductive cd_op : Type :=
| CdAllocate (order : list Z) (size : Z)
| CdAddReference (from_id to_id : Z)
| CdRemoveReference (from_id to_id : Z)
| CdMakeRoot (object_id : Z)
| CdRemoveRoot (object_id : Z)
| CdCollect (order : list Z)
| CdSetCurrentStep (step : Z).

Definition cd_step (op : cd_op) (st : GCState) : option GCState :=
  match op with
  | CdAllocate o size => snd <$> CascadeDeletionGC.allocate o size st
  | CdAddReference f t => Some (CascadeDeletionGC.add_reference f t st).2
  | CdRemoveReference f t => snd <$> CascadeDeletionGC.remove_reference f t st
  | CdMakeRoot k => Some (CascadeDeletionGC.make_root k st)
  | CdRemoveRoot k => Some (CascadeDeletionGC.remove_root k st)
  | CdCollect o => snd <$> CascadeDeletionGC.collect o st
  | CdSetCurrentStep n => Some (set_current_step n st)
  end.

Inductive rc_op : Type :=
| RcAllocate (obj_id : Z)
| RcAddRoot (obj_id : Z)
| RcRemoveRoot (obj_id : Z)
| RcAddRef (from to : Z)
| RcRemoveRef (from to : Z).

Definition rc_step (op : rc_op) (st : RCHeap) : option RCHeap :=
  match op with
  | RcAllocate k => Some (RCHeapOps.allocate k st).2
  | RcAddRoot k => Some (RCHeapOps.add_root k st).2
  | RcRemoveRoot k => snd <$> RCHeapOps.remove_root k st
  | RcAddRef f t => Some (RCHeapOps.add_ref f t st).2
  | RcRemoveRef f t => snd <$> RCHeapOps.remove_ref f t st
  end.

(** The states a driver can bring a collector into. *)
Inductive reachable {S O : Type} (step : O → S → option S) (init : S → Prop)
  : S → Prop :=
| reachable_init st : init st → reachable step init st
| reachable_step st op st' :
    reachable step init st → step op st = Some st' → reachable step init st'.

Definition gc_initial (st : GCState) : Prop :=
  ∃ max_heap_size collection_threshold,
    st = gc_init max_heap_size collection_threshold.

Definition ms_reachable : GCState → Prop := reachable ms_step gc_initial.
Definition cd_reachable : GCState → Prop := reachable cd_step gc_initial.
Definition rc_reachable : RCHeap → Prop :=
  reachable rc_step (λ st, st = RCHeapOps.init).

(** ** Predicates of the specification *)

(** The object is stored in the heap with its root flag set. *)
Definition is_root_in (h : gmap Z HeapObject.t) (k : Z) : bool :=
  match h !! k with
  | Some o => HeapObject.is_root o
  | None => false
  end.

(** Edge symmetry among alive objects: an alive object only points to, and
    is only pointed to by, alive objects, and each edge is recorded at both
    of its ends. *)
Definition wf_heap (h : gmap Z HeapObject.t) : Prop :=
  ∀ a oa, h !! a = Some oa → HeapObject.is_alive oa = true →
    (∀ b, b ∈ HeapObject.outgoing_references oa →
          object_exists h b = true ∧ a ∈ incoming_of h b) ∧
    (∀ b, b ∈ HeapObject.incoming_references oa →
          object_exists h b = true ∧ a ∈ outgoing_of h b).

(** Every key of the heap was handed out by [allocate]. *)
Definition ids_below (st : GCState) : Prop :=
  ∀ k, is_Some (heap st !! k) → k < next_object_id st.

Definition gc_inv (st : GCState) : Prop := wf_heap (heap st) ∧ ids_below st.

(** [b] is reached from [a] along outgoing edges. *)
Definition reaches (h : gmap Z HeapObject.t) : Z → Z → Prop :=
  rtc (λ a b, b ∈ outgoing_of h a).

(** [k] is reachable from some alive root. *)
Definition reachable_from_roots (h : gmap Z HeapObject.t) (k : Z) : Prop :=
  ∃ r, object_exists h r = true ∧ is_root_in h r = true ∧ reaches h r k.

(** The alive objects that hold an outgoing edge to [o]. *)
Definition alive_referrers (h : gmap Z HeapObject.t) (o : Z) : gset Z :=
  filter (λ x, object_exists h x = true ∧ o ∈ outgoing_of h x) (dom h).

(** The object dies between [h] and [h']. *)
Definition dies (h h' : gmap Z HeapObject.t) (k : Z) : Prop :=
  object_exists h k = true ∧ object_exists h' k = false.

(** ** Notions used in the proofs: the graph collectors *)

(** What the first and the second detaching loop do to a neighbour: only
    neighbours that pass [object_exists] are touched. *)
Definition drop_out (id : Z) (o : HeapObject.t) : HeapObject.t :=
  if HeapObject.is_alive o then HeapObject.remove_reference_to id o else o.

Definition drop_in (id : Z) (o : HeapObject.t) : HeapObject.t :=
  if HeapObject.is_alive o then HeapObject.remove_reference_from id o else o.

(** An object with [id] removed from both of its edge sets. *)
Definition detach (id : Z) (o : HeapObject.t) : HeapObject.t :=
  HeapObject.remove_reference_from id (HeapObject.remove_reference_to id o).

(** The deletion of one object, as [sweep_phase] and [cascade_delete]
    both perform it: the two detaching loops, then the death stamp. *)
Definition delete_object (step id : Z) (h : gmap Z HeapObject.t)
  : gmap Z HeapObject.t :=
  alter (HeapObject.kill step) id (detach_targets id (detach_sources id h)).

(** The fields of an object other than its two edge sets. *)
Definition meta (o : HeapObject.t) : Z * Z * bool * Z * bool * bool * Z * Z :=
  (HeapObject.id o, HeapObject.size o, HeapObject.is_marked o,
   HeapObject.reference_count o, HeapObject.is_root o, HeapObject.is_alive o,
   HeapObject.allocation_step o, HeapObject.collection_step o).

(** A heap with its mark bits cleared: two heaps of the same shape differ
    in mark bits only. *)
Definition shape (h : gmap Z HeapObject.t) : gmap Z HeapObject.t :=
  HeapObject.unmark <$> h.

Definition marked (h : gmap Z HeapObject.t) (k : Z) : bool :=
  match h !! k with
  | Some o => HeapObject.is_marked o
  | None => false
  end.

(** The outgoing edges of alive objects lead to alive objects; on such a
    heap [heap[target_id]] in [dfs_mark] never creates an entry. *)
Definition out_closed (h : gmap Z HeapObject.t) : Prop :=
  ∀ a b, object_exists h a = true → b ∈ outgoing_of h a →
         object_exists h b = true.

(** What a traversal started at each of [starts] in turn achieves: only
    mark bits change and none is cleared, every alive start is marked,
    every new mark lies on a path from a start, and every newly marked
    object has all its successors marked. *)
Definition dfs_post (starts : list Z) (h h' : gmap Z HeapObject.t) : Prop :=
  shape h' = shape h ∧
  (heap_weight unmarked_weight h' ≤ heap_weight unmarked_weight h)%nat ∧
  (∀ k, marked h k = true → marked h' k = true) ∧
  (∀ t, t ∈ starts → object_exists h t = true → marked h' t = true) ∧
  (∀ k, marked h' k = true →
        marked h k = true ∨
        ∃ t, t ∈ starts ∧ object_exists h t = true ∧ reaches h t k) ∧
  (∀ u v, marked h' u = true → marked h u = false → v ∈ outgoing_of h u →
          marked h' v = true).

(** The heap after the deletion loop of [sweep_phase]. *)
Definition sweep_heap (step : Z) (ids : list Z) (h : gmap Z HeapObject.t)
  : gmap Z HeapObject.t :=
  (foldl (MarkSweepGC.sweep_object step) (h, 0) ids).1.

(** What one collection may do to an object: nothing but edge removals,
    or the death of an alive non-root object, stamped with [step]. *)
Definition obj_evolves (step : Z) (o o' : HeapObject.t) : Prop :=
  HeapObject.id o' = HeapObject.id o ∧
  HeapObject.size o' = HeapObject.size o ∧
  HeapObject.is_root o' = HeapObject.is_root o ∧
  HeapObject.allocation_step o' = HeapObject.allocation_step o ∧
  ((HeapObject.is_alive o' = HeapObject.is_alive o ∧
    HeapObject.collection_step o' = HeapObject.collection_step o) ∨
   (HeapObject.is_alive o = true ∧ HeapObject.is_alive o' = false ∧
    HeapObject.is_root o = false ∧ HeapObject.collection_step o' = step)).

Definition heap_evolves (step : Z) (h h' : gmap Z HeapObject.t) : Prop :=
  ∀ k, match h !! k, h' !! k with
       | Some o, Some o' => obj_evolves step o o'
       | None, None => True
       | _, _ => False
       end.

(** What one public operation may do to a stored object: it stays as
    alive as it was, or it is an alive non-root object that dies with its
    [collection_step] set to [step]. *)
Definition obj_step (step : Z) (o o' : HeapObject.t) : Prop :=
  (HeapObject.is_alive o' = HeapObject.is_alive o ∧
   HeapObject.collection_step o' = HeapObject.collection_step o) ∨
  (HeapObject.is_alive o = true ∧ HeapObject.is_alive o' = false ∧
   HeapObject.is_root o = false ∧ HeapObject.collection_step o' = step).

Definition heap_step (step : Z) (h h' : gmap Z HeapObject.t) : Prop :=
  ∀ k o, h !! k = Some o → ∃ o', h' !! k = Some o' ∧ obj_step step o o'.

(** What a public operation of a graph-based collector guarantees. *)
Definition gc_step_ok (st st' : GCState) : Prop :=
  gc_inv st' ∧ heap_step (current_step st') (heap st) (heap st').

(** The fields of the collector that a cascade leaves alone. *)
Definition same_config (st st' : GCState) : Prop :=
  next_object_id st' = next_object_id st ∧
  current_step st' = current_step st ∧
  max_heap_size st' = max_heap_size st.

(** ** Notions used in the proofs: reference counting

    While a cascade runs, the objects on the recursion stack are still in
    the heap but some of their references have already been released.
    [pending] maps each such object to the references it still holds. *)

Definition refs_of (h : gmap Z RCObject.t) (x : Z) : list Z :=
  match h !! x with
  | Some o => RCObject.references o
  | None => []
  end.

Definition eff_refs (h : gmap Z RCObject.t) (pending : gmap Z (list Z)) (x : Z)
  : list Z :=
  match pending !! x with
  | Some l => l
  | None => refs_of h x
  end.

(** The stored objects that still hold a reference to [o]. *)
Definition referrers (h : gmap Z RCObject.t) (pending : gmap Z (list Z)) (o : Z)
  : gset Z :=
  filter (λ x, o ∈ eff_refs h pending x) (dom h).

(** The virtual edge of a root. *)
Definition root_count (roots : gset Z) (o : Z) : Z :=
  if bool_decide (o ∈ roots) then 1 else 0.

(** The invariant of the reference-counting heap: every count is the
    number of referrers plus one for a root; references lead to stored
    objects and are not repeated; roots are stored; the objects on the
    recursion stack have count zero; no object refers to itself. *)
Definition rc_inv_at (roots : gset Z) (pending : gmap Z (list Z))
    (h : gmap Z RCObject.t) : Prop :=
  (∀ o obj, h !! o = Some obj →
     RCObject.ref_count obj
       = root_count roots o + Z.of_nat (size (referrers h pending o))) ∧
  (∀ x c, x ∈ dom h → c ∈ eff_refs h pending x → c ∈ dom h) ∧
  (∀ x, NoDup (eff_refs h pending x)) ∧
  roots ⊆ dom h ∧
  (∀ x l, pending !! x = Some l →
     ∃ obj, h !! x = Some obj ∧ RCObject.ref_count obj = 0) ∧
  (∀ x, x ∉ eff_refs h pending x).

Definition rc_inv (st : RCHeap) : Prop := rc_inv_at (roots st) ∅ (objects st).

(** What a call of [cascade_delete] guarantees about its result [r]. *)
Definition rc_cascade_post (roots : gset Z) (pending : gmap Z (list Z))
    (visited : gset Z) (h : gmap Z RCObject.t)
    (r : gset Z * gmap Z RCObject.t) : Prop :=
  rc_inv_at roots pending r.2 ∧ visited ⊆ r.1 ∧ dom r.2 ⊆ dom h.

(** ** Decision procedures for the invariants *)

#[global] Instance wf_heap_dec h : Decision (wf_heap h).
Proof.
  refine (match decide (map_Forall (λ a oa,
            HeapObject.is_alive oa = true →
            set_Forall (λ b, object_exists h b = true ∧ a ∈ incoming_of h b)
              (HeapObject.outgoing_references oa) ∧
            set_Forall (λ b, object_exists h b = true ∧ a ∈ outgoing_of h b)
              (HeapObject.incoming_references oa)) h) with
          | left H => left _
          | right H => right _
          end); exact H.
Defined.

#[global] Instance ids_below_dec st : Decision (ids_below st).
Proof.
  refine (match decide (map_Forall (λ k _, k < next_object_id st) (heap st)) with
          | left H => left _
          | right H => right _
          end); unfold ids_below, map_Forall in *.
  - intros k [o Hk]. eauto.
  - intros H'. apply H. intros k o Hk. apply H'. eauto.
Defined.

#[global] Instance gc_inv_dec st : Decision (gc_inv st).
Proof. unfold gc_inv. apply _. Defined.

#[global] Instance enumerates_dec order h : Decision (enumerates order h).
Proof. unfold enumerates. apply _. Defined.

(** ** The contract of [allocate] *)

(** [r] is the result of creating a [size]-byte object in [st]: the id
    is the next free one, it was not a key of the heap, and nothing else
    changed. *)
Definition allocated_in (size : Z) (st : GCState) (r : Z * GCState) : Prop :=
  r.1 = next_object_id st ∧
  heap st !! r.1 = None ∧
  heap r.2 = <[r.1 := HeapObject.set_allocation_step (current_step st)
                        (HeapObject.make r.1 size false)]> (heap st) ∧
  collection_count r.2 = collection_count st.

Definition allocate_contract (reach : GCState → Prop)
    (allocate : Z → GCState → option (Z * GCState))
    (collect : GCState → option (Z * GCState)) : Prop :=
  ∀ size st, reach st →
    ((size = 0 ∨ max_heap_size st < size) → allocate size st = Some (-1, st)) ∧
    (size ≠ 0 → size ≤ max_heap_size st →
       (has_enough_memory st size = true →
          ∃ r, allocate size st = Some r ∧ allocated_in size st r) ∧
       (has_enough_memory st size = false →
          ∃ freed st1,
            collect st = Some (freed, st1) ∧
            collection_count st1 = collection_count st + 1 ∧
            (has_enough_memory st1 size = false →
               allocate size st = Some (-1, st1)) ∧
            (has_enough_memory st1 size = true →
               ∃ r, allocate size st = Some r ∧ allocated_in size st1 r))).

(** ** The scenarios of the specification *)

(** The default arguments of the two constructors. *)
Definition default_max_heap_size : Z := 1024 * 1024.
Definition default_collection_threshold : Z := (1024 * 1024 * 80) `div` 100.

(** Root [r] and [a], [b], [c] of 64 bytes each, the edges [r→a], [a→b],
    [b→c], [c→a], and [r] unrooted again: the state before [collect]. *)
Definition ms_scenario : option GCState :=
  '(r, st) ← MarkSweepGC.allocate [] [] 64
              (gc_init default_max_heap_size default_collection_threshold);
  let st := MarkSweepGC.make_root r st in
  '(a, st) ← MarkSweepGC.allocate [0] [0] 64 st;
  '(b, st) ← MarkSweepGC.allocate [0; 1] [0; 1] 64 st;
  '(c, st) ← MarkSweepGC.allocate [0; 1; 2] [0; 1; 2] 64 st;
  let st := (MarkSweepGC.add_reference r a st).2 in
  let st := (MarkSweepGC.add_reference a b st).2 in
  let st := (MarkSweepGC.add_reference b c st).2 in
  let st := (MarkSweepGC.add_reference c a st).2 in
  Some (MarkSweepGC.remove_root r st).

Definition cd_scenario : option GCState :=
  '(r, st) ← CascadeDeletionGC.allocate [] 64
              (gc_init default_max_heap_size default_collection_threshold);
  let st := CascadeDeletionGC.make_root r st in
  '(a, st) ← CascadeDeletionGC.allocate [0] 64 st;
  '(b, st) ← CascadeDeletionGC.allocate [0; 1] 64 st;
  '(c, st) ← CascadeDeletionGC.allocate [0; 1; 2] 64 st;
  let st := (CascadeDeletionGC.add_reference r a st).2 in
  let st := (CascadeDeletionGC.add_reference a b st).2 in
  let st := (CascadeDeletionGC.add_reference b c st).2 in
  let st := (CascadeDeletionGC.add_reference c a st).2 in
  Some (CascadeDeletionGC.remove_root r st).

(** The reference-counting heap names its objects itself: [r], [a], [b],
    [c] are 0, 1, 2, 3.  The state before and after [remove_root r]. *)
Definition rc_scenario_rooted : RCHeap :=
  let st := (RCHeapOps.allocate 0 RCHeapOps.init).2 in
  let st := (RCHeapOps.add_root 0 st).2 in
  let st := (RCHeapOps.allocate 1 st).2 in
  let st := (RCHeapOps.allocate 2 st).2 in
  let st := (RCHeapOps.allocate 3 st).2 in
  let st := (RCHeapOps.add_ref 0 1 st).2 in
  let st := (RCHeapOps.add_ref 1 2 st).2 in
  let st := (RCHeapOps.add_ref 2 3 st).2 in
  (RCHeapOps.add_ref 3 1 st).2.

Definition rc_scenario : option RCHeap :=
  snd <$> RCHeapOps.remove_root 0 rc_scenario_rooted.

Definition ms_scenario_state : GCState :=
  default (gc_init default_max_heap_size default_collection_threshold)
          ms_scenario.

Definition cd_scenario_state : GCState :=
  default (gc_init default_max_heap_size default_collection_threshold)
          cd_scenario.

Definition rc_scenario_state : RCHeap := default RCHeapOps.init rc_scenario.

Definition ms_scenario_check (st : GCState) (ro so : list Z) : bool :=
  match MarkSweepGC.collect ro so st with
  | Some (freed, st') =>
      bool_decide (freed = 256)
      && forallb (λ k, negb (object_exists (heap st') k)) [0; 1; 2; 3]
  | None => false
  end.

Definition cd_scenario_check (st : GCState) (order : list Z) : bool :=
  match CascadeDeletionGC.collect order st with
  | Some (freed, st') =>
      bool_decide (freed = 64)
      && negb (object_exists (heap st') 0)
      && forallb (object_exists (heap st')) [1; 2; 3]
  | None => false
  end.

Definition rc_scenario_check (st : RCHeap) (order : list Z) : bool :=
  bool_decide (RCHeapOps.detect_and_log_leaks order st = order).

(** ** Running an operation stream *)

Fixpoint run_ops {S O : Type} (step : O → S → option S) (ops : list O) (st : S)
  : option S :=
  match ops with
  | [] => Some st
  | op :: ops' =>
      match step op st with
      | Some st' => run_ops step ops' st'
      | None => None
      end
  end.

(** ** What the claims say about a public operation *)

(** An object that dies between [st] and [st'] carries the current step
    and is named in no edge set of an object alive in [st']. *)
Definition death_is_clean (st st' : GCState) : Prop :=
  ∀ k, dies (heap st) (heap st') k →
    (∃ o', heap st' !! k = Some o' ∧
           HeapObject.collection_step o' = current_step st') ∧
    (∀ x, object_exists (heap st') x = true →
          (k ∉ outgoing_of (heap st') x) ∧ (k ∉ incoming_of (heap st') x)).

(** Alive roots of [st] are alive in [st']. *)
Definition roots_survive (st st' : GCState) : Prop :=
  ∀ k, object_exists (heap st) k = true → is_root_in (heap st) k = true →
       object_exists (heap st') k = true.

(** A root [0] with an edge to [1], a third object [2] that nothing
    refers to, and the edge [0→1] detached again: the state in which the
    reactive path starts its cascade at [1]. *)
Definition cd_two_orphans_before : GCState :=
  default (gc_init default_max_heap_size default_collection_threshold)
    ('(r, st) ← CascadeDeletionGC.allocate [] 64
                 (gc_init default_max_heap_size default_collection_threshold);
     let st := CascadeDeletionGC.make_root r st in
     '(a, st) ← CascadeDeletionGC.allocate [0] 64 st;
     '(x, st) ← CascadeDeletionGC.allocate [0; 1] 64 st;
     Some (CascadeDeletionGC.add_reference r a st).2).

Definition cd_two_orphans : GCState :=
  set_heap (detach_edge 0 1 (heap cd_two_orphans_before)) cd_two_orphans_before.

(** A heap of 100 bytes holding one unrooted object of 64 bytes. *)
Definition ms_small_heap : GCState :=
  default (gc_init 100 80) (snd <$> MarkSweepGC.allocate [] [] 64 (gc_init 100 80)).

(** A root [0] with an edge to [1] and nothing else. *)
Definition cd_single_orphan_before : GCState :=
  default (gc_init default_max_heap_size default_collection_threshold)
    ('(r, st) ← CascadeDeletionGC.allocate [] 64
                 (gc_init default_max_heap_size default_collection_threshold);
     let st := CascadeDeletionGC.make_root r st in
     '(a, st) ← CascadeDeletionGC.allocate [0] 64 st;
     Some (CascadeDeletionGC.add_reference r a st).2).

(** ** Notions of the further properties *)

(** The bytes and the number of the alive objects, before any reduction
    modulo [2^64]. *)
Definition heap_sum (c : HeapObject.t → Z) (h : gmap Z HeapObject.t) : Z :=
  map_fold (λ _ o acc, acc + c o) 0 h.

(** The bytes an object adds to [get_total_memory]. *)
Definition alive_size (o : HeapObject.t) : Z :=
  if HeapObject.is_alive o then HeapObject.size o else 0.

(** What an object adds to [get_alive_objects_count]. *)
Definition alive_one (o : HeapObject.t) : Z :=
  if HeapObject.is_alive o then 1 else 0.

(** [get_alive_objects_count]; the loops of [MarkSweepGC] and
    [CascadeDeletionGC] are the same text. *)
Definition get_alive_objects_count (st : GCState) : Z :=
  map_fold (λ _ o count, if HeapObject.is_alive o then count + 1 else count)
           0 (heap st).

(** Every member is alive and has an incoming edge from a member. *)
Definition self_sustained (S : gset Z) (h : gmap Z HeapObject.t) : Prop :=
  ∀ s, s ∈ S → object_exists h s = true ∧ ∃ p, p ∈ S ∧ p ∈ incoming_of h s.

(** [get_ref_count]: [-1] for an id that is not in the heap. *)
Definition get_ref_count (st : RCHeap) (obj_id : Z) : Z :=
  match objects st !! obj_id with
  | Some obj => RCObject.ref_count obj
  | None => -1
  end.

(** The stored objects whose reference list names [o]. *)
Definition rc_referrers (st : RCHeap) (o : Z) : gset Z :=
  filter (λ x, o ∈ refs_of (objects st) x) (dom (objects st)).

(** [allocate] refuses negative ids. *)
Definition rc_keys_nonneg (st : RCHeap) : Prop :=
  ∀ k, is_Some (objects st !! k) → 0 ≤ k.

(** Every member is stored and named in the reference list of a member. *)
Definition rc_self_sustained (S : gset Z) (h : gmap Z RCObject.t) : Prop :=
  ∀ s, s ∈ S → is_Some (h !! s) ∧ ∃ p, p ∈ S ∧ s ∈ refs_of h p.

(** The fields an object is born with. *)
Definition birth (o : HeapObject.t) : Z * Z * Z * Z :=
  (HeapObject.id o, HeapObject.size o, HeapObject.reference_count o,
   HeapObject.allocation_step o).

(** [h'] holds the same keys as [h], with the same value of [π]. *)
Definition keeps {A} (π : HeapObject.t → A) (h h' : gmap Z HeapObject.t) : Prop :=
  ∀ k, π <$> h' !! k = π <$> h !! k.

(** A projection that reads neither the edge sets nor the fields that a
    deletion writes. *)
Definition deletion_proof {A} (π : HeapObject.t → A) : Prop :=
  (∀ o o', meta o = meta o' → π o = π o') ∧
  (∀ step o, π (HeapObject.kill step o) = π o).

(** What every operation other than the creation of an object guarantees:
    the same keys with the fields they were born with, the same counter
    of ids and capacity, and the invariant. *)
Definition gc_quiet (st st1 : GCState) : Prop :=
  keeps birth (heap st) (heap st1) ∧
  next_object_id st1 = next_object_id st ∧
  max_heap_size st1 = max_heap_size st ∧
  gc_step_ok st st1.

(** Every operation is a quiet one, possibly followed by the creation of
    an object for which there is room. *)
Definition gc_step_shape (P : Z → Prop) (st st' : GCState) : Prop :=
  ∃ st1, gc_quiet st st1 ∧
    (st' = st1 ∨
     ∃ size, P size ∧ size ≠ 0 ∧ size ≤ max_heap_size st1 ∧
             has_enough_memory st1 size = true ∧
             st' = (gc_create_object size st1).2).

(** The keys of the heap are the ids handed out so far, every record
    carries its own key, its [reference_count] is the 0 it was built with
    and an alive record has no [collection_step]. *)
Definition gc_records (st : GCState) : Prop :=
  0 ≤ next_object_id st ∧
  ∀ k, (is_Some (heap st !! k) ↔ 0 ≤ k < next_object_id st) ∧
       ∀ o, heap st !! k = Some o →
            HeapObject.id o = k ∧
            HeapObject.reference_count o = 0 ∧
            (HeapObject.is_alive o = true → HeapObject.collection_step o = -1).

(** [size_t] arguments of a driver's calls. *)
Definition in_size_t (x : Z) : Prop := 0 ≤ x < size_t_modulus.

(** The [size] of an [allocate] is a [size_t]. *)
Definition ms_op_sized (op : ms_op) : Prop :=
  match op with
  | MsAllocate _ _ size => in_size_t size
  | _ => True
  end.

(** The same for the cascade collector. *)
Definition cd_op_sized (op : cd_op) : Prop :=
  match op with
  | CdAllocate _ size => in_size_t size
  | _ => True
  end.

(** The alive objects fit the capacity, and every stored size is a
    positive one below it. *)
Definition gc_capacity (st : GCState) : Prop :=
  in_size_t (max_heap_size st) ∧
  (∀ k o, heap st !! k = Some o → 0 < HeapObject.size o ≤ max_heap_size st) ∧
  heap_sum alive_size (heap st) ≤ max_heap_size st.

(** The two fields that record the death of an object. *)
Definition life (o : HeapObject.t) : bool * Z :=
  (HeapObject.is_alive o, HeapObject.collection_step o).

(** A root [0] with an edge to [1], a cycle [2]⇄[3] that nothing else
    refers to, and an unreferenced [4] with an edge to [1], in a heap of
    1000 bytes. *)
Definition ms_live_and_garbage_ops : list ms_op :=
  [MsAllocate [] [] 64; MsMakeRoot 0; MsAllocate [0] [0] 32;
   MsAllocate [0; 1] [0; 1] 16; MsAllocate [0; 1; 2] [0; 1; 2] 8;
   MsAllocate [0; 1; 2; 3] [0; 1; 2; 3] 4;
   MsAddReference 0 1; MsAddReference 2 3; MsAddReference 3 2;
   MsAddReference 4 1].

(** The state after these operations. *)
Definition ms_live_and_garbage : GCState :=
  default (gc_init 1000 800)
          (run_ops ms_step ms_live_and_garbage_ops (gc_init 1000 800)).

(** The same operations for the cascade collector. *)
Definition cd_live_and_garbage_ops : list cd_op :=
  [CdAllocate [] 64; CdMakeRoot 0; CdAllocate [0] 32;
   CdAllocate [0; 1] 16; CdAllocate [0; 1; 2] 8;
   CdAllocate [0; 1; 2; 3] 4;
   CdAddReference 0 1; CdAddReference 2 3; CdAddReference 3 2;
   CdAddReference 4 1].

(** The state after these operations. *)
Definition cd_live_and_garbage : GCState :=
  default (gc_init 1000 800)
          (run_ops cd_step cd_live_and_garbage_ops (gc_init 1000 800)).

(** The rooted scenario with one more object, [4], that nothing refers
    to. *)
Definition rc_scenario_with_fresh : RCHeap :=
  (RCHeapOps.allocate 4 rc_scenario_rooted).2.

#[global] Instance in_size_t_dec x : Decision (in_size_t x).
Proof. unfold in_size_t. apply _. Defined.

#[global] Instance ms_op_sized_dec op : Decision (ms_op_sized op).
Proof. destruct op; cbn; apply _. Defined.

#[global] Instance cd_op_sized_dec op : Decision (cd_op_sized op).
Proof. destruct op; cbn; apply _. Defined.

#[global] Instance self_sustained_dec S h : Decision (self_sustained S h).
Proof.
  refine (match decide (set_Forall (λ s, object_exists h s = true ∧
                          set_Exists (λ p, p ∈ incoming_of h s) S) S) with
          | left H => left _
          | right H => right _
          end); unfold self_sustained, set_Forall, set_Exists in *.
  - exact H.
  - exact H.
Defined.

#[global] Instance rc_self_sustained_dec S h : Decision (rc_self_sustained S h).
Proof.
  refine (match decide (set_Forall (λ s, is_Some (h !! s) ∧
                          set_Exists (λ p, s ∈ refs_of h p) S) S) with
          | left H => left _
          | right H => right _
          end); unfold rc_self_sustained, set_Forall, set_Exists in *.
  - exact H.
  - exact H.
Defined.

(** The two statements [source.add_reference_to(to_id);
    target.add_reference_from(from_id);]. *)
Definition attach_edge (from_id to_id : Z) (h : gmap Z HeapObject.t)
  : gmap Z HeapObject.t :=
  alter (HeapObject.add_reference_from from_id) to_id
    (alter (HeapObject.add_reference_to to_id) from_id h).

(** No alive object is a root. *)
Definition rootless (h : gmap Z HeapObject.t) : Prop :=
  ∀ k, object_exists h k = true → is_root_in h k = false.

#[global] Instance rootless_dec h : Decision (rootless h).
Proof.
  refine (match decide (map_Forall (λ _ o, HeapObject.is_alive o = true →
                                           HeapObject.is_root o = false) h) with
          | left H => left _
          | right H => right _
          end); unfold rootless, map_Forall, object_exists, is_root_in in *.
  - intros k. specialize (H k). destruct (h !! k); [by apply H|done].
  - intros H'. apply H. intros k o Ho. specialize (H' k). by rewrite Ho in H'.
Defined.

(** Every member is alive and is a root or has an incoming edge from a
    member. *)
Definition anchored (S : Z → Prop) (h : gmap Z HeapObject.t) : Prop :=
  ∀ s, S s → object_exists h s = true ∧
             (is_root_in h s = true ∨ ∃ p, S p ∧ p ∈ incoming_of h s).

(** A driver that never sets the step back, as the loop of the simulator
    ([gc->set_current_step(step)] with the index of the operation). *)
Fixpoint ms_steps_ascend (cur : Z) (ops : list ms_op) : Prop :=
  match ops with
  | [] => True
  | MsSetCurrentStep n :: ops' => cur ≤ n ∧ ms_steps_ascend n ops'
  | _ :: ops' => ms_steps_ascend cur ops'
  end.

(** The same for the cascade collector. *)
Fixpoint cd_steps_ascend (cur : Z) (ops : list cd_op) : Prop :=
  match ops with
  | [] => True
  | CdSetCurrentStep n :: ops' => cur ≤ n ∧ cd_steps_ascend n ops'
  | _ :: ops' => cd_steps_ascend cur ops'
  end.

#[global] Instance ms_steps_ascend_dec cur ops : Decision (ms_steps_ascend cur ops).
Proof.
  revert cur. induction ops as [|op ops IH]; intros cur; cbn; [apply _|].
  destruct op; apply _.
Defined.

#[global] Instance cd_steps_ascend_dec cur ops : Decision (cd_steps_ascend cur ops).
Proof.
  revert cur. induction ops as [|op ops IH]; intros cur; cbn; [apply _|].
  destruct op; apply _.
Defined.

(** No object is allocated after the current step, and a dead object was
    collected between its allocation and the current step. *)
Definition gc_steps (st : GCState) : Prop :=
  ∀ k o, heap st !! k = Some o →
    HeapObject.allocation_step o ≤ current_step st ∧
    (HeapObject.is_alive o = false →
     HeapObject.allocation_step o ≤ HeapObject.collection_step o
     ∧ HeapObject.collection_step o ≤ current_step st).

(** Two objects and an edge between them, one operation per step as the
    simulator runs them, and a collection at step 3 that finds no root. *)
Definition ms_stepped_ops : list ms_op :=
  [MsSetCurrentStep 0; MsAllocate [] [] 64;
   MsSetCurrentStep 1; MsAllocate [0] [0] 32;
   MsSetCurrentStep 2; MsAddReference 0 1;
   MsSetCurrentStep 3; MsCollect [0; 1] [0; 1]].

(** The state after these operations. *)
Definition ms_stepped : GCState :=
  default (gc_init 1000 800) (run_ops ms_step ms_stepped_ops (gc_init 1000 800)).

(** The same for the cascade collector, with the edge removed again at
    step 3. *)
Definition cd_stepped_ops : list cd_op :=
  [CdSetCurrentStep 0; CdAllocate [] 64;
   CdSetCurrentStep 1; CdAllocate [0] 32;
   CdSetCurrentStep 2; CdAddReference 0 1;
   CdSetCurrentStep 3; CdRemoveReference 0 1].

(** The state after these operations. *)
Definition cd_stepped : GCState :=
  default (gc_init 1000 800) (run_ops cd_step cd_stepped_ops (gc_init 1000 800)).

(** * Properties *)

#[local] Set Warnings "-clear-no-such-hyp".

(** ** Sets and their iteration *)

Lemma elem_of_set_iter (s : gset Z) (x : Z) : x ∈ set_iter s ↔ x ∈ s.
Proof.
  unfold set_iter. rewrite merge_sort_Permutation. apply elem_of_elements.
Qed.

Lemma NoDup_set_iter (s : gset Z) : NoDup (set_iter s).
Proof.
  unfold set_iter. rewrite merge_sort_Permutation. apply NoDup_elements.
Qed.

Lemma length_set_iter (s : gset Z) : length (set_iter s) = size s.
Proof.
  unfold set_iter. by rewrite merge_sort_Permutation.
Qed.

(** ** The two detaching loops *)

Lemma object_exists_true h k :
  object_exists h k = true ↔ ∃ o, h !! k = Some o ∧ HeapObject.is_alive o = true.
Proof.
  unfold object_exists. destruct (h !! k) as [o|]; naive_solver.
Qed.

Lemma object_exists_alter f k h x :
  (∀ o, HeapObject.is_alive (f o) = HeapObject.is_alive o) →
  object_exists (alter f k h) x = object_exists h x.
Proof.
  intros Hf. unfold object_exists. rewrite lookup_alter.
  case_decide; subst; destruct (h !! x); simpl; auto.
Qed.

Lemma drop_out_idem id o : drop_out id (drop_out id o) = drop_out id o.
Proof.
  unfold drop_out. destruct (HeapObject.is_alive o) eqn:E; simpl; rewrite ?E; auto.
  unfold HeapObject.remove_reference_to; simpl. f_equal. set_solver.
Qed.

Lemma drop_in_idem id o : drop_in id (drop_in id o) = drop_in id o.
Proof.
  unfold drop_in. destruct (HeapObject.is_alive o) eqn:E; simpl; rewrite ?E; auto.
  unfold HeapObject.remove_reference_from; simpl. f_equal. set_solver.
Qed.

Lemma erase_outgoing_of_lookup id h s k :
  erase_outgoing_of id h s !! k =
    if decide (k = s) then drop_out id <$> h !! k else h !! k.
Proof.
  unfold erase_outgoing_of, object_exists, drop_out.
  destruct (h !! s) as [o|] eqn:E.
  - destruct (HeapObject.is_alive o) eqn:Ea.
    + rewrite lookup_alter. case_decide; case_decide; subst; try congruence.
      rewrite E. simpl. by rewrite Ea.
    + case_decide; subst; auto. rewrite E. simpl. by rewrite Ea.
  - case_decide; subst; auto. by rewrite E.
Qed.

Lemma erase_incoming_of_lookup id h s k :
  erase_incoming_of id h s !! k =
    if decide (k = s) then drop_in id <$> h !! k else h !! k.
Proof.
  unfold erase_incoming_of, object_exists, drop_in.
  destruct (h !! s) as [o|] eqn:E.
  - destruct (HeapObject.is_alive o) eqn:Ea.
    + rewrite lookup_alter. case_decide; case_decide; subst; try congruence.
      rewrite E. simpl. by rewrite Ea.
    + case_decide; subst; auto. rewrite E. simpl. by rewrite Ea.
  - case_decide; subst; auto. by rewrite E.
Qed.

Lemma foldl_pointwise_lookup (step : gmap Z HeapObject.t → Z → gmap Z HeapObject.t)
    (g : HeapObject.t → HeapObject.t) :
  (∀ o, g (g o) = g o) →
  (∀ h s k, step h s !! k = if decide (k = s) then g <$> h !! k else h !! k) →
  ∀ l h k, foldl step h l !! k =
           if decide (k ∈ l) then g <$> h !! k else h !! k.
Proof.
  intros Hidem Hstep l. induction l as [|s l IH]; intros h k; cbn [foldl].
  - rewrite decide_False; [done | apply not_elem_of_nil].
  - rewrite IH, Hstep.
    destruct (decide (k ∈ s :: l)) as [Hin|Hnin].
    + destruct (decide (k = s)) as [->|Hne].
      * case_decide; auto. rewrite <- option_fmap_compose.
        destruct (h !! s); simpl; auto. by rewrite Hidem.
      * rewrite decide_True; [done|]. apply elem_of_cons in Hin. naive_solver.
    + rewrite not_elem_of_cons in Hnin. destruct Hnin as [Hne Hnin].
      rewrite decide_False by done. by rewrite decide_False.
Qed.

Lemma detach_sources_lookup id h k :
  detach_sources id h !! k =
    if decide (k ∈ incoming_of h id) then drop_out id <$> h !! k else h !! k.
Proof.
  unfold detach_sources.
  rewrite (foldl_pointwise_lookup _ (drop_out id) (drop_out_idem id)
             (erase_outgoing_of_lookup id)).
  destruct (decide (k ∈ incoming_of h id)) as [Hin|Hnin].
  - rewrite decide_True; [done|]. by apply elem_of_set_iter.
  - rewrite decide_False; [done|]. by rewrite elem_of_set_iter.
Qed.

Lemma detach_targets_lookup id h k :
  detach_targets id h !! k =
    if decide (k ∈ outgoing_of h id) then drop_in id <$> h !! k else h !! k.
Proof.
  unfold detach_targets.
  rewrite (foldl_pointwise_lookup _ (drop_in id) (drop_in_idem id)
             (erase_incoming_of_lookup id)).
  destruct (decide (k ∈ outgoing_of h id)) as [Hin|Hnin].
  - rewrite decide_True; [done|]. by apply elem_of_set_iter.
  - rewrite decide_False; [done|]. by rewrite elem_of_set_iter.
Qed.

(** ** The deletion of one object *)

Lemma incoming_of_Some h k o :
  h !! k = Some o → incoming_of h k = HeapObject.incoming_references o.
Proof. unfold incoming_of. by intros ->. Qed.

Lemma outgoing_of_Some h k o :
  h !! k = Some o → outgoing_of h k = HeapObject.outgoing_references o.
Proof. unfold outgoing_of. by intros ->. Qed.

Lemma meta_drop_out id o : meta (drop_out id o) = meta o.
Proof. unfold drop_out. by destruct (HeapObject.is_alive o). Qed.

Lemma meta_drop_in id o : meta (drop_in id o) = meta o.
Proof. unfold drop_in. by destruct (HeapObject.is_alive o). Qed.

Lemma detach_sources_meta id h k :
  meta <$> detach_sources id h !! k = meta <$> h !! k.
Proof.
  rewrite detach_sources_lookup. case_decide; [|done].
  destruct (h !! k); simpl; [|done]. by rewrite meta_drop_out.
Qed.

Lemma detach_targets_meta id h k :
  meta <$> detach_targets id h !! k = meta <$> h !! k.
Proof.
  rewrite detach_targets_lookup. case_decide; [|done].
  destruct (h !! k); simpl; [|done]. by rewrite meta_drop_in.
Qed.

Lemma delete_object_meta step id h k :
  k ≠ id → meta <$> delete_object step id h !! k = meta <$> h !! k.
Proof.
  intros Hne. unfold delete_object. rewrite lookup_alter_ne by done.
  by rewrite detach_targets_meta, detach_sources_meta.
Qed.

Lemma meta_alive (o o' : HeapObject.t) :
  meta o = meta o' → HeapObject.is_alive o = HeapObject.is_alive o'.
Proof. unfold meta. congruence. Qed.

Lemma meta_root (o o' : HeapObject.t) :
  meta o = meta o' → HeapObject.is_root o = HeapObject.is_root o'.
Proof. unfold meta. congruence. Qed.

Lemma object_exists_meta h h' k :
  meta <$> h' !! k = meta <$> h !! k → object_exists h' k = object_exists h k.
Proof.
  unfold object_exists. destruct (h' !! k), (h !! k); simpl; try done.
  intros H. apply meta_alive. congruence.
Qed.

Lemma is_root_in_meta h h' k :
  meta <$> h' !! k = meta <$> h !! k → is_root_in h' k = is_root_in h k.
Proof.
  unfold is_root_in. destruct (h' !! k), (h !! k); simpl; try done.
  intros H. apply meta_root. congruence.
Qed.

Lemma delete_object_self step id h o :
  h !! id = Some o →
  ∃ o', delete_object step id h !! id = Some o' ∧
        HeapObject.is_alive o' = false ∧
        HeapObject.collection_step o' = step ∧
        HeapObject.size o' = HeapObject.size o ∧
        HeapObject.is_root o' = HeapObject.is_root o.
Proof.
  intros Ho. unfold delete_object. rewrite lookup_alter_eq.
  pose proof (detach_targets_meta id (detach_sources id h) id) as H1.
  rewrite detach_sources_meta, Ho in H1.
  destruct (detach_targets id (detach_sources id h) !! id) as [o1|]; [|done].
  simpl in H1. injection H1 as H1. unfold meta in H1.
  eexists; split; [done|]. simpl. repeat split; congruence.
Qed.

Lemma delete_object_None step id h k :
  h !! k = None → delete_object step id h !! k = None.
Proof.
  intros Hk. unfold delete_object.
  assert (detach_targets id (detach_sources id h) !! k = None) as H.
  { pose proof (detach_targets_meta id (detach_sources id h) k) as H1.
    rewrite detach_sources_meta, Hk in H1.
    by destruct (detach_targets id (detach_sources id h) !! k). }
  destruct (decide (k = id)) as [->|Hne].
  - by rewrite lookup_alter_eq, H.
  - by rewrite lookup_alter_ne.
Qed.

Lemma delete_object_dom step id h : dom (delete_object step id h) = dom h.
Proof.
  apply set_eq. intros k. rewrite !elem_of_dom.
  destruct (decide (k = id)) as [->|Hne].
  - destruct (h !! id) as [o|] eqn:E.
    + destruct (delete_object_self step id h o E) as (o' & -> & _). split; eauto.
    + rewrite delete_object_None by done. done.
  - pose proof (delete_object_meta step id h k Hne) as H.
    destruct (delete_object step id h !! k), (h !! k); simpl in H; try done;
      split; eauto.
Qed.

Lemma delete_object_exists step id h k :
  object_exists (delete_object step id h) k =
    if decide (k = id) then false else object_exists h k.
Proof.
  case_decide as Hk.
  - subst. unfold object_exists at 1. destruct (h !! id) as [o|] eqn:E.
    + by destruct (delete_object_self step id h o E) as (o' & -> & -> & _).
    + by rewrite delete_object_None.
  - apply object_exists_meta. by apply delete_object_meta.
Qed.

Lemma remove_reference_to_absent id o :
  id ∉ HeapObject.outgoing_references o → HeapObject.remove_reference_to id o = o.
Proof.
  intros H. destruct o; unfold HeapObject.remove_reference_to; simpl in *.
  f_equal. set_solver.
Qed.

Lemma remove_reference_from_absent id o :
  id ∉ HeapObject.incoming_references o → HeapObject.remove_reference_from id o = o.
Proof.
  intros H. destruct o; unfold HeapObject.remove_reference_from; simpl in *.
  f_equal. set_solver.
Qed.

(** In a symmetric heap the deletion of [id] removes [id] from both edge
    sets of every other alive object. *)
Lemma delete_object_alive step id h a oa :
  wf_heap h → h !! a = Some oa → HeapObject.is_alive oa = true → a ≠ id →
  delete_object step id h !! a = Some (detach id oa).
Proof.
  intros Hwf Ha Halive Hne. unfold delete_object.
  rewrite lookup_alter_ne by done.
  destruct (Hwf a oa Ha Halive) as [Hout Hin].
  assert (detach_sources id h !! a = Some (HeapObject.remove_reference_to id oa)) as H1.
  { rewrite detach_sources_lookup, Ha. case_decide as Hd; simpl.
    - unfold drop_out. by rewrite Halive.
    - rewrite remove_reference_to_absent; [done|].
      intros Hid. apply Hd. by apply Hout. }
  rewrite detach_targets_lookup, H1. simpl. unfold detach.
  case_decide as Hd.
  - unfold drop_in. simpl. by rewrite Halive.
  - rewrite remove_reference_from_absent; [done|]. simpl.
    intros Hid. apply Hd. destruct (Hin id Hid) as [Hex Ho].
    unfold outgoing_of in *. rewrite detach_sources_lookup.
    destruct (h !! id) as [oi|] eqn:Ei; [|set_solver].
    case_decide; simpl; [|done].
    unfold drop_out. destruct (HeapObject.is_alive oi); simpl; [|done].
    set_solver.
Qed.

Lemma delete_object_dead step id h a oa :
  h !! a = Some oa → HeapObject.is_alive oa = false → a ≠ id →
  delete_object step id h !! a = Some oa.
Proof.
  intros Ha Hdead Hne. unfold delete_object.
  rewrite lookup_alter_ne by done.
  assert (detach_sources id h !! a = Some oa) as H1.
  { rewrite detach_sources_lookup, Ha. case_decide; simpl; [|done].
    unfold drop_out. by rewrite Hdead. }
  rewrite detach_targets_lookup, H1. case_decide; simpl; [|done].
  unfold drop_in. by rewrite Hdead.
Qed.

Lemma wf_heap_delete_object step id h : wf_heap h → wf_heap (delete_object step id h).
Proof.
  intros Hwf a oa' Ha' Halive'.
  assert (a ≠ id) as Hne.
  { intros ->. pose proof (delete_object_exists step id h id) as H.
    rewrite decide_True in H by done. unfold object_exists in H.
    rewrite Ha' in H. congruence. }
  assert (object_exists h a = true) as Hex.
  { pose proof (delete_object_exists step id h a) as H.
    rewrite decide_False in H by done. rewrite <- H.
    unfold object_exists. by rewrite Ha'. }
  apply object_exists_true in Hex as (oa & Ha & Halive).
  rewrite (delete_object_alive step id h a oa Hwf Ha Halive Hne) in Ha'.
  injection Ha' as <-.
  destruct (Hwf a oa Ha Halive) as [Hout Hin].
  assert (∀ b ob, h !! b = Some ob → HeapObject.is_alive ob = true → b ≠ id →
                  object_exists (delete_object step id h) b = true ∧
                  incoming_of (delete_object step id h) b =
                    HeapObject.incoming_references ob ∖ {[id]} ∧
                  outgoing_of (delete_object step id h) b =
                    HeapObject.outgoing_references ob ∖ {[id]}) as Hb.
  { intros b ob Hb Hbalive Hbne.
    pose proof (delete_object_alive step id h b ob Hwf Hb Hbalive Hbne) as H.
    unfold object_exists, incoming_of, outgoing_of. rewrite H. simpl. done. }
  split; intros b Hbin; simpl in Hbin.
  - apply elem_of_difference in Hbin as [Hbin Hbid].
    destruct (Hout b Hbin) as [Hbex Hab].
    apply object_exists_true in Hbex as (ob & Hob & Hbalive).
    destruct (Hb b ob Hob Hbalive) as (H1 & H2 & H3); [set_solver|].
    split; [done|]. rewrite H2. rewrite (incoming_of_Some _ _ _ Hob) in Hab.
    set_solver.
  - apply elem_of_difference in Hbin as [Hbin Hbid].
    destruct (Hin b Hbin) as [Hbex Hab].
    apply object_exists_true in Hbex as (ob & Hob & Hbalive).
    destruct (Hb b ob Hob Hbalive) as (H1 & H2 & H3); [set_solver|].
    split; [done|]. rewrite H3. rewrite (outgoing_of_Some _ _ _ Hob) in Hab.
    set_solver.
Qed.

(** ** Weights *)

Lemma heap_weight_empty w : heap_weight w ∅ = O.
Proof. unfold heap_weight. by rewrite map_fold_empty. Qed.

Lemma heap_weight_insert_None w h k o :
  h !! k = None → heap_weight w (<[k := o]> h) = (w o + heap_weight w h)%nat.
Proof.
  intros Hk. unfold heap_weight. rewrite map_fold_insert_L; [done| |done].
  intros. lia.
Qed.

Lemma heap_weight_delete w h k o :
  h !! k = Some o → heap_weight w h = (w o + heap_weight w (delete k h))%nat.
Proof.
  intros Hk. unfold heap_weight.
  rewrite (map_fold_delete_L _ _ k o h); [done| |done].
  intros. lia.
Qed.

Lemma heap_weight_insert_Some w h k o o' :
  h !! k = Some o →
  (heap_weight w (<[k := o']> h) + w o = heap_weight w h + w o')%nat.
Proof.
  intros Hk. rewrite <- insert_delete_eq.
  rewrite heap_weight_insert_None by apply lookup_delete_eq.
  rewrite (heap_weight_delete w h k o Hk). lia.
Qed.

Lemma heap_weight_alter w f h k :
  (∀ o, (w (f o) ≤ w o)%nat) →
  (heap_weight w (alter f k h) ≤ heap_weight w h)%nat.
Proof.
  intros Hf. destruct (h !! k) as [o|] eqn:E.
  - rewrite (alter_alt_Some f h k o E).
    pose proof (heap_weight_insert_Some w h k o (f o) E). specialize (Hf o). lia.
  - by rewrite alter_id'.
Qed.

Lemma heap_weight_le_size w h :
  (∀ o, (w o ≤ 1)%nat) → (heap_weight w h ≤ size h)%nat.
Proof.
  intros Hw. induction h as [|k o h Hk IH] using map_ind.
  - by rewrite heap_weight_empty.
  - rewrite heap_weight_insert_None, map_size_insert_None by done.
    specialize (Hw o). lia.
Qed.

(** ** Heaps that differ only in their mark bits *)

Lemma shape_lookup h h' k :
  shape h' = shape h → HeapObject.unmark <$> h' !! k = HeapObject.unmark <$> h !! k.
Proof.
  intros H. unfold shape in H. by rewrite <- !lookup_fmap, H.
Qed.

Lemma unmark_eq_inv o o' :
  HeapObject.unmark o' = HeapObject.unmark o →
  HeapObject.is_alive o' = HeapObject.is_alive o ∧
  HeapObject.is_root o' = HeapObject.is_root o ∧
  HeapObject.outgoing_references o' = HeapObject.outgoing_references o ∧
  HeapObject.incoming_references o' = HeapObject.incoming_references o.
Proof.
  unfold HeapObject.unmark, HeapObject.set_is_marked. intros H.
  injection H. intros. done.
Qed.

Lemma shape_object_exists h h' k :
  shape h' = shape h → object_exists h' k = object_exists h k.
Proof.
  intros H. pose proof (shape_lookup h h' k H) as Hk. unfold object_exists.
  destruct (h' !! k), (h !! k); simpl in Hk; try done.
  apply (inj Some) in Hk. by apply unmark_eq_inv in Hk as (? & _).
Qed.

Lemma shape_is_root_in h h' k :
  shape h' = shape h → is_root_in h' k = is_root_in h k.
Proof.
  intros H. pose proof (shape_lookup h h' k H) as Hk. unfold is_root_in.
  destruct (h' !! k), (h !! k); simpl in Hk; try done.
  apply (inj Some) in Hk. by apply unmark_eq_inv in Hk as (? & ? & _).
Qed.

Lemma shape_outgoing_of h h' k :
  shape h' = shape h → outgoing_of h' k = outgoing_of h k.
Proof.
  intros H. pose proof (shape_lookup h h' k H) as Hk. unfold outgoing_of.
  destruct (h' !! k), (h !! k); simpl in Hk; try done.
  apply (inj Some) in Hk. by apply unmark_eq_inv in Hk as (? & ? & ? & _).
Qed.

Lemma shape_incoming_of h h' k :
  shape h' = shape h → incoming_of h' k = incoming_of h k.
Proof.
  intros H. pose proof (shape_lookup h h' k H) as Hk. unfold incoming_of.
  destruct (h' !! k), (h !! k); simpl in Hk; try done.
  apply (inj Some) in Hk. by apply unmark_eq_inv in Hk as (? & ? & ? & ?).
Qed.

Lemma shape_is_Some h h' k :
  shape h' = shape h → is_Some (h' !! k) ↔ is_Some (h !! k).
Proof.
  intros H. pose proof (shape_lookup h h' k H) as Hk.
  destruct (h' !! k), (h !! k); simpl in Hk; try done; split; eauto.
  all: intros [? ?]; done.
Qed.

Lemma shape_out_closed h h' : shape h' = shape h → out_closed h → out_closed h'.
Proof.
  intros H Hc a b. rewrite !(shape_object_exists h h' _ H).
  rewrite (shape_outgoing_of h h' _ H). apply Hc.
Qed.

Lemma shape_reaches h h' a b : shape h' = shape h → reaches h' a b ↔ reaches h a b.
Proof.
  intros H. unfold reaches. split; intros Hr.
  - induction Hr as [|x y z Hxy _ IH]; [constructor|].
    econstructor; [|exact IH]. simpl. by rewrite <- (shape_outgoing_of h h' _ H).
  - induction Hr as [|x y z Hxy _ IH]; [constructor|].
    econstructor; [|exact IH]. simpl. by rewrite (shape_outgoing_of h h' _ H).
Qed.

(** Symmetric heaps are closed under outgoing edges. *)
Lemma wf_heap_alt h :
  wf_heap h ↔
  ∀ a, object_exists h a = true →
    (∀ b, b ∈ outgoing_of h a → object_exists h b = true ∧ a ∈ incoming_of h b) ∧
    (∀ b, b ∈ incoming_of h a → object_exists h b = true ∧ a ∈ outgoing_of h b).
Proof.
  split.
  - intros Hwf a Ha. apply object_exists_true in Ha as (oa & Hoa & Halive).
    rewrite (outgoing_of_Some _ _ _ Hoa), (incoming_of_Some _ _ _ Hoa).
    by apply Hwf.
  - intros H a oa Hoa Halive.
    rewrite <- (outgoing_of_Some _ _ _ Hoa), <- (incoming_of_Some _ _ _ Hoa).
    apply H. apply object_exists_true. eauto.
Qed.

Lemma wf_heap_out_closed h : wf_heap h → out_closed h.
Proof.
  rewrite wf_heap_alt. intros Hwf a b Ha Hb.
  destruct (Hwf a Ha) as [Hout _]. by apply Hout.
Qed.

Lemma shape_wf_heap h h' : shape h' = shape h → wf_heap h → wf_heap h'.
Proof.
  intros H. rewrite !wf_heap_alt. intros Hwf a.
  rewrite (shape_object_exists h h' _ H), (shape_outgoing_of h h' _ H),
    (shape_incoming_of h h' _ H).
  intros Ha. destruct (Hwf a Ha) as [Hout Hin]. split; intros b Hb.
  - rewrite (shape_object_exists h h' _ H), (shape_incoming_of h h' _ H). auto.
  - rewrite (shape_object_exists h h' _ H), (shape_outgoing_of h h' _ H). auto.
Qed.

(** ** The depth-first traversal *)

Lemma dfs_post_refl starts h :
  (∀ t, t ∈ starts → object_exists h t = true → marked h t = true) →
  dfs_post starts h h.
Proof.
  intros Hs. repeat split; auto. intros u v Hu Hu'. congruence.
Qed.

Lemma dfs_post_app l1 l2 h h1 h2 :
  dfs_post l1 h h1 → dfs_post l2 h1 h2 → dfs_post (l1 ++ l2) h h2.
Proof.
  intros (S1 & W1 & M1 & T1 & R1 & C1) (S2 & W2 & M2 & T2 & R2 & C2).
  repeat split.
  - congruence.
  - lia.
  - auto.
  - intros t Ht Hex. apply elem_of_app in Ht as [Ht|Ht]; [auto|].
    apply T2; [done|]. by rewrite (shape_object_exists h h1 _ S1).
  - intros k Hk. destruct (R2 k Hk) as [Hk1|(t & Ht & Hex & Hr)].
    + destruct (R1 k Hk1) as [?|(t & Ht & Hex & Hr)]; [by left|].
      right. exists t. rewrite elem_of_app. auto.
    + right. exists t. rewrite elem_of_app.
      rewrite (shape_object_exists h h1 _ S1) in Hex.
      apply (shape_reaches h h1 _ _ S1) in Hr. auto.
  - intros u v Hu Hu0 Hv. destruct (marked h1 u) eqn:Hu1.
    + apply M2. by apply (C1 u v).
    + apply (C2 u v); [done|done|]. by rewrite (shape_outgoing_of h h1 _ S1).
Qed.

Lemma marked_insert h k o x :
  marked (<[k := o]> h) x =
    if decide (x = k) then HeapObject.is_marked o else marked h x.
Proof.
  unfold marked. rewrite lookup_insert. repeat case_decide; congruence.
Qed.

Lemma shape_insert_marked h k o :
  h !! k = Some o → shape (<[k := HeapObject.set_is_marked true o]> h) = shape h.
Proof.
  intros Hk. unfold shape. rewrite fmap_insert.
  apply map_eq. intros x. rewrite lookup_insert. case_decide; [|done].
  subst. by rewrite lookup_fmap, Hk.
Qed.

Section dfs.

Variable fuel : nat.

Hypothesis dfs_mark_rec :
  ∀ x h, out_closed h → (heap_weight unmarked_weight h < fuel)%nat →
    ∃ h', MarkSweepGC.dfs_mark fuel x h = Some h' ∧ dfs_post [x] h h'.

Lemma dfs_targets_spec ts :
  ∀ h, out_closed h → (heap_weight unmarked_weight h < fuel)%nat →
    (∀ t, t ∈ ts → object_exists h t = true) →
    ∃ h', MarkSweepGC.dfs_targets (MarkSweepGC.dfs_mark fuel) ts h = Some h' ∧
          dfs_post ts h h'.
Proof.
  induction ts as [|t ts IH]; intros h Hc Hw Hts.
  - exists h. split; [done|]. apply dfs_post_refl. intros t Ht. inversion Ht.
  - assert (object_exists h t = true) as Ht by (apply Hts; left).
    apply object_exists_true in Ht as (o & Ho & Halive).
    cbn [MarkSweepGC.dfs_targets]. unfold heap_at. rewrite Ho.
    destruct (HeapObject.is_marked o) eqn:Hm.
    + destruct (IH h Hc Hw) as (h' & Hrun & Hpost).
      { intros t' Ht'. apply Hts. by right. }
      exists h'. split; [done|].
      apply (dfs_post_app [t] ts h h h'); [|done].
      apply dfs_post_refl. intros t' Ht' _. apply list_elem_of_singleton in Ht'.
      subst. unfold marked. by rewrite Ho.
    + destruct (dfs_mark_rec t h Hc Hw) as (h1 & Hrun1 & Hpost1).
      rewrite Hrun1.
      pose proof Hpost1 as (S1 & W1 & _).
      destruct (IH h1) as (h' & Hrun & Hpost).
      { by apply (shape_out_closed h). }
      { lia. }
      { intros t' Ht'. rewrite (shape_object_exists h h1 _ S1). apply Hts. by right. }
      exists h'. split; [done|]. by apply (dfs_post_app [t] ts h h1 h').
Qed.

End dfs.

Lemma unmarked_weight_mark h k o :
  h !! k = Some o → HeapObject.is_alive o = true → HeapObject.is_marked o = false →
  S (heap_weight unmarked_weight (<[k := HeapObject.set_is_marked true o]> h))
    = heap_weight unmarked_weight h.
Proof.
  intros Hk Ha Hm.
  pose proof (heap_weight_insert_Some unmarked_weight h k o
                (HeapObject.set_is_marked true o) Hk) as H.
  assert (unmarked_weight o = 1%nat) as Hw1.
  { unfold unmarked_weight. by rewrite Ha, Hm. }
  assert (unmarked_weight (HeapObject.set_is_marked true o) = O) as Hw0.
  { unfold unmarked_weight. simpl. by rewrite andb_false_r. }
  lia.
Qed.

Lemma dfs_mark_spec fuel :
  ∀ x h, out_closed h → (heap_weight unmarked_weight h < fuel)%nat →
    ∃ h', MarkSweepGC.dfs_mark fuel x h = Some h' ∧ dfs_post [x] h h'.
Proof.
  induction fuel as [|fuel IH]; intros x h Hc Hw; [lia|].
  cbn [MarkSweepGC.dfs_mark].
  destruct (object_exists h x) eqn:Hex.
  2:{ exists h. split; [done|]. apply dfs_post_refl.
      intros t Ht. apply list_elem_of_singleton in Ht. subst. congruence. }
  pose proof Hex as Hex'.
  apply object_exists_true in Hex' as (o & Ho & Halive). rewrite Ho.
  destruct (HeapObject.is_marked o) eqn:Hm.
  { exists h. split; [done|]. apply dfs_post_refl.
    intros t Ht _. apply list_elem_of_singleton in Ht. subst.
    unfold marked. by rewrite Ho. }
  set (h1 := <[x := HeapObject.set_is_marked true o]> h).
  assert (shape h1 = shape h) as S1 by (by apply shape_insert_marked).
  pose proof (unmarked_weight_mark h x o Ho Halive Hm) as W1. fold h1 in W1.
  destruct (dfs_targets_spec fuel IH
              (set_iter (HeapObject.outgoing_references o)) h1)
    as (h' & Hrun & S2 & W2 & M2 & T2 & R2 & C2).
  { by apply (shape_out_closed h). }
  { lia. }
  { intros t Ht. rewrite (shape_object_exists h h1 _ S1).
    apply (Hc x t Hex). rewrite (outgoing_of_Some _ _ _ Ho).
    by apply elem_of_set_iter. }
  exists h'. split; [done|]. repeat split.
  - congruence.
  - lia.
  - intros k Hk. apply M2. unfold h1. rewrite marked_insert.
    case_decide; [done|done].
  - intros t Ht _. apply list_elem_of_singleton in Ht. subst.
    apply M2. unfold h1. rewrite marked_insert. by rewrite decide_True.
  - intros k Hk. destruct (R2 k Hk) as [Hk1|(t & Ht & Hext & Hr)].
    + unfold h1 in Hk1. rewrite marked_insert in Hk1.
      case_decide; [subst|by left].
      right. exists x. split; [by left|]. split; [done|]. constructor.
    + right. exists x. split; [by left|]. split; [done|].
      apply (shape_reaches h h1 _ _ S1) in Hr.
      eapply rtc_l; [|exact Hr]. simpl.
      rewrite (outgoing_of_Some _ _ _ Ho). by apply elem_of_set_iter.
  - intros u v Hu Hu0 Hv. destruct (decide (u = x)) as [->|Hne].
    + rewrite (outgoing_of_Some _ _ _ Ho) in Hv.
      apply T2; [by apply elem_of_set_iter|].
      rewrite (shape_object_exists h h1 _ S1). apply (Hc x v Hex).
      by rewrite (outgoing_of_Some _ _ _ Ho).
    + apply (C2 u v); [done| |by rewrite (shape_outgoing_of h h1 _ S1)].
      unfold h1. rewrite marked_insert. by rewrite decide_False.
Qed.

Lemma mark_roots_spec fuel roots :
  ∀ h, out_closed h → (heap_weight unmarked_weight h < fuel)%nat →
    ∃ h', MarkSweepGC.mark_roots fuel roots h = Some h' ∧ dfs_post roots h h'.
Proof.
  induction roots as [|r roots IH]; intros h Hc Hw.
  - exists h. split; [done|]. apply dfs_post_refl. intros t Ht. inversion Ht.
  - cbn [MarkSweepGC.mark_roots].
    destruct (dfs_mark_spec fuel r h Hc Hw) as (h1 & -> & Hpost1).
    pose proof Hpost1 as (S1 & W1 & _).
    destruct (IH h1) as (h' & Hrun & Hpost).
    { by apply (shape_out_closed h). }
    { lia. }
    exists h'. split; [done|]. by apply (dfs_post_app [r] roots h h1 h').
Qed.

Lemma elem_of_keys_where p order h k :
  k ∈ keys_where p order h ↔ k ∈ order ∧ ∃ o, h !! k = Some o ∧ p o = true.
Proof.
  unfold keys_where. rewrite !list_elem_of_In, filter_In.
  destruct (h !! k) as [o|]; naive_solver.
Qed.

Lemma shape_idemp h : shape (shape h) = shape h.
Proof.
  unfold shape. rewrite <- map_fmap_compose. apply map_fmap_ext. by intros ? [].
Qed.

Lemma marked_shape h k : marked (shape h) k = false.
Proof.
  unfold marked, shape. rewrite lookup_fmap. by destruct (h !! k).
Qed.

Lemma unmarked_weight_le o : (unmarked_weight o ≤ 1)%nat.
Proof. unfold unmarked_weight. case_match; lia. Qed.

(** ** The mark phase *)

Lemma mark_phase_spec ro h :
  out_closed h →
  ∃ hm, MarkSweepGC.mark_phase ro h = Some hm ∧
        shape hm = shape h ∧
        (∀ k, marked hm k = true → reachable_from_roots h k) ∧
        ((∀ r, is_Some (h !! r) → r ∈ ro) →
         ∀ k, reachable_from_roots h k → marked hm k = true).
Proof.
  intros Hc. unfold MarkSweepGC.mark_phase. fold (shape h).
  pose proof (shape_idemp h) as S0.
  destruct (mark_roots_spec (S (S (size (shape h))))
              (MarkSweepGC.get_root_objects ro (shape h)) (shape h))
    as (hm & Hrun & S1 & _ & M1 & T1 & R1 & C1).
  { by apply (shape_out_closed h). }
  { pose proof (heap_weight_le_size unmarked_weight (shape h) unmarked_weight_le).
    lia. }
  exists hm. split; [done|]. split; [congruence|]. split.
  - intros k Hk. destruct (R1 k Hk) as [Hk0|(r & Hr & Hex & Hreach)].
    + by rewrite marked_shape in Hk0.
    + exists r. rewrite (shape_object_exists h (shape h) _ S0) in Hex.
      apply (shape_reaches h (shape h) _ _ S0) in Hreach.
      split; [done|]. split; [|done].
      unfold MarkSweepGC.get_root_objects in Hr.
      apply elem_of_keys_where in Hr as (_ & o & Ho & Hp).
      rewrite <- (shape_is_root_in h (shape h) _ S0). unfold is_root_in.
      rewrite Ho. by apply andb_true_iff in Hp as [? _].
  - intros Hro k (r & Hex & Hroot & Hreach).
    assert (marked hm r = true) as Hr.
    { apply T1; [|by rewrite (shape_object_exists h (shape h) _ S0)].
      unfold MarkSweepGC.get_root_objects. apply elem_of_keys_where.
      rewrite <- (shape_object_exists h (shape h) _ S0) in Hex.
      rewrite <- (shape_is_root_in h (shape h) _ S0) in Hroot.
      apply object_exists_true in Hex as (o & Ho & Halive).
      split.
      - apply Hro. apply (shape_is_Some h (shape h) r S0). eauto.
      - exists o. split; [done|]. unfold is_root_in in Hroot. rewrite Ho in Hroot.
        by rewrite Hroot, Halive. }
    clear Hex Hroot. unfold reaches in Hreach.
    induction Hreach as [|x y z Hxy _ IH]; [done|].
    apply IH. apply (C1 x y); [done|apply marked_shape|].
    by rewrite (shape_outgoing_of h (shape h) _ S0).
Qed.

(** ** The sweep *)

Lemma sweep_object_heap step h freed id :
  is_Some (h !! id) →
  (MarkSweepGC.sweep_object step (h, freed) id).1 = delete_object step id h.
Proof.
  intros [o Ho]. unfold MarkSweepGC.sweep_object. by rewrite Ho.
Qed.

Lemma sweep_heap_snoc step ids id h :
  is_Some (sweep_heap step ids h !! id) →
  sweep_heap step (ids ++ [id]) h = delete_object step id (sweep_heap step ids h).
Proof.
  intros Hid. unfold sweep_heap in *. rewrite foldl_snoc.
  destruct (foldl (MarkSweepGC.sweep_object step) (h, 0) ids) as [h1 f1].
  by apply sweep_object_heap.
Qed.

Lemma sweep_heap_spec step ids h :
  (∀ id, id ∈ ids → is_Some (h !! id)) →
  dom (sweep_heap step ids h) = dom h ∧
  (wf_heap h → wf_heap (sweep_heap step ids h)) ∧
  (∀ k, k ∉ ids → meta <$> sweep_heap step ids h !! k = meta <$> h !! k) ∧
  (∀ k, k ∈ ids →
        ∃ o, sweep_heap step ids h !! k = Some o ∧
             HeapObject.is_alive o = false ∧ HeapObject.collection_step o = step) ∧
  (∀ k o o', h !! k = Some o → sweep_heap step ids h !! k = Some o' →
             HeapObject.is_root o' = HeapObject.is_root o ∧
             HeapObject.size o' = HeapObject.size o ∧
             (HeapObject.is_alive o = false → HeapObject.is_alive o' = false)).
Proof.
  induction ids as [|id ids IH] using rev_ind; intros Hids.
  - unfold sweep_heap. simpl. split; [done|]. split; [done|]. split; [done|].
    split; [intros k Hk; inversion Hk|].
    intros k o o' Ho Ho'. assert (o' = o) as -> by congruence. done.
  - destruct IH as (D & W & M & K & R).
    { intros id' Hid'. apply Hids. apply elem_of_app. by left. }
    assert (is_Some (sweep_heap step ids h !! id)) as Hid.
    { apply elem_of_dom. rewrite D. apply elem_of_dom. apply Hids.
      apply elem_of_app. right. by left. }
    rewrite (sweep_heap_snoc step ids id h Hid).
    set (h1 := sweep_heap step ids h) in *.
    split; [|split; [|split; [|split]]].
    + by rewrite delete_object_dom.
    + intros Hwf. apply wf_heap_delete_object. auto.
    + intros k Hk. rewrite not_elem_of_app, not_elem_of_cons in Hk.
      destruct Hk as [Hk1 [Hk2 _]].
      rewrite delete_object_meta by done. auto.
    + intros k Hk. apply elem_of_app in Hk as [Hk|Hk].
      * destruct (decide (k = id)) as [->|Hne].
        -- destruct Hid as [o Ho].
           destruct (delete_object_self step id h1 o Ho) as (o' & ? & ? & ? & _).
           eauto.
        -- destruct (K k Hk) as (o & Ho & Hdead & Hstep).
           exists o. by rewrite (delete_object_dead step id h1 k o Ho Hdead Hne).
      * apply list_elem_of_singleton in Hk. subst.
        destruct Hid as [o Ho].
        destruct (delete_object_self step id h1 o Ho) as (o' & ? & ? & ? & _).
        eauto.
    + intros k o o' Ho Ho'. destruct (decide (k = id)) as [->|Hne].
      * destruct Hid as [o1 Ho1].
        destruct (delete_object_self step id h1 o1 Ho1) as (o2 & Ho2 & ? & ? & ? & ?).
        destruct (R id o o1 Ho Ho1) as (? & ? & ?).
        assert (o' = o2) as -> by congruence.
        repeat split; congruence.
      * pose proof (delete_object_meta step id h1 k Hne) as Hm.
        rewrite Ho' in Hm. destruct (h1 !! k) as [o1|] eqn:E1; [|done].
        simpl in Hm. apply (inj Some) in Hm.
        destruct (R k o o1 Ho E1) as (? & ? & Hd1).
        unfold meta in Hm. repeat split; try congruence.
        intros Hd. specialize (Hd1 Hd). congruence.
Qed.

(** ** What a collection may change *)

Lemma obj_evolves_refl step o : obj_evolves step o o.
Proof. unfold obj_evolves. naive_solver. Qed.

Lemma obj_evolves_trans step o1 o2 o3 :
  obj_evolves step o1 o2 → obj_evolves step o2 o3 → obj_evolves step o1 o3.
Proof.
  unfold obj_evolves.
  intros (? & ? & ? & ? & Ha) (? & ? & ? & ? & Hb).
  repeat split; try congruence.
  destruct Ha as [[? ?]|(? & ? & ? & ?)], Hb as [[? ?]|(? & ? & ? & ?)].
  - left. split; congruence.
  - right. repeat split; congruence.
  - right. repeat split; congruence.
  - congruence.
Qed.

Lemma heap_evolves_refl step h : heap_evolves step h h.
Proof. intros k. destruct (h !! k); [apply obj_evolves_refl|done]. Qed.

Lemma heap_evolves_trans step h1 h2 h3 :
  heap_evolves step h1 h2 → heap_evolves step h2 h3 → heap_evolves step h1 h3.
Proof.
  intros H1 H2 k. specialize (H1 k). specialize (H2 k).
  destruct (h1 !! k), (h2 !! k), (h3 !! k); try done.
  by eapply obj_evolves_trans.
Qed.

Lemma heap_evolves_dom step h h' : heap_evolves step h h' → dom h' = dom h.
Proof.
  intros H. apply set_eq. intros k. rewrite !elem_of_dom. specialize (H k).
  destruct (h !! k), (h' !! k); try done; split; eauto.
  all: by intros [? ?].
Qed.

Lemma meta_obj_evolves step o o' : meta o' = meta o → obj_evolves step o o'.
Proof.
  unfold meta, obj_evolves. intros H. injection H. intros.
  repeat split; try done. left. done.
Qed.

Lemma delete_object_self_kill step id h o :
  h !! id = Some o →
  ∃ o1, meta o1 = meta o ∧
        delete_object step id h !! id = Some (HeapObject.kill step o1).
Proof.
  intros Ho. unfold delete_object. rewrite lookup_alter_eq.
  pose proof (detach_targets_meta id (detach_sources id h) id) as H1.
  rewrite detach_sources_meta, Ho in H1.
  destruct (detach_targets id (detach_sources id h) !! id) as [o1|]; [|done].
  simpl in H1. apply (inj Some) in H1. eauto.
Qed.

Lemma heap_evolves_delete step h0 h1 id :
  heap_evolves step h0 h1 →
  object_exists h0 id = true → is_root_in h0 id = false →
  heap_evolves step h0 (delete_object step id h1).
Proof.
  intros Hev Hex Hroot k. specialize (Hev k).
  destruct (decide (k = id)) as [->|Hne].
  - apply object_exists_true in Hex as (o0 & Ho0 & Halive0).
    unfold is_root_in in Hroot. rewrite Ho0 in Hroot, Hev |- *.
    destruct (h1 !! id) as [o1|] eqn:E1; [|done].
    destruct (delete_object_self_kill step id h1 o1 E1) as (o2 & Hm & ->).
    destruct Hev as (? & ? & ? & ? & Hd).
    unfold meta in Hm. injection Hm. intros.
    unfold obj_evolves. simpl. repeat split; try congruence.
    right. done.
  - pose proof (delete_object_meta step id h1 k Hne) as Hm.
    destruct (h0 !! k) as [o0|], (h1 !! k) as [o1|] eqn:E1; try done.
    + destruct (delete_object step id h1 !! k) as [o'|]; [|done].
      simpl in Hm. apply (inj Some) in Hm.
      eapply obj_evolves_trans; [exact Hev|]. by apply meta_obj_evolves.
    + by destruct (delete_object step id h1 !! k).
Qed.

Lemma sweep_heap_evolves step ids h :
  (∀ id, id ∈ ids → object_exists h id = true ∧ is_root_in h id = false) →
  heap_evolves step h (sweep_heap step ids h).
Proof.
  induction ids as [|id ids IH] using rev_ind; intros Hids.
  - apply heap_evolves_refl.
  - assert (heap_evolves step h (sweep_heap step ids h)) as Hev.
    { apply IH. intros id' Hid'. apply Hids. apply elem_of_app. by left. }
    destruct (Hids id) as [Hex Hroot]; [apply elem_of_app; right; by left|].
    rewrite sweep_heap_snoc.
    + by apply heap_evolves_delete.
    + apply elem_of_dom. rewrite (heap_evolves_dom _ _ _ Hev).
      apply elem_of_dom. apply object_exists_true in Hex as (o & -> & _). eauto.
Qed.

(** ** Simple operations keep the heap symmetric *)

Lemma wf_heap_same_edges h h' :
  (∀ k, object_exists h' k = object_exists h k) →
  (∀ k, outgoing_of h' k = outgoing_of h k) →
  (∀ k, incoming_of h' k = incoming_of h k) →
  wf_heap h → wf_heap h'.
Proof.
  intros He Ho Hi. rewrite !wf_heap_alt. intros Hwf a.
  rewrite He, Ho, Hi. intros Ha. destruct (Hwf a Ha) as [Hout Hin].
  split; intros b Hb; rewrite He, ?Ho, ?Hi; auto.
Qed.

Lemma outgoing_of_alter f k h a :
  outgoing_of (alter f k h) a =
    if decide (a = k)
    then match h !! k with
         | Some o => HeapObject.outgoing_references (f o)
         | None => ∅
         end
    else outgoing_of h a.
Proof.
  unfold outgoing_of. destruct (decide (a = k)) as [->|Hne].
  - rewrite lookup_alter_eq. by destruct (h !! k).
  - by rewrite lookup_alter_ne.
Qed.

Lemma incoming_of_alter f k h a :
  incoming_of (alter f k h) a =
    if decide (a = k)
    then match h !! k with
         | Some o => HeapObject.incoming_references (f o)
         | None => ∅
         end
    else incoming_of h a.
Proof.
  unfold incoming_of. destruct (decide (a = k)) as [->|Hne].
  - rewrite lookup_alter_eq. by destruct (h !! k).
  - by rewrite lookup_alter_ne.
Qed.

Lemma wf_heap_set_root b k h :
  wf_heap h → wf_heap (alter (HeapObject.set_is_root b) k h).
Proof.
  apply wf_heap_same_edges.
  - intros x. by apply object_exists_alter.
  - intros x. rewrite outgoing_of_alter. case_decide; [subst|done].
    unfold outgoing_of. by destruct (h !! k).
  - intros x. rewrite incoming_of_alter. case_decide; [subst|done].
    unfold incoming_of. by destruct (h !! k).
Qed.

(** The edge sets after the two-sided update of an edge. *)
Lemma edge_update_sets (fo fi : HeapObject.t → HeapObject.t)
    (go gi : gset Z → gset Z) from_id to_id h :
  (∀ o, HeapObject.is_alive (fo o) = HeapObject.is_alive o) →
  (∀ o, HeapObject.is_alive (fi o) = HeapObject.is_alive o) →
  (∀ o, HeapObject.incoming_references (fo o) = HeapObject.incoming_references o) →
  (∀ o, HeapObject.outgoing_references (fi o) = HeapObject.outgoing_references o) →
  (∀ o, HeapObject.outgoing_references (fo o) = go (HeapObject.outgoing_references o)) →
  (∀ o, HeapObject.incoming_references (fi o) = gi (HeapObject.incoming_references o)) →
  object_exists h from_id = true → object_exists h to_id = true →
  let h2 := alter fi to_id (alter fo from_id h) in
  (∀ x, object_exists h2 x = object_exists h x) ∧
  (∀ x, outgoing_of h2 x =
        if decide (x = from_id) then go (outgoing_of h x) else outgoing_of h x) ∧
  (∀ x, incoming_of h2 x =
        if decide (x = to_id) then gi (incoming_of h x) else incoming_of h x).
Proof.
  intros Hfo Hfi Hfo' Hfi' Hgo Hgi Hf Ht h2.
  apply object_exists_true in Hf as (osrc & Hof & _).
  apply object_exists_true in Ht as (odst & Hot & _).
  split; [|split].
  - intros x. unfold h2. by rewrite !object_exists_alter.
  - intros x. unfold h2. rewrite outgoing_of_alter.
    destruct (decide (x = to_id)) as [->|Hne].
    + rewrite lookup_alter. destruct (decide (from_id = to_id)) as [->|Hne2].
      * rewrite Hot. simpl. rewrite decide_True by done.
        by rewrite Hfi', Hgo, (outgoing_of_Some _ _ _ Hot).
      * rewrite Hot. simpl. rewrite decide_False by done.
        by rewrite Hfi', (outgoing_of_Some _ _ _ Hot).
    + rewrite outgoing_of_alter. case_decide; [|done].
      subst. rewrite Hof. by rewrite Hgo, (outgoing_of_Some _ _ _ Hof).
  - intros x. unfold h2. rewrite incoming_of_alter.
    destruct (decide (x = to_id)) as [->|Hne].
    + rewrite lookup_alter. destruct (decide (from_id = to_id)) as [->|Hne2].
      * rewrite Hot. simpl. by rewrite Hgi, Hfo', (incoming_of_Some _ _ _ Hot).
      * rewrite Hot. by rewrite Hgi, (incoming_of_Some _ _ _ Hot).
    + rewrite incoming_of_alter. case_decide; [|done].
      subst. rewrite Hof. by rewrite Hfo', (incoming_of_Some _ _ _ Hof).
Qed.

Lemma wf_heap_add_edge from_id to_id h :
  wf_heap h → object_exists h from_id = true → object_exists h to_id = true →
  wf_heap (alter (HeapObject.add_reference_from from_id) to_id
             (alter (HeapObject.add_reference_to to_id) from_id h)).
Proof.
  intros Hwf Hf Ht.
  destruct (edge_update_sets (HeapObject.add_reference_to to_id)
              (HeapObject.add_reference_from from_id)
              (λ s, {[to_id]} ∪ s) (λ s, {[from_id]} ∪ s) from_id to_id h)
    as (He & Ho & Hi); try done.
  apply wf_heap_alt. intros a Ha. rewrite He in Ha.
  pose proof (proj1 (wf_heap_alt h) Hwf) as Hwf'.
  destruct (Hwf' a Ha) as [Hout Hin].
  rewrite Ho, Hi. split; intros b Hb; rewrite He, ?Ho, ?Hi.
  - destruct (decide (a = from_id)) as [->|Hne].
    + apply elem_of_union in Hb as [Hb|Hb].
      * apply elem_of_singleton in Hb. subst. rewrite decide_True by done.
        split; [done|set_solver].
      * destruct (Hout b Hb). split; [done|]. case_decide; set_solver.
    + destruct (Hout b Hb). split; [done|]. case_decide; set_solver.
  - destruct (decide (a = to_id)) as [->|Hne].
    + apply elem_of_union in Hb as [Hb|Hb].
      * apply elem_of_singleton in Hb. subst. rewrite decide_True by done.
        split; [done|set_solver].
      * destruct (Hin b Hb). split; [done|]. case_decide; set_solver.
    + destruct (Hin b Hb). split; [done|]. case_decide; set_solver.
Qed.

Lemma wf_heap_detach_edge from_id to_id h :
  wf_heap h → object_exists h from_id = true → object_exists h to_id = true →
  wf_heap (detach_edge from_id to_id h).
Proof.
  intros Hwf Hf Ht. unfold detach_edge.
  destruct (edge_update_sets (HeapObject.remove_reference_to to_id)
              (HeapObject.remove_reference_from from_id)
              (λ s, s ∖ {[to_id]}) (λ s, s ∖ {[from_id]}) from_id to_id h)
    as (He & Ho & Hi); try done.
  apply wf_heap_alt. intros a Ha. rewrite He in Ha.
  pose proof (proj1 (wf_heap_alt h) Hwf) as Hwf'.
  destruct (Hwf' a Ha) as [Hout Hin].
  rewrite Ho, Hi. split; intros b Hb; rewrite He, ?Ho, ?Hi.
  - destruct (decide (a = from_id)) as [->|Hne].
    + apply elem_of_difference in Hb as [Hb Hb'].
      destruct (Hout b Hb). rewrite decide_False by set_solver. done.
    + destruct (Hout b Hb). split; [done|]. case_decide; set_solver.
  - destruct (decide (a = to_id)) as [->|Hne].
    + apply elem_of_difference in Hb as [Hb Hb'].
      destruct (Hin b Hb). rewrite decide_False by set_solver. done.
    + destruct (Hin b Hb). split; [done|]. case_decide; set_solver.
Qed.

Lemma wf_heap_insert_fresh k o h :
  h !! k = None →
  HeapObject.outgoing_references o = ∅ → HeapObject.incoming_references o = ∅ →
  wf_heap h → wf_heap (<[k := o]> h).
Proof.
  intros Hk Hout Hin Hwf a oa Ha Halive.
  destruct (decide (a = k)) as [->|Hne].
  - rewrite lookup_insert_eq in Ha. injection Ha as <-.
    rewrite Hout, Hin. split; intros b Hb; set_solver.
  - rewrite lookup_insert_ne in Ha by done.
    destruct (Hwf a oa Ha Halive) as [Ho Hi].
    assert (∀ b, object_exists h b = true →
                 object_exists (<[k := o]> h) b = true ∧
                 incoming_of (<[k := o]> h) b = incoming_of h b ∧
                 outgoing_of (<[k := o]> h) b = outgoing_of h b) as Hb.
    { intros b Hb. assert (b ≠ k) as Hbk.
      { intros ->. unfold object_exists in Hb. by rewrite Hk in Hb. }
      unfold object_exists, incoming_of, outgoing_of in *.
      by rewrite lookup_insert_ne. }
    split; intros b Hbin.
    + destruct (Ho b Hbin) as [Hex Hab]. destruct (Hb b Hex) as (? & -> & _). done.
    + destruct (Hi b Hbin) as [Hex Hab]. destruct (Hb b Hex) as (? & _ & ->). done.
Qed.

(** ** What a public operation may change *)

Lemma heap_step_refl step h : heap_step step h h.
Proof. intros k o Ho. exists o. split; [done|]. by left. Qed.

Lemma heap_evolves_step step h h' : heap_evolves step h h' → heap_step step h h'.
Proof.
  intros Hev k o Ho. specialize (Hev k). rewrite Ho in Hev.
  destruct (h' !! k) as [o'|]; [|done]. exists o'. split; [done|].
  destruct Hev as (_ & _ & _ & _ & H). exact H.
Qed.

Lemma heap_step_alter step f k h :
  (∀ o, HeapObject.is_alive (f o) = HeapObject.is_alive o) →
  (∀ o, HeapObject.collection_step (f o) = HeapObject.collection_step o) →
  heap_step step h (alter f k h).
Proof.
  intros Ha Hc x o Ho. destruct (decide (x = k)) as [->|Hne].
  - rewrite lookup_alter_eq, Ho. eexists. split; [done|]. left. auto.
  - rewrite lookup_alter_ne by done. exists o. split; [done|]. by left.
Qed.

Lemma heap_step_trans_alter step f k h h' :
  (∀ o, HeapObject.is_alive (f o) = HeapObject.is_alive o) →
  (∀ o, HeapObject.collection_step (f o) = HeapObject.collection_step o) →
  (∀ o, HeapObject.is_root (f o) = HeapObject.is_root o) →
  heap_step step h h' → heap_step step h (alter f k h').
Proof.
  intros Ha Hc Hr Hs x o Ho. destruct (Hs x o Ho) as (o' & Ho' & Hst).
  destruct (decide (x = k)) as [->|Hne].
  - rewrite lookup_alter_eq, Ho'. eexists. split; [done|].
    unfold obj_step in *. rewrite Ha, Hc. done.
  - rewrite lookup_alter_ne by done. eauto.
Qed.

Lemma heap_step_insert_fresh step k o h h' :
  h' !! k = None → heap_step step h h' → heap_step step h (<[k := o]> h').
Proof.
  intros Hk Hs x ox Hx. destruct (Hs x ox Hx) as (o' & Ho' & Hst).
  exists o'. split; [|done]. rewrite lookup_insert_ne; [done|]. congruence.
Qed.

Lemma shape_heap_evolves step h h' : shape h' = shape h → heap_evolves step h h'.
Proof.
  intros H k. pose proof (shape_lookup h h' k H) as Hk.
  destruct (h !! k) as [o|], (h' !! k) as [o'|]; simpl in Hk; try done.
  apply (inj Some) in Hk. unfold HeapObject.unmark, HeapObject.set_is_marked in Hk.
  injection Hk. intros. unfold obj_evolves. repeat split; try done. by left.
Qed.

(** ** Mark-Sweep: [collect] *)

Lemma sweep_phase_heap so st :
  heap (MarkSweepGC.sweep_phase so st).2 =
    sweep_heap (current_step st)
      (MarkSweepGC.sweep_candidates so (heap st)) (heap st) ∧
  next_object_id (MarkSweepGC.sweep_phase so st).2 = next_object_id st ∧
  current_step (MarkSweepGC.sweep_phase so st).2 = current_step st ∧
  max_heap_size (MarkSweepGC.sweep_phase so st).2 = max_heap_size st ∧
  collection_count (MarkSweepGC.sweep_phase so st).2 = collection_count st.
Proof.
  unfold MarkSweepGC.sweep_phase, sweep_heap.
  destruct (foldl _ _ _) as [h f]. simpl. done.
Qed.

Lemma ms_collect_spec ro so st :
  out_closed (heap st) →
  ∃ hm r,
    MarkSweepGC.mark_phase ro (heap st) = Some hm ∧
    MarkSweepGC.collect ro so st = Some r ∧
    heap r.2 = sweep_heap (current_step st)
                 (MarkSweepGC.sweep_candidates so hm) hm ∧
    next_object_id r.2 = next_object_id st ∧
    current_step r.2 = current_step st ∧
    max_heap_size r.2 = max_heap_size st ∧
    collection_count r.2 = collection_count st + 1.
Proof.
  intros Hc. destruct (mark_phase_spec ro (heap st) Hc) as (hm & Hrun & _).
  unfold MarkSweepGC.collect. rewrite Hrun.
  pose proof (sweep_phase_heap so (set_heap hm st)) as (H1 & H2 & H3 & H4 & H5).
  destruct (MarkSweepGC.sweep_phase so (set_heap hm st)) as [freed st1].
  simpl in *. exists hm. eexists. split; [done|]. split; [done|]. simpl.
  by rewrite H5.
Qed.

Lemma sweep_candidates_spec so hm k :
  k ∈ MarkSweepGC.sweep_candidates so hm ↔
  k ∈ so ∧ marked hm k = false ∧ is_root_in hm k = false ∧
  object_exists hm k = true.
Proof.
  unfold MarkSweepGC.sweep_candidates. rewrite elem_of_keys_where.
  unfold marked, is_root_in, object_exists. split.
  - intros (Hk & o & -> & Hp).
    apply andb_true_iff in Hp as [Hp Ha]. apply andb_true_iff in Hp as [Hm Hr].
    apply negb_true_iff in Hm, Hr. done.
  - intros (Hk & Hm & Hr & Ha). split; [done|].
    destruct (hm !! k) as [o|]; [|done]. exists o. split; [done|].
    by rewrite Hm, Hr, Ha.
Qed.

Lemma ms_collect_heap ro so st :
  wf_heap (heap st) →
  ∃ hm r,
    MarkSweepGC.collect ro so st = Some r ∧
    shape hm = shape (heap st) ∧
    (∀ k, marked hm k = true → reachable_from_roots (heap st) k) ∧
    ((∀ x, is_Some (heap st !! x) → x ∈ ro) →
     ∀ k, reachable_from_roots (heap st) k → marked hm k = true) ∧
    heap r.2 = sweep_heap (current_step st)
                 (MarkSweepGC.sweep_candidates so hm) hm ∧
    next_object_id r.2 = next_object_id st ∧
    current_step r.2 = current_step st ∧
    max_heap_size r.2 = max_heap_size st ∧
    collection_count r.2 = collection_count st + 1 ∧
    wf_heap (heap r.2) ∧
    dom (heap r.2) = dom (heap st) ∧
    heap_evolves (current_step st) (heap st) (heap r.2).
Proof.
  intros Hwf. pose proof (wf_heap_out_closed _ Hwf) as Hc.
  destruct (ms_collect_spec ro so st Hc) as (hm & r & Hm & Hrun & Hh & Hrest).
  destruct (mark_phase_spec ro (heap st) Hc) as (hm' & Hm' & Hs & Hsound & Hcompl).
  assert (hm' = hm) as -> by congruence.
  exists hm, r. split; [done|]. split; [done|]. split; [done|]. split; [done|].
  split; [done|]. destruct Hrest as (? & ? & ? & ?).
  split; [done|]. split; [done|]. split; [done|]. split; [done|].
  assert (∀ id, id ∈ MarkSweepGC.sweep_candidates so hm → is_Some (hm !! id)) as Hids.
  { intros id Hid. apply sweep_candidates_spec in Hid as (_ & _ & _ & Hex).
    apply object_exists_true in Hex as (o & -> & _). eauto. }
  destruct (sweep_heap_spec (current_step st) _ hm Hids) as (D & W & _).
  rewrite Hh. split; [|split].
  - apply W. by apply (shape_wf_heap (heap st)).
  - rewrite D. apply set_eq. intros k. rewrite !elem_of_dom.
    by apply shape_is_Some.
  - eapply heap_evolves_trans; [by apply shape_heap_evolves|].
    apply sweep_heap_evolves. intros id Hid.
    by apply sweep_candidates_spec in Hid as (_ & _ & ? & ?).
Qed.

(** ** Mark-Sweep: the public operations keep the invariant *)

Lemma enumerates_elem_of order h k :
  enumerates order h → k ∈ order ↔ is_Some (h !! k).
Proof.
  intros [_ H]. rewrite <- elem_of_dom, <- H. by rewrite elem_of_list_to_set.
Qed.

Lemma ids_below_same_dom st st' :
  dom (heap st') = dom (heap st) → next_object_id st' = next_object_id st →
  ids_below st → ids_below st'.
Proof.
  intros Hd Hn Hi k Hk. rewrite Hn. apply Hi.
  apply elem_of_dom. rewrite <- Hd. by apply elem_of_dom.
Qed.

Lemma dom_alter_heap (f : HeapObject.t → HeapObject.t) k (h : gmap Z HeapObject.t) :
  dom (alter f k h) = dom h.
Proof. apply set_eq. intros x. by rewrite !elem_of_dom, lookup_alter_is_Some. Qed.

Lemma gc_add_reference_ok from_id to_id st :
  gc_inv st → gc_step_ok st (gc_add_reference from_id to_id st).2.
Proof.
  intros [Hwf Hids]. unfold gc_add_reference.
  assert (gc_step_ok st st) as Hsame.
  { split; [by split|apply heap_step_refl]. }
  destruct (object_exists (heap st) from_id) eqn:Hf; simpl; [|done].
  destruct (object_exists (heap st) to_id) eqn:Ht; simpl; [|done].
  destruct (heap st !! from_id) as [source|] eqn:Hs; [|done].
  case_bool_decide; [done|]. simpl. split; [split|].
  - simpl. by apply wf_heap_add_edge.
  - apply (ids_below_same_dom st); [|done|done]. simpl.
    by rewrite !dom_alter_heap.
  - simpl. apply heap_step_trans_alter; try done.
    by apply heap_step_alter.
Qed.

Lemma gc_set_root_ok b k st : gc_inv st → gc_step_ok st (gc_set_root b k st).
Proof.
  intros [Hwf Hids]. unfold gc_set_root.
  destruct (object_exists (heap st) k); [|split; [by split|apply heap_step_refl]].
  split; [split|]; simpl.
  - by apply wf_heap_set_root.
  - apply (ids_below_same_dom st); [|done|done]. simpl. by rewrite dom_alter_heap.
  - by apply heap_step_alter.
Qed.

Lemma set_current_step_ok n st : gc_inv st → gc_step_ok st (set_current_step n st).
Proof.
  intros [Hwf Hids]. split; [by split|apply heap_step_refl].
Qed.

Lemma detach_edge_step step from_id to_id h :
  heap_step step h (detach_edge from_id to_id h).
Proof.
  unfold detach_edge. apply heap_step_trans_alter; try done.
  by apply heap_step_alter.
Qed.

Lemma ms_remove_reference_ok from_id to_id st :
  gc_inv st → gc_step_ok st (MarkSweepGC.remove_reference from_id to_id st).2.
Proof.
  intros [Hwf Hids]. unfold MarkSweepGC.remove_reference.
  assert (gc_step_ok st st) as Hsame.
  { split; [by split|apply heap_step_refl]. }
  destruct (object_exists (heap st) from_id) eqn:Hf; simpl; [|done].
  destruct (object_exists (heap st) to_id) eqn:Ht; simpl; [|done].
  case_bool_decide; simpl; [|done]. split; [split|]; simpl.
  - by apply wf_heap_detach_edge.
  - apply (ids_below_same_dom st); [|done|done]. simpl.
    unfold detach_edge. by rewrite !dom_alter_heap.
  - apply detach_edge_step.
Qed.

Lemma gc_create_object_ok size st0 st :
  gc_inv st → heap_step (current_step st) (heap st0) (heap st) →
  gc_step_ok st0 (gc_create_object size st).2.
Proof.
  intros [Hwf Hids] Hs. unfold gc_create_object. simpl.
  assert (heap st !! next_object_id st = None) as Hfresh.
  { destruct (heap st !! next_object_id st) eqn:E; [|done].
    assert (next_object_id st < next_object_id st); [|lia].
    apply Hids. eauto. }
  split; [split|]; simpl.
  - by apply wf_heap_insert_fresh.
  - intros k Hk. simpl in *. apply lookup_insert_is_Some in Hk as [<-|[_ Hk]].
    + lia.
    + apply Hids in Hk. lia.
  - by apply heap_step_insert_fresh.
Qed.

Lemma ms_collect_ok ro so st :
  gc_inv st →
  ∃ r, MarkSweepGC.collect ro so st = Some r ∧ gc_step_ok st r.2 ∧
       current_step r.2 = current_step st ∧ max_heap_size r.2 = max_heap_size st ∧
       collection_count r.2 = collection_count st + 1.
Proof.
  intros [Hwf Hids].
  destruct (ms_collect_heap ro so st Hwf)
    as (hm & r & Hrun & _ & _ & _ & _ & Hn & Hc & Hmax & Hcc & Hwf' & Hd & Hev).
  exists r. split; [done|]. split; [|done]. split; [split|].
  - done.
  - by apply (ids_below_same_dom st).
  - rewrite Hc. by apply heap_evolves_step.
Qed.

Lemma ms_allocate_ok ro so size st :
  gc_inv st →
  ∃ r, MarkSweepGC.allocate ro so size st = Some r ∧ gc_step_ok st r.2.
Proof.
  intros Hinv. unfold MarkSweepGC.allocate.
  destruct (bool_decide (size = 0) || bool_decide (max_heap_size st < size)).
  { eexists. split; [done|]. simpl. split; [done|apply heap_step_refl]. }
  destruct (has_enough_memory st size).
  { eexists. split; [done|]. apply gc_create_object_ok; [done|apply heap_step_refl]. }
  destruct (ms_collect_ok ro so st Hinv) as ([freed st1] & -> & [Hinv1 Hs1] & Hc & _).
  simpl in *. destruct (has_enough_memory st1 size).
  - eexists. split; [done|]. by apply gc_create_object_ok.
  - eexists. split; [done|]. simpl. by split.
Qed.

Lemma ms_step_spec op st :
  gc_inv st → ∃ st', ms_step op st = Some st' ∧ gc_step_ok st st'.
Proof.
  intros Hinv. destruct op; simpl.
  - destruct (ms_allocate_ok roots_order sweep_order size st Hinv) as (r & -> & ?).
    eauto.
  - eexists. split; [done|]. by apply gc_add_reference_ok.
  - eexists. split; [done|]. by apply ms_remove_reference_ok.
  - eexists. split; [done|]. by apply gc_set_root_ok.
  - eexists. split; [done|]. by apply gc_set_root_ok.
  - destruct (ms_collect_ok roots_order sweep_order st Hinv) as (r & -> & ? & _).
    eauto.
  - eexists. split; [done|]. by apply set_current_step_ok.
Qed.

Lemma gc_inv_init m t : gc_inv (gc_init m t).
Proof.
  split.
  - intros a oa Ha. simpl in Ha. by rewrite lookup_empty in Ha.
  - intros k [o Hk]. simpl in Hk. by rewrite lookup_empty in Hk.
Qed.

Lemma ms_reachable_inv st : ms_reachable st → gc_inv st.
Proof.
  induction 1 as [st (m & t & ->)|st op st' _ IH Hstep].
  - apply gc_inv_init.
  - destruct (ms_step_spec op st IH) as (st'' & Hrun & [Hinv _]). congruence.
Qed.

(** ** Cascade deletion: the worklist loop *)

Lemma detach_target_push_step id h q t :
  (CascadeDeletionGC.detach_target_push id (h, q) t).1 = erase_incoming_of id h t ∧
  (length (CascadeDeletionGC.detach_target_push id (h, q) t).2 ≤ S (length q))%nat.
Proof.
  unfold CascadeDeletionGC.detach_target_push, erase_incoming_of.
  destruct (object_exists h t); simpl; [|split; [done|lia]].
  split; [done|]. destruct (CascadeDeletionGC.should_be_deleted _ t); [|lia].
  rewrite length_app. simpl. lia.
Qed.

Lemma detach_target_push_fold id ts :
  ∀ h q,
    (foldl (CascadeDeletionGC.detach_target_push id) (h, q) ts).1 = foldl (erase_incoming_of id) h ts ∧
    (length (foldl (CascadeDeletionGC.detach_target_push id) (h, q) ts).2 ≤ length q + length ts)%nat.
Proof.
  induction ts as [|t ts IH]; intros h q; cbn [foldl]; [simpl; split; [done|lia]|].
  destruct (detach_target_push_step id h q t) as [H1 H2].
  destruct (CascadeDeletionGC.detach_target_push id (h, q) t) as [h' q']. cbn [fst snd] in H1, H2.
  subst h'. destruct (IH (erase_incoming_of id h t) q') as [-> Hl].
  split; [done|]. cbn [length]. lia.
Qed.

Lemma foldl_weight_le w (step : gmap Z HeapObject.t → Z → gmap Z HeapObject.t) l :
  (∀ h s, (heap_weight w (step h s) ≤ heap_weight w h)%nat) →
  ∀ h, (heap_weight w (foldl step h l) ≤ heap_weight w h)%nat.
Proof.
  intros Hstep. induction l as [|s l IH]; intros h; simpl; [lia|].
  etrans; [apply IH|apply Hstep].
Qed.

Lemma cascade_weight_detach_sources id h :
  (heap_weight cascade_weight (detach_sources id h)
   ≤ heap_weight cascade_weight h)%nat.
Proof.
  unfold detach_sources. apply foldl_weight_le. intros h' s.
  unfold erase_outgoing_of. destruct (object_exists h' s); [|lia].
  apply heap_weight_alter. intros o. unfold cascade_weight. simpl.
  destruct (HeapObject.is_alive o); [|lia].
  assert (size (HeapObject.outgoing_references o ∖ {[id]})
          ≤ size (HeapObject.outgoing_references o))%nat; [|lia].
  apply subseteq_size. set_solver.
Qed.

Lemma cascade_weight_detach_targets id h :
  (heap_weight cascade_weight (detach_targets id h)
   ≤ heap_weight cascade_weight h)%nat.
Proof.
  unfold detach_targets. apply foldl_weight_le. intros h' s.
  unfold erase_incoming_of. destruct (object_exists h' s); [|lia].
  apply heap_weight_alter. intros o. unfold cascade_weight. simpl. lia.
Qed.

Lemma detach_targets_outgoing_of id h k :
  outgoing_of (detach_targets id h) k = outgoing_of h k.
Proof.
  unfold outgoing_of at 1. rewrite detach_targets_lookup. unfold outgoing_of.
  case_decide; [|done]. destruct (h !! k) as [o|]; [|done]. simpl.
  unfold drop_in. by destruct (HeapObject.is_alive o).
Qed.

Lemma detach_targets_exists id h k :
  object_exists (detach_targets id h) k = object_exists h k.
Proof. apply object_exists_meta. apply detach_targets_meta. Qed.

Lemma detach_sources_exists id h k :
  object_exists (detach_sources id h) k = object_exists h k.
Proof. apply object_exists_meta. apply detach_sources_meta. Qed.

Lemma cascade_weight_kill step id h :
  object_exists h id = true →
  (heap_weight cascade_weight (alter (HeapObject.kill step) id h)
   + 2 + size (outgoing_of h id) = heap_weight cascade_weight h)%nat.
Proof.
  intros Hex. pose proof Hex as Hex'.
  apply object_exists_true in Hex' as (o & Ho & Halive).
  rewrite (alter_alt_Some _ h id o Ho).
  pose proof (heap_weight_insert_Some cascade_weight h id o
                (HeapObject.kill step o) Ho) as H.
  rewrite (outgoing_of_Some _ _ _ Ho).
  assert (cascade_weight (HeapObject.kill step o) = O) as H0 by done.
  assert (cascade_weight o = S (S (size (HeapObject.outgoing_references o)))) as H1.
  { unfold cascade_weight. by rewrite Halive. }
  lia.
Qed.

Lemma heap_evolves_back step h0 h k :
  heap_evolves step h0 h → object_exists h k = true →
  object_exists h0 k = true ∧ is_root_in h0 k = is_root_in h k.
Proof.
  intros Hev Hex. specialize (Hev k). unfold object_exists, is_root_in in *.
  destruct (h0 !! k) as [o0|], (h !! k) as [o|]; try done.
  destruct Hev as (_ & _ & Hr & _ & [[Ha _]|(? & ? & _)]); split; congruence.
Qed.

Lemma cascade_loop_spec step h0 fuel :
  ∀ queue processed h freed deleted,
    wf_heap h → heap_evolves step h0 h →
    (length queue + heap_weight cascade_weight h ≤ fuel)%nat →
    ∃ r, CascadeDeletionGC.cascade_loop fuel step queue processed h freed deleted = Some r ∧
         wf_heap r.1.1 ∧ heap_evolves step h0 r.1.1.
Proof.
  induction fuel as [|fuel IH]; intros queue processed h freed deleted Hwf Hev Hfuel.
  - destruct queue; simpl in *; [|lia]. eexists. split; [done|]. done.
  - destruct queue as [|cur queue]; [eexists; split; [done|]; done|].
    cbn [CascadeDeletionGC.cascade_loop]. simpl in Hfuel.
    case_bool_decide.
    { apply IH; [done|done|lia]. }
    destruct (object_exists h cur) eqn:Hex; [|apply IH; [done|done|lia]].
    pose proof Hex as Hex'.
    apply object_exists_true in Hex' as (obj & Hobj & Halive). rewrite Hobj.
    destruct (HeapObject.is_root obj) eqn:Hroot; [apply IH; [done|done|lia]|].
    set (h1 := detach_sources cur h).
    destruct (detach_target_push_fold cur (set_iter (outgoing_of h1 cur)) h1 queue)
      as [Hheap Hlen].
    destruct (foldl (CascadeDeletionGC.detach_target_push cur) (h1, queue)
                (set_iter (outgoing_of h1 cur))) as [h2 queue2] eqn:Hfold.
    simpl in Hheap, Hlen. rewrite length_set_iter in Hlen.
    assert (h2 = detach_targets cur h1) as Hh2 by done.
    assert (alter (HeapObject.kill step) cur h2 = delete_object step cur h) as Hdel.
    { by rewrite Hh2. }
    rewrite Hdel. apply IH.
    + by apply wf_heap_delete_object.
    + destruct (heap_evolves_back step h0 h cur Hev Hex) as [Hex0 Hroot0].
      apply heap_evolves_delete; [done|done|].
      rewrite Hroot0. unfold is_root_in. by rewrite Hobj.
    + rewrite <- Hdel, Hh2.
      pose proof (cascade_weight_kill step cur (detach_targets cur h1)) as Hk.
      rewrite detach_targets_exists in Hk. unfold h1 in Hk at 1.
      rewrite detach_sources_exists in Hk. specialize (Hk Hex).
      rewrite detach_targets_outgoing_of in Hk.
      pose proof (cascade_weight_detach_targets cur h1).
      pose proof (cascade_weight_detach_sources cur h). fold h1 in H1.
      lia.
Qed.

(** ** Cascade deletion: the public operations keep the invariant *)

Lemma cascade_delete_spec h0 object_id st :
  wf_heap (heap st) → heap_evolves (current_step st) h0 (heap st) →
  ∃ r, CascadeDeletionGC.cascade_delete object_id st = Some r ∧
       wf_heap (heap r.2) ∧ heap_evolves (current_step st) h0 (heap r.2) ∧
       same_config st r.2 ∧ collection_count r.2 = collection_count st.
Proof.
  intros Hwf Hev. unfold CascadeDeletionGC.cascade_delete.
  destruct (object_exists (heap st) object_id).
  2:{ eexists. split; [done|]. simpl. done. }
  destruct (cascade_loop_spec (current_step st) h0
              (S (heap_weight cascade_weight (heap st)))
              [object_id] ∅ (heap st) 0 0 Hwf Hev)
    as ([[h f] d] & -> & Hwf' & Hev'); [simpl; lia|].
  eexists. split; [done|]. simpl in *. done.
Qed.

Lemma cascade_orphans_spec h0 ids :
  ∀ total st,
    wf_heap (heap st) → heap_evolves (current_step st) h0 (heap st) →
    ∃ r, CascadeDeletionGC.cascade_orphans ids total st = Some r ∧
         wf_heap (heap r.2) ∧ heap_evolves (current_step st) h0 (heap r.2) ∧
         same_config st r.2 ∧ collection_count r.2 = collection_count st.
Proof.
  induction ids as [|id ids IH]; intros total st Hwf Hev; cbn [CascadeDeletionGC.cascade_orphans].
  - eexists. split; [done|]. simpl. done.
  - destruct (object_exists (heap st) id); [|by apply IH].
    destruct (cascade_delete_spec h0 id st Hwf Hev)
      as ([freed st1] & -> & Hwf1 & Hev1 & (Hn & Hc & Hm) & Hcc).
    simpl in *. rewrite <- Hc in Hev1.
    destruct (IH (wrap64 (total + freed)) st1 Hwf1 Hev1)
      as (r & Hrun & Hwf2 & Hev2 & (Hn2 & Hc2 & Hm2) & Hcc2).
    exists r. split; [done|]. split; [done|]. rewrite <- Hc.
    split; [done|]. unfold same_config. split; [split; [|split]|]; congruence.
Qed.

Lemma cd_collect_ok order st :
  gc_inv st →
  ∃ r, CascadeDeletionGC.collect order st = Some r ∧ gc_step_ok st r.2 ∧
       current_step r.2 = current_step st ∧ max_heap_size r.2 = max_heap_size st ∧
       collection_count r.2 = collection_count st + 1.
Proof.
  intros [Hwf Hids]. unfold CascadeDeletionGC.collect.
  destruct (cascade_orphans_spec (heap st)
              (CascadeDeletionGC.orphans order (heap st)) 0 st Hwf
              (heap_evolves_refl _ _))
    as ([freed st1] & -> & Hwf1 & Hev1 & (Hn & Hc & Hm) & Hcc).
  simpl in *. eexists. split; [done|]. simpl. split; [|by rewrite Hcc].
  split; [split|]; simpl.
  - done.
  - intros k Hk. simpl in Hk. rewrite Hn. apply Hids.
    apply elem_of_dom. rewrite <- (heap_evolves_dom _ _ _ Hev1).
    by apply elem_of_dom.
  - rewrite Hc. by apply heap_evolves_step.
Qed.

Lemma cd_allocate_ok order size st :
  gc_inv st → ∃ r, CascadeDeletionGC.allocate order size st = Some r ∧ gc_step_ok st r.2.
Proof.
  intros Hinv. unfold CascadeDeletionGC.allocate.
  destruct (bool_decide (size = 0) || bool_decide (max_heap_size st < size)).
  { eexists. split; [done|]. simpl. split; [done|apply heap_step_refl]. }
  destruct (has_enough_memory st size).
  { eexists. split; [done|]. apply gc_create_object_ok; [done|apply heap_step_refl]. }
  destruct (cd_collect_ok order st Hinv) as ([freed st1] & -> & [Hinv1 Hs1] & Hc & _).
  simpl in *. destruct (has_enough_memory st1 size).
  - eexists. split; [done|]. by apply gc_create_object_ok.
  - eexists. split; [done|]. simpl. by split.
Qed.

Lemma heap_step_then_evolves step h1 h2 h3 :
  (∀ k o o', h1 !! k = Some o → h2 !! k = Some o' →
             HeapObject.is_root o' = HeapObject.is_root o ∧
             HeapObject.is_alive o' = HeapObject.is_alive o ∧
             HeapObject.collection_step o' = HeapObject.collection_step o) →
  dom h2 = dom h1 →
  heap_evolves step h2 h3 → heap_step step h1 h3.
Proof.
  intros H12 Hd H23 k o Ho. specialize (H23 k).
  assert (is_Some (h2 !! k)) as [o2 Ho2].
  { apply elem_of_dom. rewrite Hd. apply elem_of_dom. eauto. }
  rewrite Ho2 in H23. destruct (h3 !! k) as [o3|]; [|done].
  exists o3. split; [done|].
  destruct (H12 k o o2 Ho Ho2) as (Hr & Ha & Hc).
  destruct H23 as (_ & _ & _ & _ & H). unfold obj_step.
  destruct H as [[? ?]|(? & ? & ? & ?)]; [left|right]; repeat split; congruence.
Qed.

Lemma cd_remove_reference_ok from_id to_id st :
  gc_inv st →
  ∃ r, CascadeDeletionGC.remove_reference from_id to_id st = Some r ∧ gc_step_ok st r.2.
Proof.
  intros [Hwf Hids]. unfold CascadeDeletionGC.remove_reference.
  assert (gc_step_ok st st) as Hsame.
  { split; [by split|apply heap_step_refl]. }
  destruct (object_exists (heap st) from_id) eqn:Hf; simpl; [|eauto].
  destruct (object_exists (heap st) to_id) eqn:Ht; simpl; [|eauto].
  case_bool_decide; simpl; [|eauto].
  set (st1 := set_heap (detach_edge from_id to_id (heap st)) st).
  assert (wf_heap (heap st1)) as Hwf1 by (by apply wf_heap_detach_edge).
  assert (dom (heap st1) = dom (heap st)) as Hd1.
  { simpl. unfold detach_edge. by rewrite !dom_alter_heap. }
  destruct (CascadeDeletionGC.should_be_deleted (detach_edge from_id to_id (heap st)) to_id).
  - destruct (cascade_delete_spec (heap st1) to_id st1 Hwf1 (heap_evolves_refl _ _))
      as ([freed st2] & -> & Hwf2 & Hev2 & (Hn & Hc & Hm) & Hcc).
    simpl in *. eexists. split; [done|]. simpl. split; [split|].
    + done.
    + intros k Hk. rewrite Hn. apply Hids. apply elem_of_dom.
      rewrite <- Hd1, <- (heap_evolves_dom _ _ _ Hev2). by apply elem_of_dom.
    + rewrite Hc. eapply heap_step_then_evolves; [|exact Hd1|exact Hev2].
      intros k o o' Ho Ho'. unfold detach_edge in Ho'.
      rewrite !lookup_alter, Ho in Ho'.
      repeat case_decide; subst; rewrite ?Ho in Ho'; simpl in Ho';
        injection Ho' as <-; done.
  - eexists. split; [done|]. simpl. split; [split|]; simpl.
    + done.
    + by apply (ids_below_same_dom st).
    + apply detach_edge_step.
Qed.

Lemma cd_step_spec op st :
  gc_inv st → ∃ st', cd_step op st = Some st' ∧ gc_step_ok st st'.
Proof.
  intros Hinv. destruct op; simpl.
  - destruct (cd_allocate_ok order size st Hinv) as (r & -> & ?). eauto.
  - eexists. split; [done|]. by apply gc_add_reference_ok.
  - destruct (cd_remove_reference_ok from_id to_id st Hinv) as (r & -> & ?). eauto.
  - eexists. split; [done|]. by apply gc_set_root_ok.
  - eexists. split; [done|]. by apply gc_set_root_ok.
  - destruct (cd_collect_ok order st Hinv) as (r & -> & ? & _). eauto.
  - eexists. split; [done|]. by apply set_current_step_ok.
Qed.

Lemma cd_reachable_inv st : cd_reachable st → gc_inv st.
Proof.
  induction 1 as [st (m & t & ->)|st op st' _ IH Hstep].
  - apply gc_inv_init.
  - destruct (cd_step_spec op st IH) as (st'' & Hrun & [Hinv _]). congruence.
Qed.

(** ** Reference counting: the cascade keeps the invariant *)

Lemma elem_of_referrers h pending o x :
  x ∈ referrers h pending o ↔ x ∈ dom h ∧ o ∈ eff_refs h pending x.
Proof. unfold referrers. rewrite elem_of_filter. tauto. Qed.

Lemma size_remove_one (X : gset Z) x :
  x ∈ X → Z.of_nat (size (X ∖ {[x]})) = Z.of_nat (size X) - 1.
Proof.
  intros Hx. rewrite size_difference by set_solver. rewrite size_singleton.
  assert (size X ≠ 0)%nat; [|lia].
  intros H0. apply size_empty_inv in H0. set_solver.
Qed.

Lemma size_add_one (X : gset Z) x :
  x ∉ X → Z.of_nat (size ({[x]} ∪ X)) = Z.of_nat (size X) + 1.
Proof.
  intros Hx. rewrite size_union by set_solver. rewrite size_singleton. lia.
Qed.

(** An object without references to it and outside the roots counts 0. *)
Lemma rc_inv_zero roots pending h o obj :
  rc_inv_at roots pending h → h !! o = Some obj → RCObject.ref_count obj = 0 →
  (o ∉ roots) ∧ (∀ x, x ∈ dom h → o ∉ eff_refs h pending x).
Proof.
  intros (Hc & _) Ho H0. specialize (Hc o obj Ho). rewrite H0 in Hc.
  unfold root_count in Hc. case_bool_decide.
  - lia.
  - split; [done|]. intros x Hx Hin.
    assert (size (referrers h pending o) = 0)%nat as Hs by lia.
    apply size_empty_inv in Hs.
    assert (x ∈ referrers h pending o) by (by apply elem_of_referrers).
    set_solver.
Qed.

Section rc_cascade.

Variable roots : gset Z.

(** Releasing the first pending reference of [p]. *)
Lemma rc_release_child pending h p c rest cobj :
  rc_inv_at roots (<[p := c :: rest]> pending) h →
  h !! c = Some cobj →
  1 ≤ RCObject.ref_count cobj ∧
  rc_inv_at roots (<[p := rest]> pending)
    (<[c := RCObject.set_ref_count (RCObject.ref_count cobj - 1) cobj]> h).
Proof.
  intros (Hcnt & Hcl & Hnd & Hroots & Hpend & Hself) Hc.
  set (S1 := <[p := c :: rest]> pending) in *.
  set (S2 := <[p := rest]> pending).
  set (h1 := <[c := RCObject.set_ref_count (RCObject.ref_count cobj - 1) cobj]> h).
  destruct (Hpend p (c :: rest)) as (pobj & Hp & Hp0);
    [by unfold S1; rewrite lookup_insert_eq|].
  assert (p ∈ dom h) as Hpd by (apply elem_of_dom; eauto).
  assert (eff_refs h S1 p = c :: rest) as Hep.
  { unfold eff_refs, S1. by rewrite lookup_insert_eq. }
  assert (NoDup (c :: rest)) as Hndp by (rewrite <- Hep; apply Hnd).
  apply NoDup_cons in Hndp as [Hcrest Hndrest].
  assert (p ∈ referrers h S1 c) as Hpref.
  { apply elem_of_referrers. split; [done|]. rewrite Hep. by left. }
  assert (1 ≤ RCObject.ref_count cobj) as Hge.
  { rewrite (Hcnt c cobj Hc). unfold root_count.
    assert (size (referrers h S1 c) ≠ 0)%nat.
    { intros H0. apply size_empty_inv in H0. set_solver. }
    case_bool_decide; lia. }
  split; [done|].
  assert (dom h1 = dom h) as Hdom.
  { unfold h1. rewrite dom_insert_L.
    assert (c ∈ dom h) by (apply elem_of_dom; eauto). set_solver. }
  assert (∀ x, refs_of h1 x = refs_of h x) as Hrefs.
  { intros x. unfold refs_of, h1. destruct (decide (x = c)) as [->|Hne].
    - by rewrite lookup_insert_eq, Hc.
    - by rewrite lookup_insert_ne. }
  assert (∀ x, eff_refs h1 S2 x = if decide (x = p) then rest else eff_refs h S1 x)
    as Heff.
  { intros x. unfold eff_refs, S1, S2. destruct (decide (x = p)) as [->|Hne].
    - by rewrite lookup_insert_eq.
    - rewrite !lookup_insert_ne by done. by rewrite Hrefs. }
  assert (p ≠ c) as Hpc.
  { intros ->. assert (cobj = pobj) by congruence. subst. lia. }
  repeat split.
  - intros o obj Ho.
    assert (referrers h1 S2 o =
            if decide (o = c) then referrers h S1 c ∖ {[p]} else referrers h S1 o)
      as Href.
    { apply set_eq. intros x. case_decide as Hoc.
      - subst o. rewrite elem_of_difference, !elem_of_referrers, Hdom, Heff.
        rewrite elem_of_singleton. case_decide as Hxp; [subst; naive_solver|].
        naive_solver.
      - rewrite !elem_of_referrers, Hdom, Heff.
        case_decide as Hxp; [|done]. subst x. rewrite Hep.
        rewrite elem_of_cons. naive_solver. }
    rewrite Href. unfold h1 in Ho. destruct (decide (o = c)) as [->|Hne].
    + rewrite lookup_insert_eq in Ho. injection Ho as <-. simpl.
      rewrite (Hcnt c cobj Hc), size_remove_one by done. lia.
    + rewrite lookup_insert_ne in Ho by done. by apply Hcnt.
  - intros x y. rewrite Hdom, Heff. intros Hx Hy. case_decide.
    + subst. apply (Hcl p y Hpd). rewrite Hep. by right.
    + by apply (Hcl x y).
  - intros x. rewrite Heff. case_decide; [done|apply Hnd].
  - by rewrite Hdom.
  - intros x l Hx. unfold S2 in Hx.
    assert (∃ l', S1 !! x = Some l') as [l' Hl'].
    { unfold S1. destruct (decide (x = p)) as [->|Hne].
      - rewrite lookup_insert_eq. eauto.
      - rewrite lookup_insert_ne in Hx by done. rewrite lookup_insert_ne by done. eauto. }
    destruct (Hpend x l' Hl') as (obj & Ho & H0).
    exists obj. split; [|done]. unfold h1. rewrite lookup_insert_ne; [done|].
    intros ->. assert (cobj = obj) by congruence. subst. lia.
  - intros x. rewrite Heff. case_decide; [|apply Hself].
    subst. intros Hin. apply (Hself p). rewrite Hep. by right.
Qed.

(** Pushing an object with count zero on the stack changes nothing. *)
Lemma rc_inv_push pending h p pobj :
  rc_inv_at roots pending h → pending !! p = None →
  h !! p = Some pobj → RCObject.ref_count pobj = 0 →
  rc_inv_at roots (<[p := RCObject.references pobj]> pending) h.
Proof.
  intros (Hcnt & Hcl & Hnd & Hroots & Hpend & Hself) Hp Hpo H0.
  assert (∀ x, eff_refs h (<[p := RCObject.references pobj]> pending) x
               = eff_refs h pending x) as Heff.
  { intros x. unfold eff_refs. destruct (decide (x = p)) as [->|Hne].
    - rewrite lookup_insert_eq, Hp. unfold refs_of. by rewrite Hpo.
    - by rewrite lookup_insert_ne. }
  assert (∀ o, referrers h (<[p := RCObject.references pobj]> pending) o
               = referrers h pending o) as Href.
  { intros o. apply set_eq. intros x. by rewrite !elem_of_referrers, Heff. }
  repeat split.
  - intros o obj Ho. rewrite Href. by apply Hcnt.
  - intros x c. rewrite Heff. apply Hcl.
  - intros x. rewrite Heff. apply Hnd.
  - done.
  - intros x l Hx. destruct (decide (x = p)) as [->|Hne].
    + eauto.
    + rewrite lookup_insert_ne in Hx by done. eauto.
  - intros x. rewrite Heff. apply Hself.
Qed.

(** Erasing an object whose references are all released. *)
Lemma rc_inv_pop pending h p :
  rc_inv_at roots (<[p := []]> pending) h → pending !! p = None →
  rc_inv_at roots pending (delete p h).
Proof.
  intros Hinv Hp. pose proof Hinv as (Hcnt & Hcl & Hnd & Hroots & Hpend & Hself).
  destruct (Hpend p []) as (pobj & Hpo & H0); [by rewrite lookup_insert_eq|].
  destruct (rc_inv_zero _ _ _ _ _ Hinv Hpo H0) as [Hproot Hpref].
  assert (∀ x, x ≠ p → eff_refs (delete p h) pending x
                       = eff_refs h (<[p := []]> pending) x) as Heff.
  { intros x Hne. unfold eff_refs, refs_of.
    by rewrite lookup_insert_ne, lookup_delete_ne. }
  assert (∀ o, referrers (delete p h) pending o
               = referrers h (<[p := []]> pending) o) as Href.
  { intros o. apply set_eq. intros x. rewrite !elem_of_referrers, dom_delete_L.
    rewrite elem_of_difference, elem_of_singleton.
    destruct (decide (x = p)) as [->|Hne].
    - unfold eff_refs at 2. rewrite lookup_insert_eq. rewrite elem_of_nil. tauto.
    - rewrite Heff by done. tauto. }
  repeat split.
  - intros o obj Ho. rewrite Href. apply Hcnt.
    apply lookup_delete_Some in Ho. tauto.
  - intros x c Hx Hc. rewrite dom_delete_L in *.
    apply elem_of_difference in Hx as [Hx Hxp]. rewrite elem_of_singleton in Hxp.
    rewrite Heff in Hc by done. apply elem_of_difference. split.
    + by apply (Hcl x c).
    + rewrite elem_of_singleton. intros ->. by apply (Hpref x).
  - intros x. destruct (decide (x = p)) as [->|Hne].
    + unfold eff_refs, refs_of. rewrite Hp, lookup_delete_eq. constructor.
    + rewrite Heff by done. apply Hnd.
  - rewrite dom_delete_L. set_solver.
  - intros x l Hx. assert (x ≠ p) as Hne by congruence.
    destruct (Hpend x l) as (obj & Ho & Hz); [by rewrite lookup_insert_ne|].
    exists obj. by rewrite lookup_delete_ne.
  - intros x. destruct (decide (x = p)) as [->|Hne].
    + unfold eff_refs, refs_of. rewrite Hp, lookup_delete_eq. apply not_elem_of_nil.
    + rewrite Heff by done. apply Hself.
Qed.

Section children.

Variable fuel : nat.

Hypothesis cascade_delete_rec :
  ∀ obj_id visited h pending,
    rc_inv_at roots pending h → dom pending ⊆ visited →
    (size (dom h ∖ visited) < fuel)%nat →
    ∃ r, ReferenceCounter.cascade_delete fuel obj_id visited h = Some r ∧
         rc_cascade_post roots pending visited h r.

Lemma rc_cascade_children_spec p children :
  ∀ visited h pending,
    rc_inv_at roots (<[p := children]> pending) h →
    dom pending ∪ {[p]} ⊆ visited →
    (size (dom h ∖ visited) < fuel)%nat →
    ∃ r, ReferenceCounter.cascade_children
           (ReferenceCounter.cascade_delete fuel) children visited h = Some r ∧
         rc_cascade_post roots (<[p := []]> pending) visited h r.
Proof.
  induction children as [|c rest IH]; intros visited h pending Hinv Hvis Hfuel.
  - eexists. split; [done|]. split; [done|]. done.
  - cbn [ReferenceCounter.cascade_children].
    pose proof Hinv as (Hcnt & Hcl & Hnd & Hroots & Hpend & Hself).
    destruct (Hpend p (c :: rest)) as (pobj & Hp & Hp0);
      [by rewrite lookup_insert_eq|].
    assert (c ∈ dom h) as Hcd.
    { apply (Hcl p c); [apply elem_of_dom; eauto|].
      unfold eff_refs. rewrite lookup_insert_eq. by left. }
    apply elem_of_dom in Hcd as [cobj Hc]. rewrite Hc.
    destruct (rc_release_child pending h p c rest cobj Hinv Hc) as [Hge Hinv1].
    cbv zeta. rewrite (bool_decide_eq_false_2 (RCObject.ref_count cobj - 1 < 0)) by lia.
    set (h1 := <[c := RCObject.set_ref_count (RCObject.ref_count cobj - 1) cobj]> h)
      in *.
    assert (dom h1 = dom h) as Hdom.
    { unfold h1. rewrite dom_insert_L.
      assert (c ∈ dom h) by (apply elem_of_dom; eauto). set_solver. }
    case_bool_decide.
    + destruct (cascade_delete_rec c visited h1 (<[p := rest]> pending) Hinv1)
        as ([v2 h2] & -> & Hinv2 & Hv2 & Hd2).
      { rewrite dom_insert_L. set_solver. }
      { by rewrite Hdom. }
      simpl in *.
      destruct (IH v2 h2 pending Hinv2) as (r & Hrun & Hinv3 & Hv3 & Hd3).
      { set_solver. }
      { assert (size (dom h2 ∖ v2) ≤ size (dom h ∖ visited))%nat; [|lia].
        apply subseteq_size. set_solver. }
      exists r. split; [done|]. split; [done|]. split; set_solver.
    + destruct (IH visited h1 pending Hinv1) as (r & Hrun & Hinv3 & Hv3 & Hd3).
      { done. }
      { by rewrite Hdom. }
      exists r. split; [done|]. split; [done|]. split; set_solver.
Qed.

End children.

Lemma rc_cascade_delete_spec fuel :
  ∀ obj_id visited h pending,
    rc_inv_at roots pending h → dom pending ⊆ visited →
    (size (dom h ∖ visited) < fuel)%nat →
    ∃ r, ReferenceCounter.cascade_delete fuel obj_id visited h = Some r ∧
         rc_cascade_post roots pending visited h r.
Proof.
  induction fuel as [|fuel IH]; intros obj_id visited h pending Hinv Hvis Hfuel;
    [lia|].
  cbn [ReferenceCounter.cascade_delete].
  destruct (h !! obj_id) as [obj|] eqn:Hobj.
  2:{ eexists. split; [done|]. split; [done|]. done. }
  case_bool_decide as Hv.
  { eexists. split; [done|]. split; [done|]. done. }
  case_bool_decide as Hz.
  { eexists. split; [done|]. split; [done|]. split; [set_solver|done]. }
  assert (RCObject.ref_count obj = 0) as H0.
  { destruct (decide (RCObject.ref_count obj = 0)); [done|]. by destruct Hz. }
  assert (pending !! obj_id = None) as Hpn.
  { apply not_elem_of_dom. set_solver. }
  pose proof (rc_inv_push pending h obj_id obj Hinv Hpn Hobj H0) as Hinv1.
  destruct (rc_cascade_children_spec fuel IH obj_id (RCObject.references obj)
              ({[obj_id]} ∪ visited) h pending Hinv1)
    as ([v2 h2] & -> & Hinv2 & Hv2 & Hd2).
  { set_solver. }
  { assert (size (dom h ∖ ({[obj_id]} ∪ visited)) < size (dom h ∖ visited))%nat;
      [|lia].
    apply subset_size. apply elem_of_dom_2 in Hobj. set_solver. }
  simpl in *. eexists. split; [done|]. split; [|split]; simpl.
  - by apply rc_inv_pop.
  - set_solver.
  - rewrite dom_delete_L. set_solver.
Qed.

Lemma rc_cascade_from_spec obj_id h :
  rc_inv_at roots ∅ h →
  ∃ h', ReferenceCounter.cascade_from obj_id h = Some h' ∧
        rc_inv_at roots ∅ h' ∧ dom h' ⊆ dom h.
Proof.
  intros Hinv. unfold ReferenceCounter.cascade_from.
  destruct (rc_cascade_delete_spec (S (size h)) obj_id ∅ h ∅ Hinv)
    as ([v h'] & -> & Hinv' & _ & Hd).
  { set_solver. }
  { rewrite difference_empty_L, size_dom. lia. }
  exists h'. done.
Qed.

End rc_cascade.

(** ** Reference counting: the public operations *)

Lemma referrers_ext h h' pending pending' o :
  dom h' = dom h →
  (∀ x, eff_refs h' pending' x = eff_refs h pending x) →
  referrers h' pending' o = referrers h pending o.
Proof.
  intros Hd He. apply set_eq. intros x. by rewrite !elem_of_referrers, Hd, He.
Qed.

Lemma eff_refs_empty h x : eff_refs h ∅ x = refs_of h x.
Proof. unfold eff_refs. by rewrite lookup_empty. Qed.

Lemma refs_of_alter_count f k h x :
  (∀ o, RCObject.references (f o) = RCObject.references o) →
  refs_of (alter f k h) x = refs_of h x.
Proof.
  intros Hf. unfold refs_of. destruct (decide (x = k)) as [->|Hne].
  - rewrite lookup_alter_eq. destruct (h !! k); simpl; auto.
  - by rewrite lookup_alter_ne.
Qed.

Lemma dom_alter_rc (f : RCObject.t → RCObject.t) k (h : gmap Z RCObject.t) :
  dom (alter f k h) = dom h.
Proof. apply set_eq. intros x. by rewrite !elem_of_dom, lookup_alter_is_Some. Qed.

Lemma elem_of_erase_first t l x :
  NoDup l → x ∈ RCObject.erase_first t l ↔ x ∈ l ∧ x ≠ t.
Proof.
  induction l as [|y l IH]; intros Hnd; simpl.
  - rewrite elem_of_nil. tauto.
  - apply NoDup_cons in Hnd as [Hy Hnd]. case_bool_decide as Hty.
    + subst y. rewrite elem_of_cons. split; [|tauto].
      intros Hx. split; [by right|]. intros ->. done.
    + rewrite !elem_of_cons, IH by done. split; [|tauto].
      intros [->|[? ?]]; [|tauto]. split; [by left|]. congruence.
Qed.

Lemma NoDup_erase_first t l : NoDup l → NoDup (RCObject.erase_first t l).
Proof.
  induction l as [|y l IH]; intros Hnd; simpl; [done|].
  apply NoDup_cons in Hnd as [Hy Hnd]. case_bool_decide; [done|].
  apply NoDup_cons. split; [|auto]. rewrite elem_of_erase_first by done. tauto.
Qed.

Lemma rc_inv_init : rc_inv RCHeapOps.init.
Proof.
  unfold rc_inv. simpl. split; [|split; [|split; [|split; [|split]]]].
  - intros o obj Ho. by rewrite lookup_empty in Ho.
  - intros x c Hx. rewrite dom_empty_L in Hx. set_solver.
  - intros x. rewrite eff_refs_empty. unfold refs_of. rewrite lookup_empty.
    constructor.
  - set_solver.
  - intros x l Hx. by rewrite lookup_empty in Hx.
  - intros x. rewrite eff_refs_empty. unfold refs_of. rewrite lookup_empty.
    apply not_elem_of_nil.
Qed.

Lemma rc_allocate_inv k st : rc_inv st → rc_inv (RCHeapOps.allocate k st).2.
Proof.
  intros Hinv. unfold RCHeapOps.allocate, RCHeapOps.object_exists.
  case_bool_decide as Hk; [done|]. case_bool_decide; [done|]. simpl.
  assert (objects st !! k = None) as Hnone.
  { destruct (objects st !! k) eqn:E; [|done]. destruct Hk. eauto. }
  destruct Hinv as (Hcnt & Hcl & Hnd & Hroots & Hpend & Hself).
  unfold rc_inv. simpl. set (h := objects st) in *.
  assert (∀ x, refs_of (<[k := RCObject.make k]> h) x = refs_of h x) as Hrefs.
  { intros x. unfold refs_of. destruct (decide (x = k)) as [->|Hne].
    - by rewrite lookup_insert_eq, Hnone.
    - by rewrite lookup_insert_ne. }
  assert (k ∉ dom h) as Hkd by (by apply not_elem_of_dom).
  assert (∀ o, referrers (<[k := RCObject.make k]> h) ∅ o = referrers h ∅ o) as Href.
  { intros o. apply set_eq. intros x.
    rewrite !elem_of_referrers, !eff_refs_empty, Hrefs, dom_insert_L.
    rewrite elem_of_union, elem_of_singleton. split; [|tauto].
    intros [[->|Hx] Ho]; [|done]. unfold refs_of in Ho. rewrite Hnone in Ho.
    by apply elem_of_nil in Ho. }
  repeat split.
  - intros o obj Ho. rewrite Href. destruct (decide (o = k)) as [->|Hne].
    + rewrite lookup_insert_eq in Ho. injection Ho as <-. simpl.
      unfold root_count. rewrite bool_decide_eq_false_2 by set_solver.
      assert (referrers h ∅ k = ∅) as ->; [|by rewrite size_empty].
      apply set_eq. intros x. rewrite elem_of_referrers.
      split; [|set_solver]. intros [Hx Hkx]. exfalso. apply Hkd. by apply (Hcl x k).
    + rewrite lookup_insert_ne in Ho by done. by apply Hcnt.
  - intros x c. rewrite eff_refs_empty, Hrefs, dom_insert_L. intros Hx Hc.
    apply elem_of_union in Hx as [Hx|Hx].
    + apply elem_of_singleton in Hx. subst. unfold refs_of in Hc.
      rewrite Hnone in Hc. by apply elem_of_nil in Hc.
    + apply elem_of_union. right. apply (Hcl x c Hx). by rewrite eff_refs_empty.
  - intros x. rewrite eff_refs_empty, Hrefs, <- eff_refs_empty. apply Hnd.
  - rewrite dom_insert_L. set_solver.
  - intros x l Hx. by rewrite lookup_empty in Hx.
  - intros x. rewrite eff_refs_empty, Hrefs, <- eff_refs_empty. apply Hself.
Qed.

(** Changing one count and the root set together. *)
Lemma rc_inv_recount roots roots' k d h obj :
  rc_inv_at roots ∅ h → h !! k = Some obj →
  (∀ o, root_count roots' o = root_count roots o + if decide (o = k) then d else 0) →
  roots' ⊆ dom h →
  rc_inv_at roots' ∅
    (alter (λ o, RCObject.set_ref_count (RCObject.ref_count o + d) o) k h).
Proof.
  intros (Hcnt & Hcl & Hnd & Hroots & Hpend & Hself) Hk Hrc Hsub.
  set (h' := alter _ k h).
  assert (dom h' = dom h) as Hdom by apply dom_alter_rc.
  assert (∀ x, eff_refs h' ∅ x = eff_refs h ∅ x) as Heff.
  { intros x. rewrite !eff_refs_empty. by apply refs_of_alter_count. }
  repeat split.
  - intros o obj' Ho. rewrite (referrers_ext h h' ∅ ∅ o Hdom Heff), Hrc.
    unfold h' in Ho. destruct (decide (o = k)) as [->|Hne].
    + rewrite lookup_alter_eq, Hk in Ho. injection Ho as <-. simpl.
      rewrite (Hcnt k obj Hk). lia.
    + rewrite lookup_alter_ne in Ho by done. rewrite (Hcnt o obj' Ho). lia.
  - intros x c. rewrite Hdom, Heff. apply Hcl.
  - intros x. rewrite Heff. apply Hnd.
  - by rewrite Hdom.
  - intros x l Hx. by rewrite lookup_empty in Hx.
  - intros x. rewrite Heff. apply Hself.
Qed.

Lemma rc_add_root_inv k st : rc_inv st → rc_inv (RCHeapOps.add_root k st).2.
Proof.
  intros Hinv. unfold RCHeapOps.add_root, RCHeapOps.object_exists.
  case_bool_decide as Hk; simpl; [|done]. case_bool_decide as Hr; [done|]. simpl.
  destruct Hk as [obj Hk]. unfold rc_inv. simpl.
  apply (rc_inv_recount (roots st) _ k 1 _ obj Hinv Hk).
  - intros o. unfold root_count. case_decide as Ho.
    + subst. rewrite bool_decide_eq_true_2 by set_solver.
      by rewrite bool_decide_eq_false_2.
    + destruct (decide (o ∈ roots st)).
      * rewrite !bool_decide_eq_true_2 by set_solver. lia.
      * rewrite !bool_decide_eq_false_2 by set_solver. lia.
  - destruct Hinv as (_ & _ & _ & Hroots & _). apply elem_of_dom_2 in Hk. set_solver.
Qed.

Lemma rc_remove_root_spec k st :
  rc_inv st →
  ∃ r, RCHeapOps.remove_root k st = Some r ∧ rc_inv r.2 ∧
       dom (objects r.2) ⊆ dom (objects st).
Proof.
  intros Hinv. unfold RCHeapOps.remove_root, RCHeapOps.object_exists.
  case_bool_decide as Hk; simpl; [|eauto].
  case_bool_decide as Hr; simpl; [|eauto].
  destruct Hk as [obj Hk].
  assert (rc_inv_at (roots st ∖ {[k]}) ∅
            (alter (λ o, RCObject.set_ref_count (RCObject.ref_count o + -1) o) k
               (objects st))) as Hinv1.
  { apply (rc_inv_recount (roots st) _ k (-1) _ obj Hinv Hk).
    - intros o. unfold root_count. case_decide as Ho.
      + subst. rewrite bool_decide_eq_false_2 by set_solver.
        rewrite bool_decide_eq_true_2 by done. lia.
      + destruct (decide (o ∈ roots st)).
        * rewrite !bool_decide_eq_true_2 by set_solver. lia.
        * rewrite !bool_decide_eq_false_2 by set_solver. lia.
    - destruct Hinv as (_ & _ & _ & Hroots & _). set_solver. }
  assert (1 ≤ RCObject.ref_count obj) as Hge.
  { destruct Hinv as (Hcnt & _). rewrite (Hcnt k obj Hk). unfold root_count.
    rewrite bool_decide_eq_true_2 by done. lia. }
  change (λ o, RCObject.set_ref_count (RCObject.ref_count o - 1) o)
    with (λ o, RCObject.set_ref_count (RCObject.ref_count o + -1) o).
  set (h1 := alter _ k (objects st)) in *.
  assert (h1 !! k = Some (RCObject.set_ref_count (RCObject.ref_count obj + -1) obj))
    as Hk1 by (unfold h1; by rewrite lookup_alter_eq, Hk).
  rewrite Hk1. simpl.
  rewrite bool_decide_eq_false_2 by lia.
  assert (dom h1 = dom (objects st)) as Hdom by apply dom_alter_rc.
  case_bool_decide.
  - destruct (rc_cascade_from_spec _ k h1 Hinv1) as (h' & -> & Hinv' & Hd).
    simpl. eexists. split; [done|]. simpl. split; [done|]. by rewrite <- Hdom.
  - eexists. split; [done|]. simpl. split; [done|]. by rewrite Hdom.
Qed.

Lemma rc_counter_add_ref_inv roots from to h :
  rc_inv_at roots ∅ h → from ≠ to →
  rc_inv_at roots ∅ (ReferenceCounter.add_ref from to h).2 ∧
  dom (ReferenceCounter.add_ref from to h).2 = dom h.
Proof.
  intros Hinv Hft. unfold ReferenceCounter.add_ref.
  destruct (h !! from) as [src|] eqn:Hsrc; [|done].
  destruct (h !! to) as [dst|] eqn:Hdst; [|done].
  unfold RCObject.has_reference_to. case_bool_decide as Hhas; [done|]. simpl.
  unfold RCObject.add_outgoing_ref, RCObject.has_reference_to.
  rewrite bool_decide_eq_false_2 by done.
  set (src' := RCObject.mk (RCObject.id src) (RCObject.ref_count src)
                 (RCObject.references src ++ [to])).
  set (h1 := <[from := src']> h).
  set (h2 := alter _ to h1).
  destruct Hinv as (Hcnt & Hcl & Hnd & Hroots & Hpend & Hself).
  assert (dom h2 = dom h) as Hdom.
  { unfold h2, h1. rewrite dom_alter_rc, dom_insert_L.
    apply elem_of_dom_2 in Hsrc. set_solver. }
  assert (∀ x, eff_refs h2 ∅ x =
               if decide (x = from) then RCObject.references src ++ [to]
               else eff_refs h ∅ x) as Heff.
  { intros x. rewrite !eff_refs_empty. unfold h2.
    rewrite refs_of_alter_count by done. unfold refs_of, h1.
    case_decide; subst; [by rewrite lookup_insert_eq|by rewrite lookup_insert_ne]. }
  assert (eff_refs h ∅ from = RCObject.references src) as Hefrom.
  { rewrite eff_refs_empty. unfold refs_of. by rewrite Hsrc. }
  assert (from ∉ referrers h ∅ to) as Hnotref.
  { rewrite elem_of_referrers, Hefrom. tauto. }
  assert (∀ o, referrers h2 ∅ o =
               if decide (o = to) then {[from]} ∪ referrers h ∅ to
               else referrers h ∅ o) as Href.
  { intros o. apply set_eq. intros x. case_decide as Ho.
    - subst o. rewrite elem_of_union, elem_of_singleton, !elem_of_referrers, Hdom, Heff.
      case_decide as Hx.
      + subst x. rewrite elem_of_app, list_elem_of_singleton.
        apply elem_of_dom_2 in Hsrc. tauto.
      + tauto.
    - rewrite !elem_of_referrers, Hdom, Heff. case_decide as Hx; [|done].
      subst x. rewrite elem_of_app, list_elem_of_singleton, Hefrom. tauto. }
  split; [|done]. repeat split.
  - intros o obj Ho. rewrite Href. unfold h2, h1 in Ho.
    destruct (decide (o = to)) as [->|Hne].
    + rewrite lookup_alter_eq in Ho. rewrite size_add_one by done.
      destruct (decide (to = from)) as [->|Hne2].
      * rewrite lookup_insert_eq in Ho. injection Ho as <-. simpl.
        rewrite (Hcnt from src Hsrc). lia.
      * rewrite lookup_insert_ne, Hdst in Ho by done. injection Ho as <-. simpl.
        rewrite (Hcnt to dst Hdst). lia.
    + rewrite lookup_alter_ne in Ho by done.
      destruct (decide (o = from)) as [->|Hne2].
      * rewrite lookup_insert_eq in Ho. injection Ho as <-. simpl.
        by rewrite (Hcnt from src Hsrc).
      * rewrite lookup_insert_ne in Ho by done. by apply Hcnt.
  - intros x c. rewrite Hdom, Heff. intros Hx Hc. case_decide.
    + subst. apply elem_of_app in Hc as [Hc|Hc].
      * apply (Hcl from c Hx). by rewrite Hefrom.
      * apply list_elem_of_singleton in Hc. subst. by apply elem_of_dom_2 in Hdst.
    + by apply (Hcl x c).
  - intros x. rewrite Heff. case_decide; [|apply Hnd].
    apply NoDup_app. split; [rewrite <- Hefrom; apply Hnd|]. split.
    + intros y Hy Hy'. apply list_elem_of_singleton in Hy'. by subst.
    + apply NoDup_singleton.
  - by rewrite Hdom.
  - intros x l Hx. by rewrite lookup_empty in Hx.
  - intros x. rewrite Heff. case_decide; [|apply Hself].
    subst. rewrite elem_of_app, list_elem_of_singleton, <- Hefrom.
    intros [Hin|Heq]; [by apply (Hself from)|done].
Qed.

Lemma rc_counter_remove_ref_spec roots from to h :
  rc_inv_at roots ∅ h →
  ∃ r, ReferenceCounter.remove_ref from to h = Some r ∧
       rc_inv_at roots ∅ r.2 ∧ dom r.2 ⊆ dom h.
Proof.
  intros Hinv. unfold ReferenceCounter.remove_ref.
  destruct (h !! to) as [dst|] eqn:Hdst; [|eauto].
  destruct (h !! from) as [src|] eqn:Hsrc; [|eauto].
  unfold RCObject.has_reference_to. case_bool_decide as Hhas; simpl; [|eauto].
  change (λ dst0, RCObject.set_ref_count (RCObject.ref_count dst0 - 1) dst0)
    with (λ o, RCObject.set_ref_count (RCObject.ref_count o + -1) o).
  set (src' := RCObject.remove_outgoing_ref to src).
  set (h1 := <[from := src']> h).
  set (h2 := alter _ to h1).
  pose proof Hinv as (Hcnt & Hcl & Hnd & Hroots & Hpend & Hself).
  assert (eff_refs h ∅ from = RCObject.references src) as Hefrom.
  { rewrite eff_refs_empty. unfold refs_of. by rewrite Hsrc. }
  assert (NoDup (RCObject.references src)) as Hndsrc.
  { rewrite <- Hefrom. apply Hnd. }
  assert (dom h2 = dom h) as Hdom.
  { unfold h2, h1. rewrite dom_alter_rc, dom_insert_L.
    apply elem_of_dom_2 in Hsrc. set_solver. }
  assert (∀ x, eff_refs h2 ∅ x =
               if decide (x = from)
               then RCObject.erase_first to (RCObject.references src)
               else eff_refs h ∅ x) as Heff.
  { intros x. rewrite !eff_refs_empty. unfold h2.
    rewrite refs_of_alter_count by done. unfold refs_of, h1.
    case_decide; subst; [by rewrite lookup_insert_eq|by rewrite lookup_insert_ne]. }
  assert (from ∈ referrers h ∅ to) as Hisref.
  { rewrite elem_of_referrers, Hefrom. apply elem_of_dom_2 in Hsrc. tauto. }
  assert (∀ o, referrers h2 ∅ o =
               if decide (o = to) then referrers h ∅ to ∖ {[from]}
               else referrers h ∅ o) as Href.
  { intros o. apply set_eq. intros x. case_decide as Ho.
    - subst o. rewrite elem_of_difference, elem_of_singleton, !elem_of_referrers,
        Hdom, Heff.
      case_decide as Hx.
      + subst x. rewrite elem_of_erase_first by done. tauto.
      + tauto.
    - rewrite !elem_of_referrers, Hdom, Heff. case_decide as Hx; [|done].
      subst x. rewrite elem_of_erase_first, Hefrom by done. split; [tauto|].
      intros [? ?]. split; [done|]. split; [done|]. congruence. }
  assert (rc_inv_at roots ∅ h2) as Hinv2.
  { repeat split.
    - intros o obj Ho. rewrite Href. unfold h2, h1 in Ho.
      destruct (decide (o = to)) as [->|Hne].
      + rewrite lookup_alter_eq in Ho. rewrite size_remove_one by done.
        destruct (decide (to = from)) as [->|Hne2].
        * rewrite lookup_insert_eq in Ho. injection Ho as <-. simpl.
          rewrite (Hcnt from src Hsrc). lia.
        * rewrite lookup_insert_ne, Hdst in Ho by done. injection Ho as <-. simpl.
          rewrite (Hcnt to dst Hdst). lia.
      + rewrite lookup_alter_ne in Ho by done.
        destruct (decide (o = from)) as [->|Hne2].
        * rewrite lookup_insert_eq in Ho. injection Ho as <-. simpl.
          by rewrite (Hcnt from src Hsrc).
        * rewrite lookup_insert_ne in Ho by done. by apply Hcnt.
    - intros x c. rewrite Hdom, Heff. intros Hx Hc. case_decide.
      + subst. apply elem_of_erase_first in Hc as [Hc _]; [|done].
        apply (Hcl from c Hx). by rewrite Hefrom.
      + by apply (Hcl x c).
    - intros x. rewrite Heff. case_decide; [|apply Hnd].
      by apply NoDup_erase_first.
    - by rewrite Hdom.
    - intros x l Hx. by rewrite lookup_empty in Hx.
    - intros x. rewrite Heff. case_decide; [|apply Hself].
      subst. rewrite elem_of_erase_first by done. rewrite <- Hefrom.
      intros [Hin _]. by apply (Hself from). }
  assert (is_Some (h2 !! to)) as [dst2 Hdst2].
  { apply elem_of_dom. rewrite Hdom. by apply elem_of_dom_2 in Hdst. }
  rewrite Hdst2.
  assert (0 ≤ RCObject.ref_count dst2) as Hge.
  { destruct Hinv2 as (Hcnt2 & _). rewrite (Hcnt2 to dst2 Hdst2).
    unfold root_count. case_bool_decide; lia. }
  rewrite bool_decide_eq_false_2 by lia.
  case_bool_decide.
  - destruct (rc_cascade_from_spec roots to h2 Hinv2) as (h' & -> & Hinv' & Hd).
    simpl. eexists. split; [done|]. simpl. split; [done|]. by rewrite <- Hdom.
  - eexists. split; [done|]. simpl. split; [done|]. by rewrite Hdom.
Qed.

Lemma rc_add_ref_inv from to st : rc_inv st → rc_inv (RCHeapOps.add_ref from to st).2.
Proof.
  intros Hinv. unfold RCHeapOps.add_ref.
  destruct (bool_decide (from < 0) || bool_decide (to < 0)); [done|].
  destruct (negb (RCHeapOps.object_exists st from)); [done|].
  destruct (negb (RCHeapOps.object_exists st to)); [done|].
  case_bool_decide; [done|].
  destruct (rc_counter_add_ref_inv (roots st) from to (objects st) Hinv)
    as [Hres _]; [done|].
  by destruct (ReferenceCounter.add_ref from to (objects st)).
Qed.

Lemma rc_remove_ref_spec from to st :
  rc_inv st →
  ∃ r, RCHeapOps.remove_ref from to st = Some r ∧ rc_inv r.2.
Proof.
  intros Hinv. unfold RCHeapOps.remove_ref.
  destruct (bool_decide (from < 0) || bool_decide (to < 0)); [eauto|].
  destruct (negb (RCHeapOps.object_exists st from)); [eauto|].
  destruct (negb (RCHeapOps.object_exists st to)); [eauto|].
  destruct (rc_counter_remove_ref_spec (roots st) from to (objects st) Hinv)
    as ([b h'] & -> & Hinv' & _).
  simpl. eexists. split; [done|]. done.
Qed.

Lemma rc_step_spec op st : rc_inv st → ∃ st', rc_step op st = Some st' ∧ rc_inv st'.
Proof.
  intros Hinv. destruct op; simpl.
  - eexists. split; [done|]. by apply rc_allocate_inv.
  - eexists. split; [done|]. by apply rc_add_root_inv.
  - destruct (rc_remove_root_spec obj_id st Hinv) as (r & -> & ? & _). eauto.
  - eexists. split; [done|]. by apply rc_add_ref_inv.
  - destruct (rc_remove_ref_spec from to st Hinv) as (r & -> & ?). eauto.
Qed.

Lemma rc_reachable_inv st : rc_reachable st → rc_inv st.
Proof.
  induction 1 as [st ->|st op st' _ IH Hstep].
  - apply rc_inv_init.
  - destruct (rc_step_spec op st IH) as (st'' & Hrun & Hinv). congruence.
Qed.

(** * The claims of the specification *)

(** ** Root toggles on absent objects *)

(** C10: in the Mark-Sweep and Cascade/Orphan collectors, [make_root] and
    [remove_root] with an id that is missing or names a dead object leave
    the collector state unchanged; the operations return nothing, so the
    caller learns of no failure. *)
Theorem root_toggle_on_absent_object_is_noop (st : GCState) (object_id : Z) :
  (heap st !! object_id = None ∨
   ∃ o, heap st !! object_id = Some o ∧ HeapObject.is_alive o = false) →
  MarkSweepGC.make_root object_id st = st ∧
  MarkSweepGC.remove_root object_id st = st ∧
  CascadeDeletionGC.make_root object_id st = st ∧
  CascadeDeletionGC.remove_root object_id st = st.
Proof.
  intros H.
  assert (object_exists (heap st) object_id = false) as Hex.
  { unfold object_exists. destruct H as [->|(o & -> & ?)]; done. }
  unfold MarkSweepGC.make_root, MarkSweepGC.remove_root,
    CascadeDeletionGC.make_root, CascadeDeletionGC.remove_root, gc_set_root.
  by rewrite Hex.
Qed.

Lemma root_toggle_on_absent_object_witness :
  let st := gc_init default_max_heap_size default_collection_threshold in
  MarkSweepGC.make_root 5 st = st ∧
  MarkSweepGC.remove_root 5 st = st ∧
  CascadeDeletionGC.make_root 5 st = st ∧
  CascadeDeletionGC.remove_root 5 st = st.
Proof.
  apply (root_toggle_on_absent_object_is_noop
           (gc_init default_max_heap_size default_collection_threshold) 5).
  left. reflexivity.
Defined.

(** ** Adding an edge that is already there *)

Lemma mkRCHeap_eta st : mkRCHeap (objects st) (roots st) = st.
Proof. by destruct st. Qed.

Lemma gc_add_reference_existing from_id to_id st :
  object_exists (heap st) from_id = true →
  object_exists (heap st) to_id = true →
  to_id ∈ outgoing_of (heap st) from_id →
  gc_add_reference from_id to_id st = (true, st).
Proof.
  intros Hf Ht He. unfold gc_add_reference. rewrite Hf, Ht. simpl.
  apply object_exists_true in Hf as (o & Ho & _).
  rewrite Ho. rewrite (outgoing_of_Some _ _ _ Ho) in He.
  by rewrite bool_decide_eq_true_2.
Qed.

(** The first component of the counterexample to C3: an edge [0→1]
    between two stored objects of the reference-counting heap. *)
Lemma rc_add_existing_edge_reports_failure :
  let st := (RCHeapOps.add_ref 0 1
               (RCHeapOps.allocate 1 (RCHeapOps.allocate 0 RCHeapOps.init).2).2).2 in
  is_Some (objects st !! 0) ∧ is_Some (objects st !! 1) ∧
  1 ∈ refs_of (objects st) 0 ∧
  ¬ ((RCHeapOps.add_ref 0 1 st).1 = true).
Proof.
  split; [by eexists|]. split; [by eexists|]. split.
  - vm_compute. do 2 constructor.
  - vm_compute. discriminate.
Qed.

(** C3 (amended): adding an edge that already exists between two alive
    objects leaves the whole state unchanged in every collector, however
    often it is repeated; the Mark-Sweep and Cascade/Orphan collectors
    report success, the reference-counting collector reports failure. *)
Theorem add_existing_edge_changes_nothing :
  (∀ st from_id to_id,
     object_exists (heap st) from_id = true →
     object_exists (heap st) to_id = true →
     to_id ∈ outgoing_of (heap st) from_id →
     MarkSweepGC.add_reference from_id to_id st = (true, st) ∧
     CascadeDeletionGC.add_reference from_id to_id st = (true, st) ∧
     ∀ n, Nat.iter n (λ s, (gc_add_reference from_id to_id s).2) st = st) ∧
  (∀ st from to,
     is_Some (objects st !! from) → is_Some (objects st !! to) →
     to ∈ refs_of (objects st) from →
     RCHeapOps.add_ref from to st = (false, st) ∧
     ∀ n, Nat.iter n (λ s, (RCHeapOps.add_ref from to s).2) st = st).
Proof.
  split.
  - intros st from_id to_id Hf Ht He.
    pose proof (gc_add_reference_existing from_id to_id st Hf Ht He) as H.
    split; [done|]. split; [done|].
    induction n as [|n IH]; simpl; [done|]. by rewrite IH, H.
  - intros st from to [src Hsrc] [dst Hdst] He.
    assert (RCHeapOps.add_ref from to st = (false, st)) as H.
    { unfold RCHeapOps.add_ref.
      destruct (bool_decide (from < 0) || bool_decide (to < 0)); [done|].
      destruct (negb (RCHeapOps.object_exists st from)); [done|].
      destruct (negb (RCHeapOps.object_exists st to)); [done|].
      case_bool_decide; [done|].
      unfold ReferenceCounter.add_ref. rewrite Hsrc, Hdst.
      unfold RCObject.has_reference_to. unfold refs_of in He. rewrite Hsrc in He.
      rewrite bool_decide_eq_true_2 by done. by rewrite mkRCHeap_eta. }
    split; [done|].
    induction n as [|n IH]; simpl; [done|]. by rewrite IH, H.
Qed.

Lemma add_existing_edge_changes_nothing_witness :
  ∃ st, ms_scenario = Some st ∧
        MarkSweepGC.add_reference 1 2 st = (true, st) ∧
        CascadeDeletionGC.add_reference 1 2 st = (true, st) ∧
        RCHeapOps.add_ref 1 2 rc_scenario_rooted = (false, rc_scenario_rooted).
Proof.
  eexists. split; [vm_compute; reflexivity|].
  destruct add_existing_edge_changes_nothing as [Hgc Hrc].
  split; [|split].
  - eapply Hgc; [reflexivity|reflexivity|].
    apply (bool_decide_unpack _). vm_compute. exact I.
  - eapply Hgc; [reflexivity|reflexivity|].
    apply (bool_decide_unpack _). vm_compute. exact I.
  - apply Hrc; [by eexists|by eexists|].
    apply (bool_decide_unpack _). vm_compute. exact I.
Defined.

(** ** Self-references *)

(** Counterexample to C5: [add_reference(0, 0)] on a freshly allocated
    object of the Mark-Sweep collector succeeds and records the edge in
    both of the object's own sets. *)
Lemma ms_add_self_reference_inserts_loop :
  ∃ st, snd <$> MarkSweepGC.allocate [] [] 64
                  (gc_init default_max_heap_size default_collection_threshold)
        = Some st ∧
        (MarkSweepGC.add_reference 0 0 st).1 = true ∧
        0 ∈ outgoing_of (heap (MarkSweepGC.add_reference 0 0 st).2) 0 ∧
        0 ∈ incoming_of (heap (MarkSweepGC.add_reference 0 0 st).2) 0.
Proof.
  eexists. split; [vm_compute; reflexivity|]. split; [reflexivity|].
  split; apply (bool_decide_unpack _); vm_compute; exact I.
Qed.

(** C5 (amended): the reference-counting collector rejects
    [add_ref(a, a)] without changing its state and never holds a
    self-loop; in the Mark-Sweep and Cascade/Orphan collectors
    [add_reference(a, a)] on an alive object succeeds and inserts [a] into
    its own outgoing and incoming sets. *)
Theorem self_reference_per_collector :
  (∀ st a, RCHeapOps.add_ref a a st = (false, st)) ∧
  (∀ st, rc_reachable st → ∀ a, a ∉ refs_of (objects st) a) ∧
  (∀ st a, wf_heap (heap st) → object_exists (heap st) a = true →
     (gc_add_reference a a st).1 = true ∧
     a ∈ outgoing_of (heap (gc_add_reference a a st).2) a ∧
     a ∈ incoming_of (heap (gc_add_reference a a st).2) a).
Proof.
  split; [|split].
  - intros st a. unfold RCHeapOps.add_ref.
    destruct (bool_decide (a < 0) || bool_decide (a < 0)); [done|].
    destruct (negb (RCHeapOps.object_exists st a)); [done|].
    by rewrite bool_decide_eq_true_2.
  - intros st Hr a. apply rc_reachable_inv in Hr.
    destruct Hr as (_ & _ & _ & _ & _ & Hself).
    specialize (Hself a). by rewrite eff_refs_empty in Hself.
  - intros st a Hwf Ha. unfold gc_add_reference. rewrite Ha. simpl.
    pose proof Ha as Ha'. apply object_exists_true in Ha' as (o & Ho & Halive).
    rewrite Ho. case_bool_decide as Hin.
    + split; [done|]. simpl. unfold outgoing_of. rewrite Ho. split; [done|].
      destruct (Hwf a o Ho Halive) as [Hout _]. by apply Hout.
    + simpl. split; [done|].
      rewrite outgoing_of_alter, incoming_of_alter, !decide_True by done.
      rewrite lookup_alter_eq, Ho. simpl. set_solver.
Qed.

Lemma self_reference_per_collector_witness :
  ∃ st, snd <$> MarkSweepGC.allocate [] [] 64
                  (gc_init default_max_heap_size default_collection_threshold)
        = Some st ∧
        (gc_add_reference 0 0 st).1 = true ∧
        0 ∈ outgoing_of (heap (gc_add_reference 0 0 st).2) 0 ∧
        0 ∈ incoming_of (heap (gc_add_reference 0 0 st).2) 0.
Proof.
  eexists. split; [vm_compute; reflexivity|].
  destruct self_reference_per_collector as (_ & _ & Hgc).
  apply Hgc; [|reflexivity].
  apply (bool_decide_unpack _). vm_compute. exact I.
Defined.

(** ** Allocation *)

Lemma gc_create_object_allocated size st :
  ids_below st → allocated_in size st (gc_create_object size st).
Proof.
  intros Hids. unfold allocated_in, gc_create_object. simpl.
  split; [done|]. split; [|done].
  destruct (heap st !! next_object_id st) eqn:E; [|done].
  assert (next_object_id st < next_object_id st); [|lia].
  apply Hids. eauto.
Qed.

Lemma allocate_contract_intro (reach : GCState → Prop) allocate collect :
  (∀ st, reach st → gc_inv st) →
  (∀ size st,
     allocate size st =
       if bool_decide (size = 0) || bool_decide (max_heap_size st < size)
       then Some (-1, st)
       else if has_enough_memory st size then Some (gc_create_object size st)
       else match collect st with
            | Some (_, st1) =>
                if has_enough_memory st1 size
                then Some (gc_create_object size st1)
                else Some (-1, st1)
            | None => None
            end) →
  (∀ st, gc_inv st →
     ∃ r, collect st = Some r ∧ gc_inv r.2 ∧
          collection_count r.2 = collection_count st + 1) →
  allocate_contract reach allocate collect.
Proof.
  intros Hreach Halloc Hcollect size st [Hwf Hids]%Hreach. rewrite Halloc. split.
  - intros [->|Hbig].
    + by rewrite bool_decide_eq_true_2.
    + rewrite (bool_decide_eq_true_2 (max_heap_size st < size)) by done.
      by rewrite orb_true_r.
  - intros Hnz Hle.
    rewrite bool_decide_eq_false_2 by done.
    rewrite bool_decide_eq_false_2 by lia. simpl. split.
    + intros ->. eexists. split; [done|]. by apply gc_create_object_allocated.
    + intros ->.
      destruct (Hcollect st) as ([freed st1] & -> & [Hwf1 Hids1] & Hcc); [done|].
      simpl in *. exists freed, st1. split; [done|]. split; [done|]. split.
      * by intros ->.
      * intros ->. eexists. split; [done|]. by apply gc_create_object_allocated.
Qed.

(** C7: in every state a driver can reach, [allocate(size)] of the
    Mark-Sweep and Cascade/Orphan collectors fails ([-1]) and leaves the state as it is when [size == 0] or
    [size > max_heap_size].  For a valid size with enough free memory it
    creates the object under the next id, which was no key of the heap,
    and runs no collection.  With too little free memory it runs
    [collect()] exactly once ([collection_count] grows by one); if memory
    still does not suffice it fails in the collected state with no object
    created, otherwise it creates the object there. *)
Theorem allocate_follows_contract :
  (∀ roots_order sweep_order,
     allocate_contract ms_reachable
       (MarkSweepGC.allocate roots_order sweep_order)
       (MarkSweepGC.collect roots_order sweep_order)) ∧
  (∀ order,
     allocate_contract cd_reachable
       (CascadeDeletionGC.allocate order)
       (CascadeDeletionGC.collect order)).
Proof.
  split.
  - intros ro so. apply allocate_contract_intro.
    + apply ms_reachable_inv.
    + intros size st. unfold MarkSweepGC.allocate.
      by destruct (MarkSweepGC.collect ro so st) as [[? ?]|].
    + intros st Hinv.
      destruct (ms_collect_ok ro so st Hinv) as (r & Hrun & [Hinv' _] & _ & _ & Hcc).
      eauto.
  - intros order. apply allocate_contract_intro.
    + apply cd_reachable_inv.
    + intros size st. unfold CascadeDeletionGC.allocate.
      by destruct (CascadeDeletionGC.collect order st) as [[? ?]|].
    + intros st Hinv.
      destruct (cd_collect_ok order st Hinv) as (r & Hrun & [Hinv' _] & _ & _ & Hcc).
      eauto.
Qed.

(** ** Operation streams and reachable states *)

Lemma reachable_run {S O : Type} (step : O → S → option S) (init : S → Prop) ops :
  ∀ st st', reachable step init st → run_ops step ops st = Some st' →
            reachable step init st'.
Proof.
  induction ops as [|op ops IH]; intros st st' Hr Hrun; simpl in Hrun.
  - by injection Hrun as <-.
  - destruct (step op st) as [st1|] eqn:E; [|done].
    apply (IH st1); [|done]. by eapply reachable_step.
Qed.

(** ** Mark-Sweep deletes exactly the unreachable objects *)

Lemma reachable_from_roots_of_root h k :
  object_exists h k = true → is_root_in h k = true → reachable_from_roots h k.
Proof. intros Hex Hroot. exists k. split; [done|]. split; [done|]. constructor. Qed.

Lemma reachable_from_roots_step h a b :
  reachable_from_roots h a → b ∈ outgoing_of h a → reachable_from_roots h b.
Proof.
  intros (r & Hex & Hroot & Hreach) Hb. exists r. split; [done|]. split; [done|].
  eapply rtc_r; [exact Hreach|exact Hb].
Qed.

(** C2: for every heap whose edges are symmetric among alive objects (as
    in every reachable state), and for every iteration order of the root
    scan and of the sweep, [collect()] of the Mark-Sweep collector returns
    and the objects that die are exactly the alive, non-root objects not
    reachable from an alive root along outgoing edges.  In particular the
    two objects of an unreachable cycle [a→b→a] both die in one
    [collect()], and any other pair of iteration orders leaves the same
    objects alive. *)
Theorem ms_collect_deletes_exactly_the_unreachable ro so st :
  wf_heap (heap st) → enumerates ro (heap st) → enumerates so (heap st) →
  ∃ freed st',
    MarkSweepGC.collect ro so st = Some (freed, st') ∧
    (∀ k, dies (heap st) (heap st') k ↔
          object_exists (heap st) k = true ∧
          is_root_in (heap st) k = false ∧
          ¬ reachable_from_roots (heap st) k) ∧
    (∀ a b, object_exists (heap st) a = true → object_exists (heap st) b = true →
            b ∈ outgoing_of (heap st) a → a ∈ outgoing_of (heap st) b →
            ¬ reachable_from_roots (heap st) a →
            dies (heap st) (heap st') a ∧ dies (heap st) (heap st') b) ∧
    (∀ ro' so', enumerates ro' (heap st) → enumerates so' (heap st) →
       ∃ freed' st'',
         MarkSweepGC.collect ro' so' st = Some (freed', st'') ∧
         ∀ k, object_exists (heap st'') k = object_exists (heap st') k).
Proof.
  intros Hwf Hro Hso.
  assert (∀ ro so, enumerates ro (heap st) → enumerates so (heap st) →
            ∃ r, MarkSweepGC.collect ro so st = Some r ∧
                 (∀ k, object_exists (heap r.2) k = false → object_exists (heap st) k = true →
                       is_root_in (heap st) k = false ∧
                       ¬ reachable_from_roots (heap st) k) ∧
                 (∀ k, object_exists (heap st) k = true →
                       is_root_in (heap st) k = false →
                       ¬ reachable_from_roots (heap st) k →
                       object_exists (heap r.2) k = false) ∧
                 (∀ k, object_exists (heap st) k = false →
                       object_exists (heap r.2) k = false)) as Hgen.
  { clear ro so Hro Hso. intros ro so Hro Hso.
    destruct (ms_collect_heap ro so st Hwf)
      as (hm & r & Hrun & Hshape & Hsound & Hcompl & Hheap & _ & _ & _ & _ & _ & _ & Hev).
    exists r. split; [done|].
    assert (∀ id, id ∈ MarkSweepGC.sweep_candidates so hm → is_Some (hm !! id)) as Hids.
    { intros id Hid. apply sweep_candidates_spec in Hid as (_ & _ & _ & Hex).
      apply object_exists_true in Hex as (o & -> & _). eauto. }
    destruct (sweep_heap_spec (current_step st) _ hm Hids) as (_ & _ & Hmeta & Hdead & _).
    rewrite <- Hheap in Hmeta, Hdead.
    split; [|split].
    - intros k Hk' Hk.
      destruct (decide (k ∈ MarkSweepGC.sweep_candidates so hm)) as [Hin|Hnin].
      + apply sweep_candidates_spec in Hin as (_ & Hm & Hr & _).
        rewrite (shape_is_root_in _ _ _ Hshape) in Hr. split; [done|].
        intros Hreach. apply Hcompl in Hreach; [congruence|].
        intros x Hx. by apply (enumerates_elem_of ro (heap st)).
      + apply Hmeta in Hnin. apply object_exists_meta in Hnin.
        rewrite (shape_object_exists _ _ _ Hshape) in Hnin. congruence.
    - intros k Hk Hr Hnreach.
      assert (k ∈ MarkSweepGC.sweep_candidates so hm) as Hin.
      { apply sweep_candidates_spec. split; [|split; [|split]].
        - apply (enumerates_elem_of so (heap st)); [done|].
          apply object_exists_true in Hk as (o & -> & _). eauto.
        - destruct (marked hm k) eqn:Hm; [|done]. by apply Hsound in Hm.
        - by rewrite (shape_is_root_in _ _ _ Hshape).
        - by rewrite (shape_object_exists _ _ _ Hshape). }
      destruct (Hdead k Hin) as (o & Ho & Halive & _).
      unfold object_exists. by rewrite Ho.
    - intros k Hk. destruct (object_exists (heap r.2) k) eqn:Hk'; [|done].
      destruct (heap_evolves_back _ _ _ k Hev Hk'). congruence. }
  destruct (Hgen ro so Hro Hso) as ([freed st'] & Hrun & Hdies & Hkill & Hstay).
  simpl in *. exists freed, st'. split; [done|].
  assert (∀ k, dies (heap st) (heap st') k ↔
               object_exists (heap st) k = true ∧
               is_root_in (heap st) k = false ∧
               ¬ reachable_from_roots (heap st) k) as Hchar.
  { intros k. unfold dies. split.
    - intros [Hk Hk']. split; [done|]. by apply Hdies.
    - intros (Hk & Hr & Hn). split; [done|]. by apply Hkill. }
  split; [done|]. split.
  - intros a b Ha Hb Hab Hba Hna.
    assert (¬ reachable_from_roots (heap st) b) as Hnb.
    { intros Hrb. apply Hna. by apply (reachable_from_roots_step _ b). }
    assert (∀ x, object_exists (heap st) x = true →
                 ¬ reachable_from_roots (heap st) x → is_root_in (heap st) x = false)
      as Hnr.
    { intros x Hx Hnx. destruct (is_root_in (heap st) x) eqn:E; [|done].
      destruct Hnx. by apply reachable_from_roots_of_root. }
    split; apply Hchar; auto.
  - intros ro' so' Hro' Hso'.
    destruct (Hgen ro' so' Hro' Hso') as ([freed' st''] & Hrun' & Hdies' & Hkill' & Hstay').
    simpl in *. exists freed', st''. split; [done|]. intros k.
    destruct (object_exists (heap st) k) eqn:Hk.
    + destruct (object_exists (heap st') k) eqn:Hk'.
      * destruct (object_exists (heap st'') k) eqn:Hk''; [done|].
        destruct (Hdies' k Hk'' Hk) as [Hr Hn]. rewrite Hkill in Hk'; done.
      * destruct (Hdies k Hk' Hk) as [Hr Hn]. by apply Hkill'.
    + by rewrite Hstay, Hstay'.
Qed.

Lemma ms_collect_deletes_exactly_the_unreachable_witness :
  ∃ freed st',
    MarkSweepGC.collect [0; 1; 2; 3] [3; 2; 1; 0] ms_scenario_state
      = Some (freed, st') ∧
    (∀ k, dies (heap ms_scenario_state) (heap st') k ↔
          object_exists (heap ms_scenario_state) k = true ∧
          is_root_in (heap ms_scenario_state) k = false ∧
          ¬ reachable_from_roots (heap ms_scenario_state) k).
Proof.
  destruct (ms_collect_deletes_exactly_the_unreachable
              [0; 1; 2; 3] [3; 2; 1; 0] ms_scenario_state)
    as (freed & st' & Hrun & Hchar & _).
  - apply (bool_decide_unpack _). vm_compute. exact I.
  - apply (bool_decide_unpack _). vm_compute. exact I.
  - apply (bool_decide_unpack _). vm_compute. exact I.
  - exists freed, st'. split; [exact Hrun|exact Hchar].
Defined.

(** ** Death leaves no dangling edge among the living *)

Lemma gc_step_ok_clean st st' :
  gc_step_ok st st' → death_is_clean st st' ∧ roots_survive st st'.
Proof.
  intros [[Hwf _] Hstep]. split.
  - intros k [Hk Hk']. apply object_exists_true in Hk as (o & Ho & Halive).
    destruct (Hstep k o Ho) as (o' & Ho' & Hobj). split.
    + exists o'. split; [done|].
      destruct Hobj as [[Ha _]|(_ & _ & _ & Hc)]; [|done].
      unfold object_exists in Hk'. rewrite Ho' in Hk'. congruence.
    + intros x Hx. pose proof (proj1 (wf_heap_alt _) Hwf) as Hwf'.
      destruct (Hwf' x Hx) as [Hout Hin].
      split; intros Hkx.
      * destruct (Hout k Hkx). congruence.
      * destruct (Hin k Hkx). congruence.
  - intros k Hk Hroot. apply object_exists_true in Hk as (o & Ho & Halive).
    destruct (Hstep k o Ho) as (o' & Ho' & Hobj).
    unfold is_root_in in Hroot. rewrite Ho in Hroot.
    unfold object_exists. rewrite Ho'.
    destruct Hobj as [[Ha _]|(_ & _ & Hr & _)]; congruence.
Qed.

(** Counterexample to C4: after the Mark-Sweep collection of the
    scenario, the dead object [0] still lists [1] in its own outgoing
    set. *)
Lemma dead_object_keeps_its_own_edges :
  ∃ freed st',
    MarkSweepGC.collect [0; 1; 2; 3] [0; 1; 2; 3] ms_scenario_state
      = Some (freed, st') ∧
    dies (heap ms_scenario_state) (heap st') 0 ∧
    1 ∈ outgoing_of (heap st') 0.
Proof.
  eexists _, _. split; [vm_compute; reflexivity|]. split.
  - split; reflexivity.
  - apply (bool_decide_unpack _). vm_compute. exact I.
Qed.

(** C4 (amended): in every reachable state of the Mark-Sweep and
    Cascade/Orphan collectors every public operation returns, and an
    object that dies during it has its [collection_step] set to the
    current step and is named in no outgoing or incoming set of an object
    that is alive afterwards; the sets stored in dead objects, its own
    included, are left out of the statement.  In the reference-counting
    collector an object erased by an operation is named in no reference
    list that remains. *)
Theorem death_detaches_from_the_living :
  (∀ st op, ms_reachable st →
     ∃ st', ms_step op st = Some st' ∧ death_is_clean st st') ∧
  (∀ st op, cd_reachable st →
     ∃ st', cd_step op st = Some st' ∧ death_is_clean st st') ∧
  (∀ st op, rc_reachable st →
     ∃ st', rc_step op st = Some st' ∧
            ∀ k, is_Some (objects st !! k) → objects st' !! k = None →
                 ∀ x, k ∉ refs_of (objects st') x).
Proof.
  split; [|split].
  - intros st op Hr. apply ms_reachable_inv in Hr.
    destruct (ms_step_spec op st Hr) as (st' & Hrun & Hok).
    exists st'. split; [done|]. by apply gc_step_ok_clean.
  - intros st op Hr. apply cd_reachable_inv in Hr.
    destruct (cd_step_spec op st Hr) as (st' & Hrun & Hok).
    exists st'. split; [done|]. by apply gc_step_ok_clean.
  - intros st op Hr. apply rc_reachable_inv in Hr.
    destruct (rc_step_spec op st Hr) as (st' & Hrun & Hinv).
    exists st'. split; [done|]. intros k _ Hk x Hkx.
    destruct Hinv as (_ & Hcl & _).
    destruct (objects st' !! x) as [ox|] eqn:Hx.
    + assert (k ∈ dom (objects st')) as Hd.
      { apply (Hcl x k); [by apply elem_of_dom_2 in Hx|by rewrite eff_refs_empty]. }
      apply elem_of_dom in Hd as [? ?]. congruence.
    + unfold refs_of in Hkx. rewrite Hx in Hkx. by apply elem_of_nil in Hkx.
Qed.

Lemma ms_scenario_state_reachable : ms_reachable ms_scenario_state.
Proof.
  apply (reachable_run ms_step gc_initial
           [MsAllocate [] [] 64; MsMakeRoot 0; MsAllocate [0] [0] 64;
            MsAllocate [0; 1] [0; 1] 64; MsAllocate [0; 1; 2] [0; 1; 2] 64;
            MsAddReference 0 1; MsAddReference 1 2; MsAddReference 2 3;
            MsAddReference 3 1; MsRemoveRoot 0]
           (gc_init default_max_heap_size default_collection_threshold)).
  - apply reachable_init. by eexists _, _.
  - vm_compute. reflexivity.
Defined.

Lemma cd_scenario_state_reachable : cd_reachable cd_scenario_state.
Proof.
  apply (reachable_run cd_step gc_initial
           [CdAllocate [] 64; CdMakeRoot 0; CdAllocate [0] 64;
            CdAllocate [0; 1] 64; CdAllocate [0; 1; 2] 64;
            CdAddReference 0 1; CdAddReference 1 2; CdAddReference 2 3;
            CdAddReference 3 1; CdRemoveRoot 0]
           (gc_init default_max_heap_size default_collection_threshold)).
  - apply reachable_init. by eexists _, _.
  - vm_compute. reflexivity.
Defined.

Lemma rc_scenario_rooted_reachable : rc_reachable rc_scenario_rooted.
Proof.
  apply (reachable_run rc_step (λ st, st = RCHeapOps.init)
           [RcAllocate 0; RcAddRoot 0; RcAllocate 1; RcAllocate 2; RcAllocate 3;
            RcAddRef 0 1; RcAddRef 1 2; RcAddRef 2 3; RcAddRef 3 1]
           RCHeapOps.init).
  - by apply reachable_init.
  - vm_compute. reflexivity.
Defined.

Lemma death_detaches_from_the_living_witness :
  (∃ st', ms_step (MsCollect [0; 1; 2; 3] [0; 1; 2; 3]) ms_scenario_state = Some st' ∧
          death_is_clean ms_scenario_state st') ∧
  (∃ st', cd_step (CdCollect [0; 1; 2; 3]) cd_scenario_state = Some st' ∧
          death_is_clean cd_scenario_state st') ∧
  (∃ st', rc_step (RcRemoveRoot 0) rc_scenario_rooted = Some st' ∧
          ∀ k, is_Some (objects rc_scenario_rooted !! k) → objects st' !! k = None →
               ∀ x, k ∉ refs_of (objects st') x).
Proof.
  destruct death_detaches_from_the_living as (Hms & Hcd & Hrc).
  split; [|split].
  - apply Hms. exact ms_scenario_state_reachable.
  - apply Hcd. exact cd_scenario_state_reachable.
  - apply Hrc. exact rc_scenario_rooted_reachable.
Defined.

(** ** Root immunity *)

(** C6: in every state a driver can reach, every public operation of
    each collector returns, and an object that is alive with its root flag
    set stays in the heap and alive, whatever its incoming edges are.  For
    the reference-counting collector, whose [remove_root] clears the flag
    and may erase the object in the same call: every root is stored in the
    heap, before and after every operation. *)
Theorem roots_are_never_deleted :
  (∀ st op, ms_reachable st →
     ∃ st', ms_step op st = Some st' ∧ roots_survive st st') ∧
  (∀ st op, cd_reachable st →
     ∃ st', cd_step op st = Some st' ∧ roots_survive st st') ∧
  (∀ st op, rc_reachable st →
     (∀ k, k ∈ roots st → is_Some (objects st !! k)) ∧
     ∃ st', rc_step op st = Some st' ∧
            ∀ k, k ∈ roots st' → is_Some (objects st' !! k)).
Proof.
  split; [|split].
  - intros st op Hr. apply ms_reachable_inv in Hr.
    destruct (ms_step_spec op st Hr) as (st' & Hrun & Hok).
    exists st'. split; [done|]. by apply gc_step_ok_clean.
  - intros st op Hr. apply cd_reachable_inv in Hr.
    destruct (cd_step_spec op st Hr) as (st' & Hrun & Hok).
    exists st'. split; [done|]. by apply gc_step_ok_clean.
  - intros st op Hr. apply rc_reachable_inv in Hr.
    assert (∀ s, rc_inv s → ∀ k, k ∈ roots s → is_Some (objects s !! k)) as Hroots.
    { intros s (_ & _ & _ & Hsub & _) k Hk. apply elem_of_dom. set_solver. }
    split; [by apply Hroots|].
    destruct (rc_step_spec op st Hr) as (st' & Hrun & Hinv).
    exists st'. split; [done|]. by apply Hroots.
Qed.

Lemma roots_are_never_deleted_witness :
  (∃ st', ms_step (MsCollect [0; 1; 2; 3] [0; 1; 2; 3]) ms_scenario_state = Some st' ∧
          roots_survive ms_scenario_state st') ∧
  (∃ st', cd_step (CdCollect [0; 1; 2; 3]) cd_scenario_state = Some st' ∧
          roots_survive cd_scenario_state st') ∧
  ((∀ k, k ∈ roots rc_scenario_rooted → is_Some (objects rc_scenario_rooted !! k)) ∧
   ∃ st', rc_step (RcRemoveRef 0 1) rc_scenario_rooted = Some st' ∧
          ∀ k, k ∈ roots st' → is_Some (objects st' !! k)).
Proof.
  destruct roots_are_never_deleted as (Hms & Hcd & Hrc).
  split; [|split].
  - apply Hms. exact ms_scenario_state_reachable.
  - apply Hcd. exact cd_scenario_state_reachable.
  - apply Hrc. exact rc_scenario_rooted_reachable.
Defined.

(** ** Edge symmetry *)

(** C9: in every state that a driver can bring the Mark-Sweep or the
    Cascade/Orphan collector into, for alive objects [a] and [b] the edge
    [a→b] is in [a.outgoing] iff [a] is in [b.incoming]; the edges of an
    alive object lead only to alive objects; and the number of incoming
    edges of an alive object is the number of alive objects that hold an
    outgoing edge to it. *)
Theorem edges_are_symmetric st :
  ms_reachable st ∨ cd_reachable st →
  (∀ a b, object_exists (heap st) a = true → object_exists (heap st) b = true →
          (b ∈ outgoing_of (heap st) a ↔ a ∈ incoming_of (heap st) b)) ∧
  (∀ a b, object_exists (heap st) a = true →
          b ∈ outgoing_of (heap st) a ∨ b ∈ incoming_of (heap st) a →
          object_exists (heap st) b = true) ∧
  (∀ o, object_exists (heap st) o = true →
        size (incoming_of (heap st) o) = size (alive_referrers (heap st) o)).
Proof.
  intros Hr.
  assert (wf_heap (heap st)) as Hwf.
  { destruct Hr as [Hr|Hr]; [apply ms_reachable_inv in Hr|apply cd_reachable_inv in Hr];
      by destruct Hr. }
  pose proof (proj1 (wf_heap_alt _) Hwf) as Hwf'.
  split; [|split].
  - intros a b Ha Hb. split; intros H.
    + destruct (Hwf' a Ha) as [Hout _]. by apply Hout.
    + destruct (Hwf' b Hb) as [_ Hin]. by apply Hin.
  - intros a b Ha [H|H]; destruct (Hwf' a Ha) as [Hout Hin].
    + by apply Hout.
    + by apply Hin.
  - intros o Ho. f_equal. apply set_eq. intros x.
    unfold alive_referrers. rewrite elem_of_filter, elem_of_dom. split.
    + intros Hx. destruct (Hwf' o Ho) as [_ Hin]. destruct (Hin x Hx) as [Hex Hox].
      split; [done|]. apply object_exists_true in Hex as (? & -> & _). eauto.
    + intros [[Hex Hox] _]. destruct (Hwf' x Hex) as [Hout _]. by apply Hout.
Qed.

Lemma edges_are_symmetric_witness :
  (∀ a b, object_exists (heap ms_scenario_state) a = true →
          object_exists (heap ms_scenario_state) b = true →
          (b ∈ outgoing_of (heap ms_scenario_state) a
           ↔ a ∈ incoming_of (heap ms_scenario_state) b)) ∧
  (∀ a b, object_exists (heap ms_scenario_state) a = true →
          b ∈ outgoing_of (heap ms_scenario_state) a
          ∨ b ∈ incoming_of (heap ms_scenario_state) a →
          object_exists (heap ms_scenario_state) b = true) ∧
  (∀ o, object_exists (heap ms_scenario_state) o = true →
        size (incoming_of (heap ms_scenario_state) o)
        = size (alive_referrers (heap ms_scenario_state) o)).
Proof.
  apply (edges_are_symmetric ms_scenario_state).
  left. exact ms_scenario_state_reachable.
Defined.

(** ** The concrete scenario *)

Lemma enumerates_permutations order (l : list Z) (X : gset Z) :
  NoDup order → list_to_set order = X → NoDup l → list_to_set l = X →
  order ∈ permutations l.
Proof.
  intros Hnd Hset Hndl Hsetl. apply permutations_Permutation.
  apply NoDup_Permutation; [done|done|]. intros x.
  rewrite <- (elem_of_list_to_set (C := gset Z) x l), Hsetl, <- Hset.
  by rewrite elem_of_list_to_set.
Qed.

Lemma forallb_elem_of {A} (p : A → bool) l x :
  forallb p l = true → x ∈ l → p x = true.
Proof.
  intros H Hx. rewrite forallb_forall in H. apply H. by apply list_elem_of_In.
Qed.

(** Counterexample to C1: in the scenario the Cascade/Orphan collector
    does free something, namely the unrooted [r] of 64 bytes. *)
Lemma cascade_collect_frees_the_unrooted_root :
  ∃ freed st',
    CascadeDeletionGC.collect [0; 1; 2; 3] cd_scenario_state = Some (freed, st') ∧
    freed ≠ 0 ∧ dies (heap cd_scenario_state) (heap st') 0.
Proof.
  eexists _, _. split; [vm_compute; reflexivity|]. split; [done|].
  split; reflexivity.
Qed.

(** C1 (amended): in the scenario (root [r] and [a], [b], [c] of 64 bytes,
    edges [r→a], [a→b], [b→c], [c→a], then [r] unrooted) and for every
    iteration order of the heap: Mark-Sweep [collect()] frees 256 bytes
    and all four objects die; Cascade/Orphan [collect()] frees the 64
    bytes of [r] and leaves [a], [b], [c] alive; the reference-counting
    collector erases [r] when it is unrooted, keeps [a], [b], [c], and
    its leak detection reports exactly these three. *)
Theorem scenario_outcomes :
  (ms_scenario = Some ms_scenario_state ∧
   ∀ ro so,
     enumerates ro (heap ms_scenario_state) →
     enumerates so (heap ms_scenario_state) →
     ∃ st', MarkSweepGC.collect ro so ms_scenario_state = Some (256, st') ∧
            ∀ k, k ∈ [0; 1; 2; 3] → object_exists (heap st') k = false) ∧
  (cd_scenario = Some cd_scenario_state ∧
   ∀ order,
     enumerates order (heap cd_scenario_state) →
     ∃ st', CascadeDeletionGC.collect order cd_scenario_state = Some (64, st') ∧
            object_exists (heap st') 0 = false ∧
            ∀ k, k ∈ [1; 2; 3] → object_exists (heap st') k = true) ∧
  (rc_scenario = Some rc_scenario_state ∧
   dom (objects rc_scenario_state) = {[1; 2; 3]} ∧
   ∀ order,
     NoDup order → list_to_set order = dom (objects rc_scenario_state) →
     RCHeapOps.detect_and_log_leaks order rc_scenario_state = order).
Proof.
  split; [|split].
  - split; [vm_compute; reflexivity|]. intros ro so [Hro1 Hro2] [Hso1 Hso2].
    assert (list_to_set [0; 1; 2; 3] =@{gset Z} dom (heap ms_scenario_state)) as Hd.
    { apply (bool_decide_unpack _). vm_compute. exact I. }
    assert (NoDup [0; 1; 2; 3]) as Hnd.
    { apply (bool_decide_unpack _). vm_compute. exact I. }
    pose proof (enumerates_permutations ro _ _ Hro1 Hro2 Hnd Hd) as Hpro.
    pose proof (enumerates_permutations so _ _ Hso1 Hso2 Hnd Hd) as Hpso.
    assert (forallb (λ ro, forallb (ms_scenario_check ms_scenario_state ro)
                             (permutations [0; 1; 2; 3]))
              (permutations [0; 1; 2; 3]) = true) as Hall.
    { vm_compute. reflexivity. }
    pose proof (forallb_elem_of _ _ _ (forallb_elem_of _ _ _ Hall Hpro) Hpso) as Hc.
    unfold ms_scenario_check in Hc.
    destruct (MarkSweepGC.collect ro so ms_scenario_state) as [[freed st']|]; [|done].
    apply andb_true_iff in Hc as [Hf Hk]. apply bool_decide_eq_true_1 in Hf. subst.
    exists st'. split; [done|]. intros k Hin.
    by apply negb_true_iff, (forallb_elem_of _ _ _ Hk).
  - split; [vm_compute; reflexivity|]. intros order [Ho1 Ho2].
    assert (list_to_set [0; 1; 2; 3] =@{gset Z} dom (heap cd_scenario_state)) as Hd.
    { apply (bool_decide_unpack _). vm_compute. exact I. }
    assert (NoDup [0; 1; 2; 3]) as Hnd.
    { apply (bool_decide_unpack _). vm_compute. exact I. }
    pose proof (enumerates_permutations order _ _ Ho1 Ho2 Hnd Hd) as Hp.
    assert (forallb (cd_scenario_check cd_scenario_state)
              (permutations [0; 1; 2; 3]) = true) as Hall.
    { vm_compute. reflexivity. }
    pose proof (forallb_elem_of _ _ _ Hall Hp) as Hc.
    unfold cd_scenario_check in Hc.
    destruct (CascadeDeletionGC.collect order cd_scenario_state)
      as [[freed st']|]; [|done].
    apply andb_true_iff in Hc as [Hc Hk]. apply andb_true_iff in Hc as [Hf H0].
    apply bool_decide_eq_true_1 in Hf. subst.
    exists st'. split; [done|]. split; [by apply negb_true_iff|].
    intros k Hin. by apply (forallb_elem_of _ _ _ Hk).
  - split; [vm_compute; reflexivity|].
    assert (dom (objects rc_scenario_state) = {[1; 2; 3]}) as Hdom.
    { apply (bool_decide_unpack _). vm_compute. exact I. }
    split; [done|]. intros order Ho1 Ho2.
    assert (list_to_set [1; 2; 3] =@{gset Z} dom (objects rc_scenario_state)) as Hd.
    { apply (bool_decide_unpack _). vm_compute. exact I. }
    assert (NoDup [1; 2; 3]) as Hnd.
    { apply (bool_decide_unpack _). vm_compute. exact I. }
    pose proof (enumerates_permutations order _ _ Ho1 Ho2 Hnd Hd) as Hp.
    assert (forallb (rc_scenario_check rc_scenario_state)
              (permutations [1; 2; 3]) = true) as Hall.
    { vm_compute. reflexivity. }
    pose proof (forallb_elem_of _ _ _ Hall Hp) as Hc.
    by apply bool_decide_eq_true_1 in Hc.
Qed.

Lemma scenario_outcomes_witness :
  (∃ st', MarkSweepGC.collect [3; 1; 0; 2] [2; 0; 3; 1] ms_scenario_state
            = Some (256, st') ∧
          ∀ k, k ∈ [0; 1; 2; 3] → object_exists (heap st') k = false) ∧
  (∃ st', CascadeDeletionGC.collect [3; 2; 1; 0] cd_scenario_state = Some (64, st') ∧
          object_exists (heap st') 0 = false ∧
          ∀ k, k ∈ [1; 2; 3] → object_exists (heap st') k = true) ∧
  RCHeapOps.detect_and_log_leaks [2; 3; 1] rc_scenario_state = [2; 3; 1].
Proof.
  destruct scenario_outcomes as ((_ & Hms) & (_ & Hcd) & (_ & _ & Hrc)).
  split; [|split].
  - apply Hms; apply (bool_decide_unpack _); vm_compute; exact I.
  - apply Hcd; apply (bool_decide_unpack _); vm_compute; exact I.
  - apply Hrc; apply (bool_decide_unpack _); vm_compute; exact I.
Defined.

(** ** The two deletion paths of the cascade collector *)

(** The scan of [collect] and [should_be_deleted] test the same orphan
    predicate. *)
Lemma should_be_deleted_orphan h k :
  CascadeDeletionGC.should_be_deleted h k = true ↔
  ∃ o, h !! k = Some o ∧
       HeapObject.is_alive o && negb (HeapObject.is_root o)
       && bool_decide (HeapObject.get_incoming_reference_count o = 0) = true.
Proof.
  unfold CascadeDeletionGC.should_be_deleted, object_exists.
  destruct (h !! k) as [o|]; [|split; [done|by intros (? & ? & _)]].
  split.
  - intros H. exists o. split; [done|].
    by destruct (HeapObject.is_alive o), (HeapObject.is_root o).
  - intros (o' & Ho' & H). injection Ho' as <-.
    by destruct (HeapObject.is_alive o), (HeapObject.is_root o).
Qed.

Lemma filter_unique_singleton (p : Z → bool) l x :
  NoDup l → x ∈ l → p x = true → (∀ y, y ∈ l → p y = true → y = x) →
  List.filter p l = [x].
Proof.
  induction l as [|y l IH]; intros Hnd Hx Hpx Huniq; [by apply elem_of_nil in Hx|].
  apply NoDup_cons in Hnd as [Hy Hnd]. simpl.
  apply elem_of_cons in Hx as [->|Hx].
  - rewrite Hpx. f_equal. clear IH.
    induction l as [|z l IH]; [done|]. simpl.
    destruct (p z) eqn:Hpz.
    + assert (z = y) as -> by (apply Huniq; [right; left|done]).
      destruct Hy. left.
    + apply IH.
      * set_solver.
      * by apply NoDup_cons in Hnd as [_ ?].
      * intros w Hw Hpw. apply Huniq; [|done].
        apply elem_of_cons in Hw as [->|Hw]; [left|right; by right].
  - destruct (p y) eqn:Hpy.
    + assert (y = x) as -> by (apply Huniq; [left|done]). done.
    + apply IH; [done|done|done|]. intros w Hw Hpw. apply Huniq; [by right|done].
Qed.

Lemma wrap64_range x : 0 ≤ wrap64 x < size_t_modulus.
Proof. unfold wrap64, size_t_modulus. apply Z.mod_pos_bound. lia. Qed.

Lemma wrap64_small x : 0 ≤ x < size_t_modulus → wrap64 x = x.
Proof. intros H. unfold wrap64. by apply Z.mod_small. Qed.

Lemma cascade_loop_freed_range fuel step :
  ∀ queue processed h freed deleted r,
    0 ≤ freed < size_t_modulus →
    CascadeDeletionGC.cascade_loop fuel step queue processed h freed deleted
      = Some r →
    0 ≤ r.1.2 < size_t_modulus.
Proof.
  induction fuel as [|fuel IH]; intros queue processed h freed deleted r Hf Hrun.
  - destruct queue; simpl in Hrun; [|done]. by injection Hrun as <-.
  - destruct queue as [|cur queue]; [simpl in Hrun; by injection Hrun as <-|].
    cbn [CascadeDeletionGC.cascade_loop] in Hrun.
    case_bool_decide; [by eapply IH|].
    destruct (object_exists h cur); [|by eapply IH].
    destruct (h !! cur) as [obj|]; [|by eapply IH].
    destruct (HeapObject.is_root obj); [by eapply IH|].
    destruct (foldl _ _ _) as [h2 q2].
    eapply IH; [|exact Hrun]. apply wrap64_range.
Qed.

(** Counterexample to C8: with a second orphan [2] in the heap, the
    reactive path ([remove_reference(0, 1)], that is the cascade from [1])
    deletes [1] only and frees 64 bytes, while [collect()] on the same
    graph deletes [1] and [2] and frees 128 bytes. *)
Lemma reactive_and_batch_paths_differ :
  ∃ st1 st2,
    CascadeDeletionGC.remove_reference 0 1 cd_two_orphans_before = Some (true, st1) ∧
    CascadeDeletionGC.cascade_delete 1 cd_two_orphans = Some (64, st1) ∧
    CascadeDeletionGC.collect [0; 1; 2] cd_two_orphans = Some (128, st2) ∧
    object_exists (heap st1) 2 = true ∧
    object_exists (heap st2) 2 = false.
Proof.
  eexists _, _. split; [vm_compute; reflexivity|].
  split; [vm_compute; reflexivity|]. split; [vm_compute; reflexivity|].
  split; reflexivity.
Qed.

(** C8 (amended): let an edge [from→to] between alive objects be removed
    and let [to] thereby become an orphan, the only one of the heap.  Then
    the reactive path ([remove_reference], which cascades from [to]) and
    the batch path ([collect()] run on the graph without the edge) both
    return, free the same number of bytes and leave the same heap, hence
    delete the same objects. *)
Theorem reactive_and_batch_paths_agree_on_single_orphan order from_id to_id st :
  wf_heap (heap st) →
  object_exists (heap st) from_id = true →
  object_exists (heap st) to_id = true →
  to_id ∈ outgoing_of (heap st) from_id →
  let st0 := set_heap (detach_edge from_id to_id (heap st)) st in
  enumerates order (heap st0) →
  CascadeDeletionGC.should_be_deleted (heap st0) to_id = true →
  (∀ k, k ∈ CascadeDeletionGC.orphans order (heap st0) → k = to_id) →
  ∃ freed st1 st2,
    CascadeDeletionGC.remove_reference from_id to_id st = Some (true, st1) ∧
    CascadeDeletionGC.cascade_delete to_id st0 = Some (freed, st1) ∧
    CascadeDeletionGC.collect order st0 = Some (freed, st2) ∧
    heap st2 = heap st1 ∧
    ∀ k, dies (heap st0) (heap st1) k ↔ dies (heap st0) (heap st2) k.
Proof.
  intros Hwf Hf Ht He st0 Henum Hsbd Huniq.
  assert (wf_heap (heap st0)) as Hwf0 by (by apply wf_heap_detach_edge).
  destruct (cascade_delete_spec (heap st0) to_id st0 Hwf0 (heap_evolves_refl _ _))
    as ([freed st1] & Hrun & _).
  exists freed, st1.
  assert (object_exists (heap st0) to_id = true) as Ht0.
  { unfold CascadeDeletionGC.should_be_deleted in Hsbd.
    by destruct (object_exists (heap st0) to_id). }
  assert (0 ≤ freed < size_t_modulus) as Hrange.
  { unfold CascadeDeletionGC.cascade_delete in Hrun. rewrite Ht0 in Hrun.
    destruct (CascadeDeletionGC.cascade_loop _ _ _ _ _ _ _) as [[[h f] d]|] eqn:E;
      [|done].
    injection Hrun as <- _.
    apply (cascade_loop_freed_range _ _ _ _ _ _ _ _ ltac:(done) E). }
  assert (CascadeDeletionGC.orphans order (heap st0) = [to_id]) as Horph.
  { apply should_be_deleted_orphan in Hsbd as (o & Ho & Hp).
    unfold CascadeDeletionGC.orphans, keys_where.
    apply filter_unique_singleton.
    - by destruct Henum.
    - apply (enumerates_elem_of order (heap st0)); [done|]. eauto.
    - by rewrite Ho.
    - intros y Hy Hpy. apply Huniq. unfold CascadeDeletionGC.orphans.
      apply elem_of_keys_where. split; [done|].
      destruct (heap st0 !! y) as [oy|]; [|done]. eauto. }
  eexists. split; [|split; [exact Hrun|split; [|split]]].
  - unfold CascadeDeletionGC.remove_reference. rewrite Hf, Ht. simpl.
    rewrite bool_decide_eq_true_2 by done. simpl.
    fold st0. change (detach_edge from_id to_id (heap st)) with (heap st0).
    by rewrite Hsbd, Hrun.
  - unfold CascadeDeletionGC.collect. rewrite Horph.
    cbn [CascadeDeletionGC.cascade_orphans]. rewrite Ht0, Hrun.
    rewrite Z.add_0_l, wrap64_small by done. reflexivity.
  - reflexivity.
  - done.
Qed.

Lemma reactive_and_batch_paths_agree_witness :
  ∃ freed st1 st2,
    CascadeDeletionGC.remove_reference 0 1 cd_single_orphan_before
      = Some (true, st1) ∧
    CascadeDeletionGC.cascade_delete 1
      (set_heap (detach_edge 0 1 (heap cd_single_orphan_before))
                cd_single_orphan_before)
      = Some (freed, st1) ∧
    CascadeDeletionGC.collect [0; 1]
      (set_heap (detach_edge 0 1 (heap cd_single_orphan_before))
                cd_single_orphan_before)
      = Some (freed, st2) ∧
    heap st2 = heap st1.
Proof.
  destruct (reactive_and_batch_paths_agree_on_single_orphan
              [0; 1] 0 1 cd_single_orphan_before)
    as (freed & st1 & st2 & H1 & H2 & H3 & H4 & _).
  - apply (bool_decide_unpack _). vm_compute. exact I.
  - reflexivity.
  - reflexivity.
  - apply (bool_decide_unpack _). vm_compute. exact I.
  - apply (bool_decide_unpack _). vm_compute. exact I.
  - reflexivity.
  - intros k Hk.
    assert (CascadeDeletionGC.orphans [0; 1]
              (heap (set_heap (detach_edge 0 1 (heap cd_single_orphan_before))
                              cd_single_orphan_before)) = [1]) as Ho.
    { vm_compute. reflexivity. }
    rewrite Ho in Hk. apply list_elem_of_singleton in Hk. exact Hk.
  - exists freed, st1, st2. auto.
Defined.

Lemma ms_small_heap_reachable : ms_reachable ms_small_heap.
Proof.
  apply (reachable_run ms_step gc_initial [MsAllocate [] [] 64] (gc_init 100 80)).
  - apply reachable_init. by eexists _, _.
  - vm_compute. reflexivity.
Defined.

Lemma allocate_follows_contract_witness :
  ∃ freed st1,
    MarkSweepGC.collect [0] [0] ms_small_heap = Some (freed, st1) ∧
    collection_count st1 = collection_count ms_small_heap + 1 ∧
    (has_enough_memory st1 64 = false →
       MarkSweepGC.allocate [0] [0] 64 ms_small_heap = Some (-1, st1)) ∧
    (has_enough_memory st1 64 = true →
       ∃ r, MarkSweepGC.allocate [0] [0] 64 ms_small_heap = Some r ∧
            allocated_in 64 st1 r).
Proof.
  destruct allocate_follows_contract as [Hms _].
  destruct (Hms [0] [0] 64 ms_small_heap ms_small_heap_reachable) as [_ Hvalid].
  destruct Hvalid as [_ Hlow]; [done|vm_compute; discriminate|].
  apply Hlow. vm_compute. reflexivity.
Defined.

(** * Further properties of the collectors *)

(** ** The states of the examples *)

Lemma ms_live_and_garbage_reachable : ms_reachable ms_live_and_garbage.
Proof.
  apply (reachable_run ms_step gc_initial ms_live_and_garbage_ops (gc_init 1000 800)).
  - apply reachable_init. by eexists _, _.
  - vm_compute. reflexivity.
Defined.

Lemma cd_live_and_garbage_reachable : cd_reachable cd_live_and_garbage.
Proof.
  apply (reachable_run cd_step gc_initial cd_live_and_garbage_ops (gc_init 1000 800)).
  - apply reachable_init. by eexists _, _.
  - vm_compute. reflexivity.
Defined.

Lemma rc_scenario_with_fresh_reachable : rc_reachable rc_scenario_with_fresh.
Proof.
  apply (reachable_step rc_step _ rc_scenario_rooted (RcAllocate 4)).
  - exact rc_scenario_rooted_reachable.
  - vm_compute. reflexivity.
Defined.

(** ** Memory and object counts as sums over the heap *)

Lemma heap_sum_empty c : heap_sum c ∅ = 0.
Proof. unfold heap_sum. by rewrite map_fold_empty. Qed.

Lemma heap_sum_insert_None c h k o :
  h !! k = None → heap_sum c (<[k := o]> h) = heap_sum c h + c o.
Proof.
  intros Hk. unfold heap_sum.
  rewrite map_fold_insert_L; [done| |done].
  intros. lia.
Qed.

Lemma heap_sum_delete c h k o :
  h !! k = Some o → heap_sum c h = heap_sum c (delete k h) + c o.
Proof.
  intros Hk. rewrite <- (insert_delete_id h k o) at 1 by done.
  apply heap_sum_insert_None. apply lookup_delete_eq.
Qed.

Lemma heap_sum_alter c f h k o :
  h !! k = Some o →
  heap_sum c (alter f k h) = heap_sum c h - c o + c (f o).
Proof.
  intros Hk.
  rewrite (heap_sum_delete c h k o Hk).
  rewrite (heap_sum_delete c (alter f k h) k (f o)).
  2:{ rewrite lookup_alter_eq, Hk. done. }
  rewrite delete_alter_eq. lia.
Qed.

Lemma heap_sum_fmap c (g : HeapObject.t → HeapObject.t) h :
  heap_sum c (g <$> h) = heap_sum (c ∘ g) h.
Proof.
  induction h as [|k o h Hk IH] using map_ind.
  - by rewrite fmap_empty, !heap_sum_empty.
  - rewrite fmap_insert.
    rewrite !heap_sum_insert_None; [|done|by rewrite lookup_fmap, Hk].
    rewrite IH. done.
Qed.

Lemma heap_sum_ext c h h' :
  (∀ k, c <$> h' !! k = c <$> h !! k) → heap_sum c h' = heap_sum c h.
Proof.
  revert h'. induction h as [|k o h Hk IH] using map_ind; intros h' Hext.
  - assert (h' = ∅) as ->; [|done].
    apply map_empty. intros k. specialize (Hext k).
    rewrite lookup_empty in Hext. by destruct (h' !! k).
  - pose proof (Hext k) as Hk'. rewrite lookup_insert_eq in Hk'.
    destruct (h' !! k) as [o'|] eqn:Ho'; [|done].
    injection Hk' as Hc.
    rewrite (heap_sum_delete c h' k o' Ho').
    rewrite heap_sum_insert_None by done.
    rewrite (IH (delete k h')); [lia|].
    intros x. destruct (decide (x = k)) as [->|Hne].
    + by rewrite lookup_delete_eq, Hk.
    + rewrite lookup_delete_ne by done. specialize (Hext x).
      by rewrite lookup_insert_ne in Hext.
Qed.

Lemma heap_sum_le c h h' :
  dom h' = dom h →
  (∀ k o o', h !! k = Some o → h' !! k = Some o' → c o' ≤ c o) →
  heap_sum c h' ≤ heap_sum c h.
Proof.
  revert h'. induction h as [|k o h Hk IH] using map_ind; intros h' Hdom Hle.
  - rewrite dom_empty_L in Hdom. apply dom_empty_inv_L in Hdom as ->. done.
  - assert (is_Some (h' !! k)) as [o' Ho'].
    { apply elem_of_dom. rewrite Hdom, dom_insert_L. set_solver. }
    rewrite (heap_sum_delete c h' k o' Ho').
    rewrite heap_sum_insert_None by done.
    pose proof (Hle k o o' (lookup_insert_eq _ _ _) Ho').
    enough (heap_sum c (delete k h') ≤ heap_sum c h) by lia.
    apply IH.
    + rewrite dom_delete_L, Hdom, dom_insert_L.
      apply not_elem_of_dom in Hk. set_solver.
    + intros x ox ox' Hx Hx'.
      destruct (decide (x = k)) as [->|Hne]; [by rewrite lookup_delete_eq in Hx'|].
      rewrite lookup_delete_ne in Hx' by done.
      apply (Hle x); [by rewrite lookup_insert_ne|done].
Qed.

Lemma get_total_memory_sum st :
  get_total_memory st = wrap64 (heap_sum alive_size (heap st)).
Proof.
  unfold get_total_memory. f_equal.
  induction (heap st) as [|k o h Hk IH] using map_ind.
  - by rewrite heap_sum_empty, map_fold_empty.
  - rewrite heap_sum_insert_None by done.
    rewrite map_fold_insert_L; [|intros j1 j2 z1 z2 y _ _ _; cbv beta; destruct (HeapObject.is_alive z1), (HeapObject.is_alive z2); lia|done].
    rewrite IH. unfold alive_size. destruct (HeapObject.is_alive o); lia.
Qed.

Lemma get_alive_objects_count_sum st :
  get_alive_objects_count st = heap_sum alive_one (heap st).
Proof.
  unfold get_alive_objects_count.
  induction (heap st) as [|k o h Hk IH] using map_ind.
  - by rewrite heap_sum_empty, map_fold_empty.
  - rewrite heap_sum_insert_None by done.
    rewrite map_fold_insert_L; [|intros j1 j2 z1 z2 y _ _ _; cbv beta; destruct (HeapObject.is_alive z1), (HeapObject.is_alive z2); lia|done].
    rewrite IH. unfold alive_one. destruct (HeapObject.is_alive o); lia.
Qed.

Lemma meta_alive_size o o' : meta o = meta o' → alive_size o = alive_size o'.
Proof.
  intros H. unfold alive_size. rewrite (meta_alive _ _ H).
  assert (HeapObject.size o = HeapObject.size o') as -> by (unfold meta in H; congruence).
  done.
Qed.

Lemma meta_alive_one o o' : meta o = meta o' → alive_one o = alive_one o'.
Proof. intros H. unfold alive_one. by rewrite (meta_alive _ _ H). Qed.

Lemma heap_sum_meta c h h' :
  (∀ o o', meta o = meta o' → c o = c o') →
  (∀ k, meta <$> h' !! k = meta <$> h !! k) →
  heap_sum c h' = heap_sum c h.
Proof.
  intros Hc Hm. apply heap_sum_ext. intros k. specialize (Hm k).
  destruct (h' !! k) as [o'|], (h !! k) as [o|]; try done.
  simpl in *. f_equal. apply Hc. congruence.
Qed.

Lemma heap_sum_shape c h h' :
  (∀ o, c (HeapObject.unmark o) = c o) →
  shape h' = shape h → heap_sum c h' = heap_sum c h.
Proof.
  intros Hc Hs. apply heap_sum_ext. intros k.
  pose proof (shape_lookup h h' k Hs) as Hk.
  destruct (h' !! k) as [o'|], (h !! k) as [o|]; try done.
  simpl in *. f_equal. rewrite <- (Hc o'), <- (Hc o). congruence.
Qed.

(** Deleting an alive object takes its size and itself off the sums. *)
Lemma heap_sum_delete_object c step id h o :
  (∀ o o', meta o = meta o' → c o = c o') →
  (∀ o, c (HeapObject.kill step o) = 0) →
  h !! id = Some o →
  heap_sum c (delete_object step id h) = heap_sum c h - c o.
Proof.
  intros Hc Hkill Ho. unfold delete_object.
  set (h2 := detach_targets id (detach_sources id h)).
  assert (∀ k, meta <$> h2 !! k = meta <$> h !! k) as Hm.
  { intros k. unfold h2. by rewrite detach_targets_meta, detach_sources_meta. }
  pose proof (Hm id) as Hid. rewrite Ho in Hid.
  destruct (h2 !! id) as [o2|] eqn:Ho2; [|done]. simpl in Hid.
  rewrite (heap_sum_alter c _ h2 id o2 Ho2), Hkill.
  rewrite (heap_sum_meta c h h2 Hc Hm).
  rewrite (Hc o2 o); [lia|congruence].
Qed.

Lemma alive_size_kill step o : alive_size (HeapObject.kill step o) = 0.
Proof. done. Qed.

Lemma alive_one_kill step o : alive_one (HeapObject.kill step o) = 0.
Proof. done. Qed.

Lemma wrap64_add_l x y : wrap64 (wrap64 x + y) = wrap64 (x + y).
Proof. unfold wrap64. by rewrite Zplus_mod_idemp_l. Qed.

Lemma wrap64_idemp x : wrap64 (wrap64 x) = wrap64 x.
Proof. unfold wrap64, size_t_modulus. by rewrite Z.mod_mod. Qed.

(** The deletion loop of [sweep_phase] adds to [freed_memory] the bytes
    it takes off the heap, and deletes as many objects as it visits. *)
Lemma sweep_fold_account step ids :
  ∀ h freed,
    NoDup ids → (∀ id, id ∈ ids → object_exists h id = true) →
    let r := foldl (MarkSweepGC.sweep_object step) (h, freed) ids in
    wrap64 r.2 = wrap64 (freed + heap_sum alive_size h - heap_sum alive_size r.1) ∧
    (ids ≠ [] → r.2 = wrap64 r.2) ∧
    heap_sum alive_one h - heap_sum alive_one r.1 = Z.of_nat (length ids).
Proof.
  induction ids as [|id ids IH]; intros h freed Hnd Hex; cbn zeta.
  - cbn [foldl length]. unfold sweep_heap. cbn [foldl].
    split; [f_equal; simpl; lia|]. split; [done|]. simpl; lia.
  - apply NoDup_cons in Hnd as [Hid Hnd].
    cbn [foldl].
    assert (object_exists h id = true) as Hx by (apply Hex; left).
    apply object_exists_true in Hx as (o & Ho & Halive).
    assert (MarkSweepGC.sweep_object step (h, freed) id
            = (delete_object step id h, wrap64 (freed + HeapObject.size o))) as ->.
    { unfold MarkSweepGC.sweep_object. rewrite Ho. done. }
    destruct (IH (delete_object step id h) (wrap64 (freed + HeapObject.size o)) Hnd)
      as (Hfreed & Hwr & Hcnt).
    { intros x Hxin. rewrite delete_object_exists.
      destruct (decide (x = id)) as [->|]; [done|]. apply Hex. by right. }
    rewrite (heap_sum_delete_object alive_size step id h o
               meta_alive_size (alive_size_kill step) Ho) in Hfreed.
    rewrite (heap_sum_delete_object alive_one step id h o
               meta_alive_one (alive_one_kill step) Ho) in Hcnt.
    assert (alive_size o = HeapObject.size o) as Hsz
      by (unfold alive_size; by rewrite Halive).
    assert (alive_one o = 1) as Hone by (unfold alive_one; by rewrite Halive).
    split; [|split].
    + rewrite Hfreed. rewrite Hsz.
      rewrite <- Z.add_sub_assoc, wrap64_add_l. f_equal. lia.
    + intros _. destruct ids as [|id' ids'].
      * cbn [foldl snd]. by rewrite wrap64_idemp.
      * by apply Hwr.
    + cbn [length]. lia.
Qed.

Lemma sweep_fold_heap step ids :
  ∀ h freed, (foldl (MarkSweepGC.sweep_object step) (h, freed) ids).1
             = sweep_heap step ids h.
Proof.
  unfold sweep_heap.
  induction ids as [|id ids IH]; intros h freed; [done|].
  cbn [foldl]. unfold MarkSweepGC.sweep_object at 2 4.
  destruct (h !! id) as [o|]; [|apply IH].
  rewrite IH. symmetry. apply IH.
Qed.

Lemma alive_size_unmark o : alive_size (HeapObject.unmark o) = alive_size o.
Proof. done. Qed.

Lemma alive_one_unmark o : alive_one (HeapObject.unmark o) = alive_one o.
Proof. done. Qed.

Lemma NoDup_keys_where p order h : NoDup order → NoDup (keys_where p order h).
Proof.
  intros Hnd. unfold keys_where.
  apply NoDup_ListNoDup, List.NoDup_filter. by apply NoDup_ListNoDup.
Qed.

Lemma ms_collect_account ro so st :
  wf_heap (heap st) → NoDup so →
  ∃ freed st',
    MarkSweepGC.collect ro so st = Some (freed, st') ∧
    freed = wrap64 (heap_sum alive_size (heap st) - heap_sum alive_size (heap st')) ∧
    total_objects_collected st' - total_objects_collected st
      = heap_sum alive_one (heap st) - heap_sum alive_one (heap st') ∧
    total_memory_freed st' = wrap64 (total_memory_freed st + freed) ∧
    collection_count st' = collection_count st + 1 ∧
    next_object_id st' = next_object_id st ∧
    max_heap_size st' = max_heap_size st ∧
    collection_threshold st' = collection_threshold st ∧
    current_step st' = current_step st.
Proof.
  intros Hwf Hnd.
  destruct (mark_phase_spec ro (heap st) (wf_heap_out_closed _ Hwf))
    as (hm & Hmark & Hshape & _ & _).
  unfold MarkSweepGC.collect. rewrite Hmark.
  unfold MarkSweepGC.sweep_phase. cbn [heap set_heap current_step].
  set (ids := MarkSweepGC.sweep_candidates so hm).
  destruct (sweep_fold_account (current_step st) ids hm 0) as (Hfreed & Hwr & Hcnt).
  { by apply NoDup_keys_where. }
  { intros id Hid. by apply sweep_candidates_spec in Hid as (_ & _ & _ & ?). }
  destruct (foldl _ _ ids) as [h' freed] eqn:Hfold. cbn [fst snd] in *.
  eexists _, _. split; [reflexivity|]. cbn.
  rewrite (heap_sum_shape alive_size _ _ alive_size_unmark Hshape) in Hfreed.
  rewrite (heap_sum_shape alive_one _ _ alive_one_unmark Hshape) in Hcnt.
  rewrite Z.add_0_l in Hfreed.
  split; [|split; [lia|done]].
  rewrite <- Hfreed.
  destruct ids as [|i ids']; [|by apply Hwr].
  cbn [foldl] in Hfold. by injection Hfold as <- <-.
Qed.

(** ** Cascade: what the worklist loop adds to its counters *)

Lemma cascade_loop_account fuel step :
  ∀ queue processed h freed deleted r,
    CascadeDeletionGC.cascade_loop fuel step queue processed h freed deleted
      = Some r →
    wrap64 r.1.2
      = wrap64 (freed + heap_sum alive_size h - heap_sum alive_size r.1.1) ∧
    r.2 - deleted = heap_sum alive_one h - heap_sum alive_one r.1.1.
Proof.
  induction fuel as [|fuel IH]; intros queue processed h freed deleted r Hrun.
  - destruct queue; simpl in Hrun; [|done]. injection Hrun as <-. cbn.
    split; [f_equal; lia|lia].
  - destruct queue as [|cur queue].
    { simpl in Hrun. injection Hrun as <-. cbn. split; [f_equal; lia|lia]. }
    cbn [CascadeDeletionGC.cascade_loop] in Hrun.
    case_bool_decide; [by eapply IH|].
    destruct (object_exists h cur) eqn:Hex; [|by eapply IH].
    destruct (h !! cur) as [obj|] eqn:Hobj; [|by eapply IH].
    destruct (HeapObject.is_root obj); [by eapply IH|].
    pose proof (detach_target_push_fold cur
                  (set_iter (outgoing_of (detach_sources cur h) cur))
                  (detach_sources cur h) queue) as [Hh _].
    destruct (foldl _ _ _) as [h2 q2]. cbn [fst] in Hh. subst h2.
    apply IH in Hrun as [Hf Hd].
    change (alter (HeapObject.kill step) cur
              (foldl (erase_incoming_of cur) (detach_sources cur h)
                 (set_iter (outgoing_of (detach_sources cur h) cur))))
      with (delete_object step cur h) in *.
    pose proof (heap_sum_delete_object alive_size step cur h obj
                  meta_alive_size (alive_size_kill step) Hobj) as Hs.
    pose proof (heap_sum_delete_object alive_one step cur h obj
                  meta_alive_one (alive_one_kill step) Hobj) as Hc.
    assert (HeapObject.is_alive obj = true) as Halive.
    { unfold object_exists in Hex. by rewrite Hobj in Hex. }
    unfold alive_size in Hs at 3. unfold alive_one in Hc at 3.
    rewrite Halive in Hs, Hc.
    split; [|lia].
    rewrite Hf, Hs. rewrite <- Z.add_sub_assoc, wrap64_add_l. f_equal. lia.
Qed.

Lemma cascade_delete_account object_id st r :
  CascadeDeletionGC.cascade_delete object_id st = Some r →
  r.1 = wrap64 (heap_sum alive_size (heap st) - heap_sum alive_size (heap r.2)) ∧
  total_objects_collected r.2 - total_objects_collected st
    = heap_sum alive_one (heap st) - heap_sum alive_one (heap r.2) ∧
  total_memory_freed r.2 = total_memory_freed st ∧
  collection_count r.2 = collection_count st ∧
  next_object_id r.2 = next_object_id st ∧
  max_heap_size r.2 = max_heap_size st ∧
  collection_threshold r.2 = collection_threshold st ∧
  current_step r.2 = current_step st.
Proof.
  unfold CascadeDeletionGC.cascade_delete.
  destruct (object_exists (heap st) object_id).
  2:{ intros [= <-]. cbn. rewrite Z.sub_diag. split; [done|]. split; [lia|done]. }
  destruct (CascadeDeletionGC.cascade_loop _ _ _ _ _ _ _) as [[[h fr] del]|] eqn:Hloop;
    [|done].
  intros [= <-]. cbn.
  pose proof (cascade_loop_account _ _ _ _ _ _ _ _ Hloop) as [Hf Hd].
  pose proof (cascade_loop_freed_range _ _ _ _ _ _ _ _ ltac:(done) Hloop) as Hr.
  cbn in Hf, Hd, Hr.
  split; [|split; [lia|done]].
  rewrite <- (wrap64_small fr) by done. rewrite Hf. f_equal.
Qed.

Lemma cascade_orphans_account ids :
  ∀ total st r,
    CascadeDeletionGC.cascade_orphans ids total st = Some r →
    wrap64 r.1
      = wrap64 (total + heap_sum alive_size (heap st) - heap_sum alive_size (heap r.2)) ∧
    (total = wrap64 total → r.1 = wrap64 r.1) ∧
    total_objects_collected r.2 - total_objects_collected st
      = heap_sum alive_one (heap st) - heap_sum alive_one (heap r.2) ∧
    total_memory_freed r.2 = total_memory_freed st ∧
    collection_count r.2 = collection_count st ∧
    next_object_id r.2 = next_object_id st ∧
    max_heap_size r.2 = max_heap_size st ∧
    collection_threshold r.2 = collection_threshold st ∧
    current_step r.2 = current_step st.
Proof.
  induction ids as [|id ids IH]; intros total st r Hrun.
  - simpl in Hrun. injection Hrun as <-. cbn.
    split; [f_equal; lia|]. split; [done|]. split; [lia|done].
  - cbn [CascadeDeletionGC.cascade_orphans] in Hrun.
    destruct (object_exists (heap st) id); [|by apply IH].
    destruct (CascadeDeletionGC.cascade_delete id st) as [[freed st1]|] eqn:Hdel; [|done].
    apply cascade_delete_account in Hdel
      as (Hf & Hc & Hm & Hcc & Hn & Hmax & Hth & Hstep). cbn [fst snd] in *.
    apply IH in Hrun as (Hf' & Hw' & Hc' & Hm' & Hcc' & Hn' & Hmax' & Hth' & Hstep').
    split; [|split; [|split; [lia|]]].
    + rewrite Hf', Hf.
      rewrite <- Z.add_sub_assoc, wrap64_add_l.
      rewrite (Z.add_comm total), <- !Z.add_assoc, wrap64_add_l. f_equal. lia.
    + intros _. apply Hw'. by rewrite wrap64_idemp.
    + repeat split; congruence.
Qed.

Lemma cd_collect_account order st r :
  CascadeDeletionGC.collect order st = Some r →
  r.1 = wrap64 (heap_sum alive_size (heap st) - heap_sum alive_size (heap r.2)) ∧
  total_objects_collected r.2 - total_objects_collected st
    = heap_sum alive_one (heap st) - heap_sum alive_one (heap r.2) ∧
  total_memory_freed r.2 = wrap64 (total_memory_freed st + r.1) ∧
  collection_count r.2 = collection_count st + 1 ∧
  next_object_id r.2 = next_object_id st ∧
  max_heap_size r.2 = max_heap_size st ∧
  collection_threshold r.2 = collection_threshold st ∧
  current_step r.2 = current_step st.
Proof.
  unfold CascadeDeletionGC.collect.
  destruct (CascadeDeletionGC.cascade_orphans _ _ _) as [[total st1]|] eqn:Hrun; [|done].
  intros [= <-]. cbn.
  apply cascade_orphans_account in Hrun
    as (Hf & Hw & Hc & Hm & Hcc & Hn & Hmax & Hth & Hstep). cbn [fst snd] in *.
  split; [|split; [lia|repeat split; congruence]].
  rewrite Hw by done. rewrite Hf. f_equal.
Qed.

(** ** The books of a collection *)

Lemma wrap64_sub_sub a b : wrap64 (wrap64 a - wrap64 (a - b)) = wrap64 b.
Proof.
  unfold wrap64. rewrite Zminus_mod_idemp_l, Zminus_mod_idemp_r. f_equal. lia.
Qed.

Lemma cd_collect_returns order st :
  wf_heap (heap st) → is_Some (CascadeDeletionGC.collect order st).
Proof.
  intros Hwf. unfold CascadeDeletionGC.collect.
  destruct (cascade_orphans_spec (heap st) (CascadeDeletionGC.orphans order (heap st))
              0 st Hwf (heap_evolves_refl _ _)) as ([total st1] & -> & _).
  done.
Qed.

Lemma cd_remove_reference_returns from_id to_id st :
  wf_heap (heap st) →
  is_Some (CascadeDeletionGC.remove_reference from_id to_id st).
Proof.
  intros Hwf. unfold CascadeDeletionGC.remove_reference.
  destruct (object_exists (heap st) from_id) eqn:Hf; [|done].
  destruct (object_exists (heap st) to_id) eqn:Ht; [|done].
  cbn [negb]. case_bool_decide; [|done]. cbn [negb].
  destruct (CascadeDeletionGC.should_be_deleted _ _); [|done].
  destruct (cascade_delete_spec (detach_edge from_id to_id (heap st)) to_id
              (set_heap (detach_edge from_id to_id (heap st)) st))
    as ([fr st2] & -> & _); [| |done].
  - by apply wf_heap_detach_edge.
  - apply heap_evolves_refl.
Qed.

(** X1: on a heap with symmetric edges whose sweep visits every key
    once, [MarkSweepGC::collect] returns, and the number it returns is the
    number of bytes by which [get_total_memory] drops (modulo [2^64]).
    [total_memory_freed] grows by that number, [total_objects_collected]
    grows by the number by which [get_alive_objects_count] drops, and
    [collection_count] grows by one. *)
Theorem ms_collect_accounting ro so st :
  wf_heap (heap st) → enumerates so (heap st) →
  ∃ freed st',
    MarkSweepGC.collect ro so st = Some (freed, st') ∧
    0 ≤ freed < size_t_modulus ∧
    get_total_memory st' = wrap64 (get_total_memory st - freed) ∧
    get_alive_objects_count st'
      = get_alive_objects_count st
        - (total_objects_collected st' - total_objects_collected st) ∧
    total_memory_freed st' = wrap64 (total_memory_freed st + freed) ∧
    collection_count st' = collection_count st + 1.
Proof.
  intros Hwf [Hnd _].
  destruct (ms_collect_account ro so st Hwf Hnd)
    as (freed & st' & Hrun & Hfreed & Hcnt & Hmem & Hcc & _).
  exists freed, st'. split; [done|].
  split; [rewrite Hfreed; apply wrap64_range|].
  split; [|split; [|done]].
  - rewrite !get_total_memory_sum, Hfreed. by rewrite wrap64_sub_sub.
  - rewrite !get_alive_objects_count_sum. lia.
Qed.

Lemma ms_collect_accounting_witness :
  ∃ freed st',
    MarkSweepGC.collect [0; 1; 2; 3] [3; 2; 1; 0] ms_scenario_state
      = Some (freed, st') ∧
    0 ≤ freed < size_t_modulus ∧
    get_total_memory st' = wrap64 (get_total_memory ms_scenario_state - freed) ∧
    get_alive_objects_count st'
      = get_alive_objects_count ms_scenario_state
        - (total_objects_collected st'
           - total_objects_collected ms_scenario_state) ∧
    total_memory_freed st'
      = wrap64 (total_memory_freed ms_scenario_state + freed) ∧
    collection_count st' = collection_count ms_scenario_state + 1.
Proof.
  apply (ms_collect_accounting [0; 1; 2; 3] [3; 2; 1; 0] ms_scenario_state).
  - apply (bool_decide_unpack _). vm_compute. exact I.
  - apply (bool_decide_unpack _). vm_compute. exact I.
Defined.

(** X2: on a heap with symmetric edges, [CascadeDeletionGC::collect]
    returns, and the number it returns is the number of bytes by which
    [get_total_memory] drops (modulo [2^64]).  [total_memory_freed] grows
    by that number, [total_objects_collected] grows by the number by which
    [get_alive_objects_count] drops, and [collection_count] grows by one. *)
Theorem cd_collect_accounting order st :
  wf_heap (heap st) →
  ∃ freed st',
    CascadeDeletionGC.collect order st = Some (freed, st') ∧
    0 ≤ freed < size_t_modulus ∧
    get_total_memory st' = wrap64 (get_total_memory st - freed) ∧
    get_alive_objects_count st'
      = get_alive_objects_count st
        - (total_objects_collected st' - total_objects_collected st) ∧
    total_memory_freed st' = wrap64 (total_memory_freed st + freed) ∧
    collection_count st' = collection_count st + 1.
Proof.
  intros Hwf.
  destruct (cd_collect_returns order st Hwf) as [[freed st'] Hrun].
  exists freed, st'. split; [done|].
  apply cd_collect_account in Hrun as (Hfreed & Hcnt & Hmem & Hcc & _).
  cbn [fst snd] in *.
  split; [rewrite Hfreed; apply wrap64_range|].
  split; [|split; [|done]].
  - rewrite !get_total_memory_sum, Hfreed. by rewrite wrap64_sub_sub.
  - rewrite !get_alive_objects_count_sum. lia.
Qed.

Lemma cd_collect_accounting_witness :
  ∃ freed st',
    CascadeDeletionGC.collect [0; 1; 2] cd_two_orphans = Some (freed, st') ∧
    0 ≤ freed < size_t_modulus ∧
    get_total_memory st' = wrap64 (get_total_memory cd_two_orphans - freed) ∧
    get_alive_objects_count st'
      = get_alive_objects_count cd_two_orphans
        - (total_objects_collected st' - total_objects_collected cd_two_orphans) ∧
    total_memory_freed st'
      = wrap64 (total_memory_freed cd_two_orphans + freed) ∧
    collection_count st' = collection_count cd_two_orphans + 1.
Proof.
  apply (cd_collect_accounting [0; 1; 2] cd_two_orphans).
  apply (bool_decide_unpack _). vm_compute. exact I.
Defined.

Lemma cd_remove_reference_account from_id to_id st r :
  CascadeDeletionGC.remove_reference from_id to_id st = Some r →
  total_objects_collected r.2 - total_objects_collected st
    = heap_sum alive_one (heap st) - heap_sum alive_one (heap r.2) ∧
  total_memory_freed r.2 = total_memory_freed st ∧
  collection_count r.2 = collection_count st ∧
  next_object_id r.2 = next_object_id st ∧
  max_heap_size r.2 = max_heap_size st ∧
  collection_threshold r.2 = collection_threshold st ∧
  current_step r.2 = current_step st.
Proof.
  unfold CascadeDeletionGC.remove_reference.
  destruct (object_exists (heap st) from_id) eqn:Hf.
  2:{ intros [= <-]. cbn. split; [lia|done]. }
  destruct (object_exists (heap st) to_id) eqn:Ht.
  2:{ intros [= <-]. cbn. split; [lia|done]. }
  cbn [negb]. case_bool_decide.
  2:{ intros [= <-]. cbn. split; [lia|done]. }
  cbn [negb].
  assert (heap_sum alive_one (detach_edge from_id to_id (heap st))
          = heap_sum alive_one (heap st)) as Hsum.
  { apply heap_sum_ext. intros k. unfold detach_edge.
    rewrite !lookup_alter.
    repeat case_decide; simplify_eq; destruct (heap st !! _); done. }
  destruct (CascadeDeletionGC.should_be_deleted _ _).
  2:{ intros [= <-]. cbn. rewrite Hsum. split; [lia|done]. }
  destruct (CascadeDeletionGC.cascade_delete _ _) as [[fr st2]|] eqn:Hdel; [|done].
  intros [= <-]. cbn [fst snd].
  apply cascade_delete_account in Hdel as (_ & Hc & Hrest).
  cbn [fst snd heap set_heap total_objects_collected] in *.
  rewrite Hsum in Hc. split; [done|]. exact Hrest.
Qed.

(** X3: the reactive path counts objects but not bytes.  On a heap
    with symmetric edges, [CascadeDeletionGC::remove_reference] returns;
    [total_objects_collected] grows by the number of objects that the
    cascade it may start has deleted, while [total_memory_freed] and
    [collection_count] stay as they were. *)
Theorem cd_remove_reference_accounting from_id to_id st :
  wf_heap (heap st) →
  ∃ ok st',
    CascadeDeletionGC.remove_reference from_id to_id st = Some (ok, st') ∧
    get_alive_objects_count st'
      = get_alive_objects_count st
        - (total_objects_collected st' - total_objects_collected st) ∧
    total_memory_freed st' = total_memory_freed st ∧
    collection_count st' = collection_count st.
Proof.
  intros Hwf.
  destruct (cd_remove_reference_returns from_id to_id st Hwf) as [[ok st'] Hrun].
  exists ok, st'. split; [done|].
  apply cd_remove_reference_account in Hrun as (Hc & Hm & Hcc & _).
  cbn [fst snd] in *.
  split; [|done]. rewrite !get_alive_objects_count_sum. lia.
Qed.

Lemma cd_remove_reference_accounting_witness :
  ∃ ok st',
    CascadeDeletionGC.remove_reference 0 1 cd_single_orphan_before
      = Some (ok, st') ∧
    get_alive_objects_count st'
      = get_alive_objects_count cd_single_orphan_before
        - (total_objects_collected st'
           - total_objects_collected cd_single_orphan_before) ∧
    total_memory_freed st' = total_memory_freed cd_single_orphan_before ∧
    collection_count st' = collection_count cd_single_orphan_before.
Proof.
  apply (cd_remove_reference_accounting 0 1 cd_single_orphan_before).
  apply (bool_decide_unpack _). vm_compute. exact I.
Defined.

(** ** What the sweep leaves of the survivors *)

Lemma sweep_heap_cons step id ids h :
  sweep_heap step (id :: ids) h
  = sweep_heap step ids (match h !! id with
                         | Some _ => delete_object step id h
                         | None => h
                         end).
Proof.
  unfold sweep_heap at 1. cbn [foldl].
  unfold MarkSweepGC.sweep_object at 2.
  destruct (h !! id); apply sweep_fold_heap.
Qed.

Lemma delete_object_marked step id h k :
  marked (delete_object step id h) k = marked h k.
Proof.
  unfold marked. destruct (decide (k = id)) as [->|Hne].
  - destruct (h !! id) as [o|] eqn:Ho.
    + destruct (delete_object_self_kill step id h o Ho) as (o1 & Hm & ->).
      cbn. unfold meta in Hm. congruence.
    + by rewrite delete_object_None.
  - pose proof (delete_object_meta step id h k Hne) as Hm.
    destruct (delete_object step id h !! k) as [o'|], (h !! k) as [o|]; try done.
    cbn in Hm. unfold meta in Hm. congruence.
Qed.

Lemma sweep_heap_marked step ids :
  ∀ h k, marked (sweep_heap step ids h) k = marked h k.
Proof.
  induction ids as [|id ids IH]; intros h k; [done|].
  rewrite sweep_heap_cons, IH.
  destruct (h !! id); [apply delete_object_marked|done].
Qed.

Lemma delete_object_edges step id h a :
  wf_heap h → object_exists h a = true → a ≠ id →
  outgoing_of (delete_object step id h) a = outgoing_of h a ∖ {[id]} ∧
  incoming_of (delete_object step id h) a = incoming_of h a ∖ {[id]}.
Proof.
  intros Hwf Ha Hne. apply object_exists_true in Ha as (oa & Hoa & Halive).
  unfold outgoing_of, incoming_of.
  rewrite (delete_object_alive step id h a oa Hwf Hoa Halive Hne), Hoa. done.
Qed.

Lemma sweep_heap_edges step ids :
  ∀ h, wf_heap h → NoDup ids →
    (∀ id, id ∈ ids → object_exists h id = true) →
    ∀ a, object_exists h a = true → a ∉ ids →
      object_exists (sweep_heap step ids h) a = true ∧
      outgoing_of (sweep_heap step ids h) a = outgoing_of h a ∖ list_to_set ids ∧
      incoming_of (sweep_heap step ids h) a = incoming_of h a ∖ list_to_set ids.
Proof.
  induction ids as [|id ids IH]; intros h Hwf Hnd Hids a Ha Hnin.
  - cbn. split; [done|]. split; set_solver.
  - apply NoDup_cons in Hnd as [Hid Hnd].
    apply not_elem_of_cons in Hnin as [Hne Hnin].
    rewrite sweep_heap_cons.
    assert (object_exists h id = true) as Hx by (apply Hids; left).
    apply object_exists_true in Hx as (o & Ho & _). rewrite Ho.
    destruct (IH (delete_object step id h)) with (a := a) as (Hex & Hout & Hin).
    + by apply wf_heap_delete_object.
    + done.
    + intros x Hxin. rewrite delete_object_exists.
      destruct (decide (x = id)) as [->|]; [done|]. apply Hids. by right.
    + rewrite delete_object_exists. by destruct (decide (a = id)).
    + done.
    + destruct (delete_object_edges step id h a Hwf Ha Hne) as [Ho1 Hi1].
      split; [done|]. rewrite Hout, Hin, Ho1, Hi1. cbn [list_to_set].
      split; set_solver.
Qed.

(** ** Reachability *)

Lemma reaches_alive h a b :
  out_closed h → object_exists h a = true → reaches h a b →
  object_exists h b = true.
Proof.
  intros Hoc Ha Hreach. induction Hreach as [|x y z Hxy _ IH]; [done|].
  apply IH. by apply (Hoc x).
Qed.

Lemma reachable_from_roots_alive h k :
  out_closed h → reachable_from_roots h k → object_exists h k = true.
Proof. intros Hoc (r & Hr & _ & Hreach). by apply (reaches_alive h r). Qed.

(** Heaps with the same alive roots whose edges agree on the objects
    reachable in the first have the same reachable objects there. *)
Lemma reachable_from_roots_mono h h' k :
  (∀ x, reachable_from_roots h x →
        object_exists h' x = true ∧ is_root_in h' x = is_root_in h x ∧
        outgoing_of h x ⊆ outgoing_of h' x) →
  reachable_from_roots h k → reachable_from_roots h' k.
Proof.
  intros Hsub (r & Hr & Hroot & Hreach).
  assert (reachable_from_roots h r) as Hrr by by apply reachable_from_roots_of_root.
  exists r. destruct (Hsub r Hrr) as (Hr' & Hroot' & _).
  split; [done|]. split; [congruence|].
  enough (reaches h' r k ∧ reachable_from_roots h k) by tauto.
  unfold reaches in *. revert k Hreach. apply rtc_ind_r.
  - split; [constructor|done].
  - intros y z _ Hyz [IH1 IH2]. split.
    + eapply rtc_r; [exact IH1|]. destruct (Hsub y IH2) as (_ & _ & Hout). by apply Hout.
    + by apply (reachable_from_roots_step h y).
Qed.

Lemma shape_marked_eq h h' :
  shape h' = shape h → (∀ k, marked h' k = marked h k) → h' = h.
Proof.
  intros Hs Hm. apply map_eq. intros k.
  pose proof (shape_lookup h h' k Hs) as Hk. specialize (Hm k).
  unfold marked in Hm.
  destruct (h' !! k) as [o'|], (h !! k) as [o|]; try done.
  cbn in Hk. injection Hk as Hk. f_equal.
  destruct o', o. unfold HeapObject.unmark, HeapObject.set_is_marked in Hk.
  cbn in *. congruence.
Qed.

(** ** The heap after a Mark-Sweep collection *)

(** The heap a Mark-Sweep collection leaves behind. *)
Lemma ms_collect_result ro so st :
  wf_heap (heap st) → enumerates ro (heap st) → enumerates so (heap st) →
  ∃ freed st',
    MarkSweepGC.collect ro so st = Some (freed, st') ∧
    wf_heap (heap st') ∧
    dom (heap st') = dom (heap st) ∧
    (∀ k, is_root_in (heap st') k = is_root_in (heap st) k) ∧
    (∀ k, marked (heap st') k = true ↔ reachable_from_roots (heap st) k) ∧
    (∀ k, object_exists (heap st') k = true ↔ reachable_from_roots (heap st) k) ∧
    (∀ k, reachable_from_roots (heap st) k →
          outgoing_of (heap st') k = outgoing_of (heap st) k ∧
          incoming_of (heap st') k ⊆ incoming_of (heap st) k) ∧
    (∀ k, reachable_from_roots (heap st') k ↔ reachable_from_roots (heap st) k).
Proof.
  intros Hwf Hro Hso.
  destruct (ms_collect_heap ro so st Hwf)
    as (hm & [freed st'] & Hrun & Hshape & Hsound & Hcompl & Hheap & _ & _ & _ & _
        & Hwf' & Hdom & Hev).
  cbn [fst snd] in *.
  assert (∀ k, reachable_from_roots (heap st) k → marked hm k = true) as Hcompl'.
  { apply Hcompl. intros x Hx. by apply (enumerates_elem_of ro (heap st)). }
  clear Hcompl.
  pose proof (wf_heap_out_closed _ Hwf) as Hoc.
  set (ids := MarkSweepGC.sweep_candidates so hm) in *.
  assert (∀ k, k ∈ ids ↔ object_exists (heap st) k = true ∧
                         is_root_in (heap st) k = false ∧
                         ¬ reachable_from_roots (heap st) k) as Hids.
  { intros k. unfold ids. rewrite sweep_candidates_spec.
    rewrite (shape_is_root_in _ _ _ Hshape), (shape_object_exists _ _ _ Hshape).
    split.
    - intros (_ & Hm & Hr & Hex). split; [done|]. split; [done|].
      intros HR. apply Hcompl' in HR. congruence.
    - intros (Hex & Hr & HnR). split; [|split; [|done]].
      + apply (enumerates_elem_of so (heap st)); [done|].
        apply object_exists_true in Hex as (o & -> & _). eauto.
      + destruct (marked hm k) eqn:Hm; [|done]. by apply Hsound in Hm. }
  assert (∀ k, reachable_from_roots (heap st) k → k ∉ ids) as Hsurv.
  { intros k HR Hin. apply Hids in Hin. tauto. }
  assert (wf_heap hm) as Hwfm by by apply (shape_wf_heap (heap st)).
  assert (NoDup ids) as Hnd by (apply NoDup_keys_where; apply Hso).
  assert (∀ id, id ∈ ids → object_exists hm id = true) as Hidsm.
  { intros id Hid. rewrite (shape_object_exists _ _ _ Hshape).
    by apply Hids in Hid as (? & _). }
  assert (∀ k, reachable_from_roots (heap st) k →
            object_exists (heap st') k = true ∧
            outgoing_of (heap st') k = outgoing_of (heap st) k ∧
            incoming_of (heap st') k ⊆ incoming_of (heap st) k) as Hkeep.
  { intros k HR.
    destruct (sweep_heap_edges (current_step st) ids hm Hwfm Hnd Hidsm k)
      as (Hex & Hout & Hin).
    - rewrite (shape_object_exists _ _ _ Hshape).
      by apply reachable_from_roots_alive.
    - by apply Hsurv.
    - rewrite <- Hheap in Hex, Hout, Hin.
      rewrite (shape_outgoing_of _ _ _ Hshape) in Hout.
      rewrite (shape_incoming_of _ _ _ Hshape) in Hin.
      split; [done|]. split; [|set_solver].
      rewrite Hout. apply set_eq. intros b. rewrite elem_of_difference.
      split; [tauto|]. intros Hb. split; [done|].
      rewrite elem_of_list_to_set. apply Hsurv.
      by apply (reachable_from_roots_step _ k). }
  assert (∀ k, is_root_in (heap st') k = is_root_in (heap st) k) as Hroot.
  { intros k. specialize (Hev k). unfold is_root_in.
    destruct (heap st !! k) as [o|], (heap st' !! k) as [o'|]; try done.
    by destruct Hev as (_ & _ & ? & _). }
  assert (∀ k, object_exists (heap st') k = true ↔ reachable_from_roots (heap st) k)
    as Halive.
  { intros k. split; [|by intros HR; apply Hkeep].
    intros Hex.
    destruct (heap_evolves_back _ _ _ k Hev Hex) as [Hex0 Hr0].
    destruct (is_root_in (heap st) k) eqn:Hr.
    { by apply reachable_from_roots_of_root. }
    destruct (decide (k ∈ ids)) as [Hin|Hnin].
    - assert (∀ id, id ∈ ids → is_Some (hm !! id)) as Hsome.
      { intros id Hid. apply Hidsm in Hid.
        apply object_exists_true in Hid as (o & -> & _). eauto. }
      destruct (sweep_heap_spec (current_step st) ids hm Hsome)
        as (_ & _ & _ & Hdead & _).
      destruct (Hdead k Hin) as (o & Ho & Hd & _). rewrite <- Hheap in Ho.
      unfold object_exists in Hex. rewrite Ho in Hex. congruence.
    - destruct (marked hm k) eqn:Hm; [by apply Hsound|].
      destruct Hnin. apply sweep_candidates_spec.
      rewrite (shape_is_root_in _ _ _ Hshape), (shape_object_exists _ _ _ Hshape).
      split; [|done].
      apply (enumerates_elem_of so (heap st)); [done|].
      apply object_exists_true in Hex0 as (o & -> & _). eauto. }
  exists freed, st'. split; [done|]. split; [done|]. split; [done|].
  split; [done|]. split; [|split; [done|split]].
  - intros k. rewrite Hheap, sweep_heap_marked. split; [apply Hsound|apply Hcompl'].
  - intros k HR. by apply Hkeep.
  - intros k. split.
    + apply reachable_from_roots_mono. intros x HR'.
      assert (object_exists (heap st') x = true) as Hx
        by (apply reachable_from_roots_alive; [by apply wf_heap_out_closed|done]).
      apply Halive in Hx.
      split; [by apply reachable_from_roots_alive|]. split; [by rewrite Hroot|].
      destruct (Hkeep x Hx) as (_ & -> & _). done.
    + apply reachable_from_roots_mono. intros x HR.
      destruct (Hkeep x HR) as (Hx & -> & _). done.
Qed.

Lemma enumerates_same_dom order h h' :
  dom h' = dom h → enumerates order h → enumerates order h'.
Proof. intros Hd [Hnd Hl]. split; [done|]. by rewrite Hd. Qed.

Lemma bool_eq_iff (a b : bool) : (a = true ↔ b = true) → a = b.
Proof. destruct a, b; intuition congruence. Qed.

(** X4: a second Mark-Sweep collection finds nothing.  On a heap
    with symmetric edges, whatever the orders of the visits (the keys of
    the heap are the same before and after a collection), [collect] run
    right after [collect] returns 0 and leaves the heap,
    [total_objects_collected] and [total_memory_freed] as the first one
    left them; only [collection_count] grows. *)
Theorem ms_collect_twice ro so ro' so' st :
  wf_heap (heap st) →
  enumerates ro (heap st) → enumerates so (heap st) →
  enumerates ro' (heap st) → enumerates so' (heap st) →
  ∃ freed st1 st2,
    MarkSweepGC.collect ro so st = Some (freed, st1) ∧
    MarkSweepGC.collect ro' so' st1 = Some (0, st2) ∧
    heap st2 = heap st1 ∧
    total_objects_collected st2 = total_objects_collected st1 ∧
    total_memory_freed st2 = total_memory_freed st1 ∧
    collection_count st2 = collection_count st1 + 1.
Proof.
  intros Hwf Hro Hso Hro' Hso'.
  destruct (ms_collect_result ro so st Hwf Hro Hso)
    as (freed & st1 & Hrun & Hwf1 & Hdom & Hroot & Hmark & Halive & _ & Hreach).
  exists freed, st1.
  destruct (ms_collect_account ro so st Hwf (proj1 Hso))
    as (freed_ & st1_ & Hrun_ & _ & _ & Htmf & _).
  rewrite Hrun in Hrun_. injection Hrun_ as <- <-.
  apply (enumerates_same_dom _ _ _ Hdom) in Hro', Hso'.
  destruct (ms_collect_heap ro' so' st1 Hwf1)
    as (hm & [freed2 st2] & Hrun2 & Hshape & Hsound & Hcompl & Hheap & _).
  destruct (ms_collect_account ro' so' st1 Hwf1 (proj1 Hso'))
    as (freed2_ & st2_ & Hrun2_ & Hfreed2 & Hcnt2 & Htmf2 & Hcc2 & _).
  rewrite Hrun2 in Hrun2_. injection Hrun2_ as <- <-.
  cbn [fst snd] in *.
  assert (∀ k, reachable_from_roots (heap st1) k → marked hm k = true) as Hcompl'.
  { apply Hcompl. intros x Hx. by apply (enumerates_elem_of ro' (heap st1)). }
  assert (MarkSweepGC.sweep_candidates so' hm = []) as Hnone.
  { apply elem_of_nil_inv. intros k Hk.
    apply sweep_candidates_spec in Hk as (_ & Hm & _ & Hex).
    rewrite (shape_object_exists _ _ _ Hshape) in Hex.
    apply Halive, Hreach, Hcompl' in Hex. congruence. }
  rewrite Hnone in Hheap. change (sweep_heap _ [] hm) with hm in Hheap.
  assert (heap st2 = heap st1) as Heq.
  { rewrite Hheap. apply shape_marked_eq; [done|]. intros k.
    apply bool_eq_iff. rewrite Hmark. split.
    - intros Hm. by apply Hreach, Hsound.
    - intros HR. by apply Hcompl', Hreach. }
  exists st2.
  rewrite Heq, Z.sub_diag in Hfreed2. change (wrap64 0) with 0 in Hfreed2.
  subst freed2. rewrite Heq, Z.sub_diag in Hcnt2.
  split; [done|]. split; [done|]. split; [done|]. split; [lia|]. split; [|done].
  rewrite Htmf2, Z.add_0_r, Htmf. apply wrap64_idemp.
Qed.

Lemma ms_collect_twice_witness :
  ∃ freed st1 st2,
    MarkSweepGC.collect [0; 1; 2; 3; 4] [0; 1; 2; 3; 4] ms_live_and_garbage
      = Some (freed, st1) ∧
    MarkSweepGC.collect [4; 3; 2; 1; 0] [1; 0; 3; 2; 4] st1 = Some (0, st2) ∧
    heap st2 = heap st1 ∧
    total_objects_collected st2 = total_objects_collected st1 ∧
    total_memory_freed st2 = total_memory_freed st1 ∧
    collection_count st2 = collection_count st1 + 1.
Proof.
  apply (ms_collect_twice [0; 1; 2; 3; 4] [0; 1; 2; 3; 4]
           [4; 3; 2; 1; 0] [1; 0; 3; 2; 4] ms_live_and_garbage).
  - apply (bool_decide_unpack _). vm_compute. exact I.
  - apply (bool_decide_unpack _). vm_compute. exact I.
  - apply (bool_decide_unpack _). vm_compute. exact I.
  - apply (bool_decide_unpack _). vm_compute. exact I.
  - apply (bool_decide_unpack _). vm_compute. exact I.
Defined.

(** ** The orphan test *)

Lemma should_be_deleted_spec h k :
  CascadeDeletionGC.should_be_deleted h k = true ↔
  object_exists h k = true ∧ is_root_in h k = false ∧ incoming_of h k = ∅.
Proof.
  unfold CascadeDeletionGC.should_be_deleted, object_exists, is_root_in, incoming_of.
  destruct (h !! k) as [o|]; [|naive_solver].
  destruct (HeapObject.is_alive o); [|naive_solver].
  destruct (HeapObject.is_root o); [naive_solver|].
  rewrite bool_decide_eq_true. unfold HeapObject.get_incoming_reference_count.
  split.
  - intros Hs. split; [done|]. split; [done|].
    apply leibniz_equiv, size_empty_inv. lia.
  - intros (_ & _ & ->). by rewrite size_empty.
Qed.

Lemma should_be_deleted_ext h h' k :
  h' !! k = h !! k →
  CascadeDeletionGC.should_be_deleted h' k = CascadeDeletionGC.should_be_deleted h k.
Proof.
  intros Hk. unfold CascadeDeletionGC.should_be_deleted, object_exists.
  by rewrite Hk.
Qed.

Lemma foldl_erase_incoming_other id ts :
  ∀ h k, k ∉ ts → foldl (erase_incoming_of id) h ts !! k = h !! k.
Proof.
  induction ts as [|t ts IH]; intros h k Hk; [done|].
  apply not_elem_of_cons in Hk as [Hne Hk]. cbn [foldl].
  rewrite IH by done. rewrite erase_incoming_of_lookup.
  by rewrite decide_False.
Qed.

(** The second loop of [cascade_delete]: the queue gains exactly the
    targets that are orphans once their edge is gone. *)
Lemma detach_target_push_queue id ts :
  ∀ h q, NoDup ts →
    let r := foldl (CascadeDeletionGC.detach_target_push id) (h, q) ts in
    r.1 = foldl (erase_incoming_of id) h ts ∧
    ∀ x, x ∈ r.2 ↔
         x ∈ q ∨ (x ∈ ts ∧ CascadeDeletionGC.should_be_deleted r.1 x = true).
Proof.
  induction ts as [|t ts IH]; intros h q Hnd; cbn zeta.
  - cbn [foldl fst snd]. split; [done|]. intros x. rewrite elem_of_nil. tauto.
  - apply NoDup_cons in Hnd as [Ht Hnd]. cbn [foldl].
    pose proof (detach_target_push_step id h q t) as [Hh1 _].
    destruct (CascadeDeletionGC.detach_target_push id (h, q) t) as [h1 q1] eqn:Hstep.
    cbn [fst] in Hh1. subst h1.
    destruct (IH (erase_incoming_of id h t) q1 Hnd) as [Hheap Hq].
    split; [done|]. intros x. rewrite Hq, Hheap. clear Hq.
    set (h2 := foldl (erase_incoming_of id) (erase_incoming_of id h t) ts).
    assert (CascadeDeletionGC.should_be_deleted h2 t
            = CascadeDeletionGC.should_be_deleted (erase_incoming_of id h t) t) as Hsame.
    { apply should_be_deleted_ext. by apply foldl_erase_incoming_other. }
    assert (∀ x, x ∈ q1 ↔ x ∈ q ∨ (x = t ∧
              CascadeDeletionGC.should_be_deleted (erase_incoming_of id h t) t = true))
      as Hq1.
    { intros y. unfold CascadeDeletionGC.detach_target_push in Hstep.
      unfold erase_incoming_of in *.
      destruct (object_exists h t) eqn:Hex.
      - injection Hstep as <-.
        destruct (CascadeDeletionGC.should_be_deleted _ t).
        + rewrite elem_of_app, list_elem_of_singleton. naive_solver.
        + naive_solver.
      - injection Hstep as <-.
        assert (CascadeDeletionGC.should_be_deleted h t = false) as ->; [|naive_solver].
        unfold CascadeDeletionGC.should_be_deleted. by rewrite Hex. }
    rewrite Hq1, elem_of_cons. rewrite <- Hsame. naive_solver.
Qed.

Lemma delete_object_incoming_subseteq step id h k :
  incoming_of (delete_object step id h) k ⊆ incoming_of h k.
Proof.
  unfold delete_object. rewrite incoming_of_alter.
  set (h1 := detach_sources id h).
  assert (incoming_of h1 k = incoming_of h k) as H1.
  { unfold incoming_of, h1. rewrite detach_sources_lookup.
    case_decide; [|done]. destruct (h !! k) as [o|]; [|done]. cbn.
    unfold drop_out. by destruct (HeapObject.is_alive o). }
  assert (incoming_of (detach_targets id h1) k ⊆ incoming_of h1 k) as H2.
  { unfold incoming_of. rewrite detach_targets_lookup.
    case_decide; [|done]. destruct (h1 !! k) as [o|]; [|done]. cbn.
    unfold drop_in. destruct (HeapObject.is_alive o); [|done]. cbn. set_solver. }
  rewrite <- H1.
  case_decide as Hk; [|done]. subst k.
  etrans; [|exact H2]. unfold incoming_of.
  by destruct (detach_targets id h1 !! id).
Qed.

Lemma delete_object_is_root_in step id h k :
  is_root_in (delete_object step id h) k = is_root_in h k.
Proof.
  unfold is_root_in. destruct (decide (k = id)) as [->|Hne].
  - destruct (h !! id) as [o|] eqn:Ho.
    + destruct (delete_object_self step id h o Ho) as (o' & -> & _ & _ & _ & ?). done.
    + by rewrite delete_object_None.
  - apply is_root_in_meta. by apply delete_object_meta.
Qed.

(** The heap after one deletion of the worklist loop. *)
Lemma cascade_iteration_heap cur h (queue : list Z) :
  (foldl (CascadeDeletionGC.detach_target_push cur)
     (detach_sources cur h, queue)
     (set_iter (outgoing_of (detach_sources cur h) cur))).1
  = detach_targets cur (detach_sources cur h).
Proof. apply detach_target_push_fold. Qed.

Lemma outgoing_of_detach_sources cur h k :
  k ≠ cur → k ∈ outgoing_of h cur → k ∈ outgoing_of (detach_sources cur h) cur.
Proof.
  intros Hne Hk. unfold outgoing_of in *. rewrite detach_sources_lookup.
  case_decide; [|done]. destruct (h !! cur) as [o|]; [|done]. cbn.
  unfold drop_out. destruct (HeapObject.is_alive o); [|done]. cbn. set_solver.
Qed.

Lemma outgoing_of_detach_sources_self cur h :
  wf_heap h → object_exists h cur = true →
  outgoing_of (detach_sources cur h) cur = outgoing_of h cur ∖ {[cur]}.
Proof.
  intros Hwf Hcur.
  pose proof (proj1 (wf_heap_alt _) Hwf cur Hcur) as [Hout _].
  apply object_exists_true in Hcur as (o & Ho & Halive).
  unfold outgoing_of in *. rewrite detach_sources_lookup, Ho in *.
  case_decide as Hc; cbn.
  - unfold drop_out. by rewrite Halive.
  - apply set_eq. intros x. rewrite elem_of_difference, elem_of_singleton.
    split; [|tauto]. intros Hx. split; [done|]. intros ->.
    destruct (Hout cur Hx) as [_ Hin]. done.
Qed.

(** One deletion of the worklist loop, seen from outside: the heap is
    [delete_object step cur h], and the queue gained the targets of [cur]
    that are orphans now. *)
Lemma cascade_iteration step cur h queue :
  wf_heap h → object_exists h cur = true →
  let r := foldl (CascadeDeletionGC.detach_target_push cur)
             (detach_sources cur h, queue)
             (set_iter (outgoing_of (detach_sources cur h) cur)) in
  alter (HeapObject.kill step) cur r.1 = delete_object step cur h ∧
  ∀ x, x ∈ r.2 ↔
       x ∈ queue ∨
       (x ∈ outgoing_of h cur ∧ x ≠ cur ∧
        CascadeDeletionGC.should_be_deleted (delete_object step cur h) x = true).
Proof.
  intros Hwf Hcur. cbn zeta.
  destruct (detach_target_push_queue cur
              (set_iter (outgoing_of (detach_sources cur h) cur))
              (detach_sources cur h) queue (NoDup_set_iter _)) as [Hheap Hq].
  cbn zeta in Hheap, Hq.
  set (r := foldl _ _ _) in *.
  assert (alter (HeapObject.kill step) cur r.1 = delete_object step cur h) as Hh3.
  { rewrite Hheap. done. }
  split; [done|]. intros x. rewrite Hq.
  rewrite elem_of_set_iter, (outgoing_of_detach_sources_self cur h Hwf Hcur).
  rewrite elem_of_difference, elem_of_singleton.
  assert (x ≠ cur →
          CascadeDeletionGC.should_be_deleted (delete_object step cur h) x
          = CascadeDeletionGC.should_be_deleted r.1 x) as Hsame.
  { intros Hne. apply should_be_deleted_ext. rewrite <- Hh3.
    by rewrite lookup_alter_ne. }
  split.
  - intros [Hx|[[Hx Hne] Hs]]; [by left|right].
    split; [done|]. split; [done|]. by rewrite Hsame.
  - intros [Hx|(Hx & Hne & Hs)]; [by left|right].
    split; [done|]. by rewrite <- Hsame.
Qed.

(** What deleting [cur] does to the orphan predicate. *)
Lemma should_be_deleted_delete_object step cur h x :
  wf_heap h → object_exists h cur = true →
  CascadeDeletionGC.should_be_deleted (delete_object step cur h) x = true →
  x ≠ cur ∧
  ((x ∈ outgoing_of h cur) ∨ CascadeDeletionGC.should_be_deleted h x = true).
Proof.
  intros Hwf Hcur Hs.
  apply should_be_deleted_spec in Hs as (Hex & Hroot & Hin).
  rewrite delete_object_exists in Hex.
  destruct (decide (x = cur)) as [|Hne]; [done|]. split; [done|].
  rewrite delete_object_is_root_in in Hroot.
  destruct (delete_object_edges step cur h x Hwf Hex Hne) as [_ Hin'].
  rewrite Hin' in Hin.
  destruct (decide (cur ∈ incoming_of h x)) as [Hc|Hc].
  - left. by apply (proj1 (wf_heap_alt _) Hwf x Hex).
  - right. apply should_be_deleted_spec. split; [done|]. split; [done|].
    set_solver.
Qed.

(** ** After a cascade no orphan is left, except those still waiting *)

Lemma cascade_loop_no_orphans (P : Z → Prop) step fuel :
  ∀ queue processed h freed deleted r,
    wf_heap h →
    (∀ k, CascadeDeletionGC.should_be_deleted h k = true → k ∈ queue ∨ P k) →
    (∀ k, k ∈ processed → object_exists h k = false ∨ is_root_in h k = true) →
    CascadeDeletionGC.cascade_loop fuel step queue processed h freed deleted
      = Some r →
    ∀ k, CascadeDeletionGC.should_be_deleted r.1.1 k = true → P k.
Proof.
  induction fuel as [|fuel IH];
    intros queue processed h freed deleted r Hwf Horph Hproc Hrun.
  - destruct queue; simpl in Hrun; [|done]. injection Hrun as <-. cbn.
    intros k Hk. destruct (Horph k Hk) as [Hin|]; [|done]. by apply elem_of_nil in Hin.
  - destruct queue as [|cur queue].
    { simpl in Hrun. injection Hrun as <-. cbn.
      intros k Hk. destruct (Horph k Hk) as [Hin|]; [|done]. by apply elem_of_nil in Hin. }
    cbn [CascadeDeletionGC.cascade_loop] in Hrun.
    assert (∀ h', (object_exists h' cur = false ∨ is_root_in h' cur = true) →
                  CascadeDeletionGC.should_be_deleted h' cur = false) as Hnot.
    { intros h' Hc. destruct (CascadeDeletionGC.should_be_deleted h' cur) eqn:Hs; [|done].
      apply should_be_deleted_spec in Hs as (? & ? & _). destruct Hc; congruence. }
    assert ((object_exists h cur = false ∨ is_root_in h cur = true) →
            ∀ k, CascadeDeletionGC.should_be_deleted h k = true → k ∈ queue ∨ P k)
      as Hskip.
    { intros Hc k Hk. destruct (Horph k Hk) as [Hin|]; [|by right].
      apply elem_of_cons in Hin as [->|Hin]; [|by left].
      rewrite Hnot in Hk; done. }
    assert ((object_exists h cur = false ∨ is_root_in h cur = true) →
            ∀ k, k ∈ ({[cur]} ∪ processed : gset Z) →
                 object_exists h k = false ∨ is_root_in h k = true) as Hproc'.
    { intros Hc k Hk. apply elem_of_union in Hk as [Hk|Hk]; [|by apply Hproc].
      apply elem_of_singleton in Hk as ->. done. }
    case_bool_decide as Hp.
    { eapply IH; [done|apply Hskip; by apply Hproc|done|exact Hrun]. }
    destruct (object_exists h cur) eqn:Hex.
    2:{ eapply IH; [done|apply Hskip; by left|apply Hproc'; by left|exact Hrun]. }
    destruct (h !! cur) as [obj|] eqn:Hobj.
    2:{ unfold object_exists in Hex. by rewrite Hobj in Hex. }
    destruct (HeapObject.is_root obj) eqn:Hroot.
    { assert (is_root_in h cur = true) as Hr
        by (unfold is_root_in; by rewrite Hobj).
      eapply IH; [done|apply Hskip; by right|apply Hproc'; by right|exact Hrun]. }
    destruct (cascade_iteration step cur h queue Hwf Hex) as [Hh3 Hq].
    cbn zeta in Hh3, Hq.
    destruct (foldl _ _ _) as [h2 q2]. cbn [fst snd] in *. rewrite Hh3 in Hrun.
    eapply IH; [| | |exact Hrun].
    + by apply wf_heap_delete_object.
    + intros k Hk.
      destruct (should_be_deleted_delete_object step cur h k Hwf Hex Hk)
        as [Hne [Hout|Hold]].
      * left. apply Hq. right. done.
      * destruct (Horph k Hold) as [Hin|]; [|by right].
        apply elem_of_cons in Hin as [->|Hin]; [done|].
        left. apply Hq. by left.
    + intros k Hk. rewrite delete_object_exists, delete_object_is_root_in.
      destruct (decide (k = cur)); [by left|].
      apply elem_of_union in Hk as [Hk|Hk]; [set_solver|by apply Hproc].
Qed.

Lemma cascade_delete_wf object_id st r :
  wf_heap (heap st) →
  CascadeDeletionGC.cascade_delete object_id st = Some r →
  wf_heap (heap r.2) ∧ heap_evolves (current_step st) (heap st) (heap r.2) ∧
  current_step r.2 = current_step st.
Proof.
  intros Hwf Hrun.
  destruct (cascade_delete_spec (heap st) object_id st Hwf (heap_evolves_refl _ _))
    as (r' & Hrun' & Hwf' & Hev & (_ & Hstep & _) & _).
  rewrite Hrun in Hrun'. by injection Hrun' as <-.
Qed.

Lemma cascade_delete_no_orphans (P : Z → Prop) object_id st r :
  wf_heap (heap st) →
  (∀ k, CascadeDeletionGC.should_be_deleted (heap st) k = true →
        k = object_id ∨ P k) →
  CascadeDeletionGC.cascade_delete object_id st = Some r →
  ∀ k, CascadeDeletionGC.should_be_deleted (heap r.2) k = true → P k.
Proof.
  intros Hwf Horph. unfold CascadeDeletionGC.cascade_delete.
  destruct (object_exists (heap st) object_id) eqn:Hex.
  2:{ intros [= <-] k Hk. cbn in Hk. destruct (Horph k Hk) as [->|]; [|done].
      apply should_be_deleted_spec in Hk as (? & _). congruence. }
  destruct (CascadeDeletionGC.cascade_loop _ _ _ _ _ _ _) as [[[h fr] del]|] eqn:Hloop;
    [|done].
  intros [= <-]. cbn. intros k Hk.
  eapply (cascade_loop_no_orphans P); [exact Hwf| | |exact Hloop|exact Hk].
  - intros x Hx. destruct (Horph x Hx) as [->|]; [left; left|by right].
  - intros x Hx. by apply elem_of_empty in Hx.
Qed.

Lemma cascade_orphans_no_orphans (P : Z → Prop) ids :
  ∀ total st r,
    wf_heap (heap st) →
    (∀ k, CascadeDeletionGC.should_be_deleted (heap st) k = true → k ∈ ids ∨ P k) →
    CascadeDeletionGC.cascade_orphans ids total st = Some r →
    ∀ k, CascadeDeletionGC.should_be_deleted (heap r.2) k = true → P k.
Proof.
  induction ids as [|id ids IH]; intros total st r Hwf Horph Hrun.
  - simpl in Hrun. injection Hrun as <-. cbn. intros k Hk.
    destruct (Horph k Hk) as [Hin|]; [|done]. by apply elem_of_nil in Hin.
  - cbn [CascadeDeletionGC.cascade_orphans] in Hrun.
    destruct (object_exists (heap st) id) eqn:Hex.
    2:{ eapply IH; [done| |exact Hrun]. intros k Hk.
        destruct (Horph k Hk) as [Hin|]; [|by right].
        apply elem_of_cons in Hin as [->|]; [|by left].
        apply should_be_deleted_spec in Hk as (? & _). congruence. }
    destruct (CascadeDeletionGC.cascade_delete id st) as [[freed st1]|] eqn:Hdel; [|done].
    destruct (cascade_delete_wf _ _ _ Hwf Hdel) as (Hwf1 & _).
    eapply IH; [exact Hwf1| |exact Hrun].
    intros k Hk.
    eapply (cascade_delete_no_orphans (λ k, k ∈ ids ∨ P k) id st);
      [exact Hwf| |exact Hdel|exact Hk].
    intros x Hx. destruct (Horph x Hx) as [Hin|]; [|right; by right].
    apply elem_of_cons in Hin as [->|]; [by left|right; by left].
Qed.

Lemma elem_of_orphans order h k :
  k ∈ CascadeDeletionGC.orphans order h ↔
  k ∈ order ∧ CascadeDeletionGC.should_be_deleted h k = true.
Proof.
  unfold CascadeDeletionGC.orphans. rewrite elem_of_keys_where.
  by rewrite should_be_deleted_orphan.
Qed.

Lemma cd_collect_no_orphans order st r :
  wf_heap (heap st) → enumerates order (heap st) →
  CascadeDeletionGC.collect order st = Some r →
  ∀ k, CascadeDeletionGC.should_be_deleted (heap r.2) k = false.
Proof.
  intros Hwf Horder. unfold CascadeDeletionGC.collect.
  destruct (CascadeDeletionGC.cascade_orphans _ _ _) as [[total st1]|] eqn:Hrun; [|done].
  intros [= <-] k. cbn.
  destruct (CascadeDeletionGC.should_be_deleted (heap st1) k) eqn:Hs; [|done].
  exfalso.
  eapply (cascade_orphans_no_orphans (λ _, False)); [exact Hwf| |exact Hrun|exact Hs].
  intros x Hx. left. apply elem_of_orphans. split; [|done].
  apply (enumerates_elem_of order (heap st)); [done|].
  apply should_be_deleted_spec in Hx as (Hex & _).
  apply object_exists_true in Hex as (o & -> & _). eauto.
Qed.

Lemma cd_collect_nothing order st :
  (∀ k, CascadeDeletionGC.should_be_deleted (heap st) k = false) →
  ∃ st', CascadeDeletionGC.collect order st = Some (0, st') ∧
         heap st' = heap st ∧
         total_objects_collected st' = total_objects_collected st ∧
         total_memory_freed st' = wrap64 (total_memory_freed st) ∧
         collection_count st' = collection_count st + 1.
Proof.
  intros Hnone. unfold CascadeDeletionGC.collect.
  assert (CascadeDeletionGC.orphans order (heap st) = []) as ->.
  { apply elem_of_nil_inv. intros k Hk. apply elem_of_orphans in Hk as [_ Hk].
    by rewrite Hnone in Hk. }
  cbn. eexists. split; [reflexivity|]. cbn. by rewrite Z.add_0_r.
Qed.

(** ** What a cascade can never delete *)

Lemma self_sustained_delete_object S step cur h :
  wf_heap h → incoming_of h cur = ∅ →
  self_sustained S h → self_sustained S (delete_object step cur h).
Proof.
  intros Hwf Hcur HS s Hs. destruct (HS s Hs) as (Hex & p & Hp & Hin).
  assert (s ≠ cur) as Hne by (intros ->; set_solver).
  assert (p ≠ cur) as Hpne.
  { intros ->. destruct (HS cur Hp) as (_ & q & _ & Hq). set_solver. }
  rewrite delete_object_exists, decide_False by done. split; [done|].
  exists p. split; [done|].
  destruct (delete_object_edges step cur h s Hwf Hex Hne) as [_ ->]. set_solver.
Qed.

Lemma cascade_loop_keeps S step fuel :
  ∀ queue processed h freed deleted r,
    wf_heap h →
    (∀ q, q ∈ queue → incoming_of h q = ∅) →
    self_sustained S h →
    CascadeDeletionGC.cascade_loop fuel step queue processed h freed deleted
      = Some r →
    self_sustained S r.1.1 ∧ ∀ k, incoming_of r.1.1 k ⊆ incoming_of h k.
Proof.
  induction fuel as [|fuel IH];
    intros queue processed h freed deleted r Hwf Hq HS Hrun.
  - destruct queue; simpl in Hrun; [|done]. by injection Hrun as <-.
  - destruct queue as [|cur queue].
    { simpl in Hrun. by injection Hrun as <-. }
    cbn [CascadeDeletionGC.cascade_loop] in Hrun.
    assert (∀ q, q ∈ queue → incoming_of h q = ∅) as Hq'
      by (intros q ?; apply Hq; by right).
    case_bool_decide; [by eapply IH|].
    destruct (object_exists h cur) eqn:Hex; [|by eapply IH].
    destruct (h !! cur) as [obj|] eqn:Hobj; [|by eapply IH].
    destruct (HeapObject.is_root obj); [by eapply IH|].
    destruct (cascade_iteration step cur h queue Hwf Hex) as [Hh3 Hqq].
    cbn zeta in Hh3, Hqq.
    destruct (foldl _ _ _) as [h2 q2]. cbn [fst snd] in *. rewrite Hh3 in Hrun.
    assert (incoming_of h cur = ∅) as Hcur by (apply Hq; left).
    apply IH in Hrun as [HS' Hsub].
    + split; [done|]. intros k. etrans; [apply Hsub|].
      apply delete_object_incoming_subseteq.
    + by apply wf_heap_delete_object.
    + intros q Hin. apply Hqq in Hin as [Hin|(_ & _ & Hs)].
      * pose proof (delete_object_incoming_subseteq step cur h q).
        specialize (Hq' q Hin). set_solver.
      * by apply should_be_deleted_spec in Hs as (_ & _ & ?).
    + by apply self_sustained_delete_object.
Qed.

Lemma cascade_delete_keeps S object_id st r :
  wf_heap (heap st) → incoming_of (heap st) object_id = ∅ →
  self_sustained S (heap st) →
  CascadeDeletionGC.cascade_delete object_id st = Some r →
  self_sustained S (heap r.2) ∧
  ∀ k, incoming_of (heap r.2) k ⊆ incoming_of (heap st) k.
Proof.
  intros Hwf Hin HS. unfold CascadeDeletionGC.cascade_delete.
  destruct (object_exists (heap st) object_id); [|by intros [= <-]].
  destruct (CascadeDeletionGC.cascade_loop _ _ _ _ _ _ _) as [[[h fr] del]|] eqn:Hloop;
    [|done].
  intros [= <-]. cbn.
  apply (cascade_loop_keeps S) in Hloop; [done|done| |done].
  intros q Hq. apply list_elem_of_singleton in Hq as ->. done.
Qed.

Lemma cascade_orphans_keeps S ids :
  ∀ total st r,
    wf_heap (heap st) → (∀ q, q ∈ ids → incoming_of (heap st) q = ∅) →
    self_sustained S (heap st) →
    CascadeDeletionGC.cascade_orphans ids total st = Some r →
    self_sustained S (heap r.2).
Proof.
  induction ids as [|id ids IH]; intros total st r Hwf Hq HS Hrun.
  - simpl in Hrun. by injection Hrun as <-.
  - cbn [CascadeDeletionGC.cascade_orphans] in Hrun.
    assert (∀ q, q ∈ ids → incoming_of (heap st) q = ∅) as Hq'
      by (intros q ?; apply Hq; by right).
    destruct (object_exists (heap st) id); [|by eapply IH].
    destruct (CascadeDeletionGC.cascade_delete id st) as [[freed st1]|] eqn:Hdel; [|done].
    destruct (cascade_delete_wf _ _ _ Hwf Hdel) as (Hwf1 & _).
    apply (cascade_delete_keeps S) in Hdel as [HS1 Hsub]; [|done|apply Hq; left|done].
    cbn [snd] in *.
    eapply IH; [exact Hwf1| |exact HS1|exact Hrun].
    intros q Hin. specialize (Hq' q Hin). specialize (Hsub q). set_solver.
Qed.

Lemma cd_collect_keeps S order st r :
  wf_heap (heap st) → self_sustained S (heap st) →
  CascadeDeletionGC.collect order st = Some r →
  self_sustained S (heap r.2).
Proof.
  intros Hwf HS. unfold CascadeDeletionGC.collect.
  destruct (CascadeDeletionGC.cascade_orphans _ _ _) as [[total st1]|] eqn:Hrun; [|done].
  intros [= <-]. cbn.
  refine (cascade_orphans_keeps S _ 0 st (total, st1) Hwf _ HS Hrun).
  intros q Hq. apply elem_of_orphans in Hq as [_ Hq].
  by apply should_be_deleted_spec in Hq as (_ & _ & ?).
Qed.

Lemma self_sustained_detach_edge S from_id to_id h :
  object_exists h from_id = true → object_exists h to_id = true →
  ¬ (from_id ∈ S ∧ to_id ∈ S) →
  self_sustained S h → self_sustained S (detach_edge from_id to_id h).
Proof.
  intros Hf Ht Hnot HS s Hs. destruct (HS s Hs) as (Hex & p & Hp & Hin).
  destruct (edge_update_sets (HeapObject.remove_reference_to to_id)
              (HeapObject.remove_reference_from from_id)
              (λ X, X ∖ {[to_id]}) (λ X, X ∖ {[from_id]}) from_id to_id h)
    as (Hex' & _ & Hin'); try done.
  cbn zeta in *. unfold detach_edge. rewrite Hex'. split; [done|].
  exists p. split; [done|]. rewrite Hin'. case_decide; [|done].
  subst s. apply elem_of_difference. split; [done|].
  rewrite elem_of_singleton. intros ->. tauto.
Qed.

Lemma cd_remove_reference_keeps S from_id to_id st r :
  wf_heap (heap st) → self_sustained S (heap st) →
  ¬ (from_id ∈ S ∧ to_id ∈ S) →
  CascadeDeletionGC.remove_reference from_id to_id st = Some r →
  self_sustained S (heap r.2).
Proof.
  intros Hwf HS Hnot. unfold CascadeDeletionGC.remove_reference.
  destruct (object_exists (heap st) from_id) eqn:Hf; [|by intros [= <-]].
  destruct (object_exists (heap st) to_id) eqn:Ht; [|by intros [= <-]].
  cbn [negb]. case_bool_decide; [|by intros [= <-]]. cbn [negb].
  pose proof (self_sustained_detach_edge S from_id to_id _ Hf Ht Hnot HS) as HS1.
  pose proof (wf_heap_detach_edge from_id to_id _ Hwf Hf Ht) as Hwf1.
  destruct (CascadeDeletionGC.should_be_deleted _ _) eqn:Hs; [|by intros [= <-]].
  destruct (CascadeDeletionGC.cascade_delete _ _) as [[fr st2]|] eqn:Hdel; [|done].
  intros [= <-]. cbn [snd].
  apply (cascade_delete_keeps S) in Hdel as [HS2 _]; [done|done| |done].
  by apply should_be_deleted_spec in Hs as (_ & _ & ?).
Qed.

(** X5: the batch scan of the cascade collector leaves no orphan
    behind.  On a heap with symmetric edges, visited in an order that names
    every key once, after [collect] no object satisfies
    [should_be_deleted], and a second [collect] (in any order) returns 0
    and changes neither the heap nor [total_objects_collected]. *)
Theorem cd_collect_leaves_no_orphan order order' st :
  wf_heap (heap st) → enumerates order (heap st) →
  ∃ freed st1 st2,
    CascadeDeletionGC.collect order st = Some (freed, st1) ∧
    (∀ k, CascadeDeletionGC.should_be_deleted (heap st1) k = false) ∧
    CascadeDeletionGC.collect order' st1 = Some (0, st2) ∧
    heap st2 = heap st1 ∧
    total_objects_collected st2 = total_objects_collected st1.
Proof.
  intros Hwf Horder.
  destruct (cd_collect_returns order st Hwf) as [[freed st1] Hrun].
  pose proof (cd_collect_no_orphans order st _ Hwf Horder Hrun) as Hnone.
  cbn [snd] in Hnone.
  destruct (cd_collect_nothing order' st1 Hnone) as (st2 & Hrun2 & Hheap & Hcnt & _).
  by exists freed, st1, st2.
Qed.

Lemma cd_collect_leaves_no_orphan_witness :
  ∃ freed st1 st2,
    CascadeDeletionGC.collect [0; 1; 2; 3; 4] cd_live_and_garbage
      = Some (freed, st1) ∧
    (∀ k, CascadeDeletionGC.should_be_deleted (heap st1) k = false) ∧
    CascadeDeletionGC.collect [4; 3; 2; 1; 0] st1 = Some (0, st2) ∧
    heap st2 = heap st1 ∧
    total_objects_collected st2 = total_objects_collected st1.
Proof.
  apply (cd_collect_leaves_no_orphan [0; 1; 2; 3; 4] [4; 3; 2; 1; 0]
           cd_live_and_garbage).
  - apply (bool_decide_unpack _). vm_compute. exact I.
  - apply (bool_decide_unpack _). vm_compute. exact I.
Defined.

(** ** Reference counting: the counts and the leak report *)

Lemma rc_referrers_eq st o : rc_referrers st o = referrers (objects st) ∅ o.
Proof.
  apply set_eq. intros x. unfold rc_referrers.
  rewrite elem_of_filter, elem_of_referrers, eff_refs_empty. tauto.
Qed.

Lemma rc_inv_count st k obj :
  rc_inv st → objects st !! k = Some obj →
  RCObject.ref_count obj
  = (if bool_decide (k ∈ roots st) then 1 else 0)
    + Z.of_nat (size (rc_referrers st k)).
Proof.
  intros (Hcnt & _) Hk. rewrite rc_referrers_eq. by apply Hcnt.
Qed.

Lemma rc_inv_positive st k obj x :
  rc_inv st → objects st !! k = Some obj → k ∈ refs_of (objects st) x →
  1 ≤ RCObject.ref_count obj.
Proof.
  intros Hinv Hk Hx. rewrite (rc_inv_count st k obj Hinv Hk).
  assert (x ∈ rc_referrers st k) as Hin.
  { apply elem_of_filter. split; [done|].
    unfold refs_of in Hx. destruct (objects st !! x) eqn:E.
    - by apply elem_of_dom_2 in E.
    - by apply elem_of_nil in Hx. }
  assert (size (rc_referrers st k) ≠ 0)%nat.
  { intros H0. apply size_empty_inv in H0. set_solver. }
  case_bool_decide; lia.
Qed.

(** ** The keys of the reference-counting heap *)

Lemma rc_step_keys op st st' :
  rc_inv st → rc_keys_nonneg st → rc_step op st = Some st' → rc_keys_nonneg st'.
Proof.
  intros Hinv Hkeys Hstep.
  assert (dom (objects st') ⊆ dom (objects st) → rc_keys_nonneg st') as Hsub.
  { intros Hd k Hk. apply Hkeys. apply elem_of_dom. apply elem_of_dom in Hk.
    set_solver. }
  destruct op as [k|k|k|f t|f t]; simpl in Hstep.
  - injection Hstep as <-. unfold RCHeapOps.allocate.
    destruct (RCHeapOps.object_exists st k); [done|].
    case_bool_decide; [done|]. intros x Hx. cbn in Hx.
    destruct (decide (x = k)) as [->|Hne]; [lia|].
    rewrite lookup_insert_ne in Hx by done. by apply Hkeys.
  - injection Hstep as <-. apply Hsub. unfold RCHeapOps.add_root.
    destruct (negb _); [done|]. case_bool_decide; [done|]. cbn.
    by rewrite dom_alter_rc.
  - destruct (rc_remove_root_spec k st Hinv) as (r & Hr & _ & Hd).
    rewrite Hr in Hstep. injection Hstep as <-. by apply Hsub.
  - injection Hstep as <-. apply Hsub. unfold RCHeapOps.add_ref.
    destruct (_ || _); [done|]. destruct (negb _); [done|].
    destruct (negb _); [done|]. case_bool_decide as Hne; [done|].
    destruct (rc_counter_add_ref_inv (roots st) f t (objects st) Hinv Hne) as [_ Hd].
    destruct (ReferenceCounter.add_ref f t (objects st)). cbn in *. by rewrite Hd.
  - apply Hsub. unfold RCHeapOps.remove_ref in Hstep.
    destruct (_ || _); [by injection Hstep as <-|].
    destruct (negb _); [by injection Hstep as <-|].
    destruct (negb _); [by injection Hstep as <-|].
    destruct (rc_counter_remove_ref_spec (roots st) f t (objects st) Hinv)
      as ([b h'] & Hr & _ & Hd).
    rewrite Hr in Hstep. cbn in Hstep. by injection Hstep as <-.
Qed.

Lemma rc_reachable_keys st : rc_reachable st → rc_keys_nonneg st.
Proof.
  induction 1 as [st ->|st op st' Hreach IH Hstep].
  - intros k [o Hk]. cbn in Hk. by rewrite lookup_empty in Hk.
  - eapply rc_step_keys; [|exact IH|exact Hstep]. by apply rc_reachable_inv.
Qed.

(** X6: the reference counts are exact.  In every state a driver can
    bring the reference-counting heap into, every root is stored;
    [get_ref_count] is [-1] for an id that is not stored; and for a stored
    object the id is not negative, [get_ref_count] is the number of stored
    objects that refer to it plus one if it is a root (so it is never
    negative), and its reference list has no duplicate, does not name the
    object itself and names stored objects only. *)
Theorem rc_counts_are_exact st :
  rc_reachable st →
  roots st ⊆ dom (objects st) ∧
  ∀ k,
    (objects st !! k = None → get_ref_count st k = -1) ∧
    (∀ obj, objects st !! k = Some obj →
       0 ≤ k ∧
       get_ref_count st k
       = (if bool_decide (k ∈ roots st) then 1 else 0)
         + Z.of_nat (size (rc_referrers st k)) ∧
       0 ≤ get_ref_count st k ∧
       NoDup (RCObject.references obj) ∧
       (k ∉ RCObject.references obj) ∧
       ∀ c, c ∈ RCObject.references obj → is_Some (objects st !! c)).
Proof.
  intros Hreach. pose proof (rc_reachable_inv st Hreach) as Hinv.
  pose proof Hinv as (Hcnt & Hcl & Hnd & Hroots & _ & Hself).
  split; [done|]. intros k. unfold get_ref_count. split; [by intros ->|].
  intros obj Hk. rewrite Hk.
  assert (refs_of (objects st) k = RCObject.references obj) as Hrefs
    by (unfold refs_of; by rewrite Hk).
  split; [apply (rc_reachable_keys st Hreach); eauto|].
  split; [by apply rc_inv_count|].
  split; [rewrite (rc_inv_count st k obj Hinv Hk); case_bool_decide; lia|].
  split; [|split].
  - specialize (Hnd k). by rewrite eff_refs_empty, Hrefs in Hnd.
  - specialize (Hself k). by rewrite eff_refs_empty, Hrefs in Hself.
  - intros c Hc. apply elem_of_dom. apply (Hcl k c).
    + by apply elem_of_dom_2 in Hk.
    + by rewrite eff_refs_empty, Hrefs.
Qed.

Lemma rc_counts_are_exact_witness :
  roots rc_scenario_rooted ⊆ dom (objects rc_scenario_rooted) ∧
  ∀ k,
    (objects rc_scenario_rooted !! k = None →
     get_ref_count rc_scenario_rooted k = -1) ∧
    (∀ obj, objects rc_scenario_rooted !! k = Some obj →
       0 ≤ k ∧
       get_ref_count rc_scenario_rooted k
       = (if bool_decide (k ∈ roots rc_scenario_rooted) then 1 else 0)
         + Z.of_nat (size (rc_referrers rc_scenario_rooted k)) ∧
       0 ≤ get_ref_count rc_scenario_rooted k ∧
       NoDup (RCObject.references obj) ∧
       (k ∉ RCObject.references obj) ∧
       ∀ c, c ∈ RCObject.references obj →
            is_Some (objects rc_scenario_rooted !! c)).
Proof.
  apply (rc_counts_are_exact rc_scenario_rooted).
  exact rc_scenario_rooted_reachable.
Defined.

(** X7: what the leak report contains.  In every state a driver can
    reach, [detect_and_log_leaks] reports an id iff it visits it, the
    object is stored, and the object is a root or some stored object refers
    to it: every object that is still in use is reported as a leak, and an
    unreferenced unrooted object is not. *)
Theorem rc_leak_report_is_the_referenced_objects order st :
  rc_reachable st →
  ∀ k, k ∈ RCHeapOps.detect_and_log_leaks order st ↔
       k ∈ order ∧ is_Some (objects st !! k) ∧
       (k ∈ roots st ∨ ∃ x, k ∈ refs_of (objects st) x).
Proof.
  intros Hreach k. pose proof (rc_reachable_inv st Hreach) as Hinv.
  unfold RCHeapOps.detect_and_log_leaks.
  rewrite list_elem_of_In, List.filter_In, <- list_elem_of_In.
  destruct (objects st !! k) as [obj|] eqn:Hk.
  2:{ split; [by intros [_ ?]|]. by intros (_ & [? ?] & _). }
  rewrite bool_decide_eq_true, (rc_inv_count st k obj Hinv Hk).
  split.
  - intros [Hin Hpos]. split; [done|]. split; [eauto|].
    case_bool_decide; [by left|]. right.
    assert (size (rc_referrers st k) ≠ 0)%nat as Hne by lia.
    destruct (set_choose_L (rc_referrers st k)) as [x Hx].
    { intros He. apply Hne. by rewrite He, size_empty. }
    exists x. by apply elem_of_filter in Hx as [? _].
  - intros (Hin & _ & [Hr|[x Hx]]); split; try done.
    + rewrite bool_decide_eq_true_2 by done. lia.
    + pose proof (rc_inv_positive st k obj x Hinv Hk Hx) as Hp.
      rewrite (rc_inv_count st k obj Hinv Hk) in Hp. lia.
Qed.

Lemma rc_leak_report_witness :
  1 ∈ RCHeapOps.detect_and_log_leaks [0; 1; 2; 3] rc_scenario_rooted ↔
  1 ∈ [0; 1; 2; 3] ∧ is_Some (objects rc_scenario_rooted !! 1) ∧
  (1 ∈ roots rc_scenario_rooted
   ∨ ∃ x, 1 ∈ refs_of (objects rc_scenario_rooted) x).
Proof.
  apply (rc_leak_report_is_the_referenced_objects [0; 1; 2; 3] rc_scenario_rooted).
  exact rc_scenario_rooted_reachable.
Defined.

(** ** Reference counting: undoing an operation *)

Lemma rc_object_exists_true st k :
  RCHeapOps.object_exists st k = true ↔ is_Some (objects st !! k).
Proof. unfold RCHeapOps.object_exists. apply bool_decide_eq_true. Qed.

Lemma rc_object_exists_false st k :
  RCHeapOps.object_exists st k = false ↔ objects st !! k = None.
Proof.
  unfold RCHeapOps.object_exists. rewrite bool_decide_eq_false.
  rewrite eq_None_not_Some. done.
Qed.

Lemma erase_first_app_absent x l :
  x ∉ l → RCObject.erase_first x (l ++ [x]) = l.
Proof.
  induction l as [|y l IH]; intros Hx; cbn.
  - by rewrite bool_decide_eq_true_2.
  - apply not_elem_of_cons in Hx as [Hne Hx].
    rewrite bool_decide_eq_false_2 by done. by rewrite IH.
Qed.

Lemma rc_cascade_from_erases obj_id h h' obj :
  h !! obj_id = Some obj → RCObject.ref_count obj = 0 →
  ReferenceCounter.cascade_from obj_id h = Some h' → h' !! obj_id = None.
Proof.
  intros Hobj H0. unfold ReferenceCounter.cascade_from.
  cbn [ReferenceCounter.cascade_delete]. rewrite Hobj.
  rewrite bool_decide_eq_false_2 by set_solver.
  rewrite bool_decide_eq_false_2 by (intros Hne; by apply Hne).
  destruct (ReferenceCounter.cascade_children _ _ _ _) as [[v2 h2]|]; [|done].
  cbn. intros [= <-]. apply lookup_delete_eq.
Qed.

(** The counter's [add_ref] followed by its [remove_ref]. *)
Lemma rc_counter_add_remove roots from to h src dst :
  rc_inv_at roots ∅ h →
  h !! from = Some src → h !! to = Some dst → from ≠ to →
  to ∉ RCObject.references src →
  let h1 := (ReferenceCounter.add_ref from to h).2 in
  (ReferenceCounter.add_ref from to h).1 = true ∧
  (0 < RCObject.ref_count dst →
     ReferenceCounter.remove_ref from to h1 = Some (true, h)) ∧
  (RCObject.ref_count dst = 0 →
     ∃ h2, ReferenceCounter.remove_ref from to h1 = Some (true, h2) ∧
           h2 !! to = None).
Proof.
  intros Hinv Hsrc Hdst Hne Hnot. cbn zeta.
  unfold ReferenceCounter.add_ref. rewrite Hsrc, Hdst.
  assert (RCObject.has_reference_to to src = false) as ->
    by (unfold RCObject.has_reference_to; by rewrite bool_decide_eq_false_2).
  cbn [fst snd]. split; [done|].
  set (src' := RCObject.add_outgoing_ref to src).
  set (h1 := alter _ to (<[from := src']> h)).
  assert (h1 !! to = Some (RCObject.set_ref_count (RCObject.ref_count dst + 1) dst))
    as Hto1.
  { unfold h1. rewrite lookup_alter_eq, lookup_insert_ne by done. by rewrite Hdst. }
  assert (h1 !! from = Some src') as Hfrom1.
  { unfold h1. rewrite lookup_alter_ne by done. by rewrite lookup_insert_eq. }
  assert (RCObject.references src' = RCObject.references src ++ [to]) as Hrefs.
  { unfold src', RCObject.add_outgoing_ref, RCObject.has_reference_to.
    by rewrite bool_decide_eq_false_2. }
  assert (RCObject.remove_outgoing_ref to src' = src) as Hback.
  { unfold RCObject.remove_outgoing_ref. rewrite Hrefs, erase_first_app_absent by done.
    unfold src', RCObject.add_outgoing_ref, RCObject.has_reference_to.
    rewrite bool_decide_eq_false_2 by done. by destruct src. }
  set (h4 := alter (λ d, RCObject.set_ref_count (RCObject.ref_count d - 1) d) to
               (<[from := RCObject.remove_outgoing_ref to src']> h1)).
  assert (h4 = h) as Hh4.
  { apply map_eq. intros k. unfold h4. rewrite Hback.
    destruct (decide (k = to)) as [->|Hkt].
    - rewrite lookup_alter_eq, lookup_insert_ne, Hto1, Hdst by done. cbn.
      f_equal. destruct dst. unfold RCObject.set_ref_count. cbn. f_equal. lia.
    - rewrite lookup_alter_ne by done.
      destruct (decide (k = from)) as [->|Hkf].
      + by rewrite lookup_insert_eq, Hsrc.
      + rewrite lookup_insert_ne by done. unfold h1.
        rewrite lookup_alter_ne, lookup_insert_ne by done. done. }
  assert (ReferenceCounter.remove_ref from to h1
          = if bool_decide (RCObject.ref_count dst < 0)
            then Some (false, <[to := RCObject.set_ref_count 0 dst]> h)
            else if bool_decide (RCObject.ref_count dst = 0)
                 then pair true <$> ReferenceCounter.cascade_from to h
                 else Some (true, h)) as Hrem.
  { unfold ReferenceCounter.remove_ref. rewrite Hto1, Hfrom1.
    unfold RCObject.has_reference_to. rewrite Hrefs.
    rewrite bool_decide_eq_true_2 by (apply elem_of_app; right; left).
    cbn [negb]. fold h4. rewrite Hh4, Hdst. done. }
  rewrite Hrem. split.
  - intros Hpos. rewrite !bool_decide_eq_false_2 by lia. done.
  - intros H0. rewrite bool_decide_eq_false_2 by lia.
    rewrite bool_decide_eq_true_2 by done.
    destruct (rc_cascade_from_spec roots to h Hinv) as (h' & Hrun & _).
    rewrite Hrun. exists h'. split; [done|].
    by apply (rc_cascade_from_erases to h h' dst).
Qed.

(** X8: undoing a fresh reference in the reference-counting heap.
    In every state a driver can reach, for stored [from ≠ to] without the
    reference, [add_ref] returns [true]; [remove_ref] right after it
    returns [true] and gives back exactly the state before the two calls if
    [to] had a positive count, and erases [to], leaving the roots alone, if
    its count was 0. *)
Theorem rc_add_ref_then_remove_ref from to st src dst :
  rc_reachable st →
  objects st !! from = Some src → objects st !! to = Some dst →
  from ≠ to → to ∉ RCObject.references src →
  let r := RCHeapOps.add_ref from to st in
  r.1 = true ∧
  (0 < RCObject.ref_count dst →
     RCHeapOps.remove_ref from to r.2 = Some (true, st)) ∧
  (RCObject.ref_count dst = 0 →
     ∃ st2, RCHeapOps.remove_ref from to r.2 = Some (true, st2) ∧
            objects st2 !! to = None ∧ roots st2 = roots st).
Proof.
  intros Hreach Hsrc Hdst Hne Hnot. cbn zeta.
  pose proof (rc_reachable_inv st Hreach) as Hinv.
  pose proof (rc_reachable_keys st Hreach) as Hkeys.
  assert (0 ≤ from) as Hf by (apply Hkeys; eauto).
  assert (0 ≤ to) as Ht by (apply Hkeys; eauto).
  destruct (rc_counter_add_remove (roots st) from to (objects st) src dst
              Hinv Hsrc Hdst Hne Hnot) as (Hadd & Hpos & Hzero).
  cbn zeta in *.
  assert (RCHeapOps.add_ref from to st
          = ((ReferenceCounter.add_ref from to (objects st)).1,
             mkRCHeap (ReferenceCounter.add_ref from to (objects st)).2 (roots st)))
    as Heq.
  { unfold RCHeapOps.add_ref.
    rewrite !bool_decide_eq_false_2 by lia. cbn [orb].
    rewrite (proj2 (rc_object_exists_true st from)) by eauto.
    rewrite (proj2 (rc_object_exists_true st to)) by eauto. cbn [negb].
    by destruct (ReferenceCounter.add_ref from to (objects st)). }
  rewrite Heq. cbn [fst snd]. split; [done|].
  set (h1 := (ReferenceCounter.add_ref from to (objects st)).2) in *.
  assert (dom h1 = dom (objects st)) as Hdom.
  { by destruct (rc_counter_add_ref_inv (roots st) from to (objects st) Hinv Hne). }
  assert (RCHeapOps.remove_ref from to (mkRCHeap h1 (roots st))
          = (λ '(r, h), (r, mkRCHeap h (roots st)))
              <$> ReferenceCounter.remove_ref from to h1) as Hrem.
  { unfold RCHeapOps.remove_ref.
    rewrite !bool_decide_eq_false_2 by lia. cbn [orb].
    rewrite !(proj2 (rc_object_exists_true _ _)); [done| |].
    - cbn. apply elem_of_dom. rewrite Hdom. by apply elem_of_dom_2 in Hdst.
    - cbn. apply elem_of_dom. rewrite Hdom. by apply elem_of_dom_2 in Hsrc. }
  rewrite Hrem. split.
  - intros Hp. rewrite (Hpos Hp). cbn. by rewrite mkRCHeap_eta.
  - intros H0. destruct (Hzero H0) as (h2 & -> & Hnone). cbn. eauto.
Qed.

Lemma rc_add_ref_then_remove_ref_witness :
  let r := RCHeapOps.add_ref 0 4 rc_scenario_with_fresh in
  r.1 = true ∧
  (0 < RCObject.ref_count (RCObject.make 4) →
     RCHeapOps.remove_ref 0 4 r.2 = Some (true, rc_scenario_with_fresh)) ∧
  (RCObject.ref_count (RCObject.make 4) = 0 →
     ∃ st2, RCHeapOps.remove_ref 0 4 r.2 = Some (true, st2) ∧
            objects st2 !! 4 = None ∧ roots st2 = roots rc_scenario_with_fresh).
Proof.
  apply (rc_add_ref_then_remove_ref 0 4 rc_scenario_with_fresh
           (RCObject.mk 0 1 [1]) (RCObject.make 4)).
  - exact rc_scenario_with_fresh_reachable.
  - vm_compute. reflexivity.
  - vm_compute. reflexivity.
  - discriminate.
  - apply (bool_decide_unpack _). vm_compute. exact I.
Defined.

(** X9: undoing a fresh root in the reference-counting heap.  In
    every state a driver can reach, for a stored object that is no root,
    [add_root] returns [true]; [remove_root] right after it returns [true]
    and gives back exactly the state before the two calls if the object had
    a positive count, and erases the object, leaving the other roots alone,
    if its count was 0. *)
Theorem rc_add_root_then_remove_root k st obj :
  rc_reachable st → objects st !! k = Some obj → k ∉ roots st →
  let r := RCHeapOps.add_root k st in
  r.1 = true ∧
  (0 < RCObject.ref_count obj →
     RCHeapOps.remove_root k r.2 = Some (true, st)) ∧
  (RCObject.ref_count obj = 0 →
     ∃ st2, RCHeapOps.remove_root k r.2 = Some (true, st2) ∧
            objects st2 !! k = None ∧ roots st2 = roots st).
Proof.
  intros Hreach Hk Hroot. cbn zeta.
  pose proof (rc_reachable_inv st Hreach) as Hinv.
  unfold RCHeapOps.add_root.
  rewrite (proj2 (rc_object_exists_true st k)) by eauto. cbn [negb].
  rewrite bool_decide_eq_false_2 by done. cbn [fst snd]. split; [done|].
  set (h1 := alter _ k (objects st)).
  assert (h1 !! k = Some (RCObject.set_ref_count (RCObject.ref_count obj + 1) obj))
    as Hk1 by (unfold h1; by rewrite lookup_alter_eq, Hk).
  assert (({[k]} ∪ roots st) ∖ {[k]} = roots st) as Hroots by set_solver.
  set (h2 := alter (λ o, RCObject.set_ref_count (RCObject.ref_count o - 1) o) k h1).
  assert (h2 = objects st) as Hh2.
  { apply map_eq. intros x. unfold h2. destruct (decide (x = k)) as [->|Hne].
    - rewrite lookup_alter_eq, Hk1, Hk. cbn. f_equal.
      destruct obj. unfold RCObject.set_ref_count. cbn. f_equal. lia.
    - rewrite lookup_alter_ne by done. unfold h1. by rewrite lookup_alter_ne. }
  assert (RCHeapOps.remove_root k (mkRCHeap h1 ({[k]} ∪ roots st))
          = if bool_decide (RCObject.ref_count obj < 0)
            then Some (false, mkRCHeap (<[k := RCObject.set_ref_count 0 obj]> (objects st))
                                (roots st))
            else if bool_decide (RCObject.ref_count obj = 0)
                 then (λ h, (true, mkRCHeap h (roots st)))
                        <$> ReferenceCounter.cascade_from k (objects st)
                 else Some (true, mkRCHeap (objects st) (roots st))) as Hrem.
  { unfold RCHeapOps.remove_root.
    rewrite (proj2 (rc_object_exists_true _ k)) by (cbn; eauto). cbn [negb].
    cbn [roots objects]. rewrite bool_decide_eq_true_2 by set_solver. cbn [negb].
    fold h2. rewrite Hh2, Hk, Hroots. done. }
  rewrite Hrem. split.
  - intros Hp. rewrite !bool_decide_eq_false_2 by lia. by rewrite mkRCHeap_eta.
  - intros H0. rewrite bool_decide_eq_false_2 by lia.
    rewrite bool_decide_eq_true_2 by done.
    destruct (rc_cascade_from_spec (roots st) k (objects st) Hinv) as (h' & Hrun & _).
    rewrite Hrun. cbn. eexists. split; [done|]. cbn. split; [|done].
    by apply (rc_cascade_from_erases k (objects st) h' obj).
Qed.

Lemma rc_add_root_then_remove_root_witness :
  let r := RCHeapOps.add_root 4 rc_scenario_with_fresh in
  r.1 = true ∧
  (0 < RCObject.ref_count (RCObject.make 4) →
     RCHeapOps.remove_root 4 r.2 = Some (true, rc_scenario_with_fresh)) ∧
  (RCObject.ref_count (RCObject.make 4) = 0 →
     ∃ st2, RCHeapOps.remove_root 4 r.2 = Some (true, st2) ∧
            objects st2 !! 4 = None ∧ roots st2 = roots rc_scenario_with_fresh).
Proof.
  apply (rc_add_root_then_remove_root 4 rc_scenario_with_fresh (RCObject.make 4)).
  - exact rc_scenario_with_fresh_reachable.
  - vm_compute. reflexivity.
  - apply (bool_decide_unpack _). vm_compute. exact I.
Defined.

(** ** Reference counting: failing operations *)

Lemma rc_counter_remove_ref_result roots from to h r :
  rc_inv_at roots ∅ h →
  ReferenceCounter.remove_ref from to h = Some r →
  (r.1 = true ↔ is_Some (h !! from) ∧ is_Some (h !! to) ∧ to ∈ refs_of h from) ∧
  (r.1 = false → r.2 = h).
Proof.
  intros Hinv. unfold ReferenceCounter.remove_ref, refs_of.
  destruct (h !! to) as [dst|] eqn:Hdst.
  2:{ intros [= <-]. cbn. split; [|done]. split; [done|]. by intros (_ & [? ?] & _). }
  destruct (h !! from) as [src|] eqn:Hsrc.
  2:{ intros [= <-]. cbn. split; [|done]. split; [done|].
      intros (_ & _ & Hin). by apply elem_of_nil in Hin. }
  unfold RCObject.has_reference_to. case_bool_decide as Hhas; cbn [negb].
  2:{ intros [= <-]. cbn. split; [|done]. split; [done|]. tauto. }
  set (h2 := alter _ to _).
  assert (1 ≤ RCObject.ref_count dst) as Hge.
  { destruct Hinv as (Hcnt & _). rewrite (Hcnt to dst Hdst).
    assert (from ∈ referrers h ∅ to) as Hin.
    { apply elem_of_referrers. split; [by apply elem_of_dom_2 in Hsrc|].
      rewrite eff_refs_empty. unfold refs_of. by rewrite Hsrc. }
    assert (size (referrers h ∅ to) ≠ 0)%nat.
    { intros H0. apply size_empty_inv in H0. set_solver. }
    unfold root_count. case_bool_decide; lia. }
  assert (∃ dst2, h2 !! to = Some dst2 ∧
                  RCObject.ref_count dst2 = RCObject.ref_count dst - 1)
    as (dst2 & Hdst2 & Hrc).
  { unfold h2. rewrite lookup_alter_eq.
    destruct (decide (to = from)) as [->|Hne].
    - rewrite lookup_insert_eq. eexists. split; [done|]. cbn.
      assert (src = dst) by congruence. by subst.
    - rewrite lookup_insert_ne, Hdst by done. eexists. split; [done|]. done. }
  rewrite Hdst2. rewrite bool_decide_eq_false_2 by lia.
  case_bool_decide.
  - destruct (ReferenceCounter.cascade_from to h2); [|done].
    cbn. intros [= <-]. cbn. split; [|done]. split; [|done]. eauto.
  - intros [= <-]. cbn. split; [|done]. split; [|done]. eauto.
Qed.

(** X10: the operations of the reference-counting heap report
    failure exactly when their guards say so, and a failed operation
    changes nothing.  In every state a driver can reach: [allocate]
    succeeds iff the id is not negative and not stored; [add_root] iff the
    object is stored and no root; [remove_root] iff it is stored and a
    root; [add_ref] iff both objects are stored, differ, and the reference
    is not there; [remove_ref] iff both are stored and the reference is
    there; [remove_root] and [remove_ref] always return; and each
    operation that returns [false] returns the state it was given. *)
Theorem rc_operations_fail_cleanly st :
  rc_reachable st →
  (∀ k, let r := RCHeapOps.allocate k st in
        (r.1 = true ↔ 0 ≤ k ∧ objects st !! k = None) ∧
        (r.1 = false → r.2 = st)) ∧
  (∀ k, let r := RCHeapOps.add_root k st in
        (r.1 = true ↔ is_Some (objects st !! k) ∧ k ∉ roots st) ∧
        (r.1 = false → r.2 = st)) ∧
  (∀ k, ∃ r, RCHeapOps.remove_root k st = Some r ∧
        (r.1 = true ↔ is_Some (objects st !! k) ∧ k ∈ roots st) ∧
        (r.1 = false → r.2 = st)) ∧
  (∀ from to, let r := RCHeapOps.add_ref from to st in
        (r.1 = true ↔ is_Some (objects st !! from) ∧ is_Some (objects st !! to) ∧
                      from ≠ to ∧ to ∉ refs_of (objects st) from) ∧
        (r.1 = false → r.2 = st)) ∧
  (∀ from to, ∃ r, RCHeapOps.remove_ref from to st = Some r ∧
        (r.1 = true ↔ is_Some (objects st !! from) ∧ is_Some (objects st !! to) ∧
                      to ∈ refs_of (objects st) from) ∧
        (r.1 = false → r.2 = st)).
Proof.
  intros Hreach.
  pose proof (rc_reachable_inv st Hreach) as Hinv.
  pose proof (rc_reachable_keys st Hreach) as Hkeys.
  split; [|split; [|split; [|split]]].
  - intros k. cbn zeta. unfold RCHeapOps.allocate.
    destruct (RCHeapOps.object_exists st k) eqn:Hex.
    { apply rc_object_exists_true in Hex as [o Ho]. cbn. split; [|done].
      split; [done|]. intros [_ ?]. congruence. }
    apply rc_object_exists_false in Hex.
    case_bool_decide as Hneg; cbn.
    + split; [|done]. split; [done|]. intros [? _]. lia.
    + split; [|done]. split; [|done]. intros _. split; [lia|done].
  - intros k. cbn zeta. unfold RCHeapOps.add_root.
    destruct (RCHeapOps.object_exists st k) eqn:Hex; cbn [negb].
    2:{ apply rc_object_exists_false in Hex. cbn. split; [|done].
        split; [done|]. intros [[? ?] _]. congruence. }
    apply rc_object_exists_true in Hex.
    case_bool_decide as Hr; cbn.
    + split; [|done]. split; [done|]. tauto.
    + split; [|done]. split; [|done]. tauto.
  - intros k. destruct (rc_remove_root_spec k st Hinv) as (r & Hrun & _).
    exists r. split; [done|].
    unfold RCHeapOps.remove_root in Hrun.
    destruct (RCHeapOps.object_exists st k) eqn:Hex; cbn [negb] in Hrun.
    2:{ apply rc_object_exists_false in Hex. injection Hrun as <-. cbn.
        split; [|done]. split; [done|]. intros [[? ?] _]. congruence. }
    apply rc_object_exists_true in Hex as [obj Hk].
    case_bool_decide as Hr; cbn [negb] in Hrun.
    2:{ injection Hrun as <-. cbn. split; [|done]. split; [done|]. tauto. }
    rewrite lookup_alter_eq, Hk in Hrun.
    cbn [fmap option_fmap option_map RCObject.ref_count RCObject.set_ref_count] in Hrun.
    assert (1 ≤ RCObject.ref_count obj) as Hge.
    { rewrite (rc_inv_count st k obj Hinv Hk).
      rewrite bool_decide_eq_true_2 by done. lia. }
    rewrite bool_decide_eq_false_2 in Hrun by lia.
    case_bool_decide.
    + destruct (ReferenceCounter.cascade_from _ _); [|done].
      cbn [fmap option_fmap option_map] in Hrun.
      injection Hrun as <-. cbn. split; [|done]. split; [|done]. eauto.
    + injection Hrun as <-. cbn. split; [|done]. split; [|done]. eauto.
  - intros from to. cbn zeta. unfold RCHeapOps.add_ref.
    destruct (bool_decide (from < 0) || bool_decide (to < 0)) eqn:Hneg.
    { cbn. split; [|done]. split; [done|]. intros ([? ?] & [? ?] & _).
      apply orb_true_iff in Hneg as [Hn|Hn]; apply bool_decide_eq_true in Hn.
      - assert (0 ≤ from) by (apply Hkeys; eauto). lia.
      - assert (0 ≤ to) by (apply Hkeys; eauto). lia. }
    clear Hneg.
    destruct (RCHeapOps.object_exists st from) eqn:Hf; cbn [negb].
    2:{ apply rc_object_exists_false in Hf. cbn. split; [|done].
        split; [done|]. intros ([? ?] & _). congruence. }
    destruct (RCHeapOps.object_exists st to) eqn:Ht; cbn [negb].
    2:{ apply rc_object_exists_false in Ht. cbn. split; [|done].
        split; [done|]. intros (_ & [? ?] & _). congruence. }
    apply rc_object_exists_true in Hf as [src Hsrc].
    apply rc_object_exists_true in Ht as [dst Hdst].
    case_bool_decide as Heq.
    { cbn. split; [|done]. split; [done|]. by intros (_ & _ & ? & _). }
    unfold ReferenceCounter.add_ref, refs_of. rewrite Hsrc, Hdst.
    destruct (RCObject.has_reference_to to src) eqn:Hhas; cbn.
    + apply bool_decide_eq_true in Hhas.
      split; [|intros _; by destruct st]. split; [done|]. by intros (_ & _ & _ & ?).
    + apply bool_decide_eq_false in Hhas.
      split; [|done]. split; [|done]. eauto.
  - intros from to.
    destruct (rc_remove_ref_spec from to st Hinv) as (r & Hrun & _).
    exists r. split; [done|].
    unfold RCHeapOps.remove_ref in Hrun.
    destruct (bool_decide (from < 0) || bool_decide (to < 0)) eqn:Hneg.
    { injection Hrun as <-. cbn. split; [|done]. split; [done|].
      intros ([? ?] & [? ?] & _).
      apply orb_true_iff in Hneg as [Hn|Hn]; apply bool_decide_eq_true in Hn.
      - assert (0 ≤ from) by (apply Hkeys; eauto). lia.
      - assert (0 ≤ to) by (apply Hkeys; eauto). lia. }
    clear Hneg.
    destruct (RCHeapOps.object_exists st from) eqn:Hf; cbn [negb] in Hrun.
    2:{ apply rc_object_exists_false in Hf. injection Hrun as <-. cbn.
        split; [|done]. split; [done|]. intros ([? ?] & _). congruence. }
    destruct (RCHeapOps.object_exists st to) eqn:Ht; cbn [negb] in Hrun.
    2:{ apply rc_object_exists_false in Ht. injection Hrun as <-. cbn.
        split; [|done]. split; [done|]. intros (_ & [? ?] & _). congruence. }
    destruct (ReferenceCounter.remove_ref from to (objects st)) as [[b h']|] eqn:Hrem;
      [|done].
    cbn in Hrun. injection Hrun as <-. cbn.
    destruct (rc_counter_remove_ref_result (roots st) from to (objects st) _ Hinv Hrem)
      as [Hok Hfail]. cbn in Hok, Hfail.
    split; [done|]. intros Hb. rewrite (Hfail Hb). apply mkRCHeap_eta.
Qed.

Lemma rc_operations_fail_cleanly_witness :
  (∀ k, let r := RCHeapOps.allocate k rc_scenario_rooted in
        (r.1 = true ↔ 0 ≤ k ∧ objects rc_scenario_rooted !! k = None) ∧
        (r.1 = false → r.2 = rc_scenario_rooted)) ∧
  (∀ from to, ∃ r, RCHeapOps.remove_ref from to rc_scenario_rooted = Some r ∧
        (r.1 = true ↔ is_Some (objects rc_scenario_rooted !! from) ∧
                      is_Some (objects rc_scenario_rooted !! to) ∧
                      to ∈ refs_of (objects rc_scenario_rooted) from) ∧
        (r.1 = false → r.2 = rc_scenario_rooted)).
Proof.
  destruct (rc_operations_fail_cleanly rc_scenario_rooted
              rc_scenario_rooted_reachable) as (Halloc & _ & _ & _ & Hrem).
  split; [exact Halloc|exact Hrem].
Defined.

(** ** Reference counting: what a cascade can never erase *)

Lemma refs_of_stored h p s : s ∈ refs_of h p → p ∈ dom h.
Proof.
  unfold refs_of. destruct (h !! p) eqn:E; [by apply elem_of_dom_2 in E|].
  by intros ?%elem_of_nil.
Qed.

Lemma rc_self_sustained_ext S h h' :
  (∀ s, s ∈ S → is_Some (h !! s) → is_Some (h' !! s)) →
  (∀ p s, p ∈ S → s ∈ S → s ∈ refs_of h p → s ∈ refs_of h' p) →
  rc_self_sustained S h → rc_self_sustained S h'.
Proof.
  intros Hs Hr HS s Hin. destruct (HS s Hin) as (Hst & p & Hp & Href).
  split; [by apply Hs|]. exists p. split; [done|]. by apply Hr.
Qed.

Lemma rc_sustained_positive roots pending h S s obj :
  rc_inv_at roots pending h → rc_self_sustained S h → S ## dom pending →
  s ∈ S → h !! s = Some obj → 1 ≤ RCObject.ref_count obj.
Proof.
  intros (Hcnt & _) HS Hdisj Hs Hobj.
  destruct (HS s Hs) as (_ & p & Hp & Href).
  rewrite (Hcnt s obj Hobj).
  assert (p ∈ referrers h pending s) as Hin.
  { apply elem_of_referrers. split; [by apply (refs_of_stored h p s)|].
    unfold eff_refs. assert (pending !! p = None) as ->; [|done].
    apply not_elem_of_dom. set_solver. }
  assert (size (referrers h pending s) ≠ 0)%nat.
  { intros H0. apply size_empty_inv in H0. set_solver. }
  unfold root_count. case_bool_decide; lia.
Qed.

Section rc_keeps.

Variable roots : gset Z.
Variable S : gset Z.

Section children.

Variable fuel : nat.

Hypothesis IH_cascade_delete :
  ∀ obj_id visited h pending r,
    rc_inv_at roots pending h → dom pending ⊆ visited →
    (size (dom h ∖ visited) < fuel)%nat →
    rc_self_sustained S h → S ## dom pending →
    ReferenceCounter.cascade_delete fuel obj_id visited h = Some r →
    rc_self_sustained S r.2.

Lemma rc_cascade_children_keeps p children :
  ∀ visited h pending r,
    rc_inv_at roots (<[p := children]> pending) h →
    dom pending ∪ {[p]} ⊆ visited →
    (size (dom h ∖ visited) < fuel)%nat →
    rc_self_sustained S h → S ## dom pending ∪ {[p]} →
    ReferenceCounter.cascade_children
      (ReferenceCounter.cascade_delete fuel) children visited h = Some r →
    rc_self_sustained S r.2.
Proof.
  induction children as [|c rest IH];
    intros visited h pending r Hinv Hvis Hfuel HS Hdisj Hrun.
  - cbn in Hrun. by injection Hrun as <-.
  - cbn [ReferenceCounter.cascade_children] in Hrun.
    pose proof Hinv as (Hcnt & Hcl & Hnd & Hroots & Hpend & Hself).
    destruct (Hpend p (c :: rest)) as (pobj & Hp & Hp0);
      [by rewrite lookup_insert_eq|].
    assert (c ∈ dom h) as Hcd.
    { apply (Hcl p c); [apply elem_of_dom; eauto|].
      unfold eff_refs. rewrite lookup_insert_eq. by left. }
    apply elem_of_dom in Hcd as [cobj Hc]. rewrite Hc in Hrun.
    destruct (rc_release_child roots pending h p c rest cobj Hinv Hc) as [Hge Hinv1].
    cbv zeta in Hrun.
    rewrite (bool_decide_eq_false_2 (RCObject.ref_count cobj - 1 < 0)) in Hrun by lia.
    set (h1 := <[c := RCObject.set_ref_count (RCObject.ref_count cobj - 1) cobj]> h)
      in *.
    assert (dom h1 = dom h) as Hdom.
    { unfold h1. rewrite dom_insert_L.
      assert (c ∈ dom h) by (apply elem_of_dom; eauto). set_solver. }
    assert (rc_self_sustained S h1) as HS1.
    { revert HS. apply rc_self_sustained_ext.
      - intros s _ Hs. apply elem_of_dom. rewrite Hdom. by apply elem_of_dom.
      - intros q s _ _. unfold refs_of, h1.
        destruct (decide (q = c)) as [->|Hne].
        + by rewrite lookup_insert_eq, Hc.
        + by rewrite lookup_insert_ne. }
    case_bool_decide.
    + destruct (ReferenceCounter.cascade_delete fuel c visited h1)
        as [[v2 h2]|] eqn:Hrec; [|done].
      destruct (rc_cascade_delete_spec roots fuel c visited h1 (<[p := rest]> pending)
                  Hinv1) as (r2 & Hrec' & Hinv2 & Hv2 & Hd2).
      { rewrite dom_insert_L. set_solver. }
      { by rewrite Hdom. }
      rewrite Hrec in Hrec'. injection Hrec' as <-. cbn [fst snd] in *.
      assert (rc_self_sustained S h2) as HS2.
      { apply (IH_cascade_delete c visited h1 (<[p := rest]> pending) (v2, h2));
          try done.
        - rewrite dom_insert_L. set_solver.
        - by rewrite Hdom.
        - rewrite dom_insert_L. set_solver. }
      apply (IH v2 h2 pending r Hinv2); try done.
      * set_solver.
      * assert (size (dom h2 ∖ v2) ≤ size (dom h ∖ visited))%nat; [|lia].
        apply subseteq_size. set_solver.
    + apply (IH visited h1 pending r Hinv1); try done. by rewrite Hdom.
Qed.

End children.

Lemma rc_cascade_delete_keeps fuel :
  ∀ obj_id visited h pending r,
    rc_inv_at roots pending h → dom pending ⊆ visited →
    (size (dom h ∖ visited) < fuel)%nat →
    rc_self_sustained S h → S ## dom pending →
    ReferenceCounter.cascade_delete fuel obj_id visited h = Some r →
    rc_self_sustained S r.2.
Proof.
  induction fuel as [|fuel IH];
    intros obj_id visited h pending r Hinv Hvis Hfuel HS Hdisj Hrun; [lia|].
  cbn [ReferenceCounter.cascade_delete] in Hrun.
  destruct (h !! obj_id) as [obj|] eqn:Hobj; [|by injection Hrun as <-].
  case_bool_decide as Hv; [by injection Hrun as <-|].
  case_bool_decide as Hz; [by injection Hrun as <-|].
  assert (RCObject.ref_count obj = 0) as H0.
  { destruct (decide (RCObject.ref_count obj = 0)); [done|]. by destruct Hz. }
  assert (obj_id ∉ S) as HnS.
  { intros Hin.
    pose proof (rc_sustained_positive roots pending h S obj_id obj Hinv HS Hdisj Hin Hobj).
    lia. }
  assert (pending !! obj_id = None) as Hpn.
  { apply not_elem_of_dom. set_solver. }
  pose proof (rc_inv_push roots pending h obj_id obj Hinv Hpn Hobj H0) as Hinv1.
  destruct (ReferenceCounter.cascade_children _ _ _ _) as [[v2 h2]|] eqn:Hch; [|done].
  injection Hrun as <-. cbn [snd].
  assert (rc_self_sustained S h2) as HS2.
  { apply (rc_cascade_children_keeps fuel IH obj_id (RCObject.references obj)
             ({[obj_id]} ∪ visited) h pending (v2, h2) Hinv1); try done.
    - set_solver.
    - assert (size (dom h ∖ ({[obj_id]} ∪ visited)) < size (dom h ∖ visited))%nat;
        [|lia].
      apply subset_size. apply elem_of_dom_2 in Hobj. set_solver.
    - set_solver. }
  intros s Hs. destruct (HS2 s Hs) as (Hst & p & Hp & Href).
  assert (s ≠ obj_id) by (intros ->; done).
  assert (p ≠ obj_id) by (intros ->; done).
  split; [by rewrite lookup_delete_ne|].
  exists p. split; [done|]. unfold refs_of in *. by rewrite lookup_delete_ne.
Qed.

Lemma rc_cascade_from_keeps obj_id h h' :
  rc_inv_at roots ∅ h → rc_self_sustained S h →
  ReferenceCounter.cascade_from obj_id h = Some h' →
  rc_self_sustained S h'.
Proof.
  intros Hinv HS. unfold ReferenceCounter.cascade_from.
  destruct (ReferenceCounter.cascade_delete _ _ _ _) as [[v h2]|] eqn:Hrun; [|done].
  cbn. intros [= <-].
  apply (rc_cascade_delete_keeps _ obj_id ∅ h ∅ (v, h2) Hinv) in Hrun; try done.
  rewrite difference_empty_L, size_dom. lia.
Qed.

End rc_keeps.

(** Taking the edge [from → to] out of the heap and off the count of
    [to] keeps the invariant. *)
Lemma rc_inv_remove_edge roots from to h src dst :
  rc_inv_at roots ∅ h →
  h !! to = Some dst → h !! from = Some src → to ∈ RCObject.references src →
  rc_inv_at roots ∅
    (alter (λ o, RCObject.set_ref_count (RCObject.ref_count o - 1) o) to
       (<[from := RCObject.remove_outgoing_ref to src]> h)).
Proof.
  intros Hinv Hdst Hsrc Hhas.
  set (src' := RCObject.remove_outgoing_ref to src).
  set (h1 := <[from := src']> h).
  set (h2 := alter _ to h1).
  pose proof Hinv as (Hcnt & Hcl & Hnd & Hroots & Hpend & Hself).
  assert (eff_refs h ∅ from = RCObject.references src) as Hefrom.
  { rewrite eff_refs_empty. unfold refs_of. by rewrite Hsrc. }
  assert (NoDup (RCObject.references src)) as Hndsrc.
  { rewrite <- Hefrom. apply Hnd. }
  assert (dom h2 = dom h) as Hdom.
  { unfold h2, h1. rewrite dom_alter_rc, dom_insert_L.
    apply elem_of_dom_2 in Hsrc. set_solver. }
  assert (∀ x, eff_refs h2 ∅ x =
               if decide (x = from)
               then RCObject.erase_first to (RCObject.references src)
               else eff_refs h ∅ x) as Heff.
  { intros x. rewrite !eff_refs_empty. unfold h2.
    rewrite refs_of_alter_count by done. unfold refs_of, h1.
    case_decide; subst; [by rewrite lookup_insert_eq|by rewrite lookup_insert_ne]. }
  assert (from ∈ referrers h ∅ to) as Hisref.
  { rewrite elem_of_referrers, Hefrom. apply elem_of_dom_2 in Hsrc. tauto. }
  assert (∀ o, referrers h2 ∅ o =
               if decide (o = to) then referrers h ∅ to ∖ {[from]}
               else referrers h ∅ o) as Href.
  { intros o. apply set_eq. intros x. case_decide as Ho.
    - subst o. rewrite elem_of_difference, elem_of_singleton, !elem_of_referrers,
        Hdom, Heff.
      case_decide as Hx.
      + subst x. rewrite elem_of_erase_first by done. tauto.
      + tauto.
    - rewrite !elem_of_referrers, Hdom, Heff. case_decide as Hx; [|done].
      subst x. rewrite elem_of_erase_first, Hefrom by done. split; [tauto|].
      intros [? ?]. split; [done|]. split; [done|]. congruence. }
  repeat split.
  - intros o obj Ho. rewrite Href. unfold h2, h1 in Ho.
    destruct (decide (o = to)) as [->|Hne].
    + rewrite lookup_alter_eq in Ho. rewrite size_remove_one by done.
      destruct (decide (to = from)) as [->|Hne2].
      * rewrite lookup_insert_eq in Ho. injection Ho as <-. simpl.
        rewrite (Hcnt from src Hsrc). lia.
      * rewrite lookup_insert_ne, Hdst in Ho by done. injection Ho as <-. simpl.
        rewrite (Hcnt to dst Hdst). lia.
    + rewrite lookup_alter_ne in Ho by done.
      destruct (decide (o = from)) as [->|Hne2].
      * rewrite lookup_insert_eq in Ho. injection Ho as <-. simpl.
        by rewrite (Hcnt from src Hsrc).
      * rewrite lookup_insert_ne in Ho by done. by apply Hcnt.
  - intros x c. rewrite Hdom, Heff. intros Hx Hc. case_decide.
    + subst. apply elem_of_erase_first in Hc as [Hc _]; [|done].
      apply (Hcl from c Hx). by rewrite Hefrom.
    + by apply (Hcl x c).
  - intros x. rewrite Heff. case_decide; [|apply Hnd].
    by apply NoDup_erase_first.
  - by rewrite Hdom.
  - intros x l Hx. by rewrite lookup_empty in Hx.
  - intros x. rewrite Heff. case_decide; [|apply Hself].
    subst. rewrite elem_of_erase_first by done. rewrite <- Hefrom.
    intros [Hin _]. by apply (Hself from).
Qed.

Lemma rc_self_sustained_alter_count S f k h :
  (∀ o, RCObject.references (f o) = RCObject.references o) →
  rc_self_sustained S h → rc_self_sustained S (alter f k h).
Proof.
  intros Hf. apply rc_self_sustained_ext.
  - intros s _ Hs. by apply lookup_alter_is_Some.
  - intros p s _ _. by rewrite refs_of_alter_count.
Qed.

Lemma rc_self_sustained_insert_count S k n o h :
  h !! k = Some o →
  rc_self_sustained S h →
  rc_self_sustained S (<[k := RCObject.set_ref_count n o]> h).
Proof.
  intros Hk. apply rc_self_sustained_ext.
  - intros s _ Hs. destruct (decide (s = k)) as [->|Hne].
    + rewrite lookup_insert_eq. eauto.
    + by rewrite lookup_insert_ne.
  - intros p s _ _. unfold refs_of. destruct (decide (p = k)) as [->|Hne].
    + by rewrite lookup_insert_eq, Hk.
    + by rewrite lookup_insert_ne.
Qed.

Lemma rc_counter_remove_ref_keeps S roots from to h r :
  rc_inv_at roots ∅ h → rc_self_sustained S h → ¬ (from ∈ S ∧ to ∈ S) →
  ReferenceCounter.remove_ref from to h = Some r →
  rc_self_sustained S r.2.
Proof.
  intros Hinv HS Hnot. unfold ReferenceCounter.remove_ref.
  destruct (h !! to) as [dst|] eqn:Hdst; [|by intros [= <-]].
  destruct (h !! from) as [src|] eqn:Hsrc; [|by intros [= <-]].
  unfold RCObject.has_reference_to. case_bool_decide as Hhas; cbn [negb];
    [|by intros [= <-]].
  pose proof (rc_inv_remove_edge roots from to h src dst Hinv Hdst Hsrc Hhas) as Hinv2.
  set (h2 := alter _ to _) in *.
  assert (NoDup (RCObject.references src)) as Hnd.
  { destruct Hinv as (_ & _ & Hnd & _). specialize (Hnd from).
    rewrite eff_refs_empty in Hnd. unfold refs_of in Hnd. by rewrite Hsrc in Hnd. }
  assert (rc_self_sustained S h2) as HS2.
  { unfold h2. apply rc_self_sustained_alter_count; [done|].
    revert HS. apply rc_self_sustained_ext.
    - intros s _ Hs. destruct (decide (s = from)) as [->|Hne].
      + rewrite lookup_insert_eq. eauto.
      + by rewrite lookup_insert_ne.
    - intros p s Hp Hs. unfold refs_of. destruct (decide (p = from)) as [->|Hne].
      + rewrite lookup_insert_eq, Hsrc. cbn. intros Hin.
        apply elem_of_erase_first; [done|]. split; [done|].
        intros ->. tauto.
      + by rewrite lookup_insert_ne. }
  destruct (h2 !! to) as [dst2|] eqn:Hdst2; [|by intros [= <-]].
  case_bool_decide.
  { intros [= <-]. cbn. by apply rc_self_sustained_insert_count. }
  case_bool_decide; [|by intros [= <-]].
  destruct (ReferenceCounter.cascade_from to h2) as [h'|] eqn:Hc; [|done].
  cbn. intros [= <-]. cbn.
  by apply (rc_cascade_from_keeps roots S to h2 h').
Qed.

Lemma rc_step_keeps S op st st' :
  rc_inv st → rc_self_sustained S (objects st) →
  (∀ from to, op = RcRemoveRef from to → ¬ (from ∈ S ∧ to ∈ S)) →
  rc_step op st = Some st' →
  rc_self_sustained S (objects st').
Proof.
  intros Hinv HS Hop Hstep.
  destruct op as [k|k|k|f t|f t]; simpl in Hstep.
  - injection Hstep as <-. unfold RCHeapOps.allocate.
    destruct (RCHeapOps.object_exists st k) eqn:Hex; [done|].
    apply rc_object_exists_false in Hex.
    case_bool_decide; [done|]. cbn. revert HS. apply rc_self_sustained_ext.
    + intros s _ Hs. destruct (decide (s = k)) as [->|Hne].
      * rewrite lookup_insert_eq. eauto.
      * by rewrite lookup_insert_ne.
    + intros p s _ _ Hin. unfold refs_of in *.
      destruct (decide (p = k)) as [->|Hne].
      * rewrite Hex in Hin. by apply elem_of_nil in Hin.
      * by rewrite lookup_insert_ne.
  - injection Hstep as <-. unfold RCHeapOps.add_root.
    destruct (negb _); [done|]. case_bool_decide; [done|]. cbn.
    by apply rc_self_sustained_alter_count.
  - unfold RCHeapOps.remove_root in Hstep.
    destruct (RCHeapOps.object_exists st k) eqn:Hex; cbn [negb] in Hstep;
      [|by injection Hstep as <-].
    apply rc_object_exists_true in Hex as [obj Hk].
    case_bool_decide as Hr; cbn [negb] in Hstep; [|by injection Hstep as <-].
    assert (rc_inv_at (roots st ∖ {[k]}) ∅
              (alter (λ o, RCObject.set_ref_count (RCObject.ref_count o + -1) o) k
                 (objects st))) as Hinv1.
    { apply (rc_inv_recount (roots st) _ k (-1) _ obj Hinv Hk).
      - intros o. unfold root_count. case_decide as Ho.
        + subst. rewrite bool_decide_eq_false_2 by set_solver.
          rewrite bool_decide_eq_true_2 by done. lia.
        + destruct (decide (o ∈ roots st)).
          * rewrite !bool_decide_eq_true_2 by set_solver. lia.
          * rewrite !bool_decide_eq_false_2 by set_solver. lia.
      - destruct Hinv as (_ & _ & _ & Hroots & _). set_solver. }
    change (λ o, RCObject.set_ref_count (RCObject.ref_count o + -1) o)
      with (λ o, RCObject.set_ref_count (RCObject.ref_count o - 1) o) in Hinv1.
    set (h1 := alter _ k (objects st)) in *.
    assert (rc_self_sustained S h1) as HS1
      by (by apply rc_self_sustained_alter_count).
    destruct (h1 !! k) as [o1|] eqn:Hk1; [|by injection Hstep as <-].
    case_bool_decide.
    { injection Hstep as <-. cbn. by apply rc_self_sustained_insert_count. }
    case_bool_decide; [|by injection Hstep as <-].
    destruct (ReferenceCounter.cascade_from k h1) as [h'|] eqn:Hc; [|done].
    cbn in Hstep. injection Hstep as <-. cbn.
    by apply (rc_cascade_from_keeps (roots st ∖ {[k]}) S k h1 h').
  - injection Hstep as <-. unfold RCHeapOps.add_ref.
    destruct (_ || _); [done|]. destruct (negb _); [done|].
    destruct (negb _); [done|]. case_bool_decide as Hne; [done|].
    unfold ReferenceCounter.add_ref.
    destruct (objects st !! f) as [src|] eqn:Hsrc; [|done].
    destruct (objects st !! t) as [dst|] eqn:Hdst; [|done].
    destruct (RCObject.has_reference_to t src) eqn:Hhas; [done|]. cbn.
    apply rc_self_sustained_alter_count; [done|].
    revert HS. apply rc_self_sustained_ext.
    + intros s _ Hs. destruct (decide (s = f)) as [->|Hn].
      * rewrite lookup_insert_eq. eauto.
      * by rewrite lookup_insert_ne.
    + intros p s _ _. unfold refs_of. destruct (decide (p = f)) as [->|Hn].
      * rewrite lookup_insert_eq, Hsrc. unfold RCObject.add_outgoing_ref.
        rewrite Hhas. cbn. intros Hin. apply elem_of_app. by left.
      * by rewrite lookup_insert_ne.
  - unfold RCHeapOps.remove_ref in Hstep.
    destruct (_ || _); [by injection Hstep as <-|].
    destruct (negb _); [by injection Hstep as <-|].
    destruct (negb _); [by injection Hstep as <-|].
    destruct (ReferenceCounter.remove_ref f t (objects st)) as [[b h']|] eqn:Hrem;
      [|done].
    cbn in Hstep. injection Hstep as <-. cbn.
    by apply (rc_counter_remove_ref_keeps S (roots st) f t (objects st) (b, h')
                Hinv HS (Hop f t eq_refl) Hrem).
Qed.

(** X11: what reference counting can never reclaim.  Let [S] be a
    set of stored objects each of which is referred to by a member of [S]
    (a cycle, for instance).  In every state a driver can reach, every
    operation other than the removal of a reference between two members of
    [S] returns and leaves [S] such a set: its members stay in the heap
    through every [remove_root], [remove_ref] and cascade. *)
Theorem rc_cycles_are_never_erased (S : gset Z) st op :
  rc_reachable st → rc_self_sustained S (objects st) →
  (∀ from to, op = RcRemoveRef from to → ¬ (from ∈ S ∧ to ∈ S)) →
  ∃ st', rc_step op st = Some st' ∧ rc_self_sustained S (objects st').
Proof.
  intros Hreach HS Hop. pose proof (rc_reachable_inv st Hreach) as Hinv.
  destruct (rc_step_spec op st Hinv) as (st' & Hstep & _).
  exists st'. split; [done|]. by apply (rc_step_keeps S op st st').
Qed.

Lemma rc_cycles_are_never_erased_witness :
  ∃ st', rc_step (RcRemoveRoot 0) rc_scenario_rooted = Some st' ∧
         rc_self_sustained {[1; 2; 3]} (objects st').
Proof.
  apply (rc_cycles_are_never_erased {[1; 2; 3]} rc_scenario_rooted (RcRemoveRoot 0)).
  - exact rc_scenario_rooted_reachable.
  - apply (bool_decide_unpack _). vm_compute. exact I.
  - intros from to Hop. discriminate Hop.
Defined.

(** ** Cascade: what no operation can delete *)

Lemma self_sustained_ext S h h' :
  (∀ s, s ∈ S → object_exists h s = true → object_exists h' s = true) →
  (∀ s, s ∈ S → object_exists h s = true → incoming_of h s ⊆ incoming_of h' s) →
  self_sustained S h → self_sustained S h'.
Proof.
  intros Hex Hin HS s Hs. destruct (HS s Hs) as (Hs1 & p & Hp & Hps).
  split; [by apply Hex|]. exists p. split; [done|]. by apply (Hin s Hs Hs1).
Qed.

Lemma self_sustained_create S size st :
  ids_below st → self_sustained S (heap st) →
  self_sustained S (heap (gc_create_object size st).2).
Proof.
  intros Hids. cbn. apply self_sustained_ext.
  - intros s _ Hs. unfold object_exists in *.
    destruct (decide (s = next_object_id st)) as [->|Hne].
    + destruct (heap st !! next_object_id st) eqn:E; [|done].
      assert (next_object_id st < next_object_id st) by (apply Hids; eauto). lia.
    + by rewrite lookup_insert_ne.
  - intros s _ Hs. unfold incoming_of, object_exists in *.
    destruct (decide (s = next_object_id st)) as [->|Hne].
    + destruct (heap st !! next_object_id st) eqn:E; [|done].
      assert (next_object_id st < next_object_id st) by (apply Hids; eauto). lia.
    + by rewrite lookup_insert_ne.
Qed.

Lemma self_sustained_add_reference S from_id to_id st :
  self_sustained S (heap st) →
  self_sustained S (heap (gc_add_reference from_id to_id st).2).
Proof.
  unfold gc_add_reference.
  destruct (object_exists (heap st) from_id) eqn:Hf; [|done].
  destruct (object_exists (heap st) to_id) eqn:Ht; [|done]. cbn [negb].
  destruct (heap st !! from_id) as [source|]; [|done].
  case_bool_decide; [done|]. cbn.
  destruct (edge_update_sets (HeapObject.add_reference_to to_id)
              (HeapObject.add_reference_from from_id)
              (λ X, {[to_id]} ∪ X) (λ X, {[from_id]} ∪ X) from_id to_id (heap st))
    as (Hex' & _ & Hin'); try done.
  cbn zeta in *. apply self_sustained_ext.
  - intros s _ Hs. by rewrite Hex'.
  - intros s _ _. rewrite Hin'. case_decide; set_solver.
Qed.

Lemma self_sustained_set_root S b k st :
  self_sustained S (heap st) → self_sustained S (heap (gc_set_root b k st)).
Proof.
  unfold gc_set_root. destruct (object_exists (heap st) k) eqn:Hk; [|done]. cbn.
  apply self_sustained_ext.
  - intros s _ Hs. by rewrite object_exists_alter.
  - intros s _ _. rewrite incoming_of_alter. case_decide as Hs; [|done]. subst.
    unfold incoming_of. by destruct (heap st !! k).
Qed.

Lemma cd_step_keeps S op st st' :
  gc_inv st → self_sustained S (heap st) →
  (∀ from_id to_id, op = CdRemoveReference from_id to_id →
                    ¬ (from_id ∈ S ∧ to_id ∈ S)) →
  cd_step op st = Some st' → self_sustained S (heap st').
Proof.
  intros [Hwf Hids] HS Hop Hstep.
  destruct op as [order size|f t|f t|k|k|order|n]; simpl in Hstep.
  - unfold CascadeDeletionGC.allocate in Hstep.
    destruct (_ || _); [by injection Hstep as <-|].
    destruct (has_enough_memory st size).
    { injection Hstep as <-. by apply self_sustained_create. }
    destruct (cd_collect_ok order st (conj Hwf Hids))
      as ([freed st1] & Hrun & [[Hwf1 Hids1] _] & _).
    rewrite Hrun in Hstep. cbn [snd] in *.
    pose proof (cd_collect_keeps S order st _ Hwf HS Hrun) as HS1. cbn [snd] in HS1.
    destruct (has_enough_memory st1 size); injection Hstep as <-; [|done].
    by apply self_sustained_create.
  - injection Hstep as <-. by apply self_sustained_add_reference.
  - destruct (CascadeDeletionGC.remove_reference f t st) as [[ok st1]|] eqn:Hrun;
      [|done].
    injection Hstep as <-.
    by apply (cd_remove_reference_keeps S f t st (ok, st1) Hwf HS (Hop f t eq_refl)).
  - injection Hstep as <-. by apply self_sustained_set_root.
  - injection Hstep as <-. by apply self_sustained_set_root.
  - destruct (CascadeDeletionGC.collect order st) as [[freed st1]|] eqn:Hrun; [|done].
    injection Hstep as <-.
    by apply (cd_collect_keeps S order st (freed, st1)).
  - by injection Hstep as <-.
Qed.

(** X12: what the cascade collector can never reclaim.  Let [S] be a
    set of alive objects each of which has an incoming edge from a member
    of [S] (a cycle, for instance).  In every state a driver can reach,
    every operation other than the removal of an edge between two members
    of [S] returns and leaves [S] such a set: its members stay alive,
    rooted or not, through [collect], [remove_root] and every cascade. *)
Theorem cd_cycles_are_never_collected (S : gset Z) st op :
  cd_reachable st → self_sustained S (heap st) →
  (∀ from_id to_id, op = CdRemoveReference from_id to_id →
                    ¬ (from_id ∈ S ∧ to_id ∈ S)) →
  ∃ st', cd_step op st = Some st' ∧ self_sustained S (heap st').
Proof.
  intros Hreach HS Hop. pose proof (cd_reachable_inv st Hreach) as Hinv.
  destruct (cd_step_spec op st Hinv) as (st' & Hstep & _).
  exists st'. split; [done|]. by apply (cd_step_keeps S op st st').
Qed.

Lemma cd_cycles_are_never_collected_witness :
  ∃ st', cd_step (CdCollect [0; 1; 2; 3; 4]) cd_live_and_garbage = Some st' ∧
         self_sustained {[2; 3]} (heap st').
Proof.
  apply (cd_cycles_are_never_collected {[2; 3]} cd_live_and_garbage
           (CdCollect [0; 1; 2; 3; 4])).
  - exact cd_live_and_garbage_reachable.
  - apply (bool_decide_unpack _). vm_compute. exact I.
  - intros from_id to_id Hop. discriminate Hop.
Defined.

(** ** Fields that no operation changes *)

Lemma keeps_refl {A} (π : HeapObject.t → A) h : keeps π h h.
Proof. done. Qed.

Lemma keeps_trans {A} (π : HeapObject.t → A) h1 h2 h3 :
  keeps π h1 h2 → keeps π h2 h3 → keeps π h1 h3.
Proof. intros H1 H2 k. by rewrite H2, H1. Qed.

Lemma keeps_dom {A} (π : HeapObject.t → A) h h' : keeps π h h' → dom h' = dom h.
Proof.
  intros Hk. apply set_eq. intros k. rewrite !elem_of_dom. specialize (Hk k).
  destruct (h' !! k), (h !! k); try done; split; intros [? ?]; done.
Qed.

Lemma keeps_lookup {A} (π : HeapObject.t → A) h h' k o :
  keeps π h h' → h !! k = Some o → ∃ o', h' !! k = Some o' ∧ π o' = π o.
Proof.
  intros Hk Ho. specialize (Hk k). rewrite Ho in Hk.
  destruct (h' !! k) as [o'|]; [|done]. exists o'. split; [done|].
  cbn in Hk. congruence.
Qed.

Lemma keeps_alter {A} (π : HeapObject.t → A) f k h :
  (∀ o, π (f o) = π o) → keeps π h (alter f k h).
Proof.
  intros Hf x. destruct (decide (x = k)) as [->|Hne].
  - rewrite lookup_alter_eq. destruct (h !! k); [|done]. cbn. by rewrite Hf.
  - by rewrite lookup_alter_ne.
Qed.

Lemma keeps_shape {A} (π : HeapObject.t → A) h h' :
  (∀ o, π (HeapObject.unmark o) = π o) → shape h' = shape h → keeps π h h'.
Proof.
  intros Hπ Hs k. pose proof (shape_lookup h h' k Hs) as Hk.
  destruct (h' !! k) as [o'|], (h !! k) as [o|]; try done.
  cbn in *. rewrite <- (Hπ o'), <- (Hπ o). congruence.
Qed.

Lemma keeps_delete_object {A} (π : HeapObject.t → A) step id h :
  deletion_proof π → keeps π h (delete_object step id h).
Proof.
  intros [Hm Hk] k. destruct (decide (k = id)) as [->|Hne].
  - destruct (h !! id) as [o|] eqn:Ho.
    + destruct (delete_object_self_kill step id h o Ho) as (o1 & Hmeta & ->).
      cbn. by rewrite Hk, (Hm o1 o).
    + by rewrite delete_object_None.
  - pose proof (delete_object_meta step id h k Hne) as Hmeta.
    destruct (delete_object step id h !! k) as [o'|], (h !! k) as [o|]; try done.
    cbn in *. f_equal. apply Hm. congruence.
Qed.

Lemma keeps_sweep_heap {A} (π : HeapObject.t → A) step ids :
  deletion_proof π → ∀ h, keeps π h (sweep_heap step ids h).
Proof.
  intros Hπ. induction ids as [|id ids IH]; intros h; [done|].
  rewrite sweep_heap_cons. destruct (h !! id); [|apply IH].
  eapply keeps_trans; [|apply IH]. by apply keeps_delete_object.
Qed.

Lemma keeps_cascade_loop {A} (π : HeapObject.t → A) step fuel :
  deletion_proof π →
  ∀ queue processed h freed deleted r,
    CascadeDeletionGC.cascade_loop fuel step queue processed h freed deleted
      = Some r →
    keeps π h r.1.1.
Proof.
  intros Hπ. induction fuel as [|fuel IH];
    intros queue processed h freed deleted r Hrun.
  - destruct queue; simpl in Hrun; [|done]. by injection Hrun as <-.
  - destruct queue as [|cur queue].
    { simpl in Hrun. by injection Hrun as <-. }
    cbn [CascadeDeletionGC.cascade_loop] in Hrun.
    case_bool_decide; [by eapply IH|].
    destruct (object_exists h cur) eqn:Hex; [|by eapply IH].
    destruct (h !! cur) as [obj|] eqn:Hobj; [|by eapply IH].
    destruct (HeapObject.is_root obj); [by eapply IH|].
    pose proof (cascade_iteration_heap cur h queue) as Hh.
    destruct (foldl _ _ _) as [h2 q2]. cbn [fst] in Hh. subst h2.
    apply IH in Hrun.
    eapply keeps_trans; [|exact Hrun].
    apply (keeps_delete_object π step cur h Hπ).
Qed.

Lemma keeps_cascade_delete {A} (π : HeapObject.t → A) object_id st r :
  deletion_proof π →
  CascadeDeletionGC.cascade_delete object_id st = Some r →
  keeps π (heap st) (heap r.2).
Proof.
  intros Hπ. unfold CascadeDeletionGC.cascade_delete.
  destruct (object_exists (heap st) object_id); [|by intros [= <-]].
  destruct (CascadeDeletionGC.cascade_loop _ _ _ _ _ _ _) as [[[h fr] del]|] eqn:Hloop;
    [|done].
  intros [= <-]. cbn. by apply (keeps_cascade_loop π) in Hloop.
Qed.

Lemma keeps_cascade_orphans {A} (π : HeapObject.t → A) ids :
  deletion_proof π →
  ∀ total st r,
    CascadeDeletionGC.cascade_orphans ids total st = Some r →
    keeps π (heap st) (heap r.2).
Proof.
  intros Hπ. induction ids as [|id ids IH]; intros total st r Hrun.
  - simpl in Hrun. by injection Hrun as <-.
  - cbn [CascadeDeletionGC.cascade_orphans] in Hrun.
    destruct (object_exists (heap st) id); [|by eapply IH].
    destruct (CascadeDeletionGC.cascade_delete id st) as [[freed st1]|] eqn:Hdel; [|done].
    apply (keeps_cascade_delete π) in Hdel; [|done]. apply IH in Hrun.
    by eapply keeps_trans.
Qed.

Lemma keeps_cd_collect {A} (π : HeapObject.t → A) order st r :
  deletion_proof π →
  CascadeDeletionGC.collect order st = Some r → keeps π (heap st) (heap r.2).
Proof.
  intros Hπ. unfold CascadeDeletionGC.collect.
  destruct (CascadeDeletionGC.cascade_orphans _ _ _) as [[total st1]|] eqn:Hrun; [|done].
  intros [= <-]. cbn. by apply (keeps_cascade_orphans π) in Hrun.
Qed.

Lemma keeps_cd_remove_reference {A} (π : HeapObject.t → A) from_id to_id st r :
  deletion_proof π →
  (∀ x o, π (HeapObject.remove_reference_to x o) = π o) →
  (∀ x o, π (HeapObject.remove_reference_from x o) = π o) →
  CascadeDeletionGC.remove_reference from_id to_id st = Some r →
  keeps π (heap st) (heap r.2).
Proof.
  intros Hπ Hto Hfrom. unfold CascadeDeletionGC.remove_reference.
  destruct (object_exists (heap st) from_id); [|by intros [= <-]].
  destruct (object_exists (heap st) to_id); [|by intros [= <-]].
  cbn [negb]. case_bool_decide; [|by intros [= <-]]. cbn [negb].
  assert (keeps π (heap st) (detach_edge from_id to_id (heap st))) as Hd.
  { unfold detach_edge. eapply keeps_trans; apply keeps_alter; auto. }
  destruct (CascadeDeletionGC.should_be_deleted _ _); [|by intros [= <-]].
  destruct (CascadeDeletionGC.cascade_delete _ _) as [[fr st2]|] eqn:Hdel; [|done].
  intros [= <-]. cbn [snd].
  apply (keeps_cascade_delete π) in Hdel; [|done]. by eapply keeps_trans.
Qed.

Lemma keeps_ms_collect {A} (π : HeapObject.t → A) ro so st r :
  deletion_proof π → (∀ o, π (HeapObject.unmark o) = π o) →
  wf_heap (heap st) →
  MarkSweepGC.collect ro so st = Some r → keeps π (heap st) (heap r.2).
Proof.
  intros Hπ Hu Hwf Hrun.
  destruct (ms_collect_heap ro so st Hwf)
    as (hm & r' & Hrun' & Hshape & _ & _ & Hheap & _).
  rewrite Hrun in Hrun'. injection Hrun' as <-. rewrite Hheap.
  eapply keeps_trans; [by apply keeps_shape|]. by apply keeps_sweep_heap.
Qed.

Lemma keeps_add_reference {A} (π : HeapObject.t → A) from_id to_id st :
  (∀ x o, π (HeapObject.add_reference_to x o) = π o) →
  (∀ x o, π (HeapObject.add_reference_from x o) = π o) →
  keeps π (heap st) (heap (gc_add_reference from_id to_id st).2).
Proof.
  intros Hto Hfrom. unfold gc_add_reference.
  destruct (negb _); [done|]. destruct (negb _); [done|].
  destruct (heap st !! from_id); [|done]. case_bool_decide; [done|]. cbn.
  eapply keeps_trans; apply keeps_alter; auto.
Qed.

Lemma keeps_set_root {A} (π : HeapObject.t → A) b k st :
  (∀ o, π (HeapObject.set_is_root b o) = π o) →
  keeps π (heap st) (heap (gc_set_root b k st)).
Proof.
  intros Hr. unfold gc_set_root. destruct (object_exists _ _); [|done]. cbn.
  by apply keeps_alter.
Qed.

Lemma keeps_ms_remove_reference {A} (π : HeapObject.t → A) from_id to_id st :
  (∀ x o, π (HeapObject.remove_reference_to x o) = π o) →
  (∀ x o, π (HeapObject.remove_reference_from x o) = π o) →
  keeps π (heap st) (heap (MarkSweepGC.remove_reference from_id to_id st).2).
Proof.
  intros Hto Hfrom. unfold MarkSweepGC.remove_reference.
  destruct (negb _); [done|]. destruct (negb _); [done|].
  destruct (negb _); [done|]. cbn. unfold detach_edge.
  eapply keeps_trans; apply keeps_alter; auto.
Qed.

Lemma deletion_proof_birth : deletion_proof birth.
Proof.
  split.
  - intros o o' H. unfold birth. unfold meta in H.
    assert (HeapObject.id o = HeapObject.id o') by congruence.
    assert (HeapObject.size o = HeapObject.size o') by congruence.
    assert (HeapObject.reference_count o = HeapObject.reference_count o')
      by congruence.
    assert (HeapObject.allocation_step o = HeapObject.allocation_step o')
      by congruence.
    congruence.
  - done.
Qed.

(** ** Operations that create no object *)

Lemma gc_quiet_refl st : gc_inv st → gc_quiet st st.
Proof.
  intros Hinv. split; [done|]. split; [done|]. split; [done|].
  split; [done|]. apply heap_step_refl.
Qed.

Lemma birth_unmark o : birth (HeapObject.unmark o) = birth o.
Proof. done. Qed.

Lemma gc_quiet_ms_collect ro so st r :
  gc_inv st → MarkSweepGC.collect ro so st = Some r → gc_quiet st r.2.
Proof.
  intros Hinv Hrun.
  destruct (ms_collect_ok ro so st Hinv) as (r' & Hrun' & Hok & _ & Hmax & _).
  rewrite Hrun in Hrun'. injection Hrun' as <-.
  destruct (ms_collect_spec ro so st (wf_heap_out_closed _ (proj1 Hinv)))
    as (hm & r' & _ & Hrun' & _ & Hnext & _).
  rewrite Hrun in Hrun'. injection Hrun' as <-.
  split; [|done].
  apply (keeps_ms_collect birth ro so st r deletion_proof_birth birth_unmark
           (proj1 Hinv) Hrun).
Qed.

Lemma gc_quiet_cd_collect order st r :
  gc_inv st → CascadeDeletionGC.collect order st = Some r → gc_quiet st r.2.
Proof.
  intros Hinv Hrun.
  destruct (cd_collect_ok order st Hinv) as (r' & Hrun' & Hok & _ & Hmax & _).
  rewrite Hrun in Hrun'. injection Hrun' as <-.
  pose proof (cd_collect_account order st r Hrun) as (_ & _ & _ & _ & Hnext & _).
  split; [|done].
  apply (keeps_cd_collect birth order st r deletion_proof_birth Hrun).
Qed.

Lemma gc_quiet_cd_remove_reference from_id to_id st r :
  gc_inv st → CascadeDeletionGC.remove_reference from_id to_id st = Some r →
  gc_quiet st r.2.
Proof.
  intros Hinv Hrun.
  destruct (cd_remove_reference_ok from_id to_id st Hinv) as (r' & Hrun' & Hok).
  rewrite Hrun in Hrun'. injection Hrun' as <-.
  pose proof (cd_remove_reference_account from_id to_id st r Hrun)
    as (_ & _ & _ & Hnext & Hmax & _).
  split; [|done].
  by apply (keeps_cd_remove_reference birth from_id to_id st r deletion_proof_birth).
Qed.

Lemma gc_quiet_add_reference from_id to_id st :
  gc_inv st → gc_quiet st (gc_add_reference from_id to_id st).2.
Proof.
  intros Hinv. split; [by apply keeps_add_reference|].
  split; [|split; [|by apply gc_add_reference_ok]].
  all: unfold gc_add_reference; destruct (negb _); [done|];
    destruct (negb _); [done|]; destruct (heap st !! from_id); [|done];
    by case_bool_decide.
Qed.

Lemma gc_quiet_ms_remove_reference from_id to_id st :
  gc_inv st → gc_quiet st (MarkSweepGC.remove_reference from_id to_id st).2.
Proof.
  intros Hinv. split; [by apply keeps_ms_remove_reference|].
  split; [|split; [|by apply ms_remove_reference_ok]].
  all: unfold MarkSweepGC.remove_reference; destruct (negb _); [done|];
    destruct (negb _); [done|]; by destruct (negb _).
Qed.

Lemma gc_quiet_set_root b k st : gc_inv st → gc_quiet st (gc_set_root b k st).
Proof.
  intros Hinv. split; [by apply keeps_set_root|].
  split; [|split; [|by apply gc_set_root_ok]].
  all: unfold gc_set_root; by destruct (object_exists _ _).
Qed.

Lemma gc_quiet_set_current_step n st : gc_inv st → gc_quiet st (set_current_step n st).
Proof.
  intros Hinv. split; [done|]. split; [done|]. split; [done|].
  by apply set_current_step_ok.
Qed.

Lemma allocate_guard size st :
  bool_decide (size = 0) || bool_decide (max_heap_size st < size) = false →
  size ≠ 0 ∧ size ≤ max_heap_size st.
Proof.
  intros H. apply orb_false_iff in H as [H1 H2].
  apply bool_decide_eq_false in H1, H2. lia.
Qed.

Lemma ms_step_shape (P : Z → Prop) op st st' :
  gc_inv st → (∀ ro so size, op = MsAllocate ro so size → P size) →
  ms_step op st = Some st' → gc_step_shape P st st'.
Proof.
  intros Hinv HP Hstep.
  destruct op as [ro so size|f t|f t|k|k|ro so|n]; simpl in Hstep.
  - unfold MarkSweepGC.allocate in Hstep.
    destruct (_ || _) eqn:Hguard.
    { injection Hstep as <-. exists st. split; [by apply gc_quiet_refl|by left]. }
    apply allocate_guard in Hguard as [Hnz Hle].
    destruct (has_enough_memory st size) eqn:Hmem.
    { injection Hstep as <-. exists st. split; [by apply gc_quiet_refl|].
      right. exists size. split; [by eapply HP|done]. }
    destruct (MarkSweepGC.collect ro so st) as [[freed st1]|] eqn:Hrun; [|done].
    pose proof (gc_quiet_ms_collect ro so st _ Hinv Hrun) as Hq. cbn [snd] in *.
    exists st1. split; [done|].
    destruct (has_enough_memory st1 size) eqn:Hmem1; injection Hstep as <-.
    + right. exists size. destruct Hq as (_ & _ & Hmax & _).
      split; [by eapply HP|]. split; [done|]. split; [by rewrite Hmax|done].
    + by left.
  - injection Hstep as <-. eexists. split; [by apply gc_quiet_add_reference|by left].
  - injection Hstep as <-. eexists.
    split; [by apply gc_quiet_ms_remove_reference|by left].
  - injection Hstep as <-. eexists. split; [by apply gc_quiet_set_root|by left].
  - injection Hstep as <-. eexists. split; [by apply gc_quiet_set_root|by left].
  - destruct (MarkSweepGC.collect ro so st) as [[freed st1]|] eqn:Hrun; [|done].
    injection Hstep as <-. exists st1. split; [|by left].
    by apply (gc_quiet_ms_collect ro so st (freed, st1)).
  - injection Hstep as <-. eexists.
    split; [by apply gc_quiet_set_current_step|by left].
Qed.

Lemma cd_step_shape (P : Z → Prop) op st st' :
  gc_inv st → (∀ order size, op = CdAllocate order size → P size) →
  cd_step op st = Some st' → gc_step_shape P st st'.
Proof.
  intros Hinv HP Hstep.
  destruct op as [order size|f t|f t|k|k|order|n]; simpl in Hstep.
  - unfold CascadeDeletionGC.allocate in Hstep.
    destruct (_ || _) eqn:Hguard.
    { injection Hstep as <-. exists st. split; [by apply gc_quiet_refl|by left]. }
    apply allocate_guard in Hguard as [Hnz Hle].
    destruct (has_enough_memory st size) eqn:Hmem.
    { injection Hstep as <-. exists st. split; [by apply gc_quiet_refl|].
      right. exists size. split; [by eapply HP|done]. }
    destruct (CascadeDeletionGC.collect order st) as [[freed st1]|] eqn:Hrun; [|done].
    pose proof (gc_quiet_cd_collect order st _ Hinv Hrun) as Hq. cbn [snd] in *.
    exists st1. split; [done|].
    destruct (has_enough_memory st1 size) eqn:Hmem1; injection Hstep as <-.
    + right. exists size. destruct Hq as (_ & _ & Hmax & _).
      split; [by eapply HP|]. split; [done|]. split; [by rewrite Hmax|done].
    + by left.
  - injection Hstep as <-. eexists. split; [by apply gc_quiet_add_reference|by left].
  - destruct (CascadeDeletionGC.remove_reference f t st) as [[ok st1]|] eqn:Hrun;
      [|done].
    injection Hstep as <-. exists st1. split; [|by left].
    by apply (gc_quiet_cd_remove_reference f t st (ok, st1)).
  - injection Hstep as <-. eexists. split; [by apply gc_quiet_set_root|by left].
  - injection Hstep as <-. eexists. split; [by apply gc_quiet_set_root|by left].
  - destruct (CascadeDeletionGC.collect order st) as [[freed st1]|] eqn:Hrun; [|done].
    injection Hstep as <-. exists st1. split; [|by left].
    by apply (gc_quiet_cd_collect order st (freed, st1)).
  - injection Hstep as <-. eexists.
    split; [by apply gc_quiet_set_current_step|by left].
Qed.

(** ** The records of the graph-based collectors *)

Lemma gc_records_init m t : gc_records (gc_init m t).
Proof.
  split; [done|]. intros k. cbn. split.
  - rewrite lookup_empty. split; [by intros [? ?]|lia].
  - intros o. by rewrite lookup_empty.
Qed.

Lemma birth_fields o o' :
  birth o' = birth o →
  HeapObject.id o' = HeapObject.id o ∧ HeapObject.size o' = HeapObject.size o ∧
  HeapObject.reference_count o' = HeapObject.reference_count o ∧
  HeapObject.allocation_step o' = HeapObject.allocation_step o.
Proof. unfold birth. intros [=]. done. Qed.

Lemma gc_records_quiet st st1 : gc_quiet st st1 → gc_records st → gc_records st1.
Proof.
  intros (Hkeep & Hnext & _ & _ & Hstep) [Hpos Hrec].
  split; [by rewrite Hnext|]. intros k. destruct (Hrec k) as [Hkeys Hfields].
  rewrite Hnext. split.
  - rewrite <- Hkeys, <- !elem_of_dom. by rewrite (keeps_dom _ _ _ Hkeep).
  - intros o1 Ho1.
    assert (is_Some (heap st !! k)) as [o Ho].
    { rewrite <- elem_of_dom, <- (keeps_dom _ _ _ Hkeep), elem_of_dom. by eexists. }
    destruct (keeps_lookup _ _ _ _ _ Hkeep Ho) as (o' & Ho' & Hb).
    rewrite Ho1 in Ho'. injection Ho' as <-.
    apply birth_fields in Hb as (Hid & _ & Hrc & _).
    destruct (Hfields o Ho) as (Hid0 & Hrc0 & Hcs0).
    split; [congruence|]. split; [congruence|].
    intros Halive. destruct (Hstep k o Ho) as (o' & Ho' & Hcase).
    rewrite Ho1 in Ho'. injection Ho' as <-.
    destruct Hcase as [[Ha Hc]|(_ & Hd & _)]; [|congruence].
    rewrite Hc. apply Hcs0. congruence.
Qed.

Lemma gc_records_create size st :
  gc_records st → gc_records (gc_create_object size st).2.
Proof.
  intros [Hpos Hrec]. split; [cbn; lia|]. intros k. cbn.
  destruct (Hrec k) as [Hkeys Hfields].
  destruct (decide (k = next_object_id st)) as [->|Hne].
  - rewrite lookup_insert_eq. split.
    + split; [lia|by eexists].
    + intros o [= <-]. done.
  - rewrite lookup_insert_ne by done. split.
    + rewrite Hkeys. lia.
    + exact Hfields.
Qed.

Lemma gc_records_shape P st st' :
  gc_step_shape P st st' → gc_records st → gc_records st'.
Proof.
  intros (st1 & Hq & [->|(size & _ & _ & _ & _ & ->)]) Hrec.
  - by apply (gc_records_quiet st).
  - by apply gc_records_create, (gc_records_quiet st).
Qed.

Lemma ms_reachable_records st : ms_reachable st → gc_records st.
Proof.
  intros Hr. induction Hr as [st (m & t & ->)|st op st' Hr IH Hstep].
  - apply gc_records_init.
  - apply (gc_records_shape (λ _, True) st); [|done].
    apply (ms_step_shape _ op); [by apply ms_reachable_inv|done|done].
Qed.

Lemma cd_reachable_records st : cd_reachable st → gc_records st.
Proof.
  intros Hr. induction Hr as [st (m & t & ->)|st op st' Hr IH Hstep].
  - apply gc_records_init.
  - apply (gc_records_shape (λ _, True) st); [|done].
    apply (cd_step_shape _ op); [by apply cd_reachable_inv|done|done].
Qed.

(** ** The capacity of the graph-based collectors *)

Lemma heap_sum_nonneg c h :
  (∀ k o, h !! k = Some o → 0 ≤ c o) → 0 ≤ heap_sum c h.
Proof.
  induction h as [|k o h Hk IH] using map_ind; intros Hc.
  - by rewrite heap_sum_empty.
  - rewrite heap_sum_insert_None by done.
    assert (0 ≤ c o) by (apply (Hc k); by rewrite lookup_insert_eq).
    assert (0 ≤ heap_sum c h); [|lia].
    apply IH. intros j o' Hj. apply (Hc j). rewrite lookup_insert_ne; [done|].
    intros ->. congruence.
Qed.

Lemma gc_capacity_alive_nonneg st :
  gc_capacity st → 0 ≤ heap_sum alive_size (heap st).
Proof.
  intros (_ & Hsz & _). apply heap_sum_nonneg. intros k o Ho.
  unfold alive_size. destruct (HeapObject.is_alive o); [|done].
  destruct (Hsz k o Ho). lia.
Qed.

Lemma gc_capacity_memory st :
  gc_capacity st →
  get_total_memory st = heap_sum alive_size (heap st) ∧
  get_free_memory st = max_heap_size st - heap_sum alive_size (heap st).
Proof.
  intros Hcap. pose proof (gc_capacity_alive_nonneg st Hcap) as Hnn.
  destruct Hcap as ([Hm0 Hm1] & _ & Hle).
  assert (get_total_memory st = heap_sum alive_size (heap st)) as Htot.
  { rewrite get_total_memory_sum. apply wrap64_small. lia. }
  split; [done|]. unfold get_free_memory. rewrite Htot. apply wrap64_small. lia.
Qed.

Lemma gc_capacity_init m t : in_size_t m → gc_capacity (gc_init m t).
Proof.
  intros Hm. split; [done|]. split.
  - intros k o. cbn. by rewrite lookup_empty.
  - cbn. rewrite heap_sum_empty. by destruct Hm.
Qed.

Lemma gc_capacity_quiet st st1 : gc_quiet st st1 → gc_capacity st → gc_capacity st1.
Proof.
  intros (Hkeep & _ & Hmax & _ & Hstep) (Hm & Hsz & Hle).
  assert (∀ k o1, heap st1 !! k = Some o1 →
            ∃ o, heap st !! k = Some o ∧ HeapObject.size o1 = HeapObject.size o ∧
                 obj_step (current_step st1) o o1) as Hback.
  { intros k o1 Ho1.
    assert (is_Some (heap st !! k)) as [o Ho].
    { rewrite <- elem_of_dom, <- (keeps_dom _ _ _ Hkeep), elem_of_dom. by eexists. }
    exists o. split; [done|].
    destruct (keeps_lookup _ _ _ _ _ Hkeep Ho) as (o' & Ho' & Hb).
    rewrite Ho1 in Ho'. injection Ho' as <-.
    apply birth_fields in Hb as (_ & Hsize & _). split; [done|].
    destruct (Hstep k o Ho) as (o' & Ho' & Hcase). congruence. }
  split; [by rewrite Hmax|]. rewrite Hmax. split.
  - intros k o1 Ho1. destruct (Hback k o1 Ho1) as (o & Ho & -> & _). by apply (Hsz k).
  - etrans; [|exact Hle]. apply heap_sum_le; [by apply (keeps_dom birth)|].
    intros k o o1 Ho Ho1. destruct (Hback k o1 Ho1) as (o' & Ho' & Hsize & Hcase).
    rewrite Ho in Ho'. injection Ho' as <-. unfold alive_size. rewrite Hsize.
    destruct (Hsz k o Ho).
    destruct Hcase as [[-> _]|(-> & -> & _)]; [done|lia].
Qed.

Lemma gc_capacity_create size st :
  in_size_t size → size ≠ 0 → size ≤ max_heap_size st →
  has_enough_memory st size = true →
  heap st !! next_object_id st = None →
  gc_capacity st → gc_capacity (gc_create_object size st).2.
Proof.
  intros [Hs0 Hs1] Hnz Hle Hmem Hfresh Hcap.
  destruct (gc_capacity_memory st Hcap) as [_ Hfree].
  destruct Hcap as (Hm & Hsz & Hsum).
  apply bool_decide_eq_true in Hmem. rewrite Hfree in Hmem.
  split; [done|]. cbn. split.
  - intros k o. destruct (decide (k = next_object_id st)) as [->|Hne].
    + rewrite lookup_insert_eq. intros [= <-]. cbn. lia.
    + rewrite lookup_insert_ne by done. apply Hsz.
  - rewrite heap_sum_insert_None by done. cbn. lia.
Qed.

Lemma gc_capacity_shape st st' :
  gc_records st → gc_step_shape in_size_t st st' → gc_capacity st → gc_capacity st'.
Proof.
  intros Hrec (st1 & Hq & [->|(size & Hsz & Hnz & Hle & Hmem & ->)]) Hcap.
  - by apply (gc_capacity_quiet st).
  - apply gc_capacity_create; try done; [|by apply (gc_capacity_quiet st)].
    destruct (gc_records_quiet _ _ Hq Hrec) as [_ Hrec1].
    destruct (Hrec1 (next_object_id st1)) as [Hkeys _].
    destruct (heap st1 !! next_object_id st1) eqn:E; [|done].
    assert (is_Some (Some t)) as Hs by by eexists.
    apply Hkeys in Hs. lia.
Qed.

(** The states a driver reaches with [size_t] arguments from a collector
    built with a [size_t] capacity. *)
Lemma ms_run_capacity ops : ∀ st st',
  gc_inv st → gc_records st → gc_capacity st → Forall ms_op_sized ops →
  run_ops ms_step ops st = Some st' →
  gc_inv st' ∧ gc_records st' ∧ gc_capacity st'.
Proof.
  induction ops as [|op ops IH]; intros st st' Hinv Hrec Hcap Hops Hrun;
    simpl in Hrun.
  - by injection Hrun as <-.
  - destruct (ms_step op st) as [st1|] eqn:Hstep; [|done].
    apply Forall_cons in Hops as [Hop Hops].
    assert (gc_step_shape in_size_t st st1) as Hshape.
    { apply (ms_step_shape _ op); [done| |done]. by intros ro so size ->. }
    apply (IH st1 st'); try done.
    + destruct (ms_step_spec op st Hinv) as (st1' & Hstep' & Hok & _).
      rewrite Hstep in Hstep'. injection Hstep' as <-. by destruct Hok.
    + by apply (gc_records_shape in_size_t st).
    + by apply (gc_capacity_shape st).
Qed.

Lemma cd_run_capacity ops : ∀ st st',
  gc_inv st → gc_records st → gc_capacity st → Forall cd_op_sized ops →
  run_ops cd_step ops st = Some st' →
  gc_inv st' ∧ gc_records st' ∧ gc_capacity st'.
Proof.
  induction ops as [|op ops IH]; intros st st' Hinv Hrec Hcap Hops Hrun;
    simpl in Hrun.
  - by injection Hrun as <-.
  - destruct (cd_step op st) as [st1|] eqn:Hstep; [|done].
    apply Forall_cons in Hops as [Hop Hops].
    assert (gc_step_shape in_size_t st st1) as Hshape.
    { apply (cd_step_shape _ op); [done| |done]. by intros order size ->. }
    apply (IH st1 st'); try done.
    + destruct (cd_step_spec op st Hinv) as (st1' & Hstep' & Hok & _).
      rewrite Hstep in Hstep'. injection Hstep' as <-. by destruct Hok.
    + by apply (gc_records_shape in_size_t st).
    + by apply (gc_capacity_shape st).
Qed.

(** ** The invariants in every state a driver reaches *)

Lemma gc_step_shape_max P st st' :
  gc_step_shape P st st' → max_heap_size st' = max_heap_size st.
Proof.
  intros (st1 & (_ & _ & Hmax & _) & [->|(size & _ & _ & _ & _ & ->)]); done.
Qed.

Lemma ms_run_max ops : ∀ st st',
  gc_inv st → run_ops ms_step ops st = Some st' →
  max_heap_size st' = max_heap_size st.
Proof.
  induction ops as [|op ops IH]; intros st st' Hinv Hrun; simpl in Hrun.
  - by injection Hrun as <-.
  - destruct (ms_step op st) as [st1|] eqn:Hstep; [|done].
    rewrite (IH st1 st'); [| |done].
    + apply (gc_step_shape_max (λ _, True)). by apply (ms_step_shape _ op).
    + destruct (ms_step_spec op st Hinv) as (st1' & Hstep' & Hok & _).
      congruence.
Qed.

Lemma cd_run_max ops : ∀ st st',
  gc_inv st → run_ops cd_step ops st = Some st' →
  max_heap_size st' = max_heap_size st.
Proof.
  induction ops as [|op ops IH]; intros st st' Hinv Hrun; simpl in Hrun.
  - by injection Hrun as <-.
  - destruct (cd_step op st) as [st1|] eqn:Hstep; [|done].
    rewrite (IH st1 st'); [| |done].
    + apply (gc_step_shape_max (λ _, True)). by apply (cd_step_shape _ op).
    + destruct (cd_step_spec op st Hinv) as (st1' & Hstep' & Hok & _).
      congruence.
Qed.

Lemma gc_capacity_facts m st :
  max_heap_size st = m → gc_capacity st →
  get_total_memory st = heap_sum alive_size (heap st) ∧
  0 ≤ get_total_memory st ≤ m ∧
  get_free_memory st = m - get_total_memory st ∧
  (∀ k o, heap st !! k = Some o → 0 < HeapObject.size o ≤ m).
Proof.
  intros <- Hcap. destruct (gc_capacity_memory st Hcap) as [Htot Hfree].
  pose proof (gc_capacity_alive_nonneg st Hcap) as Hnn.
  destruct Hcap as (_ & Hsz & Hle).
  split; [done|]. split; [lia|]. split; [lia|]. exact Hsz.
Qed.

(** X13: ids are consecutive and never reused, and records are never
    erased.  In every state a driver can bring the Mark-Sweep or the
    cascade collector into, the keys of the heap are exactly
    [0 .. next_object_id - 1], dead objects included; every record carries
    its key in [id]; its [reference_count] is 0, whatever refers to it and
    whether it is a root; and an alive record has [collection_step = -1]. *)
Theorem heap_records_stay_as_built st :
  ms_reachable st ∨ cd_reachable st →
  0 ≤ next_object_id st ∧
  ∀ k, (is_Some (heap st !! k) ↔ 0 ≤ k < next_object_id st) ∧
       ∀ o, heap st !! k = Some o →
            HeapObject.id o = k ∧
            HeapObject.reference_count o = 0 ∧
            (HeapObject.is_alive o = true → HeapObject.collection_step o = -1).
Proof.
  intros [Hr|Hr]; [by apply ms_reachable_records|by apply cd_reachable_records].
Qed.

Lemma heap_records_stay_as_built_witness :
  0 ≤ next_object_id cd_live_and_garbage ∧
  ∀ k, (is_Some (heap cd_live_and_garbage !! k)
        ↔ 0 ≤ k < next_object_id cd_live_and_garbage) ∧
       ∀ o, heap cd_live_and_garbage !! k = Some o →
            HeapObject.id o = k ∧
            HeapObject.reference_count o = 0 ∧
            (HeapObject.is_alive o = true → HeapObject.collection_step o = -1).
Proof.
  apply (heap_records_stay_as_built cd_live_and_garbage).
  right. exact cd_live_and_garbage_reachable.
Defined.

(** X14: the Mark-Sweep heap never holds more than its capacity.  For
    a collector built with a [size_t] capacity [m] and driven by any stream
    of operations with [size_t] arguments, [max_heap_size] is still [m],
    [get_total_memory] is the sum of the sizes of the alive objects without
    wrap-around and at most [m], [get_free_memory] is [m] minus it, and the
    size of every stored object is positive and at most [m]. *)
Theorem ms_alive_bytes_fit_the_capacity m t ops st :
  in_size_t m → Forall ms_op_sized ops →
  run_ops ms_step ops (gc_init m t) = Some st →
  max_heap_size st = m ∧
  get_total_memory st = heap_sum alive_size (heap st) ∧
  0 ≤ get_total_memory st ≤ m ∧
  get_free_memory st = m - get_total_memory st ∧
  (∀ k o, heap st !! k = Some o → 0 < HeapObject.size o ≤ m).
Proof.
  intros Hm Hops Hrun.
  pose proof (ms_run_max ops _ _ (gc_inv_init m t) Hrun) as Hmax.
  destruct (ms_run_capacity ops _ _ (gc_inv_init m t) (gc_records_init m t)
              (gc_capacity_init m t Hm) Hops Hrun) as (_ & _ & Hcap).
  split; [done|]. by apply gc_capacity_facts.
Qed.

Lemma ms_alive_bytes_fit_the_capacity_witness :
  max_heap_size ms_live_and_garbage = 1000 ∧
  get_total_memory ms_live_and_garbage
    = heap_sum alive_size (heap ms_live_and_garbage) ∧
  0 ≤ get_total_memory ms_live_and_garbage ≤ 1000 ∧
  get_free_memory ms_live_and_garbage
    = 1000 - get_total_memory ms_live_and_garbage ∧
  (∀ k o, heap ms_live_and_garbage !! k = Some o →
          0 < HeapObject.size o ≤ 1000).
Proof.
  apply (ms_alive_bytes_fit_the_capacity 1000 800 ms_live_and_garbage_ops
           ms_live_and_garbage).
  - apply (bool_decide_unpack _). vm_compute. exact I.
  - apply (bool_decide_unpack _). vm_compute. exact I.
  - vm_compute. reflexivity.
Defined.

(** X15: the heap of the cascade collector never holds more than its
    capacity.  For a collector built with a [size_t] capacity [m] and
    driven by any stream of operations with [size_t] arguments,
    [max_heap_size] is still [m], [get_total_memory] is the sum of the
    sizes of the alive objects without wrap-around and at most [m],
    [get_free_memory] is [m] minus it, and the size of every stored object
    is positive and at most [m]. *)
Theorem cd_alive_bytes_fit_the_capacity m t ops st :
  in_size_t m → Forall cd_op_sized ops →
  run_ops cd_step ops (gc_init m t) = Some st →
  max_heap_size st = m ∧
  get_total_memory st = heap_sum alive_size (heap st) ∧
  0 ≤ get_total_memory st ≤ m ∧
  get_free_memory st = m - get_total_memory st ∧
  (∀ k o, heap st !! k = Some o → 0 < HeapObject.size o ≤ m).
Proof.
  intros Hm Hops Hrun.
  pose proof (cd_run_max ops _ _ (gc_inv_init m t) Hrun) as Hmax.
  destruct (cd_run_capacity ops _ _ (gc_inv_init m t) (gc_records_init m t)
              (gc_capacity_init m t Hm) Hops Hrun) as (_ & _ & Hcap).
  split; [done|]. by apply gc_capacity_facts.
Qed.

Lemma cd_alive_bytes_fit_the_capacity_witness :
  max_heap_size cd_live_and_garbage = 1000 ∧
  get_total_memory cd_live_and_garbage
    = heap_sum alive_size (heap cd_live_and_garbage) ∧
  0 ≤ get_total_memory cd_live_and_garbage ≤ 1000 ∧
  get_free_memory cd_live_and_garbage
    = 1000 - get_total_memory cd_live_and_garbage ∧
  (∀ k o, heap cd_live_and_garbage !! k = Some o →
          0 < HeapObject.size o ≤ 1000).
Proof.
  apply (cd_alive_bytes_fit_the_capacity 1000 800 cd_live_and_garbage_ops
           cd_live_and_garbage).
  - apply (bool_decide_unpack _). vm_compute. exact I.
  - apply (bool_decide_unpack _). vm_compute. exact I.
  - vm_compute. reflexivity.
Defined.

(** X16: what a Mark-Sweep collection leaves behind.  On a heap with
    symmetric edges the keys of the map and the root flags are unchanged
    (a deleted object stays in the map), after the collection an object is
    marked iff it is alive, every survivor has the outgoing edges it had,
    its incoming edges are those it had from survivors, and the same
    objects are reachable from the roots. *)
Theorem ms_collect_keeps_the_live_graph ro so st :
  wf_heap (heap st) → enumerates ro (heap st) → enumerates so (heap st) →
  ∃ freed st',
    MarkSweepGC.collect ro so st = Some (freed, st') ∧
    dom (heap st') = dom (heap st) ∧
    (∀ k, is_root_in (heap st') k = is_root_in (heap st) k) ∧
    (∀ k, marked (heap st') k = object_exists (heap st') k) ∧
    (∀ k, object_exists (heap st') k = true →
          outgoing_of (heap st') k = outgoing_of (heap st) k ∧
          incoming_of (heap st') k ⊆ incoming_of (heap st) k ∧
          (∀ p, p ∈ incoming_of (heap st) k → object_exists (heap st') p = true →
                p ∈ incoming_of (heap st') k)) ∧
    (∀ k, reachable_from_roots (heap st') k ↔ reachable_from_roots (heap st) k).
Proof.
  intros Hwf Hro Hso.
  destruct (ms_collect_result ro so st Hwf Hro Hso)
    as (freed & st' & Hrun & Hwf' & Hdom & Hroot & Hmark & Hex & Hedges & Hreach).
  exists freed, st'. split; [done|]. split; [done|]. split; [done|].
  split; [|split; [|done]].
  - intros k. apply bool_eq_iff. by rewrite Hmark, Hex.
  - intros k Hk. pose proof Hk as Hk'. apply Hex in Hk'.
    destruct (Hedges k Hk') as [Hout Hin]. split; [done|]. split; [done|].
    intros p Hp Hpex.
    pose proof Hpex as Hpr. apply Hex in Hpr.
    destruct (Hedges p Hpr) as [Hpout _].
    assert (object_exists (heap st) k = true) as Hk0.
    { apply (reachable_from_roots_alive (heap st)); [|done].
      by apply wf_heap_out_closed. }
    assert (k ∈ outgoing_of (heap st') p) as Hkp.
    { rewrite Hpout.
      unfold object_exists in Hk0. destruct (heap st !! k) as [ok|] eqn:Eok; [|done].
      destruct (Hwf k ok Eok Hk0) as [_ Hinc].
      apply (Hinc p). unfold incoming_of in Hp. by rewrite Eok in Hp. }
    unfold object_exists in Hpex.
    destruct (heap st' !! p) as [op|] eqn:Eop; [|done].
    destruct (Hwf' p op Eop Hpex) as [Houtc _].
    apply (Houtc k). unfold outgoing_of in Hkp. by rewrite Eop in Hkp.
Qed.

Lemma ms_collect_keeps_the_live_graph_witness :
  ∃ freed st',
    MarkSweepGC.collect [0; 1; 2; 3; 4] [4; 3; 2; 1; 0] ms_live_and_garbage
      = Some (freed, st') ∧
    dom (heap st') = dom (heap ms_live_and_garbage) ∧
    (∀ k, is_root_in (heap st') k = is_root_in (heap ms_live_and_garbage) k) ∧
    (∀ k, marked (heap st') k = object_exists (heap st') k) ∧
    (∀ k, object_exists (heap st') k = true →
          outgoing_of (heap st') k = outgoing_of (heap ms_live_and_garbage) k ∧
          incoming_of (heap st') k ⊆ incoming_of (heap ms_live_and_garbage) k ∧
          (∀ p, p ∈ incoming_of (heap ms_live_and_garbage) k →
                object_exists (heap st') p = true →
                p ∈ incoming_of (heap st') k)) ∧
    (∀ k, reachable_from_roots (heap st') k
          ↔ reachable_from_roots (heap ms_live_and_garbage) k).
Proof.
  apply (ms_collect_keeps_the_live_graph [0; 1; 2; 3; 4] [4; 3; 2; 1; 0]
           ms_live_and_garbage).
  - apply (bool_decide_unpack _). vm_compute. exact I.
  - apply (bool_decide_unpack _). vm_compute. exact I.
  - apply (bool_decide_unpack _). vm_compute. exact I.
Defined.

(** ** Mark-Sweep frees lazily *)

Lemma keeps_create {A} (π : HeapObject.t → A) size st :
  ids_below st → ∀ k o, heap st !! k = Some o →
    ∃ o', heap (gc_create_object size st).2 !! k = Some o' ∧ π o' = π o.
Proof.
  intros Hids k o Hk. exists o. split; [|done]. cbn.
  rewrite lookup_insert_ne; [done|]. intros <-.
  assert (next_object_id st < next_object_id st); [|lia].
  apply Hids. by eexists.
Qed.

Lemma ms_step_without_collection op st st' :
  gc_inv st → ms_step op st = Some st' →
  (collection_count st' = collection_count st ∨
   collection_count st' = collection_count st + 1) ∧
  (collection_count st' = collection_count st →
   total_objects_collected st' = total_objects_collected st ∧
   total_memory_freed st' = total_memory_freed st ∧
   ∀ k o, heap st !! k = Some o → ∃ o', heap st' !! k = Some o' ∧ life o' = life o).
Proof.
  intros Hinv Hstep.
  assert (∀ s : GCState, gc_inv s → s = st' ∨ (∃ size, st' = (gc_create_object size s).2) →
            collection_count st' = collection_count s ∧
            total_objects_collected st' = total_objects_collected s ∧
            total_memory_freed st' = total_memory_freed s ∧
            ∀ k o, heap s !! k = Some o →
                   ∃ o', heap st' !! k = Some o' ∧ life o' = life o) as Hplain.
  { intros s Hs [->|[size ->]].
    - split; [done|]. split; [done|]. split; [done|]. intros k o Hk. by exists o.
    - split; [done|]. split; [done|]. split; [done|]. intros k o Hk.
      by apply keeps_create; [apply Hs|]. }
  assert (∀ h, keeps life (heap st) h →
            heap st' = h ∧
            collection_count st' = collection_count st ∧
            total_objects_collected st' = total_objects_collected st ∧
            total_memory_freed st' = total_memory_freed st →
            (collection_count st' = collection_count st ∨
             collection_count st' = collection_count st + 1) ∧
            (collection_count st' = collection_count st →
             total_objects_collected st' = total_objects_collected st ∧
             total_memory_freed st' = total_memory_freed st ∧
             ∀ k o, heap st !! k = Some o →
                    ∃ o', heap st' !! k = Some o' ∧ life o' = life o)) as Hkeep.
  { intros h Hk (Hh & Hc & Ho & Hm).
    split; [by left|]. intros _. split; [done|]. split; [done|].
    intros k o Hko. rewrite Hh. by apply (keeps_lookup life (heap st)). }
  destruct op as [ro so size|f t|f t|x|x|ro so|n]; simpl in Hstep.
  - unfold MarkSweepGC.allocate in Hstep.
    destruct (_ || _).
    { injection Hstep as <-. by apply (Hkeep (heap st)). }
    destruct (has_enough_memory st size).
    { injection Hstep as <-.
      destruct (Hplain st Hinv) as (Hc & Ho & Hm & Hk); [right; by eexists|].
      split; [by left|]. done. }
    destruct (ms_collect_ok ro so st Hinv)
      as ([freed st1] & Hrun & [Hinv1 _] & _ & _ & Hcc1).
    rewrite Hrun in Hstep. cbn [snd] in *.
    assert (collection_count st' = collection_count st1) as Hc.
    { destruct (has_enough_memory st1 size); by injection Hstep as <-. }
    split; [right; lia|]. intros ?. lia.
  - injection Hstep as <-.
    apply (Hkeep (heap (gc_add_reference f t st).2)).
    + by apply keeps_add_reference.
    + unfold MarkSweepGC.add_reference, gc_add_reference. destruct (negb _); [done|].
      destruct (negb _); [done|]. destruct (heap st !! f); [|done].
      by case_bool_decide.
  - injection Hstep as <-.
    apply (Hkeep (heap (MarkSweepGC.remove_reference f t st).2)).
    + by apply keeps_ms_remove_reference.
    + unfold MarkSweepGC.remove_reference. destruct (negb _); [done|].
      destruct (negb _); [done|]. by destruct (negb _).
  - injection Hstep as <-. apply (Hkeep (heap (gc_set_root true x st))).
    + by apply keeps_set_root.
    + unfold MarkSweepGC.make_root, gc_set_root.
      by destruct (object_exists _ _).
  - injection Hstep as <-. apply (Hkeep (heap (gc_set_root false x st))).
    + by apply keeps_set_root.
    + unfold MarkSweepGC.remove_root, gc_set_root.
      by destruct (object_exists _ _).
  - destruct (ms_collect_ok ro so st Hinv) as ([freed st1] & Hrun & _ & _ & _ & Hcc1).
    rewrite Hrun in Hstep. injection Hstep as <-. cbn [snd] in *.
    split; [by right|]. intros ?. lia.
  - injection Hstep as <-. by apply (Hkeep (heap st)).
Qed.

(** X17: Mark-Sweep frees lazily.  In every state a driver can
    reach, an operation raises [collection_count] by at most one, and an
    operation that does not raise it ([add_reference], [remove_reference],
    [make_root], [remove_root], an [allocate] that needs no collection)
    leaves [total_objects_collected], [total_memory_freed] and, for every
    stored object, [is_alive] and [collection_step] as they were. *)
Theorem ms_nothing_dies_outside_a_collection op st st' :
  ms_reachable st → ms_step op st = Some st' →
  (collection_count st' = collection_count st ∨
   collection_count st' = collection_count st + 1) ∧
  (collection_count st' = collection_count st →
   total_objects_collected st' = total_objects_collected st ∧
   total_memory_freed st' = total_memory_freed st ∧
   ∀ k o, heap st !! k = Some o →
     ∃ o', heap st' !! k = Some o' ∧
           HeapObject.is_alive o' = HeapObject.is_alive o ∧
           HeapObject.collection_step o' = HeapObject.collection_step o).
Proof.
  intros Hr Hstep. apply ms_reachable_inv in Hr.
  destruct (ms_step_without_collection op st st' Hr Hstep) as [Hcc Hsame].
  split; [done|]. intros Hc. destruct (Hsame Hc) as (Ho & Hm & Hk).
  split; [done|]. split; [done|]. intros k o Hko.
  destruct (Hk k o Hko) as (o' & Ho' & [= Ha Hs]). by exists o'.
Qed.

Lemma ms_nothing_dies_outside_a_collection_witness :
  let st' := (MarkSweepGC.remove_reference 0 1 ms_live_and_garbage).2 in
  (collection_count st' = collection_count ms_live_and_garbage ∨
   collection_count st' = collection_count ms_live_and_garbage + 1) ∧
  (collection_count st' = collection_count ms_live_and_garbage →
   total_objects_collected st' = total_objects_collected ms_live_and_garbage ∧
   total_memory_freed st' = total_memory_freed ms_live_and_garbage ∧
   ∀ k o, heap ms_live_and_garbage !! k = Some o →
     ∃ o', heap st' !! k = Some o' ∧
           HeapObject.is_alive o' = HeapObject.is_alive o ∧
           HeapObject.collection_step o' = HeapObject.collection_step o).
Proof.
  apply (ms_nothing_dies_outside_a_collection (MsRemoveReference 0 1)
           ms_live_and_garbage).
  - exact ms_live_and_garbage_reachable.
  - vm_compute. reflexivity.
Defined.

(** ** Adding an edge and removing it again *)

Lemma remove_add_reference_to x o :
  x ∉ HeapObject.outgoing_references o →
  HeapObject.remove_reference_to x (HeapObject.add_reference_to x o) = o.
Proof.
  intros Hx. destruct o as [i s m rc out inc r a als cs]. cbn in *.
  unfold HeapObject.remove_reference_to, HeapObject.add_reference_to. cbn.
  f_equal. set_solver.
Qed.

Lemma remove_add_reference_from x o :
  x ∉ HeapObject.incoming_references o →
  HeapObject.remove_reference_from x (HeapObject.add_reference_from x o) = o.
Proof.
  intros Hx. destruct o as [i s m rc out inc r a als cs]. cbn in *.
  unfold HeapObject.remove_reference_from, HeapObject.add_reference_from. cbn.
  f_equal. set_solver.
Qed.

Lemma alter_alter_same {A} (f g : A → A) k (m : gmap Z A) :
  alter f k (alter g k m) = alter (f ∘ g) k m.
Proof.
  apply map_eq. intros j. destruct (decide (k = j)) as [->|Hne].
  - rewrite !lookup_alter_eq. by destruct (m !! j).
  - by rewrite !lookup_alter_ne.
Qed.

Lemma alter_alter_comm {A} (f g : A → A) j k (m : gmap Z A) :
  j ≠ k → alter f j (alter g k m) = alter g k (alter f j m).
Proof.
  intros Hne. apply map_eq. intros i. rewrite !lookup_alter.
  repeat case_decide; subst; done.
Qed.

Lemma alter_id_at {A} (f : A → A) k (m : gmap Z A) :
  (∀ x, m !! k = Some x → f x = x) → alter f k m = m.
Proof.
  intros Hf. apply map_eq. intros j. destruct (decide (k = j)) as [->|Hne].
  - rewrite lookup_alter_eq. destruct (m !! j) eqn:E; [|done]. cbn. by rewrite Hf.
  - by rewrite lookup_alter_ne.
Qed.

Lemma detach_attach_edge from_id to_id h :
  wf_heap h → object_exists h to_id = true →
  to_id ∉ outgoing_of h from_id →
  detach_edge from_id to_id (attach_edge from_id to_id h) = h.
Proof.
  intros Hwf Hto Hnot.
  assert (from_id ∉ incoming_of h to_id) as Hnin.
  { intros Hin. apply Hnot.
    by apply (proj1 (wf_heap_alt h) Hwf to_id Hto). }
  unfold detach_edge, attach_edge.
  destruct (decide (from_id = to_id)) as [->|Hne].
  - rewrite !alter_alter_same. apply alter_id_at. intros o Ho. cbn.
    unfold outgoing_of in Hnot. unfold incoming_of in Hnin. rewrite Ho in Hnot, Hnin.
    destruct o as [i s m rc out inc r a als cs]. cbn in *.
    unfold HeapObject.remove_reference_from, HeapObject.remove_reference_to,
      HeapObject.add_reference_from, HeapObject.add_reference_to. cbn.
    f_equal; set_solver.
  - rewrite (alter_alter_comm _ _ from_id to_id) by done.
    rewrite !alter_alter_same.
    rewrite (alter_id_at _ to_id).
    + apply alter_id_at. intros o Ho. cbn.
      unfold outgoing_of in Hnot. rewrite Ho in Hnot.
      by apply remove_add_reference_to.
    + intros o Ho. rewrite lookup_alter_ne in Ho by done. cbn.
      unfold incoming_of in Hnin. rewrite Ho in Hnin.
      by apply remove_add_reference_from.
Qed.

Lemma set_heap_heap st : set_heap (heap st) st = st.
Proof. by destruct st. Qed.

Lemma set_heap_set_heap h h' st : set_heap h (set_heap h' st) = set_heap h st.
Proof. done. Qed.

Lemma object_exists_attach_edge from_id to_id h k :
  object_exists (attach_edge from_id to_id h) k = object_exists h k.
Proof.
  unfold attach_edge, object_exists. rewrite !lookup_alter.
  repeat case_decide; subst; destruct (h !! k); done.
Qed.

Lemma outgoing_of_attach_edge from_id to_id h :
  is_Some (h !! from_id) →
  to_id ∈ outgoing_of (attach_edge from_id to_id h) from_id.
Proof.
  intros [o Ho]. unfold attach_edge, outgoing_of. rewrite !lookup_alter.
  repeat case_decide; subst; rewrite ?Ho; cbn; set_solver.
Qed.

(** What [add_reference] does when it adds the edge. *)
Lemma gc_add_reference_fresh from_id to_id st :
  object_exists (heap st) from_id = true → object_exists (heap st) to_id = true →
  to_id ∉ outgoing_of (heap st) from_id →
  gc_add_reference from_id to_id st
  = (true, set_heap (attach_edge from_id to_id (heap st)) st).
Proof.
  intros Hf Ht Hnot. unfold gc_add_reference. rewrite Hf, Ht. cbn [negb].
  apply object_exists_true in Hf as (o & Ho & _). rewrite Ho.
  unfold outgoing_of in Hnot. rewrite Ho in Hnot.
  by rewrite bool_decide_eq_false_2.
Qed.

(** X18: in the Mark-Sweep collector, adding an edge that was not
    there and removing it again restores the state.  On a heap with
    symmetric edges, for alive [from_id] and [to_id] (which may be the same
    object) without the edge, [add_reference] returns [true] and records
    the edge, and [remove_reference] then returns [true] in exactly the
    state before the two calls. *)
Theorem ms_add_then_remove_reference from_id to_id st :
  wf_heap (heap st) →
  object_exists (heap st) from_id = true → object_exists (heap st) to_id = true →
  to_id ∉ outgoing_of (heap st) from_id →
  let r := MarkSweepGC.add_reference from_id to_id st in
  r.1 = true ∧
  to_id ∈ outgoing_of (heap r.2) from_id ∧
  MarkSweepGC.remove_reference from_id to_id r.2 = (true, st).
Proof.
  intros Hwf Hf Ht Hnot. cbn zeta. unfold MarkSweepGC.add_reference.
  rewrite gc_add_reference_fresh by done. cbn [fst snd]. split; [done|].
  assert (to_id ∈ outgoing_of (attach_edge from_id to_id (heap st)) from_id) as Hin.
  { apply outgoing_of_attach_edge. apply object_exists_true in Hf as (o & -> & _).
    by eexists. }
  split; [done|].
  unfold MarkSweepGC.remove_reference. cbn [heap set_heap].
  rewrite !object_exists_attach_edge, Hf, Ht. cbn [negb].
  rewrite bool_decide_eq_true_2 by done. cbn [negb].
  rewrite detach_attach_edge by done. by rewrite set_heap_set_heap, set_heap_heap.
Qed.

Lemma ms_add_then_remove_reference_witness :
  let r := MarkSweepGC.add_reference 1 0 ms_live_and_garbage in
  r.1 = true ∧
  0 ∈ outgoing_of (heap r.2) 1 ∧
  MarkSweepGC.remove_reference 1 0 r.2 = (true, ms_live_and_garbage).
Proof.
  apply (ms_add_then_remove_reference 1 0 ms_live_and_garbage).
  - apply (bool_decide_unpack _). vm_compute. exact I.
  - vm_compute. reflexivity.
  - vm_compute. reflexivity.
  - apply (bool_decide_unpack _). vm_compute. exact I.
Defined.

(** A cascade started at an orphan deletes it. *)
Lemma cascade_delete_kills_start object_id st r :
  wf_heap (heap st) →
  CascadeDeletionGC.should_be_deleted (heap st) object_id = true →
  CascadeDeletionGC.cascade_delete object_id st = Some r →
  object_exists (heap r.2) object_id = false.
Proof.
  intros Hwf Hs Hrun.
  pose proof Hs as (Hex & Hroot & Hin)%should_be_deleted_spec.
  destruct (object_exists (heap r.2) object_id) eqn:Hex'; [exfalso|done].
  assert (CascadeDeletionGC.should_be_deleted (heap r.2) object_id = true) as Hs'.
  { apply should_be_deleted_spec. split; [done|].
    destruct (cascade_delete_wf _ _ _ Hwf Hrun) as (_ & Hev & _).
    destruct (heap_evolves_back _ _ _ object_id Hev Hex') as [_ Hr].
    split; [congruence|].
    destruct (cascade_delete_keeps ∅ object_id st r Hwf Hin) as [_ Hsub];
      [by intros s Hs0; apply elem_of_empty in Hs0|done|].
    specialize (Hsub object_id). set_solver. }
  by apply (cascade_delete_no_orphans (λ k, k ≠ object_id) object_id st r Hwf)
    in Hs'; [|intros k _; destruct (decide (k = object_id)); auto|].
Qed.

(** X19: in the cascade collector, adding an edge and removing it
    again is not always a round trip.  On a heap with symmetric edges, for
    alive [from_id] and [to_id] without the edge, [add_reference] returns
    [true] and records the edge.  If [to_id] was a root or had another
    incoming edge, [remove_reference] then returns [true] in exactly the
    state before the two calls; if [to_id] was an unrooted object without
    incoming edges, [remove_reference] returns [true] and [to_id] is
    deleted, with [total_memory_freed] and [collection_count] unchanged. *)
Theorem cd_add_then_remove_reference from_id to_id st :
  wf_heap (heap st) →
  object_exists (heap st) from_id = true → object_exists (heap st) to_id = true →
  to_id ∉ outgoing_of (heap st) from_id →
  let r := CascadeDeletionGC.add_reference from_id to_id st in
  r.1 = true ∧
  to_id ∈ outgoing_of (heap r.2) from_id ∧
  (CascadeDeletionGC.should_be_deleted (heap st) to_id = false →
     CascadeDeletionGC.remove_reference from_id to_id r.2 = Some (true, st)) ∧
  (CascadeDeletionGC.should_be_deleted (heap st) to_id = true →
     ∃ st2, CascadeDeletionGC.remove_reference from_id to_id r.2
            = Some (true, st2) ∧
            object_exists (heap st2) to_id = false ∧
            total_memory_freed st2 = total_memory_freed st ∧
            collection_count st2 = collection_count st).
Proof.
  intros Hwf Hf Ht Hnot. cbn zeta. unfold CascadeDeletionGC.add_reference.
  rewrite gc_add_reference_fresh by done. cbn [fst snd]. split; [done|].
  assert (to_id ∈ outgoing_of (attach_edge from_id to_id (heap st)) from_id) as Hin.
  { apply outgoing_of_attach_edge. apply object_exists_true in Hf as (o & -> & _).
    by eexists. }
  split; [done|].
  unfold CascadeDeletionGC.remove_reference. cbn [heap set_heap].
  rewrite !object_exists_attach_edge, Hf, Ht. cbn [negb].
  rewrite bool_decide_eq_true_2 by done. cbn [negb].
  rewrite detach_attach_edge by done. rewrite set_heap_set_heap, set_heap_heap.
  split.
  - by intros ->.
  - intros Hs. rewrite Hs.
    destruct (cascade_delete_spec (heap st) to_id st Hwf (heap_evolves_refl _ _))
      as ([fr st2] & Hrun & _ & _ & _ & Hcc).
    rewrite Hrun. exists st2. split; [done|].
    split; [by apply (cascade_delete_kills_start to_id st (fr, st2))|].
    pose proof (cascade_delete_account to_id st (fr, st2) Hrun) as Hacc.
    cbn [fst snd] in *. split; [|done]. apply Hacc.
Qed.

Lemma cd_add_then_remove_reference_witness :
  let r := CascadeDeletionGC.add_reference 0 4 cd_live_and_garbage in
  r.1 = true ∧
  4 ∈ outgoing_of (heap r.2) 0 ∧
  (CascadeDeletionGC.should_be_deleted (heap cd_live_and_garbage) 4 = false →
     CascadeDeletionGC.remove_reference 0 4 r.2 = Some (true, cd_live_and_garbage)) ∧
  (CascadeDeletionGC.should_be_deleted (heap cd_live_and_garbage) 4 = true →
     ∃ st2, CascadeDeletionGC.remove_reference 0 4 r.2 = Some (true, st2) ∧
            object_exists (heap st2) 4 = false ∧
            total_memory_freed st2 = total_memory_freed cd_live_and_garbage ∧
            collection_count st2 = collection_count cd_live_and_garbage).
Proof.
  apply (cd_add_then_remove_reference 0 4 cd_live_and_garbage).
  - apply (bool_decide_unpack _). vm_compute. exact I.
  - vm_compute. reflexivity.
  - vm_compute. reflexivity.
  - apply (bool_decide_unpack _). vm_compute. exact I.
Defined.

(** ** A heap without roots *)

Lemma heap_sum_zero c h :
  (∀ k o, h !! k = Some o → c o = 0) → heap_sum c h = 0.
Proof.
  induction h as [|k o h Hk IH] using map_ind; intros Hc.
  - apply heap_sum_empty.
  - rewrite heap_sum_insert_None by done.
    rewrite (Hc k o) by by rewrite lookup_insert_eq.
    rewrite IH; [done|]. intros j o' Hj. apply (Hc j).
    rewrite lookup_insert_ne; [done|]. intros ->. congruence.
Qed.

Lemma heap_sum_all_dead c h :
  (∀ o, HeapObject.is_alive o = false → c o = 0) →
  (∀ k, object_exists h k = false) → heap_sum c h = 0.
Proof.
  intros Hc Hdead. apply heap_sum_zero. intros k o Ho. apply Hc.
  specialize (Hdead k). unfold object_exists in Hdead. by rewrite Ho in Hdead.
Qed.

(** X20: without a root, a Mark-Sweep collection empties the heap.
    On a heap with symmetric edges in which no alive object is a root,
    [collect] returns exactly [get_total_memory], no object is alive
    afterwards, [get_total_memory] and [get_alive_objects_count] are 0, and
    [total_objects_collected] has grown by the number of objects that were
    alive. *)
Theorem ms_collect_without_roots_frees_everything ro so st :
  wf_heap (heap st) → enumerates ro (heap st) → enumerates so (heap st) →
  rootless (heap st) →
  ∃ st',
    MarkSweepGC.collect ro so st = Some (get_total_memory st, st') ∧
    (∀ k, object_exists (heap st') k = false) ∧
    get_total_memory st' = 0 ∧
    get_alive_objects_count st' = 0 ∧
    total_objects_collected st'
      = total_objects_collected st + get_alive_objects_count st.
Proof.
  intros Hwf Hro Hso Hnoroot.
  destruct (ms_collect_result ro so st Hwf Hro Hso)
    as (freed & st' & Hrun & _ & _ & _ & _ & Hex & _).
  destruct (ms_collect_account ro so st Hwf (proj1 Hso))
    as (freed' & st'' & Hrun' & Hfreed & Hcnt & _).
  rewrite Hrun in Hrun'. injection Hrun' as <- <-.
  assert (∀ k, object_exists (heap st') k = false) as Hdead.
  { intros k. destruct (object_exists (heap st') k) eqn:Hk; [exfalso|done].
    apply Hex in Hk as (r & Hr & Hroot & _).
    rewrite (Hnoroot r Hr) in Hroot. done. }
  assert (heap_sum alive_size (heap st') = 0) as Hs0.
  { apply heap_sum_all_dead; [|done]. intros o Ho. unfold alive_size. by rewrite Ho. }
  assert (heap_sum alive_one (heap st') = 0) as Hc0.
  { apply heap_sum_all_dead; [|done]. intros o Ho. unfold alive_one. by rewrite Ho. }
  exists st'. rewrite !get_total_memory_sum, !get_alive_objects_count_sum, Hs0, Hc0.
  rewrite Hs0, Z.sub_0_r in Hfreed. rewrite Hc0 in Hcnt.
  split; [by rewrite <- Hfreed|]. split; [done|]. split; [done|]. split; [done|]. lia.
Qed.

Lemma ms_collect_without_roots_frees_everything_witness :
  ∃ st',
    MarkSweepGC.collect [0; 1; 2; 3] [3; 2; 1; 0] ms_scenario_state
      = Some (get_total_memory ms_scenario_state, st') ∧
    (∀ k, object_exists (heap st') k = false) ∧
    get_total_memory st' = 0 ∧
    get_alive_objects_count st' = 0 ∧
    total_objects_collected st'
      = total_objects_collected ms_scenario_state
        + get_alive_objects_count ms_scenario_state.
Proof.
  apply (ms_collect_without_roots_frees_everything [0; 1; 2; 3] [3; 2; 1; 0]
           ms_scenario_state).
  - apply (bool_decide_unpack _). vm_compute. exact I.
  - apply (bool_decide_unpack _). vm_compute. exact I.
  - apply (bool_decide_unpack _). vm_compute. exact I.
  - apply (bool_decide_unpack _). vm_compute. exact I.
Defined.

(** ** A cascade never deletes what a root reaches *)

Lemma anchored_reachable h : wf_heap h → anchored (reachable_from_roots h) h.
Proof.
  intros Hwf s Hs.
  split; [by apply reachable_from_roots_alive; [apply wf_heap_out_closed|]|].
  destruct Hs as (r & Hr & Hroot & Hreach).
  apply rtc_inv_r in Hreach as [->|(p & Hrp & Hps)]; [by left|].
  right. exists p. split; [by exists r|].
  assert (object_exists h p = true) as Hp.
  { apply (reaches_alive h r); [by apply wf_heap_out_closed|done|done]. }
  by apply (proj1 (wf_heap_alt h) Hwf p Hp).
Qed.

Lemma anchored_not_orphan S h k :
  anchored S h → is_root_in h k = false → incoming_of h k = ∅ → ¬ S k.
Proof.
  intros HS Hroot Hin Hk. destruct (HS k Hk) as (_ & [Hr|(p & _ & Hp)]).
  - congruence.
  - set_solver.
Qed.

Lemma anchored_delete_object S step cur h :
  wf_heap h → is_root_in h cur = false → incoming_of h cur = ∅ →
  anchored S h → anchored S (delete_object step cur h).
Proof.
  intros Hwf Hroot Hcur HS s Hs.
  pose proof (anchored_not_orphan S h cur HS Hroot Hcur) as Hnot.
  destruct (HS s Hs) as (Hex & Hor).
  assert (s ≠ cur) as Hne by (by intros ->).
  rewrite delete_object_exists, decide_False by done. split; [done|].
  rewrite delete_object_is_root_in.
  destruct Hor as [?|(p & Hp & Hin)]; [by left|right].
  exists p. split; [done|].
  destruct (delete_object_edges step cur h s Hwf Hex Hne) as [_ ->].
  assert (p ≠ cur) by (by intros ->). set_solver.
Qed.

Lemma cascade_loop_anchored S step fuel :
  ∀ queue processed h freed deleted r,
    wf_heap h →
    (∀ q, q ∈ queue → incoming_of h q = ∅) →
    anchored S h →
    CascadeDeletionGC.cascade_loop fuel step queue processed h freed deleted
      = Some r →
    anchored S r.1.1.
Proof.
  induction fuel as [|fuel IH];
    intros queue processed h freed deleted r Hwf Hq HS Hrun.
  - destruct queue; simpl in Hrun; [|done]. by injection Hrun as <-.
  - destruct queue as [|cur queue].
    { simpl in Hrun. by injection Hrun as <-. }
    cbn [CascadeDeletionGC.cascade_loop] in Hrun.
    assert (∀ q, q ∈ queue → incoming_of h q = ∅) as Hq'
      by (intros q ?; apply Hq; by right).
    case_bool_decide; [by eapply IH|].
    destruct (object_exists h cur) eqn:Hex; [|by eapply IH].
    destruct (h !! cur) as [obj|] eqn:Hobj; [|by eapply IH].
    destruct (HeapObject.is_root obj) eqn:Hroot; [by eapply IH|].
    destruct (cascade_iteration step cur h queue Hwf Hex) as [Hh3 Hqq].
    cbn zeta in Hh3, Hqq.
    destruct (foldl _ _ _) as [h2 q2]. cbn [fst snd] in *. rewrite Hh3 in Hrun.
    assert (incoming_of h cur = ∅) as Hcur by (apply Hq; left).
    apply IH in Hrun; [done| | |].
    + by apply wf_heap_delete_object.
    + intros q Hin. apply Hqq in Hin as [Hin|(_ & _ & Hs)].
      * pose proof (delete_object_incoming_subseteq step cur h q).
        specialize (Hq' q Hin). set_solver.
      * by apply should_be_deleted_spec in Hs as (_ & _ & ?).
    + apply anchored_delete_object; try done.
      unfold is_root_in. by rewrite Hobj.
Qed.

Lemma cascade_delete_anchored S object_id st r :
  wf_heap (heap st) → incoming_of (heap st) object_id = ∅ →
  anchored S (heap st) →
  CascadeDeletionGC.cascade_delete object_id st = Some r →
  anchored S (heap r.2).
Proof.
  intros Hwf Hin HS. unfold CascadeDeletionGC.cascade_delete.
  destruct (object_exists (heap st) object_id); [|by intros [= <-]].
  destruct (CascadeDeletionGC.cascade_loop _ _ _ _ _ _ _) as [[[h fr] del]|] eqn:Hloop;
    [|done].
  intros [= <-]. cbn.
  refine (cascade_loop_anchored S _ _ [object_id] ∅ (heap st) 0 0 (h, fr, del)
            Hwf _ HS Hloop).
  intros q Hq. apply list_elem_of_singleton in Hq as ->. done.
Qed.

Lemma cascade_orphans_anchored S ids :
  ∀ total st r,
    wf_heap (heap st) → (∀ q, q ∈ ids → incoming_of (heap st) q = ∅) →
    anchored S (heap st) →
    CascadeDeletionGC.cascade_orphans ids total st = Some r →
    anchored S (heap r.2).
Proof.
  induction ids as [|id ids IH]; intros total st r Hwf Hq HS Hrun.
  - simpl in Hrun. by injection Hrun as <-.
  - cbn [CascadeDeletionGC.cascade_orphans] in Hrun.
    assert (∀ q, q ∈ ids → incoming_of (heap st) q = ∅) as Hq'
      by (intros q ?; apply Hq; by right).
    destruct (object_exists (heap st) id); [|by eapply IH].
    destruct (CascadeDeletionGC.cascade_delete id st) as [[freed st1]|] eqn:Hdel; [|done].
    destruct (cascade_delete_wf _ _ _ Hwf Hdel) as (Hwf1 & _).
    assert (incoming_of (heap st) id = ∅) as Hid by (apply Hq; left).
    pose proof (cascade_delete_anchored S id st _ Hwf Hid HS Hdel) as HS1.
    destruct (cascade_delete_keeps ∅ id st (freed, st1) Hwf Hid) as [_ Hsub];
      [by intros s Hs0; apply elem_of_empty in Hs0|exact Hdel|].
    cbn [snd] in *.
    eapply IH; [exact Hwf1| |exact HS1|exact Hrun].
    intros q Hin. specialize (Hq' q Hin). specialize (Hsub q). set_solver.
Qed.

Lemma cd_collect_anchored S order st r :
  wf_heap (heap st) → anchored S (heap st) →
  CascadeDeletionGC.collect order st = Some r →
  anchored S (heap r.2).
Proof.
  intros Hwf HS. unfold CascadeDeletionGC.collect.
  destruct (CascadeDeletionGC.cascade_orphans _ _ _) as [[total st1]|] eqn:Hrun; [|done].
  intros [= <-]. cbn.
  refine (cascade_orphans_anchored S _ 0 st (total, st1) Hwf _ HS Hrun).
  intros q Hq. apply elem_of_orphans in Hq as [_ Hq].
  by apply should_be_deleted_spec in Hq as (_ & _ & ?).
Qed.

(** X21: the cascade collector frees no more than Mark-Sweep.  On
    one and the same heap with symmetric edges both [collect]s return;
    every object that an alive root reaches along outgoing edges is alive
    after [CascadeDeletionGC::collect], and so is every object that is
    alive after [MarkSweepGC::collect]. *)
Theorem cd_collect_never_frees_what_a_root_reaches order ro so st :
  wf_heap (heap st) → enumerates ro (heap st) → enumerates so (heap st) →
  ∃ freed st' freed_ms st_ms,
    CascadeDeletionGC.collect order st = Some (freed, st') ∧
    MarkSweepGC.collect ro so st = Some (freed_ms, st_ms) ∧
    (∀ k, reachable_from_roots (heap st) k → object_exists (heap st') k = true) ∧
    (∀ k, object_exists (heap st_ms) k = true → object_exists (heap st') k = true).
Proof.
  intros Hwf Hro Hso.
  destruct (cd_collect_returns order st Hwf) as [[freed st'] Hrun].
  destruct (ms_collect_result ro so st Hwf Hro Hso)
    as (freed_ms & st_ms & Hms & _ & _ & _ & _ & Hex & _).
  exists freed, st', freed_ms, st_ms. split; [done|]. split; [done|].
  pose proof (cd_collect_anchored _ order st _ Hwf (anchored_reachable _ Hwf) Hrun)
    as HS. cbn [snd] in HS.
  assert (∀ k, reachable_from_roots (heap st) k → object_exists (heap st') k = true)
    as Hkeep by (intros k Hk; by destruct (HS k Hk)).
  split; [done|]. intros k Hk. apply Hkeep. by apply Hex.
Qed.

Lemma cd_collect_never_frees_what_a_root_reaches_witness :
  ∃ freed st' freed_ms st_ms,
    CascadeDeletionGC.collect [0; 1; 2; 3; 4] cd_live_and_garbage
      = Some (freed, st') ∧
    MarkSweepGC.collect [0; 1; 2; 3; 4] [4; 3; 2; 1; 0] cd_live_and_garbage
      = Some (freed_ms, st_ms) ∧
    (∀ k, reachable_from_roots (heap cd_live_and_garbage) k →
          object_exists (heap st') k = true) ∧
    (∀ k, object_exists (heap st_ms) k = true → object_exists (heap st') k = true).
Proof.
  apply (cd_collect_never_frees_what_a_root_reaches [0; 1; 2; 3; 4]
           [0; 1; 2; 3; 4] [4; 3; 2; 1; 0] cd_live_and_garbage).
  - apply (bool_decide_unpack _). vm_compute. exact I.
  - apply (bool_decide_unpack _). vm_compute. exact I.
  - apply (bool_decide_unpack _). vm_compute. exact I.
Defined.

(** X22: the reactive path spares what is still reachable.  On a
    heap with symmetric edges [CascadeDeletionGC::remove_reference]
    returns; when it returns [false] the state is unchanged, and when it
    returns [true] every object that an alive root still reaches once the
    edge is gone is alive afterwards, whatever the cascade deleted. *)
Theorem cd_remove_reference_never_frees_what_a_root_reaches from_id to_id st :
  wf_heap (heap st) →
  ∃ ok st',
    CascadeDeletionGC.remove_reference from_id to_id st = Some (ok, st') ∧
    (ok = false → st' = st) ∧
    (ok = true →
     ∀ k, reachable_from_roots (detach_edge from_id to_id (heap st)) k →
          object_exists (heap st') k = true).
Proof.
  intros Hwf. unfold CascadeDeletionGC.remove_reference.
  destruct (object_exists (heap st) from_id) eqn:Hf; cbn [negb];
    [|by exists false, st].
  destruct (object_exists (heap st) to_id) eqn:Ht; cbn [negb];
    [|by exists false, st].
  case_bool_decide as Hedge; cbn [negb]; [|by exists false, st].
  pose proof (wf_heap_detach_edge from_id to_id (heap st) Hwf Hf Ht) as Hwf1.
  pose proof (anchored_reachable _ Hwf1) as HS.
  cbn zeta. cbn [heap set_heap].
  set (h1 := detach_edge from_id to_id (heap st)) in *.
  destruct (CascadeDeletionGC.should_be_deleted h1 to_id) eqn:Hs.
  - destruct (cascade_delete_spec h1 to_id (set_heap h1 st) Hwf1
                (heap_evolves_refl _ _)) as ([fr st2] & Hrun & _).
    rewrite Hrun. exists true, st2. split; [done|]. split; [done|].
    intros _ k Hk.
    apply should_be_deleted_spec in Hs as (_ & _ & Hin).
    pose proof (cascade_delete_anchored _ to_id (set_heap h1 st) _ Hwf1 Hin HS Hrun)
      as HS2.
    by destruct (HS2 k Hk).
  - exists true, (set_heap h1 st). split; [done|]. split; [done|].
    intros _ k Hk. by destruct (HS k Hk).
Qed.

Lemma cd_remove_reference_never_frees_what_a_root_reaches_witness :
  ∃ ok st',
    CascadeDeletionGC.remove_reference 0 1 cd_live_and_garbage = Some (ok, st') ∧
    (ok = false → st' = cd_live_and_garbage) ∧
    (ok = true →
     ∀ k, reachable_from_roots (detach_edge 0 1 (heap cd_live_and_garbage)) k →
          object_exists (heap st') k = true).
Proof.
  apply (cd_remove_reference_never_frees_what_a_root_reaches 0 1 cd_live_and_garbage).
  apply (bool_decide_unpack _). vm_compute. exact I.
Defined.

(** ** The steps recorded in the objects *)

Lemma gc_steps_shape P st st' :
  gc_step_shape P st st' → current_step st ≤ current_step st' →
  gc_steps st → gc_steps st'.
Proof.
  intros (st1 & Hq & Hcase) Hle Hsteps.
  assert (current_step st1 = current_step st') as Hc1.
  { by destruct Hcase as [->|(size & _ & _ & _ & _ & ->)]. }
  assert (gc_steps st1) as Hsteps1.
  { destruct Hq as (Hkeep & _ & _ & _ & Hstep). intros k o1 Ho1.
    assert (is_Some (heap st !! k)) as [o Ho].
    { rewrite <- elem_of_dom, <- (keeps_dom _ _ _ Hkeep), elem_of_dom. by eexists. }
    destruct (keeps_lookup _ _ _ _ _ Hkeep Ho) as (o' & Ho' & Hb).
    rewrite Ho1 in Ho'. injection Ho' as <-.
    apply birth_fields in Hb as (_ & _ & _ & Hal).
    destruct (Hstep k o Ho) as (o' & Ho' & Hobj).
    rewrite Ho1 in Ho'. injection Ho' as <-.
    destruct (Hsteps k o Ho) as [Ha Hd]. rewrite Hal, Hc1.
    split; [lia|]. intros Hdead.
    destruct Hobj as [[Halive Hcs]|(_ & _ & _ & Hcs)].
    - rewrite Hcs. rewrite Halive in Hdead. specialize (Hd Hdead). lia.
    - rewrite Hcs, Hc1. lia. }
  destruct Hcase as [->|(size & _ & _ & _ & _ & ->)]; [done|].
  intros k o. cbn. destruct (decide (k = next_object_id st1)) as [->|Hne].
  - rewrite lookup_insert_eq. intros [= <-]. cbn. split; [lia|done].
  - rewrite lookup_insert_ne by done. apply Hsteps1.
Qed.

Lemma ms_step_current_step op st st' :
  gc_inv st → ms_step op st = Some st' →
  current_step st' = match op with
                     | MsSetCurrentStep n => n
                     | _ => current_step st
                     end.
Proof.
  intros Hinv Hstep.
  destruct op as [ro so size|f t|f t|x|x|ro so|n]; simpl in Hstep.
  - unfold MarkSweepGC.allocate in Hstep.
    destruct (_ || _); [by injection Hstep as <-|].
    destruct (has_enough_memory st size); [by injection Hstep as <-|].
    destruct (ms_collect_ok ro so st Hinv) as ([freed st1] & Hrun & _ & Hc & _).
    rewrite Hrun in Hstep. cbn [snd] in *.
    destruct (has_enough_memory st1 size); by injection Hstep as <-.
  - injection Hstep as <-. unfold MarkSweepGC.add_reference, gc_add_reference.
    destruct (negb _); [done|]. destruct (negb _); [done|].
    destruct (heap st !! f); [|done]. by case_bool_decide.
  - injection Hstep as <-. unfold MarkSweepGC.remove_reference.
    destruct (negb _); [done|]. destruct (negb _); [done|]. by destruct (negb _).
  - injection Hstep as <-. unfold MarkSweepGC.make_root, gc_set_root.
    by destruct (object_exists _ _).
  - injection Hstep as <-. unfold MarkSweepGC.remove_root, gc_set_root.
    by destruct (object_exists _ _).
  - destruct (ms_collect_ok ro so st Hinv) as ([freed st1] & Hrun & _ & Hc & _).
    rewrite Hrun in Hstep. by injection Hstep as <-.
  - by injection Hstep as <-.
Qed.

Lemma cd_step_current_step op st st' :
  cd_step op st = Some st' →
  current_step st' = match op with
                     | CdSetCurrentStep n => n
                     | _ => current_step st
                     end.
Proof.
  intros Hstep.
  destruct op as [order size|f t|f t|x|x|order|n]; simpl in Hstep.
  - unfold CascadeDeletionGC.allocate in Hstep.
    destruct (_ || _); [by injection Hstep as <-|].
    destruct (has_enough_memory st size); [by injection Hstep as <-|].
    destruct (CascadeDeletionGC.collect order st) as [[freed st1]|] eqn:Hrun; [|done].
    apply cd_collect_account in Hrun as (_ & _ & _ & _ & _ & _ & _ & Hc).
    cbn [snd] in *.
    destruct (has_enough_memory st1 size); by injection Hstep as <-.
  - injection Hstep as <-. unfold CascadeDeletionGC.add_reference, gc_add_reference.
    destruct (negb _); [done|]. destruct (negb _); [done|].
    destruct (heap st !! f); [|done]. by case_bool_decide.
  - destruct (CascadeDeletionGC.remove_reference f t st) as [[ok st1]|] eqn:Hrun;
      [|done].
    apply cd_remove_reference_account in Hrun as (_ & _ & _ & _ & _ & _ & Hc).
    by injection Hstep as <-.
  - injection Hstep as <-. unfold CascadeDeletionGC.make_root, gc_set_root.
    by destruct (object_exists _ _).
  - injection Hstep as <-. unfold CascadeDeletionGC.remove_root, gc_set_root.
    by destruct (object_exists _ _).
  - destruct (CascadeDeletionGC.collect order st) as [[freed st1]|] eqn:Hrun; [|done].
    apply cd_collect_account in Hrun as (_ & _ & _ & _ & _ & _ & _ & Hc).
    by injection Hstep as <-.
  - by injection Hstep as <-.
Qed.

Lemma ms_run_steps ops : ∀ st st',
  gc_inv st → gc_steps st → ms_steps_ascend (current_step st) ops →
  run_ops ms_step ops st = Some st' →
  gc_steps st' ∧ current_step st ≤ current_step st'.
Proof.
  induction ops as [|op ops IH]; intros st st' Hinv Hsteps Hasc Hrun;
    simpl in Hrun.
  - by injection Hrun as <-.
  - destruct (ms_step op st) as [st1|] eqn:Hstep; [|done].
    pose proof (ms_step_current_step op st st1 Hinv Hstep) as Hc.
    assert (current_step st ≤ current_step st1 ∧
            ms_steps_ascend (current_step st1) ops) as [Hle Hasc1].
    { rewrite Hc. destruct op; cbn in Hasc; try done; split; try done; lia. }
    destruct (IH st1 st') as [Hs' Hle']; try done.
    + destruct (ms_step_spec op st Hinv) as (st1' & Hstep' & Hok & _).
      congruence.
    + apply (gc_steps_shape (λ _, True) st); [|done|done].
      by apply (ms_step_shape _ op).
    + split; [done|lia].
Qed.

Lemma cd_run_steps ops : ∀ st st',
  gc_inv st → gc_steps st → cd_steps_ascend (current_step st) ops →
  run_ops cd_step ops st = Some st' →
  gc_steps st' ∧ current_step st ≤ current_step st'.
Proof.
  induction ops as [|op ops IH]; intros st st' Hinv Hsteps Hasc Hrun;
    simpl in Hrun.
  - by injection Hrun as <-.
  - destruct (cd_step op st) as [st1|] eqn:Hstep; [|done].
    pose proof (cd_step_current_step op st st1 Hstep) as Hc.
    assert (current_step st ≤ current_step st1 ∧
            cd_steps_ascend (current_step st1) ops) as [Hle Hasc1].
    { rewrite Hc. destruct op; cbn in Hasc; try done; split; try done; lia. }
    destruct (IH st1 st') as [Hs' Hle']; try done.
    + destruct (cd_step_spec op st Hinv) as (st1' & Hstep' & Hok & _).
      congruence.
    + apply (gc_steps_shape (λ _, True) st); [|done|done].
      by apply (cd_step_shape _ op).
    + split; [done|lia].
Qed.

Lemma gc_steps_init m t : gc_steps (gc_init m t).
Proof. intros k o. cbn. by rewrite lookup_empty. Qed.

(** X23: the steps recorded in the objects of the Mark-Sweep
    collector are consistent.  For a driver that starts a fresh collector
    and never sets the step back (the simulator sets it to the index of
    each operation), the current step is not negative, no stored object has
    an [allocation_step] after the current step, and a dead object has
    [allocation_step ≤ collection_step ≤ current_step]. *)
Theorem ms_steps_are_consistent m t ops st :
  ms_steps_ascend 0 ops → run_ops ms_step ops (gc_init m t) = Some st →
  0 ≤ current_step st ∧
  ∀ k o, heap st !! k = Some o →
    HeapObject.allocation_step o ≤ current_step st ∧
    (HeapObject.is_alive o = false →
     HeapObject.allocation_step o ≤ HeapObject.collection_step o
     ∧ HeapObject.collection_step o ≤ current_step st).
Proof.
  intros Hasc Hrun.
  destruct (ms_run_steps ops _ _ (gc_inv_init m t) (gc_steps_init m t) Hasc Hrun)
    as [Hsteps Hle].
  split; [exact Hle|exact Hsteps].
Qed.

Lemma ms_steps_are_consistent_witness :
  0 ≤ current_step ms_stepped ∧
  ∀ k o, heap ms_stepped !! k = Some o →
    HeapObject.allocation_step o ≤ current_step ms_stepped ∧
    (HeapObject.is_alive o = false →
     HeapObject.allocation_step o ≤ HeapObject.collection_step o
     ∧ HeapObject.collection_step o ≤ current_step ms_stepped).
Proof.
  apply (ms_steps_are_consistent 1000 800 ms_stepped_ops ms_stepped).
  - apply (bool_decide_unpack _). vm_compute. exact I.
  - vm_compute. reflexivity.
Defined.

(** X24: the steps recorded in the objects of the cascade collector
    are consistent.  For a driver that starts a fresh collector and never
    sets the step back, the current step is not negative, no stored object
    has an [allocation_step] after the current step, and a dead object has
    [allocation_step ≤ collection_step ≤ current_step], whether the batch
    or the reactive path deleted it. *)
Theorem cd_steps_are_consistent m t ops st :
  cd_steps_ascend 0 ops → run_ops cd_step ops (gc_init m t) = Some st →
  0 ≤ current_step st ∧
  ∀ k o, heap st !! k = Some o →
    HeapObject.allocation_step o ≤ current_step st ∧
    (HeapObject.is_alive o = false →
     HeapObject.allocation_step o ≤ HeapObject.collection_step o
     ∧ HeapObject.collection_step o ≤ current_step st).
Proof.
  intros Hasc Hrun.
  destruct (cd_run_steps ops _ _ (gc_inv_init m t) (gc_steps_init m t) Hasc Hrun)
    as [Hsteps Hle].
  split; [exact Hle|exact Hsteps].
Qed.

Lemma cd_steps_are_consistent_witness :
  0 ≤ current_step cd_stepped ∧
  ∀ k o, heap cd_stepped !! k = Some o →
    HeapObject.allocation_step o ≤ current_step cd_stepped ∧
    (HeapObject.is_alive o = false →
     HeapObject.allocation_step o ≤ HeapObject.collection_step o
     ∧ HeapObject.collection_step o ≤ current_step cd_stepped).
Proof.
  apply (cd_steps_are_consistent 1000 800 cd_stepped_ops cd_stepped).
  - apply (bool_decide_unpack _). vm_compute. exact I.
  - vm_compute. reflexivity.
Defined.

